(** * Hash maps of [ds/hash]: a shallow embedding and its verification

    The development follows the sources under [src/ds/hash/src]:

    - [sip.hpp]        the keyed hash [Sip13Hasher]            (module [Sip])
    - [schashmap.hpp]  separate chaining, [ScHashMap]           (module [Sc])
    - [lphashmap.hpp]  linear probing with tombstones, [LpHashMap]
                                                                (module [Lp])
    - [ckhashmap.hpp]  cuckoo hashing, [CkHashMap]              (module [Ck])

    Conventions of the embedding.

    - [uint64_t] and [size_t] are 64-bit words: values of [Z] in
      [0, 2^64), every arithmetic operation of the source followed by its
      wrap-around ([U64.wrap]).
    - A [std::vector] is a [list]; [v[i]] is the partial lookup [v !! i].
      Reading outside the vector and [x % 0] are undefined behaviour in C++:
      the embedding gives them the outcome [Undefined].
    - [std::vector<T>(n)] allocates [n] value-initialised slots and throws
      [std::length_error] above [max_size()], which no implementation puts
      over [PTRDIFF_MAX] = 2^63 - 1 ([U64.vector_max_size]).  Exhausted
      memory ([std::bad_alloc]) is not modelled, so that an allocation
      which succeeds here may throw on a machine; the properties of the
      maps are stated of the calls that return and, where a call throws,
      of whatever it throws.
    - The load-factor tests of the maps are comparisons of [double]s,
      [static_cast<double>(a) / c > f].  For counters below 2^49 the
      quotient is far enough from [f] (by more than an ulp) whenever the
      rationals differ, and it rounds to the very [double] the literal [f]
      denotes when they agree, so that the test is the exact comparison
      [10 * a > 7 * c] (for 0.7; likewise 0.75 and 0.5).  With [c = 0] the
      quotient is [+inf] for [a > 0] and [NaN] for [a = 0], and the exact
      comparison agrees again.  The embedding uses the exact comparison. *)

From Stdlib Require Import ZArith Lia Strings.Byte String.
From stdpp Require Import base list.

Local Open Scope Z_scope.

(** ** 64-bit words *)

Module U64.

Definition modulus : Z := 2 ^ 64.

Definition wrap (x : Z) : Z := x mod modulus.

Definition add (x y : Z) : Z := wrap (x + y).
Definition sub (x y : Z) : Z := wrap (x - y).
Definition mul (x y : Z) : Z := wrap (x * y).

(** [x << b] and [x >> b] on a 64-bit word, [0 <= b < 64]. *)
Definition shl (x b : Z) : Z := wrap (Z.shiftl x b).
Definition shr (x b : Z) : Z := Z.shiftr x b.

(** The largest element count a [std::vector] accepts. *)
Definition vector_max_size : Z := 2 ^ 63 - 1.

End U64.

(** ** [sip.hpp]: the keyed hash *)

Module Sip.

(** The four words [v0 .. v3] that [hash] keeps in local variables and
    hands to [sipround] by pointer. *)
Record state : Type := State { v0 : Z; v1 : Z; v2 : Z; v3 : Z }.

(** [rotl(x, b) = (x << b) | (x >> (64 - b))]. *)
Definition rotl (x b : Z) : Z :=
  Z.lor (U64.shl x b) (U64.shr x (64 - b)).

(** [sipround], statement by statement. *)
Definition sipround (s : state) : state :=
  let '(State a b c d) := s in
  let a := U64.add a b in
  let b := rotl b 13 in
  let b := Z.lxor b a in
  let a := rotl a 32 in
  let c := U64.add c d in
  let d := rotl d 16 in
  let d := Z.lxor d c in
  let a := U64.add a d in
  let d := rotl d 21 in
  let d := Z.lxor d a in
  let c := U64.add c b in
  let b := rotl b 17 in
  let b := Z.lxor b c in
  let c := rotl c 32 in
  State a b c d.

Definition byte_val (b : byte) : Z := Z.of_N (Byte.to_N b).

(** [(uint64_t) data[i]]; the loops below only read inside the span. *)
Definition byte_at (data : list byte) (i : Z) : Z :=
  match data !! Z.to_nat i with
  | Some b => byte_val b
  | None => 0
  end.

(** [for (i = 0; i < 8; i++) m |= ((uint64_t)p[i]) << (i * 8);] *)
Definition load_word (data : list byte) (p : Z) : Z :=
  fold_left
    (fun m i => Z.lor m (U64.shl (byte_at data (p + i)) (i * 8)))
    [0; 1; 2; 3; 4; 5; 6; 7] 0.

(** [v3 ^= m; sipround(...); v0 ^= m;] *)
Definition absorb_word (s : state) (m : Z) : state :=
  let s := State (v0 s) (v1 s) (v2 s) (Z.lxor (v3 s) m) in
  let s := sipround s in
  State (Z.lxor (v0 s) m) (v1 s) (v2 s) (v3 s).

(** [for (p = data; p < chunks_end; p += 8) { ... }], pointers as offsets
    into [data]; [fuel] bounds the number of iterations. *)
Fixpoint chunk_loop (fuel : nat) (data : list byte)
    (chunks_end p : Z) (s : state) : state :=
  match fuel with
  | O => s
  | S fuel' =>
      if p <? chunks_end
      then chunk_loop fuel' data chunks_end (p + 8)
             (absorb_word s (load_word data p))
      else s
  end.

(** One label of the [switch (len & 7)]: with the fall-through, the
    statement of [case j] runs exactly when [len & 7 >= j]. *)
Definition tail_case (data : list byte) (tail_start sel j sh b : Z) : Z :=
  if j <=? sel
  then Z.lor b (U64.shl (byte_at data (tail_start + (j - 1))) sh)
  else b.

(** [b = ((uint64_t)len) << 56] and the [switch]. *)
Definition tail_word (data : list byte) (len : Z) : Z :=
  let b := U64.shl len 56 in
  let tail_start := Z.land len (Z.lnot 7) in
  let sel := Z.land len 7 in
  let b := tail_case data tail_start sel 7 48 b in
  let b := tail_case data tail_start sel 6 40 b in
  let b := tail_case data tail_start sel 5 32 b in
  let b := tail_case data tail_start sel 4 24 b in
  let b := tail_case data tail_start sel 3 16 b in
  let b := tail_case data tail_start sel 2 8 b in
  let b := tail_case data tail_start sel 1 0 b in
  b.

(** [Sip13Hasher::hash] on the byte view [bytes] of the key. *)
Definition hash_bytes_with (k0 k1 : Z) (bytes : list byte) : Z :=
  let len := Z.of_nat (length bytes) in
  let s := State (Z.lxor 0x736f6d6570736575 k0)
                 (Z.lxor 0x646f72616e646f6d k1)
                 (Z.lxor 0x6c7967656e657261 k0)
                 (Z.lxor 0x7465646279746573 k1) in
  let chunks_end := len - len mod 8 in
  let s := chunk_loop (length bytes) bytes chunks_end 0 s in
  let b := tail_word bytes len in
  let s := absorb_word s b in
  let s := State (v0 s) (v1 s) (Z.lxor (v2 s) 0xff) (v3 s) in
  let s := sipround s in
  let s := sipround s in
  let s := sipround s in
  Z.lxor (Z.lxor (Z.lxor (v0 s) (v1 s)) (v2 s)) (v3 s).

(** The default seeds of the constructor. *)
Definition default_k0 : Z := 0x0706050403020100.
Definition default_k1 : Z := 0x0f0e0d0c0b0a0908.

End Sip.

(** ** SipHash-1-3 as the specification words it

    A second definition, written from the description of the algorithm and
    not from [sip.hpp]: words are numbers, a rotation is a multiplication
    and a division, the input is cut into little-endian words. *)

Module SipSpec.

(** Rotation of a 64-bit word to the left by [b] bits. *)
Definition rotate_left (x b : Z) : Z :=
  (x * 2 ^ b) mod 2 ^ 64 + x / 2 ^ (64 - b).

Definition plus (x y : Z) : Z := (x + y) mod 2 ^ 64.

(** The mixing round: four additions, six rotations by 13, 32, 16, 21,
    17, 32, four XORs, in the canonical order. *)
Definition sipround (s : Sip.state) : Sip.state :=
  let '(Sip.State v0 v1 v2 v3) := s in
  let v0 := plus v0 v1 in
  let v1 := Z.lxor (rotate_left v1 13) v0 in
  let v0 := rotate_left v0 32 in
  let v2 := plus v2 v3 in
  let v3 := Z.lxor (rotate_left v3 16) v2 in
  let v0 := plus v0 v3 in
  let v3 := Z.lxor (rotate_left v3 21) v0 in
  let v2 := plus v2 v1 in
  let v1 := Z.lxor (rotate_left v1 17) v2 in
  let v2 := rotate_left v2 32 in
  Sip.State v0 v1 v2 v3.

(** The number a byte string denotes, least significant byte first. *)
Fixpoint le_word (bs : list byte) : Z :=
  match bs with
  | [] => 0
  | b :: rest => Sip.byte_val b + 256 * le_word rest
  end.

(** One word of input: XOR into the fourth state word, one round, XOR
    into the first state word. *)
Definition compress (s : Sip.state) (m : Z) : Sip.state :=
  let s := sipround
             (Sip.State (Sip.v0 s) (Sip.v1 s) (Sip.v2 s)
                        (Z.lxor (Sip.v3 s) m)) in
  Sip.State (Z.lxor (Sip.v0 s) m) (Sip.v1 s) (Sip.v2 s) (Sip.v3 s).

(** All full 8-byte words of the input, and the 0-7 bytes left over. *)
Fixpoint absorb (bs : list byte) (s : Sip.state) : Sip.state * list byte :=
  match bs with
  | b0 :: b1 :: b2 :: b3 :: b4 :: b5 :: b6 :: b7 :: rest =>
      absorb rest (compress s (le_word [b0; b1; b2; b3; b4; b5; b6; b7]))
  | _ => (s, bs)
  end.

Definition initial (k0 k1 : Z) : Sip.state :=
  Sip.State (Z.lxor 0x736f6d6570736575 k0) (Z.lxor 0x646f72616e646f6d k1)
            (Z.lxor 0x6c7967656e657261 k0) (Z.lxor 0x7465646279746573 k1).

(** The padding word: the trailing bytes at their little-endian
    positions, the length modulo 256 in the most significant byte. *)
Definition padding (len : Z) (trailing : list byte) : Z :=
  le_word trailing + (len mod 256) * 2 ^ 56.

Definition finalize (s : Sip.state) : Z :=
  let s := Sip.State (Sip.v0 s) (Sip.v1 s) (Z.lxor (Sip.v2 s) 0xff)
                     (Sip.v3 s) in
  let s := sipround (sipround (sipround s)) in
  Z.lxor (Z.lxor (Z.lxor (Sip.v0 s) (Sip.v1 s)) (Sip.v2 s)) (Sip.v3 s).

Definition siphash13 (k0 k1 : Z) (bytes : list byte) : Z :=
  let '(s, trailing) := absorb bytes (initial k0 k1) in
  finalize (compress s (padding (Z.of_nat (length bytes)) trailing)).

End SipSpec.

(** The four state words are 64-bit words. *)
Definition sip_in_range (s : Sip.state) : Prop :=
  (0 <= Sip.v0 s < 2 ^ 64 /\ 0 <= Sip.v1 s < 2 ^ 64) /\
  (0 <= Sip.v2 s < 2 ^ 64 /\ 0 <= Sip.v3 s < 2 ^ 64).

(** ** Results of member functions

    A [const] member function yields a [result]: the value it returns, the
    exception it throws, or [Undefined] where C++ gives the program no
    meaning (a read outside a vector, a remainder by zero).  A member
    function that changes the map yields an [outcome]: besides the value or
    the exception, the map as the call leaves it, for the caller may catch
    the exception and go on with the object. *)

Inductive exn : Type :=
| runtime_error (what : string)
| out_of_range (what : string)
| length_error.

Inductive result (A : Type) : Type :=
| Value (a : A)
| Raise (e : exn)
| Undefined.

Arguments Value {A} a.
Arguments Raise {A} e.
Arguments Undefined {A}.

Inductive outcome (M A : Type) : Type :=
| Returns (a : A) (m : M)
| Throws (e : exn) (m : M)
| Undefined_behaviour.

Arguments Returns {M A} a m.
Arguments Throws {M A} e m.
Arguments Undefined_behaviour {M A}.

Definition result_bind {A B : Type} (c : result A) (k : A -> result B)
    : result B :=
  match c with
  | Value a => k a
  | Raise e => Raise e
  | Undefined => Undefined
  end.

Definition outcome_bind {M A B : Type} (c : outcome M A)
    (k : A -> M -> outcome M B) : outcome M B :=
  match c with
  | Returns a m => k a m
  | Throws e m => Throws e m
  | Undefined_behaviour => Undefined_behaviour
  end.

(** A [const] call made inside a member function on the map [m]. *)
Definition on {M A : Type} (m : M) (c : result A) : outcome M A :=
  match c with
  | Value a => Returns a m
  | Raise e => Throws e m
  | Undefined => Undefined_behaviour
  end.

(** [ensures c Q E]: if the call returns, [Q] holds of the value and the
    map; if it throws, [E] holds of the exception and the map. *)
Definition ensures {M A : Type} (c : outcome M A)
    (Q : A -> M -> Prop) (E : exn -> M -> Prop) : Prop :=
  match c with
  | Returns a m => Q a m
  | Throws e m => E e m
  | Undefined_behaviour => True
  end.

Notation "x <- c ;; k" := (result_bind c (fun x => k))
  (at level 100, c at next level, right associativity).

Notation "'call' m <- c ;; k" := (outcome_bind c (fun _ m => k))
  (at level 100, m name, c at next level, right associativity).

Notation "'call' ( x , m ) <- c ;; k" := (outcome_bind c (fun x m => k))
  (at level 100, x name, m name, c at next level, right associativity).

(** [v[i]] on a vector. *)
Definition vector_at {A : Type} (v : list A) (i : Z) : result A :=
  if i <? 0 then Undefined
  else match v !! Z.to_nat i with
       | Some a => Value a
       | None => Undefined
       end.

(** [std::vector<A>(n)]: [n] copies of the value-initialised element, or
    [std::length_error].  The bound is the one that no element type
    exceeds; [max_size()] of a given element type is smaller, and below it
    an allocation may still throw [std::bad_alloc], which is not among the
    outcomes: the embedding follows the runs in which memory suffices. *)
Definition vector_new {A : Type} (n : Z) (a : A) : option (list A) :=
  if n <=? U64.vector_max_size then Some (replicate (Z.to_nat n) a) else None.

(** [a % b] on [size_t]. *)
Definition u64_rem (a b : Z) : result Z :=
  if b =? 0 then Undefined else Value (a mod b).

(** ** [schashmap.hpp]: separate chaining *)

Module Sc.
Section Definitions.

Context {K V : Type} `{EqDecision K}.

(** [hasher.hash(key)]: the hasher is built once by [hasher()] and never
    replaced. *)
Variable hash : K -> Z.

(** [V{}] of [operator[]]. *)
Variable default_value : V.

Record Entry : Type := mkEntry { key : K; value : V }.

(** [using Bucket = std::vector<Entry>] *)
Local Abbreviation Bucket := (list Entry).

Record map : Type := Map {
  buckets : list Bucket;
  size_count : Z;
  capacity : Z
}.

Definition INITIAL_CAPACITY : Z := 16.

(** [x / capacity > MAX_LOAD_FACTOR] for a counter [x]. *)
Definition exceeds_max_load (x c : Z) : bool := 3 * c <? 4 * x.

Definition get_bucket_index (m : map) (k : K) : result Z :=
  u64_rem (hash k) (capacity m).

(** The scan [for (auto& entry : bucket) if (entry.key == key)]: the
    position of the first entry of the key. *)
Fixpoint bucket_find (k : K) (bucket : Bucket) : option nat :=
  match bucket with
  | [] => None
  | entry :: rest =>
      if bool_decide (key entry = k) then Some O
      else S <$> bucket_find k rest
  end.

Definition set_buckets (m : map) (b : list Bucket) : map :=
  Map b (size_count m) (capacity m).

(** [buckets[index][j].value = v] *)
Definition set_value (m : map) (index : Z) (j : nat) (v : V) : map :=
  set_buckets m
    (alter (alter (fun e => mkEntry (key e) v) j) (Z.to_nat index)
           (buckets m)).

Definition inner_insert (k : K) (v : V) (m : map) : outcome map unit :=
  call (index, m) <- on m (get_bucket_index m k) ;;
  call (bucket, m) <- on m (vector_at (buckets m) index) ;;
  match bucket_find k bucket with
  | Some j => Returns tt (set_value m index j v)
  | None =>
      Returns tt
        (Map (<[Z.to_nat index := bucket ++ [mkEntry k v]]> (buckets m))
             (U64.add (size_count m) 1) (capacity m))
  end.

(** The inner and the outer [for] of [resize]. *)
Fixpoint reinsert_bucket (bucket : Bucket) (m : map) : outcome map unit :=
  match bucket with
  | [] => Returns tt m
  | entry :: rest =>
      call m <- inner_insert (key entry) (value entry) m ;;
      reinsert_bucket rest m
  end.

Fixpoint reinsert (old_buckets : list Bucket) (m : map)
    : outcome map unit :=
  match old_buckets with
  | [] => Returns tt m
  | bucket :: rest =>
      call m <- reinsert_bucket bucket m ;;
      reinsert rest m
  end.

Definition resize (m : map) : outcome map unit :=
  let old_buckets := buckets m in
  let capacity' := U64.mul (capacity m) 2 in
  match vector_new capacity' ([] : Bucket) with
  | None => Throws length_error (Map [] (size_count m) capacity')
  | Some b => reinsert old_buckets (Map b 0 capacity')
  end.

(** The constructor; [None] when the allocation throws. *)
Definition new (initial_capacity : Z) : option map :=
  match vector_new initial_capacity ([] : Bucket) with
  | Some b => Some (Map b 0 initial_capacity)
  | None => None
  end.

Definition needs_resize (m : map) : bool :=
  exceeds_max_load (U64.add (size_count m) 1) (capacity m).

Definition insert (k : K) (v : V) (m : map) : outcome map unit :=
  call m <- (if needs_resize m then resize m else Returns tt m) ;;
  inner_insert k v m.

(** [at], both overloads: the bucket and the position in it of the entry
    whose [value] the returned reference denotes. *)
Definition at_ref (m : map) (k : K) : result (Z * nat) :=
  index <- get_bucket_index m k ;;
  bucket <- vector_at (buckets m) index ;;
  match bucket_find k bucket with
  | Some j => Value (index, j)
  | None => Raise (out_of_range "Key not found in HashMap")
  end.

(** Reading through a reference to [buckets[index][j].value]. *)
Definition read (m : map) (r : Z * nat) : result V :=
  bucket <- vector_at (buckets m) (fst r) ;;
  match bucket !! snd r with
  | Some e => Value (value e)
  | None => Undefined
  end.

Definition at_ (m : map) (k : K) : result V :=
  r <- at_ref m k ;; read m r.

Definition contains_key (m : map) (k : K) : result bool :=
  index <- get_bucket_index m k ;;
  bucket <- vector_at (buckets m) index ;;
  Value (bool_decide (is_Some (bucket_find k bucket))).

Definition remove (k : K) (m : map) : outcome map (option V) :=
  call (index, m) <- on m (get_bucket_index m k) ;;
  call (bucket, m) <- on m (vector_at (buckets m) index) ;;
  match bucket_find k bucket with
  | Some j =>
      match bucket !! j with
      | Some e =>
          Returns (Some (value e))
            (Map (<[Z.to_nat index := delete j bucket]> (buckets m))
                 (U64.sub (size_count m) 1) (capacity m))
      | None => Undefined_behaviour
      end
  | None => Returns None m
  end.

Definition size (m : map) : Z := size_count m.
Definition empty (m : map) : bool := size_count m =? 0.
Definition bucket_count (m : map) : Z := capacity m.

Definition clear (m : map) : map :=
  Map (List.map (fun _ => []) (buckets m)) 0 (capacity m).

(** [operator[]]: the entry whose [value] the returned reference
    denotes. *)
Definition index_ref (k : K) (m : map) : outcome map (Z * nat) :=
  call (index, m) <- on m (get_bucket_index m k) ;;
  call (bucket, m) <- on m (vector_at (buckets m) index) ;;
  match bucket_find k bucket with
  | Some j => Returns (index, j) m
  | None =>
      call m <- insert k default_value m ;;
      call (new_index, m) <- on m (get_bucket_index m k) ;;
      call (new_bucket, m) <- on m (vector_at (buckets m) new_index) ;;
      match bucket_find k new_bucket with
      | Some j => Returns (new_index, j) m
      | None =>
          Throws
            (runtime_error "Internal error: failed to insert in operator[]")
            m
      end
  end.

(** Assigning through the reference that the non-const [at] or
    [operator[]] returned. *)
Definition assign (m : map) (r : Z * nat) (v : V) : map :=
  set_value m (fst r) (snd r) v.

(** The entries a map stores, bucket after bucket. *)
Definition entries (m : map) : list Entry := concat (buckets m).

(** *** Vocabulary of the properties *)

(** There are [capacity] buckets, at least one. *)
Definition shaped (m : map) : Prop :=
  Z.of_nat (length (buckets m)) = capacity m /\
  0 < capacity m <= U64.vector_max_size.

(** The representation invariant: [shaped], and [size_count] counts the
    entries. *)
Definition wf (m : map) : Prop :=
  shaped m /\ size_count m = Z.of_nat (length (entries m)).

(** [size / capacity <= MAX_LOAD_FACTOR]. *)
Definition within_load (m : map) : Prop :=
  4 * size_count m <= 3 * capacity m.

Definition inv (m : map) : Prop := wf m /\ within_load m.

(** The value of the first entry of [k] in a bucket. *)
Fixpoint bucket_value (k : K) (bucket : Bucket) : option V :=
  match bucket with
  | [] => None
  | entry :: rest =>
      if bool_decide (key entry = k) then Some (value entry)
      else bucket_value k rest
  end.

(** What the map holds for [k]: the value of the first entry of [k] in the
    bucket of [k]. *)
Definition lookup (m : map) (k : K) : option V :=
  match buckets m !! Z.to_nat (hash k mod capacity m) with
  | Some bucket => bucket_value k bucket
  | None => None
  end.

(** Every entry is stored in the bucket of its key. *)
Definition placed (m : map) : Prop :=
  forall i bucket e,
    buckets m !! i = Some bucket -> e ∈ bucket ->
    hash (key e) mod capacity m = Z.of_nat i.

(** No bucket holds a key twice. *)
Definition distinct (m : map) : Prop :=
  forall i bucket, buckets m !! i = Some bucket -> NoDup (key <$> bucket).

(** No two entries of the map have the same key. *)
Definition unique_keys (m : map) : Prop := NoDup (key <$> entries m).

(** The invariant of the chaining map in full. *)
Definition sound (m : map) : Prop := inv m /\ placed m /\ distinct m.

(** One call of a member function that may change the map.  The call
    returns, or, when [catching] is set, throws an exception that the
    caller catches; a call that dies of [std::length_error] leaves moved-from
    vectors behind and is not followed. *)
Inductive step (catching : bool) (m : map) : map -> Prop :=
| step_insert k v m' :
    insert k v m = Returns tt m' -> step catching m m'
| step_insert_throws k v e m' :
    catching = true -> insert k v m = Throws e m' -> e <> length_error ->
    step catching m m'
| step_remove k r m' :
    remove k m = Returns r m' -> step catching m m'
| step_clear :
    step catching m (clear m)
| step_index k r m' :
    index_ref k m = Returns r m' -> step catching m m'
| step_index_throws k e m' :
    catching = true -> index_ref k m = Throws e m' -> e <> length_error ->
    step catching m m'
| step_assign_at k r v :
    at_ref m k = Value r -> step catching m (assign m r v)
| step_assign_index k r m' v :
    index_ref k m = Returns r m' -> step catching m (assign m' r v).

(** The maps that a program reaches from [ScHashMap(initial_capacity)]. *)
Inductive reachable (catching : bool) (initial_capacity : Z)
    : map -> Prop :=
| reachable_new m :
    new initial_capacity = Some m -> reachable catching initial_capacity m
| reachable_step m m' :
    reachable catching initial_capacity m -> step catching m m' ->
    reachable catching initial_capacity m'.

End Definitions.
End Sc.

(** ** [lphashmap.hpp]: linear probing with tombstones *)

Module Lp.
Section Definitions.

Context {K V : Type} `{EqDecision K}.

(** [hasher.hash(key)]: the hasher is built once by [hasher()] and never
    replaced. *)
Variable hash : K -> Z.

(** [K{}] and [V{}], what the members of [Entry()] hold. *)
Variable default_key : K.
Variable default_value : V.

Inductive EntryState : Type := Empty | Occupied | Deleted.

Record Entry : Type := mkEntry { key : K; value : V; state : EntryState }.

Definition Entry_default : Entry := mkEntry default_key default_value Empty.
Definition Entry_new (k : K) (v : V) : Entry := mkEntry k v Occupied.

Record map : Type := Map {
  table : list Entry;
  size_count : Z;
  capacity : Z;
  deleted_count : Z
}.

Definition INITIAL_CAPACITY : Z := 16.

Definition is_occupied (e : Entry) : bool :=
  match state e with Occupied => true | _ => false end.
Definition is_empty (e : Entry) : bool :=
  match state e with Empty => true | _ => false end.
Definition is_deleted (e : Entry) : bool :=
  match state e with Deleted => true | _ => false end.

(** [x / capacity > MAX_LOAD_FACTOR] for a counter [x]. *)
Definition exceeds_max_load (x c : Z) : bool := 7 * c <? 10 * x.

Definition get_hash (m : map) (k : K) : result Z :=
  u64_rem (hash k) (capacity m).

(** The [do ... while (index != original_index)] of
    [find_slot_for_insert]; [fuel] bounds the iterations, and
    [capacity] of it is never used up (lemma [lp_insert_loop_fuel]). *)
Fixpoint find_slot_for_insert_loop (fuel : nat) (m : map) (k : K)
    (original_index index : Z) : result Z :=
  match fuel with
  | O => Undefined
  | S fuel' =>
      e <- vector_at (table m) index ;;
      if negb (is_occupied e) then Value index
      else if bool_decide (key e = k) then Value index
      else
        index' <- u64_rem (U64.add index 1) (capacity m) ;;
        if bool_decide (index' <> original_index)
        then find_slot_for_insert_loop fuel' m k original_index index'
        else Raise (runtime_error "Hash table is full")
  end.

Definition find_slot_for_insert (m : map) (k : K) : result Z :=
  index <- get_hash m k ;;
  find_slot_for_insert_loop (Z.to_nat (capacity m)) m k index index.

Fixpoint find_slot_for_lookup_loop (fuel : nat) (m : map) (k : K)
    (original_index index : Z) : result Z :=
  match fuel with
  | O => Undefined
  | S fuel' =>
      e <- vector_at (table m) index ;;
      if is_empty e then Value (capacity m)
      else if is_occupied e && bool_decide (key e = k) then Value index
      else
        index' <- u64_rem (U64.add index 1) (capacity m) ;;
        if bool_decide (index' <> original_index)
        then find_slot_for_lookup_loop fuel' m k original_index index'
        else Value (capacity m)
  end.

Definition find_slot_for_lookup (m : map) (k : K) : result Z :=
  index <- get_hash m k ;;
  find_slot_for_lookup_loop (Z.to_nat (capacity m)) m k index index.

Definition set_table (m : map) (t : list Entry) : map :=
  Map t (size_count m) (capacity m) (deleted_count m).

(** [table[index].value = v] *)
Definition set_value (m : map) (index : Z) (v : V) : map :=
  set_table m
    (alter (fun e => mkEntry (key e) v (state e)) (Z.to_nat index) (table m)).

(** [table[index].state = s] *)
Definition set_state (m : map) (index : Z) (s : EntryState) : map :=
  set_table m
    (alter (fun e => mkEntry (key e) (value e) s) (Z.to_nat index) (table m)).

Definition inner_insert (k : K) (v : V) (m : map) : outcome map unit :=
  call (index, m) <- on m (find_slot_for_insert m k) ;;
  call (e, m) <- on m (vector_at (table m) index) ;;
  if is_occupied e && bool_decide (key e = k)
  then Returns tt (set_value m index v)
  else
    let deleted_count' :=
      if is_deleted e then U64.sub (deleted_count m) 1
      else deleted_count m in
    Returns tt
      (Map (<[Z.to_nat index := Entry_new k v]> (table m))
           (U64.add (size_count m) 1) (capacity m) deleted_count').

(** The [for (const auto& entry : old_table)] of [rehash]. *)
Fixpoint reinsert (old_table : list Entry) (m : map) : outcome map unit :=
  match old_table with
  | [] => Returns tt m
  | entry :: rest =>
      if is_occupied entry
      then call m <- inner_insert (key entry) (value entry) m ;;
           reinsert rest m
      else reinsert rest m
  end.

Definition rehash (m : map) : outcome map unit :=
  let old_table := table m in
  let capacity' := U64.mul (capacity m) 2 in
  match vector_new capacity' Entry_default with
  | None =>
      Throws length_error
        (Map [] (size_count m) capacity' (deleted_count m))
  | Some t => reinsert old_table (Map t 0 capacity' 0)
  end.

(** The constructor; [None] when the allocation throws. *)
Definition new (initial_capacity : Z) : option map :=
  match vector_new initial_capacity Entry_default with
  | Some t => Some (Map t 0 initial_capacity 0)
  | None => None
  end.

(** The test that opens [insert]. *)
Definition needs_rehash (m : map) : bool :=
  exceeds_max_load (U64.add (size_count m) 1) (capacity m)
  || exceeds_max_load (U64.add (size_count m) (deleted_count m)) (capacity m).

Definition insert (k : K) (v : V) (m : map) : outcome map unit :=
  call m <- (if needs_rehash m then rehash m else Returns tt m) ;;
  inner_insert k v m.

(** [at], both overloads: the slot whose [value] the returned reference
    denotes. *)
Definition at_ref (m : map) (k : K) : result Z :=
  index <- find_slot_for_lookup m k ;;
  if index <? capacity m then Value index
  else Raise (out_of_range "Key not found in LpHashMap").

(** Reading through a reference to [table[index].value]. *)
Definition read (m : map) (index : Z) : result V :=
  e <- vector_at (table m) index ;; Value (value e).

Definition at_ (m : map) (k : K) : result V :=
  index <- at_ref m k ;; read m index.

Definition contains_key (m : map) (k : K) : result bool :=
  index <- find_slot_for_lookup m k ;; Value (index <? capacity m).

Definition remove (k : K) (m : map) : outcome map (option V) :=
  call (index, m) <- on m (find_slot_for_lookup m k) ;;
  if index <? capacity m
  then
    call (e, m) <- on m (vector_at (table m) index) ;;
    let m := set_state m index Deleted in
    Returns (Some (value e))
      (Map (table m) (U64.sub (size_count m) 1) (capacity m)
           (U64.add (deleted_count m) 1))
  else Returns None m.

Definition size (m : map) : Z := size_count m.
Definition empty (m : map) : bool := size_count m =? 0.
Definition bucket_count (m : map) : Z := capacity m.

Definition clear (m : map) : map :=
  Map (List.map (fun e => mkEntry (key e) (value e) Empty) (table m))
      0 (capacity m) 0.

(** [operator[]]: the slot whose [value] the returned reference denotes. *)
Definition index_ref (k : K) (m : map) : outcome map Z :=
  call (index, m) <- on m (find_slot_for_lookup m k) ;;
  if index <? capacity m then Returns index m
  else
    call m <- insert k default_value m ;;
    call (new_index, m) <- on m (find_slot_for_lookup m k) ;;
    if new_index <? capacity m then Returns new_index m
    else Throws
           (runtime_error "Internal error: failed to insert in operator[]") m.

(** Assigning through the reference that the non-const [at] or
    [operator[]] returned. *)
Definition assign (m : map) (index : Z) (v : V) : map := set_value m index v.

(** The entries a map stores: those of the [Occupied] slots. *)
Definition occupied_entries (m : map) : list (K * V) :=
  omap (fun e => if is_occupied e then Some (key e, value e) else None)
       (table m).

(** *** Vocabulary of the properties *)

(** The [j]-th slot that a probe for [k] visits. *)
Definition probe (m : map) (k : K) (j : Z) : Z :=
  (hash k + j) mod capacity m.

(** The lookup steps over [e]: it is neither [Empty] nor an [Occupied]
    slot of the key. *)
Definition passed (k : K) (e : Entry) : bool :=
  negb (is_empty e) && negb (is_occupied e && bool_decide (key e = k)).

(** The number of slots that [f] selects. *)
Fixpoint count (f : Entry -> bool) (t : list Entry) : Z :=
  match t with
  | [] => 0
  | e :: rest => (if f e then 1 else 0) + count f rest
  end.

(** The table has [capacity] slots, at least one. *)
Definition shaped (m : map) : Prop :=
  Z.of_nat (length (table m)) = capacity m /\
  0 < capacity m <= U64.vector_max_size.

(** The representation invariant: [shaped], and the two counters count
    the [Occupied] and the [Deleted] slots. *)
Definition wf (m : map) : Prop :=
  shaped m /\
  size_count m = count is_occupied (table m) /\
  deleted_count m = count is_deleted (table m).

(** [size / capacity <= MAX_LOAD_FACTOR]. *)
Definition within_load (m : map) : Prop :=
  10 * size_count m <= 7 * capacity m.

Definition inv (m : map) : Prop := wf m /\ within_load m.

(** One call of a member function that may change the map.  The call
    returns, or, when [catching] is set, throws an exception that the
    caller catches; a call that dies of [std::length_error] leaves moved-from
    vectors behind and is not followed. *)
Inductive step (catching : bool) (m : map) : map -> Prop :=
| step_insert k v m' :
    insert k v m = Returns tt m' -> step catching m m'
| step_insert_throws k v e m' :
    catching = true -> insert k v m = Throws e m' -> e <> length_error ->
    step catching m m'
| step_remove k r m' :
    remove k m = Returns r m' -> step catching m m'
| step_clear :
    step catching m (clear m)
| step_index k r m' :
    index_ref k m = Returns r m' -> step catching m m'
| step_index_throws k e m' :
    catching = true -> index_ref k m = Throws e m' -> e <> length_error ->
    step catching m m'
| step_assign_at k r v :
    at_ref m k = Value r -> step catching m (assign m r v)
| step_assign_index k r m' v :
    index_ref k m = Returns r m' -> step catching m (assign m' r v).

(** The maps that a program reaches from [LpHashMap(initial_capacity)]. *)
Inductive reachable (catching : bool) (initial_capacity : Z)
    : map -> Prop :=
| reachable_new m :
    new initial_capacity = Some m -> reachable catching initial_capacity m
| reachable_step m m' :
    reachable catching initial_capacity m -> step catching m m' ->
    reachable catching initial_capacity m'.

(** The lookup for [k] meets an [Empty] slot. *)
Definition meets_empty_slot (m : map) (k : K) : Prop :=
  exists j e,
    0 <= j < capacity m /\
    table m !! Z.to_nat (probe m k j) = Some e /\ is_empty e = true.

(** No [Empty] slot lies on the probe path from the first slot of a key to
    an [Occupied] slot of that key. *)
Definition chained (m : map) : Prop :=
  forall k j e,
    0 <= j < capacity m ->
    table m !! Z.to_nat (probe m k j) = Some e ->
    is_occupied e = true -> key e = k ->
    forall j', 0 <= j' < j ->
      exists e', table m !! Z.to_nat (probe m k j') = Some e' /\
                 is_empty e' = false.

(** Two [Occupied] slots never hold the same key. *)
Definition unique_keys (m : map) : Prop :=
  forall i j ei ej,
    table m !! i = Some ei -> table m !! j = Some ej ->
    is_occupied ei = true -> is_occupied ej = true ->
    key ei = key ej -> i = j.

End Definitions.
End Lp.

(** ** [ckhashmap.hpp]: cuckoo hashing *)

Module Ck.
Section Definitions.

Context {K V : Type} `{EqDecision K}.

(** The hasher type [H]: [hash h k] is [h.hash(k)], [default_hasher] is
    [H{}], and [seeded] is the constructor [H(seed1, seed2)] when
    [SeedableHasher<H, K>] holds, [None] when it does not. *)
Context {H : Type}.
Variable hash : H -> K -> Z.
Variable default_hasher : H.
Variable seeded : option (Z -> Z -> H).

(** The engine [std::mt19937_64]: its states, and [rng()], which yields
    a word and the next state. *)
Context {Rng : Type}.
Variable rng_next : Rng -> Z * Rng.

(** [K{}] and [V{}]. *)
Variable default_key : K.
Variable default_value : V.

Record Entry : Type := mkEntry { key : K; value : V; occupied : bool }.

Definition Entry_default : Entry := mkEntry default_key default_value false.
Definition Entry_new (k : K) (v : V) : Entry := mkEntry k v true.

Record map : Type := Map {
  table1 : list Entry;
  table2 : list Entry;
  hasher1 : H;
  hasher2 : H;
  size_count : Z;
  capacity : Z;
  rng : Rng
}.

Definition INITIAL_CAPACITY : Z := 16.
Definition MAX_REHASH_ATTEMPTS : Z := 8.

(** [x / capacity > MAX_LOAD_FACTOR] for a counter [x]. *)
Definition exceeds_max_load (x c : Z) : bool := c <? 2 * x.

(** [create_hasher]: [H(rng(), rng())] or [H{}].  C++ leaves the order of
    the two calls of [rng()] open; the embedding draws the first argument
    first, and nothing below depends on which of the two it is. *)
Definition create_hasher (g : Rng) : H * Rng :=
  match seeded with
  | Some make =>
      let '(s1, g) := rng_next g in
      let '(s2, g) := rng_next g in
      (make s1 s2, g)
  | None => (default_hasher, g)
  end.

Definition get_hash1 (m : map) (k : K) : result Z :=
  u64_rem (hash (hasher1 m) k) (capacity m).

Definition get_hash2 (m : map) (k : K) : result Z :=
  u64_rem (hash (hasher2 m) k) (capacity m).

Definition set_table1 (m : map) (t : list Entry) : map :=
  Map t (table2 m) (hasher1 m) (hasher2 m) (size_count m) (capacity m)
      (rng m).

Definition set_table2 (m : map) (t : list Entry) : map :=
  Map (table1 m) t (hasher1 m) (hasher2 m) (size_count m) (capacity m)
      (rng m).

Definition set_size_count (m : map) (n : Z) : map :=
  Map (table1 m) (table2 m) (hasher1 m) (hasher2 m) n (capacity m) (rng m).

(** [e.occupied && e.key == k] *)
Definition holds (e : Entry) (k : K) : bool :=
  occupied e && bool_decide (key e = k).

Definition with_value (v : V) (e : Entry) : Entry :=
  mkEntry (key e) v (occupied e).

Definition vacate (e : Entry) : Entry := mkEntry (key e) (value e) false.

(** The eviction loop [for (size_t i = 0; i < capacity; ++i)] of
    [inner_insert], [n] iterations from now. *)
Fixpoint evict (n : nat) (current_entry : Entry) (use_table1 : bool)
    (m : map) : outcome map bool :=
  match n with
  | O => Returns false m
  | S n' =>
      if use_table1 then
        call (pos1, m) <- on m (get_hash1 m (key current_entry)) ;;
        call (e, m) <- on m (vector_at (table1 m) pos1) ;;
        let m' :=
          set_table1 m (<[Z.to_nat pos1 := current_entry]> (table1 m)) in
        if negb (occupied e)
        then Returns true (set_size_count m' (U64.add (size_count m) 1))
        else evict n' e false m'
      else
        call (pos2, m) <- on m (get_hash2 m (key current_entry)) ;;
        call (e, m) <- on m (vector_at (table2 m) pos2) ;;
        let m' :=
          set_table2 m (<[Z.to_nat pos2 := current_entry]> (table2 m)) in
        if negb (occupied e)
        then Returns true (set_size_count m' (U64.add (size_count m) 1))
        else evict n' e true m'
  end.

Definition inner_insert (k : K) (v : V) (m : map) : outcome map bool :=
  call (pos1, m) <- on m (get_hash1 m k) ;;
  call (pos2, m) <- on m (get_hash2 m k) ;;
  call (e1, m) <- on m (vector_at (table1 m) pos1) ;;
  if holds e1 k
  then Returns true
         (set_table1 m (alter (with_value v) (Z.to_nat pos1) (table1 m)))
  else
  call (e2, m) <- on m (vector_at (table2 m) pos2) ;;
  if holds e2 k
  then Returns true
         (set_table2 m (alter (with_value v) (Z.to_nat pos2) (table2 m)))
  else if negb (occupied e1)
  then Returns true
         (set_size_count
            (set_table1 m (<[Z.to_nat pos1 := Entry_new k v]> (table1 m)))
            (U64.add (size_count m) 1))
  else if negb (occupied e2)
  then Returns true
         (set_size_count
            (set_table2 m (<[Z.to_nat pos2 := Entry_new k v]> (table2 m)))
            (U64.add (size_count m) 1))
  else evict (Z.to_nat (capacity m)) (Entry_new k v) true m.

(** The two [for (const auto& entry : old_table)] of [rehash]; the
    [bool] that [inner_insert] returns is not looked at. *)
Fixpoint reinsert (old_table : list Entry) (m : map) : outcome map unit :=
  match old_table with
  | [] => Returns tt m
  | entry :: rest =>
      if occupied entry
      then call m <- inner_insert (key entry) (value entry) m ;;
           reinsert rest m
      else reinsert rest m
  end.

Definition rehash (m : map) : outcome map unit :=
  let old_table1 := table1 m in
  let old_table2 := table2 m in
  let capacity' := U64.mul (capacity m) 2 in
  match vector_new capacity' Entry_default with
  | None =>
      Throws length_error
        (Map [] [] (hasher1 m) (hasher2 m) (size_count m) capacity' (rng m))
  | Some t =>
      let '(h1, g) := create_hasher (rng m) in
      let '(h2, g) := create_hasher g in
      call m <- reinsert old_table1 (Map t t h1 h2 0 capacity' g) ;;
      reinsert old_table2 m
  end.

(** The constructor on the engine state [g] that [rng(get_random_seed())]
    builds; [None] when the allocation throws. *)
Definition new (initial_capacity : Z) (g : Rng) : option map :=
  match vector_new initial_capacity Entry_default with
  | Some t =>
      let '(h1, g) := create_hasher g in
      let '(h2, g) := create_hasher g in
      Some (Map t t h1 h2 0 initial_capacity g)
  | None => None
  end.

Definition needs_rehash (m : map) : bool :=
  exceeds_max_load (U64.add (size_count m) 1) (capacity m).

(** The [while (!inner_insert(...) && attempts < MAX_REHASH_ATTEMPTS)] of
    [insert]; it returns [attempts].  [fuel] bounds the iterations, and
    nine of them are never used up (lemma [ck_insert_loop_fuel]). *)
Fixpoint insert_loop (fuel : nat) (k : K) (v : V) (attempts : Z) (m : map)
    : outcome map Z :=
  match fuel with
  | O => Undefined_behaviour
  | S fuel' =>
      call (placed, m) <- inner_insert k v m ;;
      if negb placed && (attempts <? MAX_REHASH_ATTEMPTS)
      then call m <- rehash m ;;
           insert_loop fuel' k v (U64.add attempts 1) m
      else Returns attempts m
  end.

Definition insert (k : K) (v : V) (m : map) : outcome map unit :=
  call m <- (if needs_rehash m then rehash m else Returns tt m) ;;
  call (attempts, m) <- insert_loop 9 k v 0 m ;;
  if MAX_REHASH_ATTEMPTS <=? attempts
  then Throws
         (runtime_error "Failed to insert after maximum rehash attempts") m
  else Returns tt m.

(** A reference to [table1[pos].value] or to [table2[pos].value]. *)
Inductive ref : Type := In1 (pos : Z) | In2 (pos : Z).

(** The two tests on the slots [pos1] and [pos2] that [at],
    [contains_key], [remove] and [operator[]] share. *)
Definition find_at (m : map) (k : K) (pos1 pos2 : Z)
    : result (option ref) :=
  e1 <- vector_at (table1 m) pos1 ;;
  if holds e1 k then Value (Some (In1 pos1))
  else
    e2 <- vector_at (table2 m) pos2 ;;
    if holds e2 k then Value (Some (In2 pos2))
    else Value None.

Definition find (m : map) (k : K) : result (option ref) :=
  pos1 <- get_hash1 m k ;;
  pos2 <- get_hash2 m k ;;
  find_at m k pos1 pos2.

(** [at], both overloads: the reference it returns. *)
Definition at_ref (m : map) (k : K) : result ref :=
  r <- find m k ;;
  match r with
  | Some r => Value r
  | None => Raise (out_of_range "Key not found in CkHashMap")
  end.

Definition read (m : map) (r : ref) : result V :=
  match r with
  | In1 pos => e <- vector_at (table1 m) pos ;; Value (value e)
  | In2 pos => e <- vector_at (table2 m) pos ;; Value (value e)
  end.

Definition at_ (m : map) (k : K) : result V :=
  r <- at_ref m k ;; read m r.

Definition contains_key (m : map) (k : K) : result bool :=
  r <- find m k ;; Value (bool_decide (is_Some r)).

Definition remove (k : K) (m : map) : outcome map (option V) :=
  call (r, m) <- on m (find m k) ;;
  match r with
  | Some (In1 pos1) =>
      call (e, m) <- on m (vector_at (table1 m) pos1) ;;
      Returns (Some (value e))
        (set_size_count
           (set_table1 m (alter vacate (Z.to_nat pos1) (table1 m)))
           (U64.sub (size_count m) 1))
  | Some (In2 pos2) =>
      call (e, m) <- on m (vector_at (table2 m) pos2) ;;
      Returns (Some (value e))
        (set_size_count
           (set_table2 m (alter vacate (Z.to_nat pos2) (table2 m)))
           (U64.sub (size_count m) 1))
  | None => Returns None m
  end.

Definition size (m : map) : Z := size_count m.
Definition empty (m : map) : bool := size_count m =? 0.
Definition bucket_count (m : map) : Z := U64.mul (capacity m) 2.

Definition clear (m : map) : map :=
  Map (List.map vacate (table1 m)) (List.map vacate (table2 m))
      (hasher1 m) (hasher2 m) 0 (capacity m) (rng m).

(** [operator[]]: [pos1] and [pos2] are computed once, before [insert],
    and used again after it. *)
Definition index_ref (k : K) (m : map) : outcome map ref :=
  call (pos1, m) <- on m (get_hash1 m k) ;;
  call (pos2, m) <- on m (get_hash2 m k) ;;
  call (r, m) <- on m (find_at m k pos1 pos2) ;;
  match r with
  | Some r => Returns r m
  | None =>
      call m <- insert k default_value m ;;
      call (r, m) <- on m (find_at m k pos1 pos2) ;;
      match r with
      | Some r => Returns r m
      | None =>
          Throws
            (runtime_error "Internal error: failed to insert in operator[]")
            m
      end
  end.

(** Assigning through the reference that the non-const [at] or
    [operator[]] returned. *)
Definition assign (m : map) (r : ref) (v : V) : map :=
  match r with
  | In1 pos => set_table1 m (alter (with_value v) (Z.to_nat pos) (table1 m))
  | In2 pos => set_table2 m (alter (with_value v) (Z.to_nat pos) (table2 m))
  end.

(** The entries a map stores: the occupied slots of both tables. *)
Definition occupied_entries (m : map) : list Entry :=
  filter (fun e => occupied e = true) (table1 m ++ table2 m).

(** *** Vocabulary of the properties *)

(** The slots of a key in the two tables. *)
Definition pos1 (m : map) (k : K) : Z :=
  hash (hasher1 m) k mod capacity m.
Definition pos2 (m : map) (k : K) : Z :=
  hash (hasher2 m) k mod capacity m.

(** The number of occupied slots of a table. *)
Fixpoint count (t : list Entry) : Z :=
  match t with
  | [] => 0
  | e :: rest => (if occupied e then 1 else 0) + count rest
  end.

(** Both tables have [capacity] slots, at least one. *)
Definition shaped (m : map) : Prop :=
  Z.of_nat (length (table1 m)) = capacity m /\
  Z.of_nat (length (table2 m)) = capacity m /\
  0 < capacity m <= U64.vector_max_size.

(** Every occupied slot of [table1] is the slot that [hasher1] gives its
    key, and likewise for [table2] and [hasher2]. *)
Definition positioned (m : map) : Prop :=
  (forall i e, table1 m !! i = Some e -> occupied e = true ->
               pos1 m (key e) = Z.of_nat i) /\
  (forall i e, table2 m !! i = Some e -> occupied e = true ->
               pos2 m (key e) = Z.of_nat i).

(** The key [k] sits in its slot of [table1] or of [table2]. *)
Definition present (m : map) (k : K) : Prop :=
  (exists e, table1 m !! Z.to_nat (pos1 m k) = Some e /\ holds e k = true)
  \/
  (exists e, table2 m !! Z.to_nat (pos2 m k) = Some e /\ holds e k = true).

(** Every occupied slot of the key [k] has the value [v]. *)
Definition bound_to (m : map) (k : K) (v : V) : Prop :=
  forall t i e,
    t = table1 m \/ t = table2 m ->
    t !! i = Some e -> holds e k = true -> value e = v.

(** What the eviction walk keeps true of the key [k] while it carries
    [current_entry]: the key is nowhere with another value than [v], and
    it is in the tables or in [current_entry]. *)
Definition tracked (m : map) (current_entry : Entry) (k : K) (v : V)
    : Prop :=
  bound_to m k v /\
  (key current_entry = k -> value current_entry = v) /\
  (present m k \/ key current_entry = k).

(** What the map holds for [k]: the value in the slot of [k] in [table1]
    when that slot holds the key, else the value in its slot of [table2]. *)
Definition lookup (m : map) (k : K) : option V :=
  match table1 m !! Z.to_nat (pos1 m k) with
  | Some e1 =>
      if holds e1 k then Some (value e1)
      else
        match table2 m !! Z.to_nat (pos2 m k) with
        | Some e2 => if holds e2 k then Some (value e2) else None
        | None => None
        end
  | None => None
  end.

(** No key sits in its slot of both tables. *)
Definition single (m : map) : Prop :=
  forall k e1 e2,
    table1 m !! Z.to_nat (pos1 m k) = Some e1 ->
    table2 m !! Z.to_nat (pos2 m k) = Some e2 ->
    holds e1 k = true -> holds e2 k = false.

(** What the eviction walk holds while it carries [current_entry]: the
    entries of the tables and the entry in hand. *)
Definition carried (m : map) (current_entry : Entry) (k : K) : option V :=
  if bool_decide (k = key current_entry) then Some (value current_entry)
  else lookup m k.

(** [m'] has the capacity, the hashers and the engine state of [m]. *)
Definition same_frame (m m' : map) : Prop :=
  capacity m' = capacity m /\ hasher1 m' = hasher1 m /\
  hasher2 m' = hasher2 m /\ rng m' = rng m.

(** The representation invariant. *)
Definition wf (m : map) : Prop :=
  shaped m /\ positioned m /\
  size_count m = count (table1 m) + count (table2 m).

(** [size / capacity <= MAX_LOAD_FACTOR]. *)
Definition within_load (m : map) : Prop :=
  2 * size_count m <= capacity m.

Definition inv (m : map) : Prop := wf m /\ within_load m.

(** One call of a member function that may change the map.  The call
    returns, or, when [catching] is set, throws an exception that the
    caller catches; a call that dies of [std::length_error] leaves moved-from
    vectors behind and is not followed. *)
Inductive step (catching : bool) (m : map) : map -> Prop :=
| step_insert k v m' :
    insert k v m = Returns tt m' -> step catching m m'
| step_insert_throws k v e m' :
    catching = true -> insert k v m = Throws e m' -> e <> length_error ->
    step catching m m'
| step_remove k r m' :
    remove k m = Returns r m' -> step catching m m'
| step_clear :
    step catching m (clear m)
| step_index k r m' :
    index_ref k m = Returns r m' -> step catching m m'
| step_index_throws k e m' :
    catching = true -> index_ref k m = Throws e m' -> e <> length_error ->
    step catching m m'
| step_assign_at k r v :
    at_ref m k = Value r -> step catching m (assign m r v)
| step_assign_index k r m' v :
    index_ref k m = Returns r m' -> step catching m (assign m' r v).

(** The maps that a program reaches from [CkHashMap(initial_capacity)],
    the engine seeded to the state [g]. *)
Inductive reachable (catching : bool) (initial_capacity : Z) (g : Rng)
    : map -> Prop :=
| reachable_new m :
    new initial_capacity g = Some m ->
    reachable catching initial_capacity g m
| reachable_step m m' :
    reachable catching initial_capacity g m -> step catching m m' ->
    reachable catching initial_capacity g m'.

End Definitions.
End Ck.

(** ** Instantiations: [int] keys and values

    [main.cpp] builds its maps on [int] keys and values.  [hash_bytes] of a
    trivially copyable value is its object representation: for an [int] on
    the little-endian targets of the benchmark, the four bytes of its two's
    complement, least significant first. *)

Module IntKeys.

Definition byte_of_Z (x : Z) : byte :=
  match Byte.of_N (Z.to_N (x mod 256)) with
  | Some b => b
  | None => x00
  end.

Definition hash_bytes (k : Z) : list byte :=
  let u := k mod 2 ^ 32 in
  [byte_of_Z u; byte_of_Z (u / 2 ^ 8); byte_of_Z (u / 2 ^ 16);
   byte_of_Z (u / 2 ^ 24)].

(** [Sip13Hasher<int>::hash] of a hasher built with the seeds [k0], [k1]. *)
Definition sip13 (k0 k1 : Z) (k : Z) : Z :=
  Sip.hash_bytes_with k0 k1 (hash_bytes k).

(** [Sip13Hasher<int>().hash], the hasher of [LpHashMap<int, int>] and
    [ScHashMap<int, int>]. *)
Definition default_hash (k : Z) : Z := sip13 Sip.default_k0 Sip.default_k1 k.

(** A hasher that a client passes for the parameter [H] of [CkHashMap]:
    [struct IdentityHasher : Hasher<int>] with
    [hash(k) = static_cast<uint64_t>(k)].  It satisfies [HasherType], has no
    state and takes no seeds. *)
Definition identity_hash (_ : unit) (k : Z) : Z := U64.wrap k.

(** [CkHashMap<int, int, IdentityHasher>]: [create_hasher] takes the
    branch [H{}] and never draws from the engine, whose state is left
    abstract. *)
Abbreviation ck_map := (@Ck.map Z Z unit unit).
Abbreviation ck_new :=
  (@Ck.new Z Z unit tt None unit (fun g => (0, g)) 0 0).
Abbreviation ck_insert :=
  (Ck.insert identity_hash tt None (fun g : unit => (0, g)) 0 0).
Abbreviation ck_index_ref :=
  (Ck.index_ref identity_hash tt None (fun g : unit => (0, g)) 0 0).
Abbreviation ck_contains_key :=
  (@Ck.contains_key Z Z _ unit identity_hash unit).
Abbreviation ck_at := (@Ck.at_ Z Z _ unit identity_hash unit).
Abbreviation ck_reachable :=
  (Ck.reachable identity_hash tt None (fun g : unit => (0, g)) 0 0 true).

(** [m[k]] for each [k] of [ks], one after the other. *)
Fixpoint ck_index_all (ks : list Z) (m : ck_map) : outcome ck_map unit :=
  match ks with
  | [] => Returns tt m
  | k :: rest => call m <- ck_index_ref k m ;; ck_index_all rest m
  end.

(** [LpHashMap<int, int>] and [ScHashMap<int, int>], the default hasher. *)
Abbreviation lp_map := (@Lp.map Z Z).
Abbreviation lp_new := (@Lp.new Z Z 0 0).
Abbreviation lp_insert := (Lp.insert default_hash 0 0).
Abbreviation lp_remove := (@Lp.remove Z Z _ default_hash).
Abbreviation lp_at := (@Lp.at_ Z Z _ default_hash).
Abbreviation lp_contains_key := (@Lp.contains_key Z Z _ default_hash).
Abbreviation lp_reachable := (Lp.reachable default_hash 0 0 true).

Abbreviation sc_map := (@Sc.map Z Z).
Abbreviation sc_new := (@Sc.new Z Z).
Abbreviation sc_insert := (@Sc.insert Z Z _ default_hash).
Abbreviation sc_at := (@Sc.at_ Z Z _ default_hash).
Abbreviation sc_reachable := (Sc.reachable default_hash 0 true).

End IntKeys.

(** * Properties *)

(** ** 64-bit words *)

Lemma u64_wrap_range x : 0 <= U64.wrap x < U64.modulus.
Proof. unfold U64.wrap, U64.modulus. apply Z.mod_pos_bound. lia. Qed.

Lemma u64_wrap_small x : 0 <= x < U64.modulus -> U64.wrap x = x.
Proof. unfold U64.wrap. intros. now apply Z.mod_small. Qed.

(** Bits that do not overlap add up. *)
Lemma u64_lor_disjoint n a b :
  0 <= n -> a mod 2 ^ n = 0 -> 0 <= b < 2 ^ n -> Z.lor a b = a + b.
Proof.
  intros Hn Ha Hb.
  assert (Hland : Z.land a b = 0).
  { apply Z.bits_inj'. intros i Hi.
    rewrite Z.land_spec, Z.bits_0.
    destruct (Z.lt_ge_cases i n) as [Hlt | Hge].
    - rewrite <- (Z.mod_pow2_bits_low a n i Hlt), Ha, Z.bits_0. reflexivity.
    - rewrite <- (Z.mod_small b (2 ^ n)) by lia.
      rewrite Z.mod_pow2_bits_high by lia. apply andb_false_r. }
  rewrite <- Z.lxor_lor by exact Hland.
  symmetry. apply Z.add_nocarry_lxor. exact Hland.
Qed.

Lemma u64_lxor_range a b :
  0 <= a < 2 ^ 64 -> 0 <= b < 2 ^ 64 -> 0 <= Z.lxor a b < 2 ^ 64.
Proof.
  intros Ha Hb.
  assert (Hnn : 0 <= Z.lxor a b) by (apply Z.lxor_nonneg; lia).
  split; [exact Hnn |].
  destruct (Z.eq_dec (Z.lxor a b) 0) as [-> | Hnz]; [lia |].
  apply Z.log2_lt_pow2; [lia |].
  eapply Z.le_lt_trans; [apply Z.log2_lxor; lia |].
  apply Z.max_lub_lt.
  - destruct (Z.eq_dec a 0) as [-> | ?]; [reflexivity |].
    apply Z.log2_lt_pow2; lia.
  - destruct (Z.eq_dec b 0) as [-> | ?]; [reflexivity |].
    apply Z.log2_lt_pow2; lia.
Qed.

(** ** [sip.hpp] *)

Lemma sip_byte_val_range b : 0 <= Sip.byte_val b < 256.
Proof.
  unfold Sip.byte_val. pose proof (Byte.to_N_bounded b). lia.
Qed.

(** On a 64-bit word the shift-and-or of [rotl] is the rotation. *)
Lemma sip_rotl_rotate x b :
  0 <= x < 2 ^ 64 -> 0 < b < 64 -> Sip.rotl x b = SipSpec.rotate_left x b.
Proof.
  intros Hx Hb. unfold Sip.rotl, SipSpec.rotate_left, U64.shl, U64.shr,
    U64.wrap, U64.modulus.
  rewrite Z.shiftl_mul_pow2, Z.shiftr_div_pow2 by lia.
  apply (u64_lor_disjoint b); [lia | |].
  - replace (2 ^ 64) with (2 ^ (64 - b) * 2 ^ b)
      by (rewrite <- Z.pow_add_r by lia; f_equal; lia).
    rewrite Z.mul_mod_distr_r by (apply Z.pow_nonzero; lia).
    apply Z.mod_mul. apply Z.pow_nonzero; lia.
  - split; [apply Z.div_pos; [lia | apply Z.pow_pos_nonneg; lia] |].
    apply Z.div_lt_upper_bound; [apply Z.pow_pos_nonneg; lia |].
    rewrite <- Z.pow_add_r by lia.
    replace (64 - b + b) with 64 by lia. lia.
Qed.

Lemma sip_rotate_range x b :
  0 <= x < 2 ^ 64 -> 0 < b < 64 -> 0 <= SipSpec.rotate_left x b < 2 ^ 64.
Proof.
  intros Hx Hb. rewrite <- sip_rotl_rotate by assumption.
  unfold Sip.rotl, U64.shl, U64.shr.
  assert (Hs : 0 <= Z.shiftr x (64 - b) < 2 ^ 64).
  { rewrite Z.shiftr_div_pow2 by lia. split.
    - apply Z.div_pos; [lia | apply Z.pow_pos_nonneg; lia].
    - apply Z.le_lt_trans with x; [| lia].
      apply Z.div_le_upper_bound; [apply Z.pow_pos_nonneg; lia |].
      assert (0 < 2 ^ (64 - b)) by (apply Z.pow_pos_nonneg; lia); nia. }
  pose proof (u64_wrap_range (Z.shiftl x b)) as Hw.
  change U64.modulus with (2 ^ 64) in Hw.
  split; [apply Z.lor_nonneg; lia |].
  destruct (Z.eq_dec (Z.lor (U64.wrap (Z.shiftl x b)) (Z.shiftr x (64 - b))) 0)
    as [-> | Hnz]; [lia |].
  apply Z.log2_lt_pow2; [ assert (0 <= Z.lor (U64.wrap (Z.shiftl x b))
    (Z.shiftr x (64 - b))) by (apply Z.lor_nonneg; lia); lia |].
  rewrite Z.log2_lor by lia.
  apply Z.max_lub_lt.
  - destruct (Z.eq_dec (U64.wrap (Z.shiftl x b)) 0) as [-> | ?];
      [reflexivity | apply Z.log2_lt_pow2; lia].
  - destruct (Z.eq_dec (Z.shiftr x (64 - b)) 0) as [-> | ?];
      [reflexivity | apply Z.log2_lt_pow2; lia].
Qed.

Lemma sip_plus_range x y : 0 <= SipSpec.plus x y < 2 ^ 64.
Proof. unfold SipSpec.plus. apply Z.mod_pos_bound. lia. Qed.

Lemma sip_sipround_spec s :
  sip_in_range s ->
  Sip.sipround s = SipSpec.sipround s /\ sip_in_range (SipSpec.sipround s).
Proof.
  destruct s as [a b c d]. intros [[Ha Hb] [Hc Hd]]; simpl in *.
  unfold Sip.sipround, SipSpec.sipround.
  change U64.add with SipSpec.plus.
  pose proof (sip_plus_range a b) as H0.
  set (a1 := SipSpec.plus a b) in *.
  rewrite (sip_rotl_rotate b 13) by lia.
  pose proof (sip_rotate_range b 13 Hb ltac:(lia)) as Hb1.
  pose proof (u64_lxor_range _ _ Hb1 H0) as Hb2.
  set (b2 := Z.lxor (SipSpec.rotate_left b 13) a1) in *.
  rewrite (sip_rotl_rotate a1 32) by lia.
  pose proof (sip_rotate_range a1 32 H0 ltac:(lia)) as Ha2.
  set (a2 := SipSpec.rotate_left a1 32) in *.
  pose proof (sip_plus_range c d) as Hc1.
  set (c1 := SipSpec.plus c d) in *.
  rewrite (sip_rotl_rotate d 16) by lia.
  pose proof (sip_rotate_range d 16 Hd ltac:(lia)) as Hd1.
  pose proof (u64_lxor_range _ _ Hd1 Hc1) as Hd2.
  set (d2 := Z.lxor (SipSpec.rotate_left d 16) c1) in *.
  pose proof (sip_plus_range a2 d2) as Ha3.
  set (a3 := SipSpec.plus a2 d2) in *.
  rewrite (sip_rotl_rotate d2 21) by lia.
  pose proof (sip_rotate_range d2 21 Hd2 ltac:(lia)) as Hd3.
  pose proof (u64_lxor_range _ _ Hd3 Ha3) as Hd4.
  set (d4 := Z.lxor (SipSpec.rotate_left d2 21) a3) in *.
  pose proof (sip_plus_range c1 b2) as Hc2.
  set (c2 := SipSpec.plus c1 b2) in *.
  rewrite (sip_rotl_rotate b2 17) by lia.
  pose proof (sip_rotate_range b2 17 Hb2 ltac:(lia)) as Hb3.
  pose proof (u64_lxor_range _ _ Hb3 Hc2) as Hb4.
  rewrite (sip_rotl_rotate c2 32) by lia.
  pose proof (sip_rotate_range c2 32 Hc2 ltac:(lia)) as Hc3.
  split; [reflexivity |].
  repeat split; simpl; lia.
Qed.

Lemma sip_absorb_word_spec s m :
  sip_in_range s -> 0 <= m < 2 ^ 64 ->
  Sip.absorb_word s m = SipSpec.compress s m /\
  sip_in_range (SipSpec.compress s m).
Proof.
  intros Hs Hm. unfold Sip.absorb_word, SipSpec.compress.
  destruct Hs as [[H0 H1] [H2 H3]].
  assert (Hin : sip_in_range
            (Sip.State (Sip.v0 s) (Sip.v1 s) (Sip.v2 s) (Z.lxor (Sip.v3 s) m))).
  { unfold sip_in_range. cbn [Sip.v0 Sip.v1 Sip.v2 Sip.v3].
    split; split; try assumption. apply u64_lxor_range; assumption. }
  destruct (sip_sipround_spec _ Hin) as [-> [[R0 R1] [R2 R3]]].
  split; [reflexivity |].
  unfold sip_in_range. cbn [Sip.v0 Sip.v1 Sip.v2 Sip.v3].
  split; split; try assumption. apply u64_lxor_range; assumption.
Qed.

Lemma sip_byte_at_app pre l i :
  0 <= i ->
  Sip.byte_at (pre ++ l) (Z.of_nat (length pre) + i) = Sip.byte_at l i.
Proof.
  intros Hi. unfold Sip.byte_at.
  replace (Z.to_nat (Z.of_nat (length pre) + i))
    with (length pre + Z.to_nat i)%nat by lia.
  rewrite lookup_app_r by lia.
  replace (length pre + Z.to_nat i - length pre)%nat with (Z.to_nat i) by lia.
  reflexivity.
Qed.

Lemma sip_shl_byte x sh :
  0 <= x < 256 -> 0 <= sh <= 56 -> U64.shl x sh = x * 2 ^ sh.
Proof.
  intros Hx Hsh. unfold U64.shl. rewrite Z.shiftl_mul_pow2 by lia.
  apply u64_wrap_small. unfold U64.modulus.
  assert (0 < 2 ^ sh) by (apply Z.pow_pos_nonneg; lia).
  assert (2 ^ sh <= 2 ^ 56) by (apply Z.pow_le_mono_r; lia).
  nia.
Qed.

(** The innermost [Z.lor] of a chain of shifted bytes becomes a sum: in
    [sip_lor_low_high] the chain grows upwards from the low byte (the loop
    of [load_word]), in [sip_lor_high_low] downwards from the top byte (the
    [switch] of [tail_word]). *)
Ltac sip_lor_side := first [lia | Z.div_mod_to_equations; lia].

Ltac sip_lor_low_high :=
  repeat match goal with
  | |- context [Z.lor ?a (?x * 2 ^ ?k)] =>
      lazymatch a with context [Z.lor _ _] => fail | _ => idtac end;
      rewrite (Z.lor_comm a (x * 2 ^ k));
      rewrite (u64_lor_disjoint k (x * 2 ^ k) a) by sip_lor_side
  end.

Ltac sip_lor_high_low :=
  repeat match goal with
  | |- context [Z.lor ?a (?x * 2 ^ ?k)] =>
      lazymatch a with context [Z.lor _ _] => fail | _ => idtac end;
      let n := eval cbv in (k + 8) in
      rewrite (u64_lor_disjoint n a (x * 2 ^ k)) by sip_lor_side
  end.

Lemma sip_load_word_le b0 b1 b2 b3 b4 b5 b6 b7 rest :
  Sip.load_word (b0 :: b1 :: b2 :: b3 :: b4 :: b5 :: b6 :: b7 :: rest) 0
  = SipSpec.le_word [b0; b1; b2; b3; b4; b5; b6; b7].
Proof.
  unfold Sip.load_word. cbn [fold_left SipSpec.le_word].
  change (Sip.byte_at (b0 :: b1 :: b2 :: b3 :: b4 :: b5 :: b6 :: b7 :: rest)
            (0 + 0)) with (Sip.byte_val b0).
  change (Sip.byte_at (b0 :: b1 :: b2 :: b3 :: b4 :: b5 :: b6 :: b7 :: rest)
            (0 + 1)) with (Sip.byte_val b1).
  change (Sip.byte_at (b0 :: b1 :: b2 :: b3 :: b4 :: b5 :: b6 :: b7 :: rest)
            (0 + 2)) with (Sip.byte_val b2).
  change (Sip.byte_at (b0 :: b1 :: b2 :: b3 :: b4 :: b5 :: b6 :: b7 :: rest)
            (0 + 3)) with (Sip.byte_val b3).
  change (Sip.byte_at (b0 :: b1 :: b2 :: b3 :: b4 :: b5 :: b6 :: b7 :: rest)
            (0 + 4)) with (Sip.byte_val b4).
  change (Sip.byte_at (b0 :: b1 :: b2 :: b3 :: b4 :: b5 :: b6 :: b7 :: rest)
            (0 + 5)) with (Sip.byte_val b5).
  change (Sip.byte_at (b0 :: b1 :: b2 :: b3 :: b4 :: b5 :: b6 :: b7 :: rest)
            (0 + 6)) with (Sip.byte_val b6).
  change (Sip.byte_at (b0 :: b1 :: b2 :: b3 :: b4 :: b5 :: b6 :: b7 :: rest)
            (0 + 7)) with (Sip.byte_val b7).
  pose proof (sip_byte_val_range b0). pose proof (sip_byte_val_range b1).
  pose proof (sip_byte_val_range b2). pose proof (sip_byte_val_range b3).
  pose proof (sip_byte_val_range b4). pose proof (sip_byte_val_range b5).
  pose proof (sip_byte_val_range b6). pose proof (sip_byte_val_range b7).
  rewrite !sip_shl_byte by lia.
  change (0 * 8) with 0. change (1 * 8) with 8. change (2 * 8) with 16.
  change (3 * 8) with 24. change (4 * 8) with 32. change (5 * 8) with 40.
  change (6 * 8) with 48. change (7 * 8) with 56.
  generalize dependent (Sip.byte_val b0). generalize dependent (Sip.byte_val b1).
  generalize dependent (Sip.byte_val b2). generalize dependent (Sip.byte_val b3).
  generalize dependent (Sip.byte_val b4). generalize dependent (Sip.byte_val b5).
  generalize dependent (Sip.byte_val b6). generalize dependent (Sip.byte_val b7).
  intros.
  sip_lor_low_high. lia.
Qed.

Lemma sip_tail_word pre trailing :
  Z.of_nat (length pre) mod 8 = 0 -> (length trailing < 8)%nat ->
  Sip.tail_word (pre ++ trailing) (Z.of_nat (length (pre ++ trailing)))
  = SipSpec.padding (Z.of_nat (length (pre ++ trailing))) trailing.
Proof.
  intros Hp Ht. unfold Sip.tail_word, SipSpec.padding.
  set (len := Z.of_nat (length (pre ++ trailing))).
  assert (Hlen : len = Z.of_nat (length pre) + Z.of_nat (length trailing))
    by (subst len; rewrite length_app; lia).
  assert (Hsel : Z.land len 7 = Z.of_nat (length trailing)).
  { change 7 with (Z.ones 3). rewrite Z.land_ones by lia.
    change (2 ^ 3) with 8. rewrite Hlen. Z.div_mod_to_equations; lia. }
  assert (Hts : Z.land len (Z.lnot 7) = Z.of_nat (length pre)).
  { rewrite <- Z.ldiff_land. change 7 with (Z.ones 3).
    rewrite Z.ldiff_ones_r by lia.
    rewrite Z.shiftr_div_pow2, Z.shiftl_mul_pow2 by lia.
    change (2 ^ 3) with 8. Z.div_mod_to_equations; lia. }
  assert (Hsh : U64.shl len 56 = (len mod 256) * 2 ^ 56).
  { unfold U64.shl, U64.wrap, U64.modulus.
    rewrite Z.shiftl_mul_pow2 by lia.
    change (2 ^ 64) with (256 * 2 ^ 56).
    rewrite Z.mul_mod_distr_r by lia. reflexivity. }
  cbv zeta. rewrite Hsel, Hts, Hsh.
  assert (HL : 0 <= len mod 256 < 256) by (apply Z.mod_pos_bound; lia).
  set (L := len mod 256) in *. clearbody L. clear Hlen Hsel Hts Hsh.
  destruct trailing as [|t0 [|t1 [|t2 [|t3 [|t4 [|t5 [|t6 [|t7 rest]]]]]]]];
    [| | | | | | | | simpl in Ht; lia];
    match goal with
    | |- context [Z.of_nat (length ?l)] =>
        let n := eval cbv in (Z.of_nat (length l)) in
        change (Z.of_nat (length l)) with n
    end;
    unfold Sip.tail_case;
    repeat match goal with
    | |- context [?j <=? ?n] =>
        let b := eval cbv in (j <=? n) in change (j <=? n) with b; cbv iota
    end;
    rewrite ?sip_byte_at_app by lia;
    cbn [SipSpec.le_word].
  all: unfold Sip.byte_at. all: simpl (_ !! _).
  all:   repeat match goal with
           | |- context [Sip.byte_val ?t] =>
               let x := fresh "x" in
               let Hx := fresh "Hx" in
               pose proof (sip_byte_val_range t) as Hx;
               set (x := Sip.byte_val t) in *; clearbody x
           end;
    rewrite ?sip_shl_byte by lia.
  all: try lia.

  all: sip_lor_high_low.
  all: lia.
Qed.

(** Induction over a byte string, eight bytes at a time. *)
Lemma sip_list_ind8 (P : list byte -> Prop) :
  (forall l, (length l < 8)%nat -> P l) ->
  (forall b0 b1 b2 b3 b4 b5 b6 b7 rest,
     P rest -> P (b0 :: b1 :: b2 :: b3 :: b4 :: b5 :: b6 :: b7 :: rest)) ->
  forall l, P l.
Proof.
  intros Hshort Hstep l.
  remember (length l) as n eqn:Hn.
  revert l Hn. induction n as [n IH] using lt_wf_ind. intros l Hn.
  destruct l as [|b0 [|b1 [|b2 [|b3 [|b4 [|b5 [|b6 [|b7 rest]]]]]]]];
    try (apply Hshort; simpl; lia).
  apply Hstep. apply (IH (length rest)); [subst n; simpl; lia | reflexivity].
Qed.

Lemma sip_absorb_short l s :
  (length l < 8)%nat -> SipSpec.absorb l s = (s, l).
Proof.
  intros Hl.
  destruct l as [|b0 [|b1 [|b2 [|b3 [|b4 [|b5 [|b6 [|b7 rest]]]]]]]];
    try reflexivity.
  simpl in Hl. lia.
Qed.

Lemma sip_le_word_range8 b0 b1 b2 b3 b4 b5 b6 b7 :
  0 <= SipSpec.le_word [b0; b1; b2; b3; b4; b5; b6; b7] < 2 ^ 64.
Proof.
  cbn [SipSpec.le_word].
  pose proof (sip_byte_val_range b0). pose proof (sip_byte_val_range b1).
  pose proof (sip_byte_val_range b2). pose proof (sip_byte_val_range b3).
  pose proof (sip_byte_val_range b4). pose proof (sip_byte_val_range b5).
  pose proof (sip_byte_val_range b6). pose proof (sip_byte_val_range b7).
  lia.
Qed.

(** The loop over the full words is [absorb], and leaves the trailing
    bytes. *)
Lemma sip_chunk_loop_absorb rest :
  forall pre s fuel,
    (length rest <= fuel)%nat ->
    Z.of_nat (length pre) mod 8 = 0 ->
    sip_in_range s ->
    let len := Z.of_nat (length (pre ++ rest)) in
    exists pre' trailing,
      SipSpec.absorb rest s
        = (Sip.chunk_loop fuel (pre ++ rest) (len - len mod 8)
             (Z.of_nat (length pre)) s, trailing) /\
      pre ++ rest = pre' ++ trailing /\
      Z.of_nat (length pre') mod 8 = 0 /\
      (length trailing < 8)%nat /\
      sip_in_range (fst (SipSpec.absorb rest s)).
Proof.
  induction rest as [l Hl | b0 b1 b2 b3 b4 b5 b6 b7 rest IH]
    using sip_list_ind8; intros pre s fuel Hfuel Hpre Hs len.
  - exists pre, l. rewrite sip_absorb_short by exact Hl. cbn [fst].
    split;
      [| split; [reflexivity
                | split; [exact Hpre | split; [exact Hl | exact Hs]]]].
    f_equal. destruct fuel as [|fuel]; [reflexivity |].
    cbn [Sip.chunk_loop].
    replace (Z.of_nat (length pre) <? len - len mod 8) with false;
      [reflexivity |].
    symmetry. apply Z.ltb_ge. subst len. rewrite length_app.
    Z.div_mod_to_equations; lia.
  - destruct fuel as [|fuel]; [simpl in Hfuel; lia |].
    cbn [Sip.chunk_loop SipSpec.absorb].
    replace (Z.of_nat (length pre) <? len - len mod 8) with true.
    2:{ symmetry. apply Z.ltb_lt. subst len. rewrite length_app.
        cbn [length]. Z.div_mod_to_equations; lia. }
    pose (chunk := [b0; b1; b2; b3; b4; b5; b6; b7]).
    assert (Hword :
      Sip.load_word (pre ++ b0 :: b1 :: b2 :: b3 :: b4 :: b5 :: b6 :: b7 :: rest)
        (Z.of_nat (length pre)) = SipSpec.le_word chunk).
    { unfold chunk.
      rewrite <- (sip_load_word_le b0 b1 b2 b3 b4 b5 b6 b7 rest).
      unfold Sip.load_word. cbn [fold_left].
      rewrite !sip_byte_at_app by lia. reflexivity. }
    rewrite Hword.
    destruct (sip_absorb_word_spec s (SipSpec.le_word chunk) Hs
                (sip_le_word_range8 b0 b1 b2 b3 b4 b5 b6 b7)) as [-> Hs'].
    specialize (IH (pre ++ chunk) (SipSpec.compress s (SipSpec.le_word chunk))
                  fuel).
    assert (Happ : (pre ++ chunk) ++ rest
                   = pre ++ b0 :: b1 :: b2 :: b3 :: b4 :: b5 :: b6 :: b7 :: rest)
      by (rewrite <- app_assoc; reflexivity).
    rewrite Happ in IH.
    replace (Z.of_nat (length (pre ++ chunk)))
      with (Z.of_nat (length pre) + 8) in IH
      by (rewrite length_app; simpl; lia).
    apply IH; [simpl in Hfuel; lia | | exact Hs'].
    Z.div_mod_to_equations; lia.
Qed.

(** C4. [Sip13Hasher::hash] is SipHash-1-3 of the byte view under the seeds
    [(k0, k1)]: the state starts from the four constants XORed with the
    seeds; each full little-endian word is XORed into [v3], mixed by one
    round and XORed into [v0]; the padding word carries the trailing bytes
    and the length modulo 256 in its top byte and goes the same way; [0xff]
    is XORed into [v2], three rounds follow, and the result is the XOR of the
    four words.  The round rotates by 13, 32, 16, 21, 17, 32. *)
Theorem sip13_hash_is_siphash13 (k0 k1 : Z) (bytes : list byte) :
  0 <= k0 < 2 ^ 64 -> 0 <= k1 < 2 ^ 64 ->
  Sip.hash_bytes_with k0 k1 bytes = SipSpec.siphash13 k0 k1 bytes.
Proof.
  intros Hk0 Hk1.
  assert (Hinit : sip_in_range (SipSpec.initial k0 k1)).
  { unfold sip_in_range, SipSpec.initial. cbn [Sip.v0 Sip.v1 Sip.v2 Sip.v3].
    split; split; apply u64_lxor_range; lia. }
  destruct (sip_chunk_loop_absorb bytes [] (SipSpec.initial k0 k1)
              (length bytes) (le_n _) eq_refl Hinit)
    as (pre & trailing & Habs & Hsplit & Hpre & Htr & Hs).
  cbn [app length Z.of_nat] in Habs, Hsplit.
  unfold SipSpec.siphash13. rewrite Habs in *. cbn [fst] in Hs.
  unfold Sip.hash_bytes_with.
  change (Sip.State (Z.lxor 0x736f6d6570736575 k0)
            (Z.lxor 0x646f72616e646f6d k1) (Z.lxor 0x6c7967656e657261 k0)
            (Z.lxor 0x7465646279746573 k1)) with (SipSpec.initial k0 k1).
  cbv zeta.
  set (s := Sip.chunk_loop _ _ _ _ _) in *.
  assert (Htail : Sip.tail_word bytes (Z.of_nat (length bytes))
                  = SipSpec.padding (Z.of_nat (length bytes)) trailing).
  { rewrite Hsplit. apply sip_tail_word; assumption. }
  rewrite Htail.
  set (pad := SipSpec.padding _ _).
  assert (Hpad : 0 <= pad < 2 ^ 64).
  { subst pad. unfold SipSpec.padding.
    assert (0 <= Z.of_nat (length bytes) mod 256 < 256)
      by (apply Z.mod_pos_bound; lia).
    assert (0 <= SipSpec.le_word trailing < 2 ^ 56).
    { clear -Htr.
      destruct trailing as [|t0 [|t1 [|t2 [|t3 [|t4 [|t5 [|t6 [|t7 r]]]]]]]];
        [| | | | | | | | simpl in Htr; lia]; cbn [SipSpec.le_word];
        repeat match goal with
               | |- context [Sip.byte_val ?t] =>
                   let x := fresh "x" in
                   pose proof (sip_byte_val_range t);
                   set (x := Sip.byte_val t) in *; clearbody x
               end; lia. }
    lia. }
  destruct (sip_absorb_word_spec s pad Hs Hpad) as [-> Hs'].
  unfold SipSpec.finalize.
  set (s1 := SipSpec.compress s pad) in *.
  assert (Hs2 : sip_in_range
            (Sip.State (Sip.v0 s1) (Sip.v1 s1) (Z.lxor (Sip.v2 s1) 255)
               (Sip.v3 s1))).
  { destruct Hs' as [[? ?] [? ?]]. unfold sip_in_range.
    cbn [Sip.v0 Sip.v1 Sip.v2 Sip.v3].
    split; split; try assumption. apply u64_lxor_range; lia. }
  destruct (sip_sipround_spec _ Hs2) as [-> Hs3].
  destruct (sip_sipround_spec _ Hs3) as [-> Hs4].
  destruct (sip_sipround_spec _ Hs4) as [-> _].
  reflexivity.
Qed.

Lemma sip13_hash_is_siphash13_witness :
  Sip.hash_bytes_with Sip.default_k0 Sip.default_k1 [x00; x01; x02]
  = SipSpec.siphash13 Sip.default_k0 Sip.default_k1 [x00; x01; x02].
Proof.
  apply sip13_hash_is_siphash13; unfold Sip.default_k0, Sip.default_k1; lia.
Defined.

(** The first two test vectors of SipHash-1-3 (key [00 .. 0f]; the empty
    input and the single byte [00]), and a 15-byte input. *)
Example sip_vector_empty :
  Sip.hash_bytes_with Sip.default_k0 Sip.default_k1 [] = 0xabac0158050fc4dc.
Proof. vm_compute. reflexivity. Qed.

Example sip_vector_one_byte :
  Sip.hash_bytes_with Sip.default_k0 Sip.default_k1 [x00]
  = 0xc9f49bf37d57ca93.
Proof. vm_compute. reflexivity. Qed.

Example sip_vector_15_bytes :
  Sip.hash_bytes_with Sip.default_k0 Sip.default_k1
    [x00; x01; x02; x03; x04; x05; x06; x07; x08; x09; x0a; x0b; x0c; x0d; x0e]
  = 0xd320d86d2a519956.
Proof. vm_compute. reflexivity. Qed.

(** ** Vectors and remainders *)

Lemma vector_at_inv {A : Type} (l : list A) i a :
  vector_at l i = Value a -> 0 <= i /\ l !! Z.to_nat i = Some a.
Proof.
  unfold vector_at. destruct (i <? 0) eqn:Hi; [discriminate |].
  apply Z.ltb_ge in Hi.
  destruct (l !! Z.to_nat i) eqn:Hl; [| discriminate].
  intros [= ->]. auto.
Qed.

Lemma vector_at_lookup {A : Type} (l : list A) i a :
  0 <= i -> l !! Z.to_nat i = Some a -> vector_at l i = Value a.
Proof.
  intros Hi Hl. unfold vector_at.
  destruct (i <? 0) eqn:Hlt; [apply Z.ltb_lt in Hlt; lia |].
  rewrite Hl. reflexivity.
Qed.

Lemma vector_at_in_range {A : Type} (l : list A) i :
  0 <= i < Z.of_nat (length l) ->
  exists a, l !! Z.to_nat i = Some a /\ vector_at l i = Value a.
Proof.
  intros Hi.
  destruct (lookup_lt_is_Some_2 l (Z.to_nat i)) as [a Ha]; [lia |].
  exists a. split; [exact Ha | apply vector_at_lookup; [lia | exact Ha]].
Qed.

Lemma list_alter_insert_at {A : Type} (g : A -> A) (l : list A) i a :
  l !! i = Some a -> alter g i l = <[i := g a]> l.
Proof.
  intros Hi. rewrite list_insert_alter. apply list_alter_ext; [| reflexivity].
  intros x Hx. congruence.
Qed.

Lemma list_alter_id_at {A : Type} (g : A -> A) (l : list A) i :
  l !! i = None -> alter g i l = l.
Proof.
  revert i. induction l as [| a l IH]; intros [| i] Hi; simpl in *;
    try reflexivity; try discriminate.
  f_equal. apply IH. exact Hi.
Qed.

Lemma vector_new_inv {A : Type} n (a : A) t :
  vector_new n a = Some t ->
  n <= U64.vector_max_size /\ t = replicate (Z.to_nat n) a.
Proof.
  unfold vector_new. destruct (n <=? U64.vector_max_size) eqn:Hn;
    [| discriminate].
  apply Z.leb_le in Hn. intros [= <-]. auto.
Qed.

Lemma u64_rem_value a b : b <> 0 -> u64_rem a b = Value (a mod b).
Proof.
  intros Hb. unfold u64_rem.
  destruct (b =? 0) eqn:E; [apply Z.eqb_eq in E; contradiction | reflexivity].
Qed.

Lemma u64_rem_inv a b r : u64_rem a b = Value r -> b <> 0 /\ r = a mod b.
Proof.
  unfold u64_rem. destruct (b =? 0) eqn:E; [discriminate |].
  apply Z.eqb_neq in E. intros [= <-]. auto.
Qed.

(** ** Calls in sequence *)

Lemma outcome_bind_returns {M A B : Type} (c : outcome M A)
    (k : A -> M -> outcome M B) b m' :
  outcome_bind c k = Returns b m' ->
  exists a m1, c = Returns a m1 /\ k a m1 = Returns b m'.
Proof. destruct c as [a m1 | |]; try discriminate. cbn. eauto. Qed.

Lemma outcome_bind_throws {M A B : Type} (c : outcome M A)
    (k : A -> M -> outcome M B) e m' :
  outcome_bind c k = Throws e m' ->
  c = Throws e m' \/ exists a m1, c = Returns a m1 /\ k a m1 = Throws e m'.
Proof.
  destruct c as [a m1 | e1 m1 |]; cbn; try discriminate.
  - intros Hk. right. eauto.
  - intros [= -> ->]. left. reflexivity.
Qed.

Lemma ensures_bind {M A B : Type} (c : outcome M A)
    (k : A -> M -> outcome M B) (Q1 : A -> M -> Prop)
    (Q2 : B -> M -> Prop) (E1 E2 : exn -> M -> Prop) :
  ensures c Q1 E1 ->
  (forall e m, E1 e m -> E2 e m) ->
  (forall a m, Q1 a m -> ensures (k a m) Q2 E2) ->
  ensures (outcome_bind c k) Q2 E2.
Proof. destruct c as [a m | e m |]; cbn; auto. Qed.

Lemma ensures_weaken {M A : Type} (c : outcome M A)
    (Q1 Q2 : A -> M -> Prop) (E1 E2 : exn -> M -> Prop) :
  ensures c Q1 E1 ->
  (forall a m, Q1 a m -> Q2 a m) -> (forall e m, E1 e m -> E2 e m) ->
  ensures c Q2 E2.
Proof. destruct c as [a m | e m |]; cbn; auto. Qed.

Lemma ensures_returns {M A : Type} (c : outcome M A) Q E a m :
  ensures c Q E -> c = Returns a m -> Q a m.
Proof. intros Hc ->. exact Hc. Qed.

Lemma ensures_throws {M A : Type} (c : outcome M A) Q E e m :
  ensures c Q E -> c = Throws e m -> E e m.
Proof. intros Hc ->. exact Hc. Qed.

Lemma u64_add_small x y :
  0 <= x -> 0 <= y -> x + y < U64.modulus -> U64.add x y = x + y.
Proof. intros. unfold U64.add. apply u64_wrap_small. lia. Qed.

Lemma u64_sub_small x y :
  0 <= y <= x -> x < U64.modulus -> U64.sub x y = x - y.
Proof. intros. unfold U64.sub. apply u64_wrap_small. lia. Qed.

Lemma u64_double_small c :
  0 <= c <= U64.vector_max_size -> U64.mul c 2 = 2 * c.
Proof.
  intros Hc. unfold U64.mul. rewrite u64_wrap_small; [lia |].
  unfold U64.modulus, U64.vector_max_size in *. lia.
Qed.

(** ** Probe sequences *)

Lemma probe_succ h j c :
  0 < c <= U64.vector_max_size ->
  U64.add ((h + j) mod c) 1 mod c = (h + (j + 1)) mod c.
Proof.
  intros Hc. unfold U64.add.
  pose proof (Z.mod_pos_bound (h + j) c ltac:(lia)) as Hm.
  rewrite u64_wrap_small
    by (unfold U64.modulus, U64.vector_max_size in *; lia).
  rewrite Z.add_mod_idemp_l by lia. f_equal. lia.
Qed.

Lemma probe_inj h i j c :
  0 < c -> 0 <= i < c -> 0 <= j < c ->
  (h + i) mod c = (h + j) mod c -> i = j.
Proof.
  intros Hc Hi Hj Heq.
  assert (Hd : (i - j) mod c = 0).
  { replace (i - j) with ((h + i) - (h + j)) by lia.
    rewrite Zminus_mod, Heq, Z.sub_diag. apply Z.mod_0_l. lia. }
  apply Z.mod_divide in Hd; [| lia].
  destruct Hd as [q Hq].
  assert (q = 0) by (destruct (Z.lt_trichotomy q 0) as [? | [? | ?]]; nia).
  subst q. lia.
Qed.

Lemma probe_wrap h j c :
  0 < c -> 0 < j <= c -> ((h + j) mod c = h mod c <-> j = c).
Proof.
  intros Hc Hj. split.
  - intros Heq. destruct (Z.eq_dec j c) as [| Hne]; [assumption |].
    assert (j = 0); [| lia].
    apply (probe_inj h j 0 c); try lia. rewrite Z.add_0_r. exact Heq.
  - intros ->. rewrite <- (Z.mul_1_l c) at 1. apply Z_mod_plus_full.
Qed.

(** ** [schashmap.hpp] *)

Section ScProperties.

Context {K V : Type} `{EqDecision K}.
Context (hash : K -> Z) (default_value : V).

Local Abbreviation map := (@Sc.map K V).
Local Abbreviation Entry := (@Sc.Entry K V).
Local Abbreviation Bucket := (list Entry).
Local Abbreviation reachable := (Sc.reachable hash default_value).

Implicit Types (m : map) (k : K) (v : V) (e : Entry) (b : Bucket)
  (bs : list Bucket).

Lemma sc_total_insert bs i b b' :
  bs !! i = Some b ->
  Z.of_nat (length (concat (<[i := b']> bs)))
  = Z.of_nat (length (concat bs)) - Z.of_nat (length b)
    + Z.of_nat (length b').
Proof.
  revert i. induction bs as [| a bs IH]; intros i Hi; [discriminate |].
  destruct i as [| i]; simpl in Hi |- *.
  - injection Hi as ->. rewrite !length_app. lia.
  - rewrite !length_app, Nat2Z.inj_add, (IH i Hi), Nat2Z.inj_add. lia.
Qed.

Lemma sc_total_bucket bs i b :
  bs !! i = Some b -> Z.of_nat (length b) <= Z.of_nat (length (concat bs)).
Proof.
  revert i. induction bs as [| a bs IH]; intros i Hi; [discriminate |].
  destruct i as [| i]; simpl in Hi |- *; rewrite length_app.
  - injection Hi as ->. lia.
  - specialize (IH i Hi). lia.
Qed.

Lemma sc_total_replicate n :
  concat (replicate n ([] : Bucket)) = [].
Proof. induction n as [| n IH]; [reflexivity | exact IH]. Qed.

Lemma sc_total_clear bs :
  concat (List.map (fun _ : Bucket => ([] : Bucket)) bs) = [].
Proof. induction bs as [| a bs IH]; [reflexivity | exact IH]. Qed.

(** [bucket_find] returns the first entry of the key. *)
Lemma sc_bucket_find_some k b j :
  Sc.bucket_find k b = Some j ->
  exists e, b !! j = Some e /\ Sc.key e = k.
Proof.
  revert j. induction b as [| a b IH]; intros j Hj; [discriminate |].
  cbn [Sc.bucket_find] in Hj.
  destruct (bool_decide (Sc.key a = k)) eqn:Ha.
  - injection Hj as <-. apply bool_decide_eq_true in Ha. exists a. auto.
  - destruct (Sc.bucket_find k b) as [j' |]; [| discriminate].
    injection Hj as <-. destruct (IH j' eq_refl) as (e & He & Hk).
    exists e. auto.
Qed.

Lemma sc_bucket_find_append k v b :
  Sc.bucket_find k b = None ->
  Sc.bucket_find k (b ++ [Sc.mkEntry k v]) = Some (length b).
Proof.
  induction b as [| a b IH]; intros Hb; cbn [Sc.bucket_find app length].
  - rewrite bool_decide_eq_true_2 by reflexivity. reflexivity.
  - cbn [Sc.bucket_find] in Hb.
    destruct (bool_decide (Sc.key a = k)); [discriminate |].
    destruct (Sc.bucket_find k b); [discriminate |].
    rewrite IH by reflexivity. reflexivity.
Qed.

Lemma sc_bucket_find_set_value k v b j :
  Sc.bucket_find k (alter (fun e => Sc.mkEntry (Sc.key e) v) j b)
  = Sc.bucket_find k b.
Proof.
  revert j. induction b as [| a b IH]; intros j; [reflexivity |].
  destruct j as [| j]; [reflexivity |].
  change (alter (fun e => Sc.mkEntry (Sc.key e) v) (S j) (a :: b))
    with (a :: alter (fun e => Sc.mkEntry (Sc.key e) v) j b).
  cbn [Sc.bucket_find]. rewrite IH. reflexivity.
Qed.

Lemma sc_get_bucket_index m k :
  Sc.shaped m ->
  Sc.get_bucket_index hash m k = Value (hash k mod Sc.capacity m) /\
  0 <= hash k mod Sc.capacity m < Sc.capacity m.
Proof.
  intros [_ Hcap]. unfold Sc.get_bucket_index.
  rewrite u64_rem_value by lia. split; [reflexivity |].
  apply Z.mod_pos_bound. lia.
Qed.

Lemma sc_bucket_exists m k :
  Sc.shaped m ->
  exists b, Sc.buckets m !! Z.to_nat (hash k mod Sc.capacity m) = Some b /\
            vector_at (Sc.buckets m) (hash k mod Sc.capacity m) = Value b.
Proof.
  intros Hsh. pose proof Hsh as [Hlen Hcap].
  apply vector_at_in_range. rewrite Hlen.
  apply (sc_get_bucket_index m k Hsh).
Qed.


(** What [inner_insert] does: it overwrites the value of the first entry
    of the key in the bucket of the key, or appends a new entry there. *)
Lemma sc_inner_insert_cases m k v :
  Sc.shaped m ->
  exists b,
    Sc.buckets m !! Z.to_nat (hash k mod Sc.capacity m) = Some b /\
    ((exists j, Sc.bucket_find k b = Some j /\
                Sc.inner_insert hash k v m
                = Returns tt (Sc.set_value m (hash k mod Sc.capacity m) j v))
     \/
     (Sc.bucket_find k b = None /\
      Sc.inner_insert hash k v m
      = Returns tt
          (Sc.Map (<[Z.to_nat (hash k mod Sc.capacity m)
                     := b ++ [Sc.mkEntry k v]]> (Sc.buckets m))
                  (U64.add (Sc.size_count m) 1) (Sc.capacity m)))).
Proof.
  intros Hsh. destruct (sc_bucket_exists m k Hsh) as (b & Hb & Hat).
  exists b. split; [exact Hb |]. unfold Sc.inner_insert.
  rewrite (proj1 (sc_get_bucket_index m k Hsh)). cbn [on outcome_bind].
  rewrite Hat. cbn [on outcome_bind].
  destruct (Sc.bucket_find k b) as [j |]; [left; exists j | right]; auto.
Qed.

Lemma sc_inner_insert_ensures m k v :
  Sc.wf m -> Sc.size_count m < U64.vector_max_size ->
  ensures (Sc.inner_insert hash k v m)
    (fun _ m' =>
       Sc.wf m' /\ Sc.capacity m' = Sc.capacity m /\
       Sc.size_count m <= Sc.size_count m' <= Sc.size_count m + 1)
    (fun _ _ => False).
Proof.
  intros [Hsh Hsize] Hmax. pose proof Hsh as [Hlen Hcap].
  destruct (sc_inner_insert_cases m k v Hsh)
    as (b & Hb & [(j & Hj & ->) | (Hnone & ->)]); cbn [ensures].
  - unfold Sc.wf, Sc.shaped, Sc.entries, Sc.set_value, Sc.set_buckets in *.
    cbn [Sc.buckets Sc.capacity Sc.size_count].
    rewrite length_alter, (list_alter_insert_at _ _ _ _ Hb).
    rewrite (sc_total_insert _ _ _ _ Hb), length_alter.
    repeat split; lia.
  - unfold Sc.wf, Sc.shaped, Sc.entries in *.
    cbn [Sc.buckets Sc.capacity Sc.size_count].
    rewrite length_insert, (sc_total_insert _ _ _ _ Hb), length_app.
    cbn [length].
    rewrite u64_add_small
      by (unfold U64.modulus, U64.vector_max_size in *; lia).
    repeat split; lia.
Qed.

Lemma sc_inner_insert_at m k v m' :
  Sc.shaped m ->
  Sc.inner_insert hash k v m = Returns tt m' ->
  Sc.at_ hash m' k = Value v /\ Sc.contains_key hash m' k = Value true.
Proof.
  intros Hsh Hins. pose proof Hsh as [Hlen Hcap].
  pose proof (sc_get_bucket_index m k Hsh) as [Hidx Hrange].
  set (idx := hash k mod Sc.capacity m) in *.
  assert (Hlt : (Z.to_nat idx < length (Sc.buckets m))%nat) by lia.
  destruct (sc_inner_insert_cases m k v Hsh)
    as (b & Hb & [(j & Hj & Hr) | (Hnone & Hr)]);
    rewrite Hr in Hins; injection Hins as <-;
    unfold Sc.at_, Sc.at_ref, Sc.contains_key, Sc.get_bucket_index,
      Sc.read, Sc.set_value, Sc.set_buckets;
    cbn [Sc.buckets Sc.capacity]; rewrite u64_rem_value by lia;
    fold idx; cbn [result_bind].
  - rewrite (list_alter_insert_at _ _ _ _ Hb).
    rewrite (vector_at_lookup _ idx
               (alter (fun e => Sc.mkEntry (Sc.key e) v) j b));
      [| lia | apply list_lookup_insert_eq; exact Hlt].
    cbn [result_bind]. rewrite sc_bucket_find_set_value, Hj.
    cbn [result_bind fst snd].
    rewrite (vector_at_lookup _ idx
               (alter (fun e => Sc.mkEntry (Sc.key e) v) j b));
      [| lia | apply list_lookup_insert_eq; exact Hlt].
    cbn [result_bind].
    destruct (sc_bucket_find_some k b j Hj) as (e & He & _).
    rewrite list_lookup_alter_eq, He. split; [reflexivity |].
    rewrite bool_decide_eq_true_2 by eauto. reflexivity.
  - rewrite (vector_at_lookup _ idx (b ++ [Sc.mkEntry k v]));
      [| lia | apply list_lookup_insert_eq; exact Hlt].
    cbn [result_bind]. rewrite (sc_bucket_find_append k v b Hnone).
    cbn [result_bind fst snd].
    rewrite (vector_at_lookup _ idx (b ++ [Sc.mkEntry k v]));
      [| lia | apply list_lookup_insert_eq; exact Hlt].
    cbn [result_bind].
    rewrite lookup_app_r, Nat.sub_diag by lia. split; [reflexivity |].
    rewrite bool_decide_eq_true_2 by eauto. reflexivity.
Qed.

Lemma sc_reinsert_bucket_ensures bucket :
  forall m,
    Sc.wf m ->
    Sc.size_count m + Z.of_nat (length bucket) <= U64.vector_max_size ->
    ensures (Sc.reinsert_bucket hash bucket m)
      (fun _ m' =>
         Sc.wf m' /\ Sc.capacity m' = Sc.capacity m /\
         Sc.size_count m <= Sc.size_count m'
           <= Sc.size_count m + Z.of_nat (length bucket))
      (fun _ _ => False).
Proof.
  induction bucket as [| entry rest IH]; intros m Hwf Hmax;
    cbn [Sc.reinsert_bucket length] in *.
  - cbn [ensures]. split; [exact Hwf | lia].
  - eapply ensures_bind;
      [apply (sc_inner_insert_ensures m _ _ Hwf); lia | auto |].
    intros _ m1 (Hwf1 & Hc1 & Hs1). cbn beta.
    eapply ensures_weaken; [apply (IH m1 Hwf1); lia | | auto].
    cbn beta. intros _ m2 (Hwf2 & Hc2 & Hs2). split; [exact Hwf2 | lia].
Qed.

Lemma sc_reinsert_ensures old :
  forall m,
    Sc.wf m ->
    Sc.size_count m + Z.of_nat (length (concat old))
      <= U64.vector_max_size ->
    ensures (Sc.reinsert hash old m)
      (fun _ m' =>
         Sc.wf m' /\ Sc.capacity m' = Sc.capacity m /\
         Sc.size_count m <= Sc.size_count m'
           <= Sc.size_count m + Z.of_nat (length (concat old)))
      (fun _ _ => False).
Proof.
  induction old as [| bucket rest IH]; intros m Hwf Hmax;
    cbn [Sc.reinsert concat] in *.
  - cbn [ensures length]. split; [exact Hwf | lia].
  - rewrite length_app in *.
    eapply ensures_bind;
      [apply (sc_reinsert_bucket_ensures bucket m Hwf); lia | auto |].
    intros _ m1 (Hwf1 & Hc1 & Hs1). cbn beta.
    eapply ensures_weaken; [apply (IH m1 Hwf1); lia | | auto].
    cbn beta. intros _ m2 (Hwf2 & Hc2 & Hs2). split; [exact Hwf2 | lia].
Qed.

Lemma sc_fresh_wf c bs :
  0 < c -> vector_new c ([] : Bucket) = Some bs -> Sc.wf (Sc.Map bs 0 c).
Proof.
  intros Hc Hbs. apply vector_new_inv in Hbs as [Hmax ->].
  unfold Sc.wf, Sc.shaped, Sc.entries.
  cbn [Sc.buckets Sc.capacity Sc.size_count].
  rewrite length_replicate, sc_total_replicate. cbn [length].
  repeat split; lia.
Qed.

Lemma sc_resize_ensures m :
  Sc.inv m ->
  ensures (Sc.resize hash m)
    (fun _ m' =>
       Sc.wf m' /\ Sc.capacity m' = 2 * Sc.capacity m /\
       Sc.size_count m' <= Sc.size_count m)
    (fun ex _ => ex = length_error).
Proof.
  intros [Hwf Hload]. pose proof Hwf as ((Hlen & Hcap) & Hsize).
  unfold Sc.within_load, Sc.entries in *.
  unfold Sc.resize. rewrite u64_double_small by lia.
  destruct (vector_new (2 * Sc.capacity m) ([] : Bucket)) as [bs |] eqn:Hbs;
    [| reflexivity].
  assert (Hfresh : Sc.wf (Sc.Map bs 0 (2 * Sc.capacity m)))
    by (apply sc_fresh_wf; [lia | exact Hbs]).
  eapply ensures_weaken;
    [apply (sc_reinsert_ensures (Sc.buckets m) _ Hfresh) | |
     cbn beta; contradiction].
  - cbn [Sc.size_count]. lia.
  - cbn beta. cbn [Sc.size_count Sc.capacity].
    intros _ m' (Hwf' & Hc' & Hs'). split; [exact Hwf' | lia].
Qed.

Lemma sc_insert_ensures m k v :
  Sc.inv m ->
  ensures (Sc.insert hash k v m)
    (fun _ m' => Sc.inv m') (fun ex _ => ex = length_error).
Proof.
  intros Hinv. pose proof Hinv as [Hwf Hload].
  pose proof Hwf as ((Hlen & Hcap) & Hsize).
  pose proof Hcap as Hcap'. unfold U64.vector_max_size in Hcap'.
  unfold Sc.within_load in Hload.
  assert (Hnn : 0 <= Sc.size_count m) by lia.
  unfold Sc.insert.
  eapply ensures_bind with
    (Q1 := fun _ m1 => Sc.wf m1 /\
             4 * (Sc.size_count m1 + 1) <= 3 * Sc.capacity m1)
    (E1 := fun ex _ => ex = length_error).
  - destruct (Sc.needs_resize m) eqn:Hneed.
    + eapply ensures_weaken; [apply (sc_resize_ensures m Hinv) | | auto].
      cbn beta. intros _ m1 (Hwf1 & Hc1 & Hs1).
      pose proof Hwf1 as (_ & Hsize1).
      split; [exact Hwf1 | lia].
    + cbn [ensures]. split; [exact Hwf |].
      unfold Sc.needs_resize, Sc.exceeds_max_load in Hneed.
      apply Z.ltb_ge in Hneed.
      rewrite u64_add_small in Hneed by (unfold U64.modulus; lia). lia.
  - auto.
  - intros _ m1 [Hwf1 Hload1]. cbn beta.
    pose proof Hwf1 as ((_ & Hcap1) & Hsize1).
    eapply ensures_weaken;
      [apply (sc_inner_insert_ensures m1 k v Hwf1); lia | |
       cbn beta; contradiction].
    cbn beta. intros _ m2 (Hwf2 & Hc2 & Hs2). split; [exact Hwf2 |].
    unfold Sc.within_load. lia.
Qed.

Lemma sc_insert_at m k v m' :
  Sc.inv m ->
  Sc.insert hash k v m = Returns tt m' ->
  Sc.at_ hash m' k = Value v /\ Sc.contains_key hash m' k = Value true.
Proof.
  intros Hinv Hins. unfold Sc.insert in Hins.
  apply outcome_bind_returns in Hins as ([] & m1 & Hpre & Hins).
  assert (Hwf1 : Sc.wf m1).
  { destruct (Sc.needs_resize m).
    - exact (proj1 (ensures_returns _ _ _ _ _
                      (sc_resize_ensures m Hinv) Hpre)).
    - injection Hpre as <-. exact (proj1 Hinv). }
  apply (sc_inner_insert_at m1 k v m' (proj1 Hwf1) Hins).
Qed.

End ScProperties.
Section ScProperties2.

Context {K V : Type} `{EqDecision K}.
Context (hash : K -> Z) (default_value : V).

Local Abbreviation map := (@Sc.map K V).
Local Abbreviation Entry := (@Sc.Entry K V).
Local Abbreviation Bucket := (list Entry).
Local Abbreviation reachable := (Sc.reachable hash default_value).

Implicit Types (m : map) (k : K) (v : V) (e : Entry) (b : Bucket)
  (bs : list Bucket).

Lemma sc_set_value_inv m i j v : Sc.inv m -> Sc.inv (Sc.set_value m i j v).
Proof.
  intros (((Hlen & Hcap) & Hsize) & Hload).
  unfold Sc.inv, Sc.wf, Sc.shaped, Sc.within_load, Sc.entries,
    Sc.set_value, Sc.set_buckets in *.
  cbn [Sc.buckets Sc.capacity Sc.size_count].
  rewrite length_alter.
  destruct (Sc.buckets m !! Z.to_nat i) as [b |] eqn:Hb.
  - rewrite (list_alter_insert_at _ _ _ _ Hb).
    rewrite (sc_total_insert _ _ _ _ Hb), length_alter.
    repeat split; lia.
  - rewrite (list_alter_id_at _ _ _ Hb). repeat split; lia.
Qed.

(** What [remove] does. *)
Lemma sc_remove_cases m k :
  Sc.shaped m ->
  exists b,
    Sc.buckets m !! Z.to_nat (hash k mod Sc.capacity m) = Some b /\
    ((Sc.bucket_find k b = None /\ Sc.remove hash k m = Returns None m)
     \/
     (exists j e,
        Sc.bucket_find k b = Some j /\ b !! j = Some e /\ Sc.key e = k /\
        Sc.remove hash k m
        = Returns (Some (Sc.value e))
            (Sc.Map (<[Z.to_nat (hash k mod Sc.capacity m)
                       := delete j b]> (Sc.buckets m))
                    (U64.sub (Sc.size_count m) 1) (Sc.capacity m)))).
Proof.
  intros Hsh. destruct (sc_bucket_exists hash m k Hsh) as (b & Hb & Hat).
  exists b. split; [exact Hb |]. unfold Sc.remove.
  rewrite (proj1 (sc_get_bucket_index hash m k Hsh)).
  cbn [on outcome_bind]. rewrite Hat. cbn [on outcome_bind].
  destruct (Sc.bucket_find k b) as [j |] eqn:Hj; [right | left; auto].
  destruct (sc_bucket_find_some k b j Hj) as (e & He & Hk).
  exists j, e. rewrite He. auto.
Qed.

Lemma sc_remove_ensures m k :
  Sc.inv m ->
  ensures (Sc.remove hash k m) (fun _ m' => Sc.inv m') (fun _ _ => False).
Proof.
  intros Hinv. pose proof Hinv as (((Hlen & Hcap) & Hsize) & Hload).
  destruct (sc_remove_cases m k (conj Hlen Hcap))
    as (b & Hb & [(_ & ->) | (j & e & _ & He & _ & ->)]);
    cbn [ensures]; [exact Hinv |].
  pose proof (sc_total_bucket _ _ _ Hb) as Htot.
  assert (Hpos : (1 <= length b)%nat)
    by (apply lookup_lt_Some in He; lia).
  pose proof Hcap as Hcap'. unfold U64.vector_max_size in Hcap'.
  unfold Sc.inv, Sc.wf, Sc.shaped, Sc.within_load, Sc.entries in *.
  cbn [Sc.buckets Sc.capacity Sc.size_count].
  rewrite length_insert, (sc_total_insert _ _ _ _ Hb).
  rewrite length_delete by eauto.
  rewrite u64_sub_small by (unfold U64.modulus; lia).
  repeat split; lia.
Qed.

Lemma sc_clear_inv m : Sc.inv m -> Sc.inv (Sc.clear m).
Proof.
  intros (((Hlen & Hcap) & Hsize) & Hload).
  unfold Sc.inv, Sc.wf, Sc.shaped, Sc.within_load, Sc.entries, Sc.clear
    in *.
  cbn [Sc.buckets Sc.capacity Sc.size_count].
  rewrite length_map, sc_total_clear. cbn [length]. repeat split; lia.
Qed.

Lemma sc_index_ref_ensures m k :
  Sc.inv m ->
  ensures (Sc.index_ref hash default_value k m)
    (fun _ m' => Sc.inv m')
    (fun ex m' => ex <> length_error -> Sc.inv m').
Proof.
  intros Hinv. pose proof Hinv as ((Hsh & _) & _).
  unfold Sc.index_ref.
  destruct (sc_bucket_exists hash m k Hsh) as (b & Hb & Hat).
  rewrite (proj1 (sc_get_bucket_index hash m k Hsh)).
  cbn [on outcome_bind]. rewrite Hat. cbn [on outcome_bind].
  destruct (Sc.bucket_find k b) as [j |]; [exact Hinv |].
  eapply ensures_bind;
    [apply (sc_insert_ensures hash m k default_value Hinv) | |].
  { cbn beta. intros ex m' -> Hne. contradiction. }
  intros [] m1 Hinv1. cbn beta.
  destruct (Sc.get_bucket_index hash m1 k) as [i | ex |];
    cbn [on outcome_bind ensures]; auto.
  destruct (vector_at (Sc.buckets m1) i) as [b1 | ex |];
    cbn [on outcome_bind ensures]; auto.
  destruct (Sc.bucket_find k b1); cbn [ensures]; auto.
Qed.

(** Every map that a program reaches satisfies the invariant. *)
Lemma sc_reachable_inv catching c m :
  0 < c -> reachable catching c m -> Sc.inv m.
Proof.
  intros Hc Hreach. induction Hreach as [m Hnew | m m' _ IH Hstep].
  - unfold Sc.new in Hnew.
    destruct (vector_new c ([] : Bucket)) as [bs |] eqn:Hbs;
      [| discriminate].
    injection Hnew as <-. split.
    + apply sc_fresh_wf; assumption.
    + unfold Sc.within_load. cbn. lia.
  - destruct Hstep as [k v m' Hins | k v ex m' _ Hins Hne | k r m' Hrem
                      | | k r m' Hidx | k ex m' _ Hidx Hne
                      | k r v Hat | k r m' v Hidx].
    + exact (ensures_returns _ _ _ _ _ (sc_insert_ensures hash m k v IH)
               Hins).
    + pose proof (ensures_throws _ _ _ _ _
                    (sc_insert_ensures hash m k v IH) Hins).
      contradiction.
    + exact (ensures_returns _ _ _ _ _ (sc_remove_ensures m k IH) Hrem).
    + apply sc_clear_inv. exact IH.
    + exact (ensures_returns _ _ _ _ _ (sc_index_ref_ensures m k IH) Hidx).
    + exact (ensures_throws _ _ _ _ _ (sc_index_ref_ensures m k IH)
               Hidx Hne).
    + apply sc_set_value_inv. exact IH.
    + apply sc_set_value_inv.
      exact (ensures_returns _ _ _ _ _ (sc_index_ref_ensures m k IH) Hidx).
Qed.

End ScProperties2.

(** ** [lphashmap.hpp] *)

Section LpProperties.

Context {K V : Type} `{EqDecision K}.
Context (hash : K -> Z) (default_key : K) (default_value : V).

Local Abbreviation map := (@Lp.map K V).
Local Abbreviation Entry := (@Lp.Entry K V).
Local Abbreviation probe := (Lp.probe hash).

Implicit Types (m : map) (k : K) (v : V) (e : Entry).

Lemma lp_probe_range m k j :
  0 < Lp.capacity m -> 0 <= probe m k j < Lp.capacity m.
Proof. intros Hc. unfold Lp.probe. apply Z.mod_pos_bound. lia. Qed.

Lemma lp_slot_exists m k j :
  Lp.shaped m ->
  exists e, Lp.table m !! Z.to_nat (probe m k j) = Some e /\
            vector_at (Lp.table m) (probe m k j) = Value e.
Proof.
  intros [Hlen Hcap]. apply vector_at_in_range.
  rewrite Hlen. apply lp_probe_range. lia.
Qed.

Lemma lp_get_hash m k :
  Lp.shaped m -> Lp.get_hash hash m k = Value (probe m k 0).
Proof.
  intros [_ Hcap]. unfold Lp.get_hash, Lp.probe.
  rewrite u64_rem_value by lia. rewrite Z.add_0_r. reflexivity.
Qed.

(** The loop of [find_slot_for_insert], started at the [j]-th slot of the
    probe with the rest of the round as fuel: it stops at the first slot
    that is not [Occupied] or holds the key, and throws when the round
    closes. *)
Lemma lp_insert_loop_spec m k :
  Lp.shaped m ->
  forall fuel j,
    Z.of_nat fuel + j = Lp.capacity m -> 0 <= j -> (0 < fuel)%nat ->
    exists j',
      j <= j' <= Lp.capacity m /\
      (forall i, j <= i < j' ->
         exists e, Lp.table m !! Z.to_nat (probe m k i) = Some e /\
                   Lp.is_occupied e = true /\ Lp.key e <> k) /\
      ((j' < Lp.capacity m /\
        (exists e, Lp.table m !! Z.to_nat (probe m k j') = Some e /\
                   (Lp.is_occupied e = false \/ Lp.key e = k)) /\
        Lp.find_slot_for_insert_loop fuel m k (probe m k 0) (probe m k j)
        = Value (probe m k j'))
       \/
       (j' = Lp.capacity m /\
        Lp.find_slot_for_insert_loop fuel m k (probe m k 0) (probe m k j)
        = Raise (runtime_error "Hash table is full"))).
Proof.
  intros Hsh. pose proof Hsh as [Hlen Hcap].
  induction fuel as [| fuel IH]; intros j Hj Hj0 Hfuel; [lia |].
  cbn [Lp.find_slot_for_insert_loop].
  destruct (lp_slot_exists m k j Hsh) as (e & He & ->).
  cbn [result_bind].
  destruct (Lp.is_occupied e) eqn:Hocc; cbn [negb].
  2:{ exists j. split; [lia |]. split; [intros i Hi; lia |].
      left. split; [lia |]. split; [| reflexivity].
      exists e. auto. }
  destruct (bool_decide (Lp.key e = k)) eqn:Hkey.
  { apply bool_decide_eq_true in Hkey.
    exists j. split; [lia |]. split; [intros i Hi; lia |].
    left. split; [lia |]. split; [| reflexivity].
    exists e. auto. }
  apply bool_decide_eq_false in Hkey.
  rewrite u64_rem_value by lia.
  unfold Lp.probe at 1. fold (Lp.probe hash m k j).
  cbn [result_bind].
  replace (U64.add (probe m k j) 1 mod Lp.capacity m)
    with (probe m k (j + 1)) by (symmetry; apply probe_succ; lia).
  assert (Hpassed : forall i, j <= i < j + 1 ->
            exists e, Lp.table m !! Z.to_nat (probe m k i) = Some e /\
                      Lp.is_occupied e = true /\ Lp.key e <> k).
  { intros i Hi. replace i with j by lia. exists e. auto. }
  destruct (bool_decide (probe m k (j + 1) <> probe m k 0)) eqn:Hback.
  - apply bool_decide_eq_true in Hback.
    assert (Hlt : j + 1 < Lp.capacity m).
    { destruct (Z.eq_dec (j + 1) (Lp.capacity m)) as [Heq |]; [| lia].
      exfalso. apply Hback. unfold Lp.probe. rewrite Z.add_0_r.
      apply probe_wrap; lia. }
    destruct (IH (j + 1)) as (j' & Hj' & Hpre & Hres); try lia.
    exists j'. split; [lia |]. split; [| exact Hres].
    intros i Hi. destruct (Z.eq_dec i j) as [-> |];
      [apply Hpassed; lia | apply Hpre; lia].
  - apply bool_decide_eq_false in Hback.
    assert (Heq : j + 1 = Lp.capacity m).
    { apply (probe_wrap (hash k)); [lia | lia |].
      destruct (Z.eq_dec (probe m k (j + 1)) (probe m k 0)) as [E | E];
        [| contradiction].
      unfold Lp.probe in E. rewrite Z.add_0_r in E. exact E. }
    exists (j + 1). split; [lia |]. split; [exact Hpassed |].
    right. split; [exact Heq | reflexivity].
Qed.


Lemma lp_find_slot_for_insert_spec m k :
  Lp.shaped m ->
  exists j,
    0 <= j <= Lp.capacity m /\
    (forall i, 0 <= i < j ->
       exists e, Lp.table m !! Z.to_nat (probe m k i) = Some e /\
                 Lp.is_occupied e = true /\ Lp.key e <> k) /\
    ((j < Lp.capacity m /\
      (exists e, Lp.table m !! Z.to_nat (probe m k j) = Some e /\
                 (Lp.is_occupied e = false \/ Lp.key e = k)) /\
      Lp.find_slot_for_insert hash m k = Value (probe m k j))
     \/
     (j = Lp.capacity m /\
      Lp.find_slot_for_insert hash m k
      = Raise (runtime_error "Hash table is full"))).
Proof.
  intros Hsh. pose proof Hsh as [Hlen Hcap].
  unfold Lp.find_slot_for_insert. rewrite lp_get_hash by assumption.
  cbn [result_bind].
  apply (lp_insert_loop_spec m k Hsh (Z.to_nat (Lp.capacity m)) 0); lia.
Qed.

(** The loop of [find_slot_for_lookup]: it steps over every slot that is
    [Deleted] or [Occupied] by another key, and stops at the first
    [Empty] slot (not found), at the first [Occupied] slot of the key
    (found), or when the round closes (not found). *)
Lemma lp_lookup_loop_spec m k :
  Lp.shaped m ->
  forall fuel j,
    Z.of_nat fuel + j = Lp.capacity m -> 0 <= j -> (0 < fuel)%nat ->
    exists j',
      j <= j' <= Lp.capacity m /\
      (forall i, j <= i < j' ->
         exists e, Lp.table m !! Z.to_nat (probe m k i) = Some e /\
                   Lp.passed k e = true) /\
      ((j' < Lp.capacity m /\
        (exists e, Lp.table m !! Z.to_nat (probe m k j') = Some e /\
                   Lp.is_empty e = true) /\
        Lp.find_slot_for_lookup_loop fuel m k (probe m k 0) (probe m k j)
        = Value (Lp.capacity m))
       \/
       (j' < Lp.capacity m /\
        (exists e, Lp.table m !! Z.to_nat (probe m k j') = Some e /\
                   Lp.is_occupied e = true /\ Lp.key e = k) /\
        Lp.find_slot_for_lookup_loop fuel m k (probe m k 0) (probe m k j)
        = Value (probe m k j'))
       \/
       (j' = Lp.capacity m /\
        Lp.find_slot_for_lookup_loop fuel m k (probe m k 0) (probe m k j)
        = Value (Lp.capacity m))).
Proof.
  intros Hsh. pose proof Hsh as [Hlen Hcap].
  induction fuel as [| fuel IH]; intros j Hj Hj0 Hfuel; [lia |].
  cbn [Lp.find_slot_for_lookup_loop].
  destruct (lp_slot_exists m k j Hsh) as (e & He & ->).
  cbn [result_bind].
  destruct (Lp.is_empty e) eqn:Hemp.
  { exists j. split; [lia |]. split; [intros i Hi; lia |].
    left. split; [lia |]. split; [| reflexivity]. exists e. auto. }
  destruct (Lp.is_occupied e && bool_decide (Lp.key e = k)) eqn:Hhit.
  { apply andb_true_iff in Hhit as [Hocc Hkey].
    apply bool_decide_eq_true in Hkey.
    exists j. split; [lia |]. split; [intros i Hi; lia |].
    right; left. split; [lia |]. split; [| reflexivity]. exists e. auto. }
  rewrite u64_rem_value by lia. cbn [result_bind].
  replace (U64.add (probe m k j) 1 mod Lp.capacity m)
    with (probe m k (j + 1)) by (symmetry; apply probe_succ; lia).
  assert (Hpassed : forall i, j <= i < j + 1 ->
            exists e, Lp.table m !! Z.to_nat (probe m k i) = Some e /\
                      Lp.passed k e = true).
  { intros i Hi. replace i with j by lia. exists e. split; [exact He |].
    unfold Lp.passed. rewrite Hemp, Hhit. reflexivity. }
  destruct (bool_decide (probe m k (j + 1) <> probe m k 0)) eqn:Hback.
  - apply bool_decide_eq_true in Hback.
    assert (Hlt : j + 1 < Lp.capacity m).
    { destruct (Z.eq_dec (j + 1) (Lp.capacity m)) as [Heq |]; [| lia].
      exfalso. apply Hback. unfold Lp.probe. rewrite Z.add_0_r.
      apply probe_wrap; lia. }
    destruct (IH (j + 1)) as (j' & Hj' & Hpre & Hres); try lia.
    exists j'. split; [lia |]. split; [| exact Hres].
    intros i Hi. destruct (Z.eq_dec i j) as [-> |];
      [apply Hpassed; lia | apply Hpre; lia].
  - apply bool_decide_eq_false in Hback.
    assert (Heq : j + 1 = Lp.capacity m).
    { apply (probe_wrap (hash k)); [lia | lia |].
      destruct (Z.eq_dec (probe m k (j + 1)) (probe m k 0)) as [E | E];
        [| contradiction].
      unfold Lp.probe in E. rewrite Z.add_0_r in E. exact E. }
    exists (j + 1). split; [lia |]. split; [exact Hpassed |].
    right; right. split; [exact Heq | reflexivity].
Qed.

Lemma lp_find_slot_for_lookup_spec m k :
  Lp.shaped m ->
  exists j,
    0 <= j <= Lp.capacity m /\
    (forall i, 0 <= i < j ->
       exists e, Lp.table m !! Z.to_nat (probe m k i) = Some e /\
                 Lp.passed k e = true) /\
    ((j < Lp.capacity m /\
      (exists e, Lp.table m !! Z.to_nat (probe m k j) = Some e /\
                 Lp.is_empty e = true) /\
      Lp.find_slot_for_lookup hash m k = Value (Lp.capacity m))
     \/
     (j < Lp.capacity m /\
      (exists e, Lp.table m !! Z.to_nat (probe m k j) = Some e /\
                 Lp.is_occupied e = true /\ Lp.key e = k) /\
      Lp.find_slot_for_lookup hash m k = Value (probe m k j))
     \/
     (j = Lp.capacity m /\
      Lp.find_slot_for_lookup hash m k = Value (Lp.capacity m))).
Proof.
  intros Hsh. pose proof Hsh as [Hlen Hcap].
  unfold Lp.find_slot_for_lookup. rewrite lp_get_hash by assumption.
  cbn [result_bind].
  apply (lp_lookup_loop_spec m k Hsh (Z.to_nat (Lp.capacity m)) 0); lia.
Qed.

Lemma lp_passed_not_hit k e :
  Lp.passed k e = true ->
  Lp.is_empty e = false /\
  (Lp.is_occupied e = true -> Lp.key e = k -> False).
Proof.
  unfold Lp.passed. intros Hp.
  apply andb_true_iff in Hp as [H1 H2].
  apply negb_true_iff in H1. apply negb_true_iff in H2.
  split; [exact H1 |]. intros Hocc Hkey.
  rewrite Hocc in H2. cbn in H2.
  apply bool_decide_eq_false in H2. contradiction.
Qed.

Lemma lp_occupied_not_empty e :
  Lp.is_occupied e = true -> Lp.is_empty e = false.
Proof. unfold Lp.is_occupied, Lp.is_empty. destruct (Lp.state e); auto. Qed.

(** A key behind slots that the lookup steps over is found. *)
Lemma lp_lookup_found m k j e :
  Lp.shaped m -> 0 <= j < Lp.capacity m ->
  (forall i, 0 <= i < j ->
     exists e, Lp.table m !! Z.to_nat (probe m k i) = Some e /\
               Lp.passed k e = true) ->
  Lp.table m !! Z.to_nat (probe m k j) = Some e ->
  Lp.is_occupied e = true -> Lp.key e = k ->
  Lp.find_slot_for_lookup hash m k = Value (probe m k j).
Proof.
  intros Hsh Hj Hpre He Hocc Hkey.
  destruct (lp_find_slot_for_lookup_spec m k Hsh)
    as (j' & Hj' & Hpre' & Hres).
  assert (Hjj : j' = j).
  { destruct (Z.lt_trichotomy j' j) as [Hlt | [Heq | Hgt]]; [| exact Heq |].
    - exfalso. destruct (Hpre j' ltac:(lia)) as (e' & He' & Hp').
      apply lp_passed_not_hit in Hp' as [Hne Hnh].
      destruct Hres as [(_ & (e2 & He2 & Hemp) & _)
                       | [(_ & (e2 & He2 & Hocc2 & Hkey2) & _) | (Hc & _)]].
      + congruence.
      + assert (e2 = e') by congruence. subst e2. auto.
      + lia.
    - exfalso. destruct (Hpre' j ltac:(lia)) as (e' & He' & Hp').
      apply lp_passed_not_hit in Hp' as [Hne Hnh].
      assert (e' = e) by congruence. subst e'. auto. }
  subst j'.
  destruct Hres as [(_ & (e2 & He2 & Hemp) & _)
                   | [(_ & _ & Hres) | (Hc & _)]].
  - assert (e2 = e) by congruence. subst e2.
    rewrite lp_occupied_not_empty in Hemp by assumption. discriminate.
  - exact Hres.
  - lia.
Qed.

End LpProperties.
Section LpProperties2.

Context {K V : Type} `{EqDecision K}.
Context (hash : K -> Z) (default_key : K) (default_value : V).

Local Abbreviation map := (@Lp.map K V).
Local Abbreviation Entry := (@Lp.Entry K V).
Local Abbreviation probe := (Lp.probe hash).

Implicit Types (m : map) (k : K) (v : V) (e : Entry) (t : list Entry).

Lemma lp_count_range f t : 0 <= Lp.count f t <= Z.of_nat (length t).
Proof.
  induction t as [| e t IH]; cbn [Lp.count length]; [lia |].
  destruct (f e); lia.
Qed.

Lemma lp_count_insert f t i e e' :
  t !! i = Some e ->
  Lp.count f (<[i := e']> t) = Lp.count f t - Z.b2z (f e) + Z.b2z (f e').
Proof.
  revert i. induction t as [| a t IH]; intros i Hi; [discriminate |].
  destruct i as [| i]; simpl in Hi |- *.
  - injection Hi as ->. destruct (f e), (f e'); simpl; lia.
  - rewrite (IH i Hi). lia.
Qed.

Lemma lp_count_alter f g t i e :
  t !! i = Some e ->
  Lp.count f (alter g i t) = Lp.count f t - Z.b2z (f e) + Z.b2z (f (g e)).
Proof.
  intros Hi. rewrite (list_alter_insert_at g t i e Hi).
  apply lp_count_insert. exact Hi.
Qed.

Lemma lp_count_replicate f e n :
  f e = false -> Lp.count f (replicate n e) = 0.
Proof.
  intros Hf. induction n as [| n IH]; cbn [replicate Lp.count];
    [reflexivity |]. rewrite Hf, IH. reflexivity.
Qed.

Lemma lp_count_clear f t :
  (forall e, f (Lp.mkEntry (Lp.key e) (Lp.value e) Lp.Empty) = false) ->
  Lp.count f
    (List.map (fun e => Lp.mkEntry (Lp.key e) (Lp.value e) Lp.Empty) t) = 0.
Proof.
  intros Hf. induction t as [| e t IH]; cbn [List.map Lp.count];
    [reflexivity |]. rewrite Hf, IH. reflexivity.
Qed.

(** What [inner_insert] does: the probe stops at its [j]-th slot, and
    the value there is overwritten or the new entry is put there; or the
    probe finds every slot [Occupied] by another key, and the call
    throws with the map as it was. *)
Lemma lp_inner_insert_cases m k v :
  Lp.shaped m ->
  (exists j e m',
    0 <= j < Lp.capacity m /\
    (forall i, 0 <= i < j ->
       exists e, Lp.table m !! Z.to_nat (probe m k i) = Some e /\
                 Lp.is_occupied e = true /\ Lp.key e <> k) /\
    Lp.table m !! Z.to_nat (probe m k j) = Some e /\
    Lp.inner_insert hash k v m = Returns tt m' /\
    ((Lp.is_occupied e = true /\ Lp.key e = k /\
      m' = Lp.set_value m (probe m k j) v)
     \/
     (Lp.is_occupied e = false /\
      m' = Lp.Map (<[Z.to_nat (probe m k j) := Lp.Entry_new k v]>
                     (Lp.table m))
             (U64.add (Lp.size_count m) 1) (Lp.capacity m)
             (if Lp.is_deleted e then U64.sub (Lp.deleted_count m) 1
              else Lp.deleted_count m))))
  \/
  ((forall i, 0 <= i < Lp.capacity m ->
      exists e, Lp.table m !! Z.to_nat (probe m k i) = Some e /\
                Lp.is_occupied e = true /\ Lp.key e <> k) /\
   Lp.inner_insert hash k v m
   = Throws (runtime_error "Hash table is full") m).
Proof.
  intros Hsh. pose proof Hsh as [Hlen Hcap].
  destruct (lp_find_slot_for_insert_spec hash m k Hsh)
    as (j & Hj & Hpre & [(Hlt & (e & He & Hstop) & Hres) | (-> & Hres)]);
    unfold Lp.inner_insert; rewrite Hres; cbn [on outcome_bind].
  2:{ right. split; [exact Hpre | reflexivity]. }
  left.
  pose proof (lp_probe_range hash m k j ltac:(lia)) as Hr.
  rewrite (vector_at_lookup (Lp.table m) (probe m k j) e);
    [| lia | exact He].
  cbn [on outcome_bind].
  destruct (Lp.is_occupied e) eqn:Hocc.
  - destruct Hstop as [Hno | Hkey]; [discriminate |].
    rewrite (bool_decide_eq_true_2 _ Hkey). cbn [andb].
    exists j, e. eexists. split; [lia |]. split; [exact Hpre |].
    split; [exact He |]. split; [reflexivity |]. left. auto.
  - cbn [andb].
    exists j, e. eexists. split; [lia |]. split; [exact Hpre |].
    split; [exact He |]. split; [reflexivity |]. right. auto.
Qed.

Lemma lp_is_deleted_not_occupied e :
  Lp.is_deleted e = true -> Lp.is_occupied e = false.
Proof. unfold Lp.is_occupied, Lp.is_deleted. destruct (Lp.state e); auto. Qed.

Lemma lp_count_pos f t i e :
  t !! i = Some e -> f e = true -> 1 <= Lp.count f t.
Proof.
  revert i. induction t as [| a t IH]; intros i Hi Hf; [discriminate |].
  destruct i as [| i]; simpl in Hi |- *.
  - injection Hi as ->. rewrite Hf. pose proof (lp_count_range f t). lia.
  - specialize (IH i Hi Hf). destruct (f a); lia.
Qed.

Lemma lp_inner_insert_ensures m k v :
  Lp.wf m ->
  ensures (Lp.inner_insert hash k v m)
    (fun _ m' =>
       Lp.wf m' /\ Lp.capacity m' = Lp.capacity m /\
       Lp.size_count m <= Lp.size_count m' <= Lp.size_count m + 1 /\
       Lp.deleted_count m' <= Lp.deleted_count m)
    (fun _ m' => m' = m).
Proof.
  intros (Hsh & Hsize & Hdel). pose proof Hsh as [Hlen Hcap].
  destruct (lp_inner_insert_cases m k v Hsh)
    as [(j & e & m' & Hj & _ & He & -> & Hm') | (_ & ->)];
    [| reflexivity].
  cbn [ensures].
  destruct Hm' as [(Hocc & Hkey & ->) | (Hocc & ->)].
  - unfold Lp.wf, Lp.shaped, Lp.set_value, Lp.set_table.
    cbn [Lp.table Lp.capacity Lp.size_count Lp.deleted_count].
    rewrite length_alter, !(lp_count_alter _ _ _ _ _ He).
    change (Lp.is_occupied (Lp.mkEntry (Lp.key e) v (Lp.state e)))
      with (Lp.is_occupied e).
    change (Lp.is_deleted (Lp.mkEntry (Lp.key e) v (Lp.state e)))
      with (Lp.is_deleted e).
    repeat split; lia.
  - pose proof (lp_count_range Lp.is_occupied (Lp.table m)) as Ho.
    pose proof (lp_count_range Lp.is_deleted (Lp.table m)) as Hd.
    pose proof Hcap as Hcap'. unfold U64.vector_max_size in Hcap'.
    assert (Hadd : U64.add (Lp.size_count m) 1 = Lp.size_count m + 1)
      by (apply u64_add_small; unfold U64.modulus; lia).
    unfold Lp.wf, Lp.shaped.
    cbn [Lp.table Lp.capacity Lp.size_count Lp.deleted_count].
    rewrite length_insert, !(lp_count_insert _ _ _ _ _ He), Hocc, Hadd.
    change (Lp.is_occupied (Lp.Entry_new k v)) with true.
    change (Lp.is_deleted (Lp.Entry_new k v)) with false.
    destruct (Lp.is_deleted e) eqn:Hdl.
    + pose proof (lp_count_pos _ _ _ _ He Hdl).
      rewrite u64_sub_small by (unfold U64.modulus; lia).
      cbn [Z.b2z]. repeat split; lia.
    + cbn [Z.b2z]. repeat split; lia.
Qed.

Lemma lp_reinsert_ensures old :
  forall m,
    Lp.wf m ->
    ensures (Lp.reinsert hash old m)
      (fun _ m' =>
         Lp.wf m' /\ Lp.capacity m' = Lp.capacity m /\
         Lp.size_count m <= Lp.size_count m'
           <= Lp.size_count m + Lp.count Lp.is_occupied old /\
         Lp.deleted_count m' <= Lp.deleted_count m)
      (fun _ m' =>
         Lp.wf m' /\ Lp.capacity m' = Lp.capacity m /\
         Lp.size_count m <= Lp.size_count m'
           <= Lp.size_count m + Lp.count Lp.is_occupied old /\
         Lp.deleted_count m' <= Lp.deleted_count m).
Proof.
  induction old as [| entry rest IH]; intros m Hwf;
    cbn [Lp.reinsert Lp.count].
  - cbn [ensures]. split; [exact Hwf | repeat split; lia].
  - pose proof (lp_count_range Lp.is_occupied rest) as Hrest.
    destruct (Lp.is_occupied entry).
    + eapply ensures_bind; [apply (lp_inner_insert_ensures m _ _ Hwf) | |].
      * intros ex m' ->. split; [exact Hwf | repeat split; lia].
      * intros _ m1 (Hwf1 & Hc1 & Hs1 & Hd1). cbn beta.
        eapply ensures_weaken; [apply (IH m1 Hwf1) | |];
          cbn beta; intros _ m2 (Hwf2 & Hc2 & Hs2 & Hd2);
          (split; [exact Hwf2 | repeat split; lia]).
    + eapply ensures_weaken; [apply (IH m Hwf) | |];
        cbn beta; intros _ m2 (Hwf2 & Hc2 & Hs2 & Hd2);
        (split; [exact Hwf2 | repeat split; lia]).
Qed.

Lemma lp_fresh_wf c t :
  0 < c -> vector_new c (Lp.Entry_default default_key default_value) = Some t ->
  Lp.wf (Lp.Map t 0 c 0).
Proof.
  intros Hc Ht. apply vector_new_inv in Ht as [Hmax ->].
  unfold Lp.wf, Lp.shaped.
  cbn [Lp.table Lp.capacity Lp.size_count Lp.deleted_count].
  rewrite length_replicate, !lp_count_replicate by reflexivity.
  repeat split; lia.
Qed.

Lemma lp_rehash_ensures m :
  Lp.wf m ->
  ensures (Lp.rehash hash default_key default_value m)
    (fun _ m' =>
       Lp.wf m' /\ Lp.capacity m' = 2 * Lp.capacity m /\
       Lp.size_count m' <= Lp.size_count m /\ Lp.deleted_count m' = 0)
    (fun ex m' =>
       ex <> length_error ->
       Lp.wf m' /\ Lp.capacity m' = 2 * Lp.capacity m /\
       Lp.size_count m' <= Lp.size_count m /\ Lp.deleted_count m' = 0).
Proof.
  intros Hwf. pose proof Hwf as ((Hlen & Hcap) & Hsize & Hdel).
  unfold Lp.rehash. rewrite u64_double_small by lia.
  destruct (vector_new (2 * Lp.capacity m)
              (Lp.Entry_default default_key default_value)) as [t |] eqn:Ht;
    [| cbn [ensures]; congruence].
  assert (Hfresh : Lp.wf (Lp.Map t 0 (2 * Lp.capacity m) 0))
    by (apply lp_fresh_wf; [lia | exact Ht]).
  assert (Hpost : forall m',
    Lp.wf m' /\ Lp.capacity m' = 2 * Lp.capacity m /\
    0 <= Lp.size_count m' <= 0 + Lp.count Lp.is_occupied (Lp.table m) /\
    Lp.deleted_count m' <= 0 ->
    Lp.wf m' /\ Lp.capacity m' = 2 * Lp.capacity m /\
    Lp.size_count m' <= Lp.size_count m /\ Lp.deleted_count m' = 0).
  { intros m' (Hwf' & Hc' & Hs' & Hd'). pose proof Hwf' as (_ & _ & Hdel').
    pose proof (lp_count_range Lp.is_deleted (Lp.table m')).
    split; [exact Hwf' | repeat split; lia]. }
  eapply ensures_weaken;
    [apply (lp_reinsert_ensures (Lp.table m) _ Hfresh) | |];
    cbn beta; intros; apply Hpost; assumption.
Qed.

Lemma lp_insert_ensures m k v :
  Lp.inv m ->
  ensures (Lp.insert hash default_key default_value k v m)
    (fun _ m' => Lp.inv m')
    (fun ex m' => ex <> length_error -> Lp.inv m').
Proof.
  intros [Hwf Hload]. pose proof Hwf as ((Hlen & Hcap) & Hsize & Hdel).
  pose proof (lp_count_range Lp.is_occupied (Lp.table m)) as Ho.
  pose proof Hcap as Hcap'. unfold U64.vector_max_size in Hcap'.
  unfold Lp.within_load in Hload.
  unfold Lp.insert.
  eapply ensures_bind with
    (Q1 := fun _ m1 => Lp.wf m1 /\
             10 * (Lp.size_count m1 + 1) <= 7 * Lp.capacity m1)
    (E1 := fun ex m' => ex <> length_error -> Lp.inv m').
  - destruct (Lp.needs_rehash m) eqn:Hneed.
    + eapply ensures_weaken; [apply (lp_rehash_ensures m Hwf) | |];
        cbn beta.
      * intros _ m1 (Hwf1 & Hc1 & Hs1 & _). split; [exact Hwf1 | lia].
      * intros ex m1 Hpost Hne. destruct (Hpost Hne) as (Hwf1 & Hc1 & Hs1 & _).
        split; [exact Hwf1 | unfold Lp.within_load; lia].
    + cbn [ensures]. split; [exact Hwf |].
      unfold Lp.needs_rehash in Hneed.
      apply orb_false_iff in Hneed as [Hneed _].
      unfold Lp.exceeds_max_load in Hneed. apply Z.ltb_ge in Hneed.
      rewrite u64_add_small in Hneed by (unfold U64.modulus; lia). lia.
  - auto.
  - intros _ m1 [Hwf1 Hload1]. cbn beta.
    eapply ensures_weaken; [apply (lp_inner_insert_ensures m1 k v Hwf1) | |];
      cbn beta.
    + intros _ m2 (Hwf2 & Hc2 & Hs2 & _). split; [exact Hwf2 |].
      unfold Lp.within_load. lia.
    + intros ex m2 -> _. split; [exact Hwf1 | unfold Lp.within_load; lia].
Qed.

End LpProperties2.
Section LpProperties3.

Context {K V : Type} `{EqDecision K}.
Context (hash : K -> Z) (default_key : K) (default_value : V).

Local Abbreviation map := (@Lp.map K V).
Local Abbreviation Entry := (@Lp.Entry K V).
Local Abbreviation probe := (Lp.probe hash).
Local Abbreviation reachable := (Lp.reachable hash default_key default_value).
Local Abbreviation step := (Lp.step hash default_key default_value).

Implicit Types (m : map) (k : K) (v : V) (e : Entry) (t : list Entry).

Lemma lp_count_alter_same f g t i :
  (forall e, f (g e) = f e) -> Lp.count f (alter g i t) = Lp.count f t.
Proof.
  intros Hfg. destruct (t !! i) as [e |] eqn:Hi.
  - rewrite (lp_count_alter f g t i e Hi), Hfg. lia.
  - rewrite list_alter_id_at; [reflexivity | exact Hi].
Qed.

Lemma lp_set_value_inv m i v : Lp.inv m -> Lp.inv (Lp.set_value m i v).
Proof.
  intros (((Hlen & Hcap) & Hsize & Hdel) & Hload).
  unfold Lp.inv, Lp.wf, Lp.shaped, Lp.within_load, Lp.set_value,
    Lp.set_table in *.
  cbn [Lp.table Lp.capacity Lp.size_count Lp.deleted_count].
  rewrite length_alter, !lp_count_alter_same by reflexivity.
  repeat split; lia.
Qed.

(** What [remove] does. *)
Lemma lp_remove_cases m k :
  Lp.shaped m ->
  (Lp.find_slot_for_lookup hash m k = Value (Lp.capacity m) /\
   Lp.remove hash k m = Returns None m)
  \/
  (exists j e,
     0 <= j < Lp.capacity m /\
     Lp.find_slot_for_lookup hash m k = Value (probe m k j) /\
     Lp.table m !! Z.to_nat (probe m k j) = Some e /\
     Lp.is_occupied e = true /\ Lp.key e = k /\
     Lp.remove hash k m
     = Returns (Some (Lp.value e))
         (Lp.Map (alter (fun e => Lp.mkEntry (Lp.key e) (Lp.value e)
                                    Lp.Deleted)
                    (Z.to_nat (probe m k j)) (Lp.table m))
             (U64.sub (Lp.size_count m) 1) (Lp.capacity m)
             (U64.add (Lp.deleted_count m) 1))).
Proof.
  intros Hsh. pose proof Hsh as [Hlen Hcap].
  destruct (lp_find_slot_for_lookup_spec hash m k Hsh)
    as (j & Hj & _ & [(_ & _ & Hres)
                     | [(Hlt & (e & He & Hocc & Hkey) & Hres)
                       | (_ & Hres)]]).
  - left. split; [exact Hres |]. unfold Lp.remove. rewrite Hres.
    cbn [on outcome_bind]. rewrite Z.ltb_irrefl. reflexivity.
  - right. exists j, e.
    pose proof (lp_probe_range hash m k j ltac:(lia)) as Hr.
    repeat (split; [first [lia | assumption] |]).
    unfold Lp.remove. rewrite Hres. cbn [on outcome_bind].
    replace (probe m k j <? Lp.capacity m) with true
      by (symmetry; apply Z.ltb_lt; lia).
    rewrite (vector_at_lookup (Lp.table m) (probe m k j) e);
      [| lia | exact He].
    reflexivity.
  - left. split; [exact Hres |]. unfold Lp.remove. rewrite Hres.
    cbn [on outcome_bind]. rewrite Z.ltb_irrefl. reflexivity.
Qed.

Lemma lp_remove_ensures m k :
  Lp.inv m ->
  ensures (Lp.remove hash k m) (fun _ m' => Lp.inv m') (fun _ _ => False).
Proof.
  intros Hinv. pose proof Hinv as (((Hlen & Hcap) & Hsize & Hdel) & Hload).
  destruct (lp_remove_cases m k (conj Hlen Hcap))
    as [(_ & ->) | (j & e & Hj & _ & He & Hocc & _ & ->)];
    cbn [ensures]; [exact Hinv |].
  pose proof (lp_count_range Lp.is_occupied (Lp.table m)) as Ho.
  pose proof (lp_count_range Lp.is_deleted (Lp.table m)) as Hd.
  pose proof (lp_count_pos _ _ _ _ He Hocc) as Hpos.
  pose proof Hcap as Hcap'. unfold U64.vector_max_size in Hcap'.
  assert (Hnd : Lp.is_deleted e = false).
  { unfold Lp.is_occupied, Lp.is_deleted in *.
    destruct (Lp.state e); congruence. }
  assert (Ho2 : Lp.count Lp.is_occupied (Lp.table m)
                + Lp.count Lp.is_deleted (Lp.table m)
                <= Z.of_nat (length (Lp.table m))).
  { clear. induction (Lp.table m) as [| a t IH]; cbn [Lp.count length];
      [lia |].
    unfold Lp.is_occupied at 1, Lp.is_deleted at 1.
    destruct (Lp.state a); lia. }
  unfold Lp.inv, Lp.wf, Lp.shaped, Lp.within_load in *.
  cbn [Lp.table Lp.capacity Lp.size_count Lp.deleted_count].
  rewrite length_alter, !(lp_count_alter _ _ _ _ _ He), Hocc, Hnd.
  cbn [Lp.is_occupied Lp.is_deleted Lp.state Z.b2z].
  rewrite u64_sub_small, u64_add_small by (unfold U64.modulus; lia).
  repeat split; lia.
Qed.

Lemma lp_clear_inv m : Lp.inv m -> Lp.inv (Lp.clear m).
Proof.
  intros (((Hlen & Hcap) & Hsize & Hdel) & Hload).
  unfold Lp.inv, Lp.wf, Lp.shaped, Lp.within_load, Lp.clear in *.
  cbn [Lp.table Lp.capacity Lp.size_count Lp.deleted_count].
  rewrite length_map, !lp_count_clear by reflexivity.
  repeat split; lia.
Qed.

Lemma lp_index_ref_ensures m k :
  Lp.inv m ->
  ensures (Lp.index_ref hash default_key default_value k m)
    (fun _ m' => Lp.inv m')
    (fun ex m' => ex <> length_error -> Lp.inv m').
Proof.
  intros Hinv. pose proof Hinv as ((Hsh & _) & _).
  unfold Lp.index_ref.
  destruct (lp_find_slot_for_lookup_spec hash m k Hsh)
    as (j & Hj & _ & [(_ & _ & ->) | [(Hlt & _ & ->) | (_ & ->)]]);
    cbn [on outcome_bind].
  2:{ pose proof (lp_probe_range hash m k j ltac:(lia)).
      replace (probe m k j <? Lp.capacity m) with true
        by (symmetry; apply Z.ltb_lt; lia).
      exact Hinv. }
  all: rewrite Z.ltb_irrefl.
  all: eapply ensures_bind;
    [apply (lp_insert_ensures hash default_key default_value m k
              default_value Hinv) | auto |].
  all: intros [] m1 Hinv1; cbn beta.
  all: destruct (Lp.find_slot_for_lookup hash m1 k) as [i | ex |];
    cbn [on outcome_bind ensures]; auto.
  all: destruct (i <? Lp.capacity m1); cbn [ensures]; auto.
Qed.

(** Every map that a program reaches satisfies the invariant. *)
Lemma lp_reachable_inv catching c m :
  0 < c -> reachable catching c m -> Lp.inv m.
Proof.
  intros Hc Hreach. induction Hreach as [m Hnew | m m' _ IH Hstep].
  - unfold Lp.new in Hnew.
    destruct (vector_new c (Lp.Entry_default default_key default_value))
      as [t |] eqn:Ht; [| discriminate].
    injection Hnew as <-. split.
    + apply (lp_fresh_wf default_key default_value); assumption.
    + unfold Lp.within_load. cbn. lia.
  - destruct Hstep as [k v m' Hins | k v ex m' _ Hins Hne | k r m' Hrem
                      | | k r m' Hidx | k ex m' _ Hidx Hne
                      | k r v Hat | k r m' v Hidx].
    + exact (ensures_returns _ _ _ _ _
               (lp_insert_ensures hash default_key default_value m k v IH)
               Hins).
    + exact (ensures_throws _ _ _ _ _
               (lp_insert_ensures hash default_key default_value m k v IH)
               Hins Hne).
    + exact (ensures_returns _ _ _ _ _ (lp_remove_ensures m k IH) Hrem).
    + apply lp_clear_inv. exact IH.
    + exact (ensures_returns _ _ _ _ _ (lp_index_ref_ensures m k IH) Hidx).
    + exact (ensures_throws _ _ _ _ _ (lp_index_ref_ensures m k IH)
               Hidx Hne).
    + apply lp_set_value_inv. exact IH.
    + apply lp_set_value_inv.
      exact (ensures_returns _ _ _ _ _ (lp_index_ref_ensures m k IH) Hidx).
Qed.

End LpProperties3.
Section LpProperties4.

Context {K V : Type} `{EqDecision K}.
Context (hash : K -> Z) (default_key : K) (default_value : V).

Local Abbreviation map := (@Lp.map K V).
Local Abbreviation Entry := (@Lp.Entry K V).
Local Abbreviation probe := (Lp.probe hash).

Implicit Types (m : map) (k : K) (v : V) (e : Entry) (t : list Entry).

(** The lookup only looks at the capacity, and in each slot at whether it
    is [Empty] and whether it is an [Occupied] slot of the key. *)
Lemma lp_lookup_loop_ext m m' k :
  Lp.capacity m' = Lp.capacity m ->
  (forall i,
     match Lp.table m !! i, Lp.table m' !! i with
     | Some e, Some e' =>
         Lp.is_empty e' = Lp.is_empty e /\
         Lp.is_occupied e' && bool_decide (Lp.key e' = k)
         = Lp.is_occupied e && bool_decide (Lp.key e = k)
     | None, None => True
     | _, _ => False
     end) ->
  forall fuel original_index index,
    Lp.find_slot_for_lookup_loop fuel m' k original_index index
    = Lp.find_slot_for_lookup_loop fuel m k original_index index.
Proof.
  intros Hcap Hslots.
  induction fuel as [| fuel IH]; intros original_index index;
    [reflexivity |].
  cbn [Lp.find_slot_for_lookup_loop]. unfold vector_at.
  destruct (index <? 0); [reflexivity |].
  specialize (Hslots (Z.to_nat index)).
  destruct (Lp.table m !! Z.to_nat index) as [e |],
           (Lp.table m' !! Z.to_nat index) as [e' |];
    try contradiction; [| reflexivity].
  destruct Hslots as [H1 H2]. cbn [result_bind]. rewrite H1, H2, Hcap.
  destruct (Lp.is_empty e); [reflexivity |].
  destruct (Lp.is_occupied e && bool_decide (Lp.key e = k));
    [reflexivity |].
  destruct (u64_rem (U64.add index 1) (Lp.capacity m)) as [i' | |];
    cbn [result_bind]; try reflexivity.
  destruct (bool_decide (i' <> original_index)); [apply IH | reflexivity].
Qed.

Lemma lp_lookup_ext m m' k :
  Lp.capacity m' = Lp.capacity m ->
  (forall i,
     match Lp.table m !! i, Lp.table m' !! i with
     | Some e, Some e' =>
         Lp.is_empty e' = Lp.is_empty e /\
         Lp.is_occupied e' && bool_decide (Lp.key e' = k)
         = Lp.is_occupied e && bool_decide (Lp.key e = k)
     | None, None => True
     | _, _ => False
     end) ->
  Lp.find_slot_for_lookup hash m' k = Lp.find_slot_for_lookup hash m k.
Proof.
  intros Hcap Hslots. unfold Lp.find_slot_for_lookup, Lp.get_hash.
  rewrite Hcap.
  destruct (u64_rem (hash k) (Lp.capacity m)); cbn [result_bind];
    try reflexivity.
  apply lp_lookup_loop_ext; assumption.
Qed.

(** Removing a key changes no lookup of another key. *)
Lemma lp_remove_other m k1 k2 r m' :
  Lp.shaped m -> k1 <> k2 ->
  Lp.remove hash k1 m = Returns r m' ->
  Lp.find_slot_for_lookup hash m' k2 = Lp.find_slot_for_lookup hash m k2 /\
  Lp.at_ hash m' k2 = Lp.at_ hash m k2 /\
  Lp.contains_key hash m' k2 = Lp.contains_key hash m k2.
Proof.
  intros Hsh Hne Hrem.
  destruct (lp_remove_cases hash m k1 Hsh)
    as [(_ & Hr) | (j & e & Hj & _ & He & Hocc & Hkey & Hr)];
    rewrite Hr in Hrem; injection Hrem as <- <-; [auto |].
  set (f := fun e : Entry => Lp.mkEntry (Lp.key e) (Lp.value e) Lp.Deleted).
  set (idx := Z.to_nat (probe m k1 j)) in *.
  set (m' := Lp.Map (alter f idx (Lp.table m)) _ _ _).
  assert (Hfind : Lp.find_slot_for_lookup hash m' k2
                  = Lp.find_slot_for_lookup hash m k2).
  { apply lp_lookup_ext; [reflexivity |]. intros i.
    cbn [Lp.table m']. destruct (decide (i = idx)) as [-> | Hi].
    - rewrite list_lookup_alter_eq, He. cbn.
      rewrite (lp_occupied_not_empty e Hocc), Hocc.
      rewrite bool_decide_eq_false_2 by congruence. auto.
    - rewrite list_lookup_alter_ne by congruence.
      destruct (Lp.table m !! i); auto. }
  assert (Hread : forall i, Lp.read m' i = Lp.read m i).
  { intros i. unfold Lp.read, vector_at. cbn [Lp.table m'].
    destruct (i <? 0); [reflexivity |].
    destruct (decide (Z.to_nat i = idx)) as [-> | Hi].
    - rewrite list_lookup_alter_eq.
      destruct (Lp.table m !! idx); reflexivity.
    - rewrite list_lookup_alter_ne by congruence. reflexivity. }
  split; [exact Hfind |].
  unfold Lp.at_, Lp.at_ref, Lp.contains_key. rewrite Hfind.
  cbn [Lp.capacity m'].
  split; [| reflexivity].
  destruct (Lp.find_slot_for_lookup hash m k2) as [i | |];
    cbn [result_bind]; try reflexivity.
  destruct (i <? Lp.capacity m); cbn [result_bind]; [apply Hread | reflexivity].
Qed.

Lemma lp_inner_insert_at m k v m' :
  Lp.shaped m ->
  Lp.inner_insert hash k v m = Returns tt m' ->
  Lp.at_ hash m' k = Value v /\ Lp.contains_key hash m' k = Value true.
Proof.
  intros Hsh Hins. pose proof Hsh as [Hlen Hcap].
  destruct (lp_inner_insert_cases hash m k v Hsh)
    as [(j & e & m1 & Hj & Hpre & He & Hr & Hm1) | (_ & Hr)];
    rewrite Hr in Hins; [injection Hins as <- | discriminate].
  pose proof (lp_probe_range hash m k j ltac:(lia)) as Hrange.
  set (idx := Z.to_nat (probe m k j)) in *.
  assert (Hidx : (idx < length (Lp.table m))%nat) by (subst idx; lia).
  assert (Hm1' : exists e1,
    Lp.table m1 !! idx = Some e1 /\ Lp.is_occupied e1 = true /\
    Lp.key e1 = k /\ Lp.value e1 = v /\
    Lp.capacity m1 = Lp.capacity m /\
    length (Lp.table m1) = length (Lp.table m) /\
    forall i, i <> idx -> Lp.table m1 !! i = Lp.table m !! i).
  { destruct Hm1 as [(Hocc & Hkey & ->) | (Hocc & ->)].
    - exists (Lp.mkEntry (Lp.key e) v (Lp.state e)).
      unfold Lp.set_value, Lp.set_table. cbn [Lp.table Lp.capacity].
      fold idx. rewrite list_lookup_alter_eq, He, length_alter.
      repeat split; auto.
      intros i Hi. apply list_lookup_alter_ne. congruence.
    - exists (Lp.Entry_new k v). cbn [Lp.table Lp.capacity]. fold idx.
      rewrite list_lookup_insert_eq by exact Hidx.
      rewrite length_insert. repeat split; auto.
      intros i Hi. apply list_lookup_insert_ne. congruence. }
  destruct Hm1' as (e1 & He1 & Hocc1 & Hkey1 & Hval1 & Hcap1 & Hlen1 & Hsame).
  assert (Hsh1 : Lp.shaped m1) by (split; [rewrite Hlen1 | rewrite Hcap1]; lia).
  assert (Hprobe : forall i, probe m1 k i = probe m k i)
    by (intros i; unfold Lp.probe; rewrite Hcap1; reflexivity).
  assert (Hfound : Lp.find_slot_for_lookup hash m1 k = Value (probe m1 k j)).
  { apply (lp_lookup_found hash m1 k j e1); try assumption.
    - rewrite Hcap1. exact Hj.
    - intros i Hi. destruct (Hpre i Hi) as (ei & Hei & Hocci & Hkeyi).
      exists ei. split.
      + rewrite Hprobe, Hsame; [exact Hei |].
        intros Heq. apply Z2Nat.inj in Heq;
          try (apply lp_probe_range; lia).
        apply (probe_inj (hash k) i j (Lp.capacity m)) in Heq; lia.
      + unfold Lp.passed.
        rewrite (lp_occupied_not_empty ei Hocci), Hocci.
        rewrite bool_decide_eq_false_2 by exact Hkeyi. reflexivity.
    - rewrite Hprobe. exact He1. }
  unfold Lp.at_, Lp.at_ref, Lp.contains_key, Lp.read.
  rewrite Hfound, Hprobe, Hcap1. cbn [result_bind].
  replace (probe m k j <? Lp.capacity m) with true
    by (symmetry; apply Z.ltb_lt; lia).
  cbn [result_bind].
  rewrite (vector_at_lookup (Lp.table m1) (probe m k j) e1);
    [| lia | exact He1].
  cbn [result_bind]. rewrite Hval1. auto.
Qed.

Lemma lp_insert_at m k v m' :
  Lp.inv m ->
  Lp.insert hash default_key default_value k v m = Returns tt m' ->
  Lp.at_ hash m' k = Value v /\ Lp.contains_key hash m' k = Value true.
Proof.
  intros [Hwf _] Hins. unfold Lp.insert in Hins.
  apply outcome_bind_returns in Hins as ([] & m1 & Hpre & Hins).
  assert (Hwf1 : Lp.wf m1).
  { destruct (Lp.needs_rehash m).
    - exact (proj1 (ensures_returns _ _ _ _ _
                      (lp_rehash_ensures hash default_key default_value
                         m Hwf) Hpre)).
    - injection Hpre as <-. exact Hwf. }
  apply (lp_inner_insert_at m1 k v m' (proj1 Hwf1) Hins).
Qed.

End LpProperties4.

(** ** [ckhashmap.hpp] *)

Section CkProperties.

Context {K V : Type} `{EqDecision K}.
Context {H : Type} (hash : H -> K -> Z) (default_hasher : H)
        (seeded : option (Z -> Z -> H)).
Context {Rng : Type} (rng_next : Rng -> Z * Rng).
Context (default_key : K) (default_value : V).

Local Abbreviation map := (@Ck.map K V H Rng).
Local Abbreviation Entry := (@Ck.Entry K V).

Implicit Types (m : map) (k : K) (v : V) (e : Entry) (t : list Entry).

Local Abbreviation pos1 := (Ck.pos1 hash).
Local Abbreviation pos2 := (Ck.pos2 hash).

Lemma ck_count_range t : 0 <= Ck.count t <= Z.of_nat (length t).
Proof.
  induction t as [| e t IH]; cbn [Ck.count length]; [lia |].
  destruct (Ck.occupied e); lia.
Qed.

Lemma ck_count_insert t i e e' :
  t !! i = Some e ->
  Ck.count (<[i := e']> t)
  = Ck.count t - Z.b2z (Ck.occupied e) + Z.b2z (Ck.occupied e').
Proof.
  revert i. induction t as [| a t IH]; intros i Hi; [discriminate |].
  destruct i as [| i]; simpl in Hi |- *.
  - injection Hi as ->. destruct (Ck.occupied e), (Ck.occupied e');
      simpl; lia.
  - rewrite (IH i Hi). lia.
Qed.

Lemma ck_count_alter g t i :
  (forall e, Ck.occupied (g e) = Ck.occupied e) ->
  Ck.count (alter g i t) = Ck.count t.
Proof.
  intros Hg. destruct (t !! i) as [e |] eqn:Hi.
  - rewrite (list_alter_insert_at g t i e Hi), (ck_count_insert _ _ _ _ Hi),
      Hg. lia.
  - rewrite list_alter_id_at; [reflexivity | exact Hi].
Qed.

Lemma ck_count_pos t i e :
  t !! i = Some e -> Ck.occupied e = true -> 1 <= Ck.count t.
Proof.
  revert i. induction t as [| a t IH]; intros i Hi Hocc; [discriminate |].
  destruct i as [| i]; simpl in Hi |- *.
  - injection Hi as ->. rewrite Hocc. pose proof (ck_count_range t). lia.
  - specialize (IH i Hi Hocc). destruct (Ck.occupied a); lia.
Qed.

Lemma ck_count_replicate e n :
  Ck.occupied e = false -> Ck.count (replicate n e) = 0.
Proof.
  intros He. induction n as [| n IH]; cbn [replicate Ck.count];
    [reflexivity |]. rewrite He, IH. reflexivity.
Qed.

Lemma ck_count_vacate t : Ck.count (List.map Ck.vacate t) = 0.
Proof.
  induction t as [| e t IH]; cbn [List.map Ck.count Ck.vacate Ck.occupied];
    [reflexivity | rewrite IH; reflexivity].
Qed.

Lemma ck_get_hash1 m k :
  Ck.shaped m ->
  Ck.get_hash1 hash m k = Value (pos1 m k) /\
  0 <= pos1 m k < Ck.capacity m.
Proof.
  intros (_ & _ & Hcap). unfold Ck.get_hash1, Ck.pos1.
  rewrite u64_rem_value by lia. split; [reflexivity |].
  apply Z.mod_pos_bound. lia.
Qed.

Lemma ck_get_hash2 m k :
  Ck.shaped m ->
  Ck.get_hash2 hash m k = Value (pos2 m k) /\
  0 <= pos2 m k < Ck.capacity m.
Proof.
  intros (_ & _ & Hcap). unfold Ck.get_hash2, Ck.pos2.
  rewrite u64_rem_value by lia. split; [reflexivity |].
  apply Z.mod_pos_bound. lia.
Qed.

Lemma ck_slot1 m k :
  Ck.shaped m ->
  exists e, Ck.table1 m !! Z.to_nat (pos1 m k) = Some e /\
            vector_at (Ck.table1 m) (pos1 m k) = Value e.
Proof.
  intros Hsh. pose proof Hsh as (Hlen & _ & _).
  apply vector_at_in_range. rewrite Hlen. apply (ck_get_hash1 m k Hsh).
Qed.

Lemma ck_slot2 m k :
  Ck.shaped m ->
  exists e, Ck.table2 m !! Z.to_nat (pos2 m k) = Some e /\
            vector_at (Ck.table2 m) (pos2 m k) = Value e.
Proof.
  intros Hsh. pose proof Hsh as (_ & Hlen & _).
  apply vector_at_in_range. rewrite Hlen. apply (ck_get_hash2 m k Hsh).
Qed.


Lemma ck_holds_inv e k :
  Ck.holds e k = true -> Ck.occupied e = true /\ Ck.key e = k.
Proof.
  unfold Ck.holds. intros Hh. apply andb_true_iff in Hh as [Ho Hk].
  apply bool_decide_eq_true in Hk. auto.
Qed.

Lemma ck_holds_intro e k :
  Ck.occupied e = true -> Ck.key e = k -> Ck.holds e k = true.
Proof.
  intros Ho Hk. unfold Ck.holds. rewrite Ho.
  rewrite bool_decide_eq_true_2 by exact Hk. reflexivity.
Qed.

Lemma ck_size_add m :
  Ck.wf hash m -> U64.add (Ck.size_count m) 1 = Ck.size_count m + 1.
Proof.
  intros ((Hl1 & Hl2 & Hcap) & _ & Hsize).
  pose proof (ck_count_range (Ck.table1 m)).
  pose proof (ck_count_range (Ck.table2 m)).
  apply u64_add_small; unfold U64.modulus, U64.vector_max_size in *; lia.
Qed.

(** Putting [current_entry] into its slot of [table1]: when the slot was
    free the entry is placed, when it was occupied the entry takes the
    slot and the occupant is carried on. *)
Lemma ck_put1 m cur e :
  Ck.wf hash m -> Ck.occupied cur = true ->
  Ck.table1 m !! Z.to_nat (pos1 m (Ck.key cur)) = Some e ->
  let m1 := Ck.set_table1 m
              (<[Z.to_nat (pos1 m (Ck.key cur)) := cur]> (Ck.table1 m)) in
  (Ck.occupied e = false ->
   Ck.wf hash (Ck.set_size_count m1 (Ck.size_count m + 1)) /\
   forall k v, Ck.tracked hash m cur k v ->
     Ck.present hash (Ck.set_size_count m1 (Ck.size_count m + 1)) k /\
     Ck.bound_to (Ck.set_size_count m1 (Ck.size_count m + 1)) k v)
  /\
  (Ck.occupied e = true ->
   Ck.wf hash m1 /\ forall k v, Ck.tracked hash m cur k v ->
                          Ck.tracked hash m1 e k v).
Proof.
  intros ((Hl1 & Hl2 & Hcap) & (Hp1 & Hp2) & Hsize) Hcur He m1.
  set (p := Z.to_nat (pos1 m (Ck.key cur))) in *.
  assert (Hpos : 0 <= pos1 m (Ck.key cur))
    by (unfold Ck.pos1; apply Z.mod_pos_bound; lia).
  assert (Hlt : (p < length (Ck.table1 m))%nat)
    by (apply lookup_lt_Some in He; exact He).
  assert (Hpositioned : forall n, Ck.positioned hash (Ck.set_size_count m1 n)).
  { intros n. split; cbn [Ck.table1 Ck.table2 Ck.set_size_count m1
                           Ck.set_table1]; [| exact Hp2].
    intros i e' Hi Ho. change (pos1 m (Ck.key e') = Z.of_nat i).
    destruct (decide (i = p)) as [-> | Hne].
    - rewrite list_lookup_insert_eq in Hi by exact Hlt.
      injection Hi as <-. subst p. lia.
    - rewrite list_lookup_insert_ne in Hi by congruence.
      apply Hp1; assumption. }
  assert (Hbound : forall n k v, Ck.tracked hash m cur k v ->
            Ck.bound_to (Ck.set_size_count m1 n) k v).
  { intros n k v (Hb & Hcv & _) t i e' Ht Hi Hh.
    cbn [Ck.table1 Ck.table2 Ck.set_size_count m1 Ck.set_table1] in Ht.
    destruct Ht as [-> | ->].
    - destruct (decide (i = p)) as [-> | Hne].
      + rewrite list_lookup_insert_eq in Hi by exact Hlt.
        injection Hi as <-. apply Hcv. apply (ck_holds_inv _ _ Hh).
      + rewrite list_lookup_insert_ne in Hi by congruence.
        apply (Hb (Ck.table1 m) i e'); auto.
    - apply (Hb (Ck.table2 m) i e'); auto. }
  assert (Hpresent : forall n k v, Ck.tracked hash m cur k v ->
            Ck.present hash (Ck.set_size_count m1 n) k \/
            (Ck.occupied e = true /\ Ck.key e = k)).
  { intros n k v (_ & _ & [[(e0 & He0 & Hh0) | (e0 & He0 & Hh0)] | Hk]).
    - destruct (decide (Z.to_nat (pos1 m k) = p)) as [Heq | Hne].
      + right. rewrite Heq in He0. assert (e0 = e) by congruence. subst e0.
        apply ck_holds_inv. exact Hh0.
      + left. left. exists e0. split; [| exact Hh0].
        change ((<[p := cur]> (Ck.table1 m)) !! Z.to_nat (pos1 m k)
                = Some e0).
        rewrite list_lookup_insert_ne by congruence. exact He0.
    - left. right. exists e0. split; [exact He0 | exact Hh0].
    - left. left. exists cur. split; [| apply ck_holds_intro; assumption].
      change ((<[p := cur]> (Ck.table1 m)) !! Z.to_nat (pos1 m k)
              = Some cur).
      rewrite <- Hk. fold p. apply list_lookup_insert_eq. exact Hlt. }
  split; intros Hocc.
  - split.
    + split; [| split; [apply Hpositioned |]].
      * unfold Ck.shaped.
        cbn [Ck.table1 Ck.table2 Ck.capacity Ck.set_size_count m1
             Ck.set_table1].
        rewrite length_insert. auto.
      * cbn [Ck.table1 Ck.table2 Ck.size_count Ck.set_size_count m1
             Ck.set_table1].
        rewrite (ck_count_insert _ _ _ _ He), Hocc, Hcur. cbn [Z.b2z]. lia.
    + intros k v Htr. split; [| apply Hbound; exact Htr].
      destruct (Hpresent (Ck.size_count m + 1) k v Htr) as [Hp | [Ho _]];
        [exact Hp | congruence].
  - assert (Hm1 : m1 = Ck.set_size_count m1 (Ck.size_count m))
      by reflexivity.
    split.
    + split; [| split; [rewrite Hm1; apply Hpositioned |]].
      * unfold Ck.shaped.
        cbn [Ck.table1 Ck.table2 Ck.capacity m1 Ck.set_table1].
        rewrite length_insert. auto.
      * cbn [Ck.table1 Ck.table2 Ck.size_count m1 Ck.set_table1].
        rewrite (ck_count_insert _ _ _ _ He), Hocc, Hcur. cbn [Z.b2z]. lia.
    + intros k v Htr. split; [rewrite Hm1; apply Hbound; exact Htr |].
      split.
      * intros Hk. destruct Htr as (Hb & _ & _).
        apply (Hb (Ck.table1 m) p e); auto.
        apply ck_holds_intro; assumption.
      * destruct (Hpresent (Ck.size_count m) k v Htr) as [Hp | [_ Hk]];
          [left; exact Hp | right; exact Hk].
Qed.

(** The same for [table2]. *)
Lemma ck_put2 m cur e :
  Ck.wf hash m -> Ck.occupied cur = true ->
  Ck.table2 m !! Z.to_nat (pos2 m (Ck.key cur)) = Some e ->
  let m1 := Ck.set_table2 m
              (<[Z.to_nat (pos2 m (Ck.key cur)) := cur]> (Ck.table2 m)) in
  (Ck.occupied e = false ->
   Ck.wf hash (Ck.set_size_count m1 (Ck.size_count m + 1)) /\
   forall k v, Ck.tracked hash m cur k v ->
     Ck.present hash (Ck.set_size_count m1 (Ck.size_count m + 1)) k /\
     Ck.bound_to (Ck.set_size_count m1 (Ck.size_count m + 1)) k v)
  /\
  (Ck.occupied e = true ->
   Ck.wf hash m1 /\ forall k v, Ck.tracked hash m cur k v ->
                          Ck.tracked hash m1 e k v).
Proof.
  intros ((Hl1 & Hl2 & Hcap) & (Hp1 & Hp2) & Hsize) Hcur He m1.
  set (p := Z.to_nat (pos2 m (Ck.key cur))) in *.
  assert (Hpos : 0 <= pos2 m (Ck.key cur))
    by (unfold Ck.pos2; apply Z.mod_pos_bound; lia).
  assert (Hlt : (p < length (Ck.table2 m))%nat)
    by (apply lookup_lt_Some in He; exact He).
  assert (Hpositioned : forall n, Ck.positioned hash (Ck.set_size_count m1 n)).
  { intros n. split; cbn [Ck.table2 Ck.table1 Ck.set_size_count m1
                           Ck.set_table2]; [exact Hp1 |].
    intros i e' Hi Ho. change (pos2 m (Ck.key e') = Z.of_nat i).
    destruct (decide (i = p)) as [-> | Hne].
    - rewrite list_lookup_insert_eq in Hi by exact Hlt.
      injection Hi as <-. subst p. lia.
    - rewrite list_lookup_insert_ne in Hi by congruence.
      apply Hp2; assumption. }
  assert (Hbound : forall n k v, Ck.tracked hash m cur k v ->
            Ck.bound_to (Ck.set_size_count m1 n) k v).
  { intros n k v (Hb & Hcv & _) t i e' Ht Hi Hh.
    cbn [Ck.table2 Ck.table1 Ck.set_size_count m1 Ck.set_table2] in Ht.
    destruct Ht as [-> | ->].
    - apply (Hb (Ck.table1 m) i e'); auto.
    - destruct (decide (i = p)) as [-> | Hne].
      + rewrite list_lookup_insert_eq in Hi by exact Hlt.
        injection Hi as <-. apply Hcv. apply (ck_holds_inv _ _ Hh).
      + rewrite list_lookup_insert_ne in Hi by congruence.
        apply (Hb (Ck.table2 m) i e'); auto. }
  assert (Hpresent : forall n k v, Ck.tracked hash m cur k v ->
            Ck.present hash (Ck.set_size_count m1 n) k \/
            (Ck.occupied e = true /\ Ck.key e = k)).
  { intros n k v (_ & _ & [[(e0 & He0 & Hh0) | (e0 & He0 & Hh0)] | Hk]).
    - left. left. exists e0. split; [exact He0 | exact Hh0].
    - destruct (decide (Z.to_nat (pos2 m k) = p)) as [Heq | Hne].
      + right. rewrite Heq in He0. assert (e0 = e) by congruence. subst e0.
        apply ck_holds_inv. exact Hh0.
      + left. right. exists e0. split; [| exact Hh0].
        change ((<[p := cur]> (Ck.table2 m)) !! Z.to_nat (pos2 m k)
                = Some e0).
        rewrite list_lookup_insert_ne by congruence. exact He0.
    - left. right. exists cur. split; [| apply ck_holds_intro; assumption].
      change ((<[p := cur]> (Ck.table2 m)) !! Z.to_nat (pos2 m k)
              = Some cur).
      rewrite <- Hk. fold p. apply list_lookup_insert_eq. exact Hlt. }
  split; intros Hocc.
  - split.
    + split; [| split; [apply Hpositioned |]].
      * unfold Ck.shaped.
        cbn [Ck.table2 Ck.table1 Ck.capacity Ck.set_size_count m1
             Ck.set_table2].
        rewrite length_insert. auto.
      * cbn [Ck.table2 Ck.table1 Ck.size_count Ck.set_size_count m1
             Ck.set_table2].
        rewrite (ck_count_insert _ _ _ _ He), Hocc, Hcur. cbn [Z.b2z]. lia.
    + intros k v Htr. split; [| apply Hbound; exact Htr].
      destruct (Hpresent (Ck.size_count m + 1) k v Htr) as [Hp | [Ho _]];
        [exact Hp | congruence].
  - assert (Hm1 : m1 = Ck.set_size_count m1 (Ck.size_count m))
      by reflexivity.
    split.
    + split; [| split; [rewrite Hm1; apply Hpositioned |]].
      * unfold Ck.shaped.
        cbn [Ck.table2 Ck.table1 Ck.capacity m1 Ck.set_table2].
        rewrite length_insert. auto.
      * cbn [Ck.table2 Ck.table1 Ck.size_count m1 Ck.set_table2].
        rewrite (ck_count_insert _ _ _ _ He), Hocc, Hcur. cbn [Z.b2z]. lia.
    + intros k v Htr. split; [rewrite Hm1; apply Hbound; exact Htr |].
      split.
      * intros Hk. destruct Htr as (Hb & _ & _).
        apply (Hb (Ck.table2 m) p e); auto.
        apply ck_holds_intro; assumption.
      * destruct (Hpresent (Ck.size_count m) k v Htr) as [Hp | [_ Hk]];
          [left; exact Hp | right; exact Hk].
Qed.

End CkProperties.
Section CkProperties2.

Context {K V : Type} `{EqDecision K}.
Context {H : Type} (hash : H -> K -> Z) (default_hasher : H)
        (seeded : option (Z -> Z -> H)).
Context {Rng : Type} (rng_next : Rng -> Z * Rng).
Context (default_key : K) (default_value : V).

Local Abbreviation map := (@Ck.map K V H Rng).
Local Abbreviation Entry := (@Ck.Entry K V).
Local Abbreviation pos1 := (Ck.pos1 hash).
Local Abbreviation pos2 := (Ck.pos2 hash).

Implicit Types (m : map) (k : K) (v : V) (e : Entry) (t : list Entry).

Lemma ck_same_frame_refl m : Ck.same_frame m m.
Proof. unfold Ck.same_frame. auto. Qed.

Lemma ck_same_frame_trans m1 m2 m3 :
  Ck.same_frame m1 m2 -> Ck.same_frame m2 m3 -> Ck.same_frame m1 m3.
Proof.
  unfold Ck.same_frame. intros (? & ? & ? & ?) (? & ? & ? & ?).
  repeat split; congruence.
Qed.

(** A key that sits in its slot with no other value around is found. *)
Lemma ck_at_of_present m k v :
  Ck.shaped m -> Ck.present hash m k -> Ck.bound_to m k v ->
  Ck.at_ hash m k = Value v /\ Ck.contains_key hash m k = Value true.
Proof.
  intros Hsh Hpres Hbound.
  destruct (ck_get_hash1 hash m k Hsh) as [Hh1 Hr1].
  destruct (ck_get_hash2 hash m k Hsh) as [Hh2 Hr2].
  destruct (ck_slot1 hash m k Hsh) as (e1 & He1 & Hat1).
  destruct (ck_slot2 hash m k Hsh) as (e2 & He2 & Hat2).
  unfold Ck.at_, Ck.at_ref, Ck.contains_key, Ck.find, Ck.find_at.
  rewrite Hh1, Hh2. cbn [result_bind]. rewrite Hat1. cbn [result_bind].
  destruct (Ck.holds e1 k) eqn:Hhold1.
  - cbn [result_bind Ck.read]. rewrite Hat1. cbn [result_bind].
    rewrite (Hbound (Ck.table1 m) _ e1 (or_introl eq_refl) He1 Hhold1).
    split; [reflexivity |].
    rewrite bool_decide_eq_true_2 by eauto. reflexivity.
  - rewrite Hat2. cbn [result_bind].
    assert (Hhold2 : Ck.holds e2 k = true).
    { destruct Hpres as [(e0 & He0 & Hh0) | (e0 & He0 & Hh0)]; congruence. }
    rewrite Hhold2. cbn [result_bind Ck.read]. rewrite Hat2.
    cbn [result_bind].
    rewrite (Hbound (Ck.table2 m) _ e2 (or_intror eq_refl) He2 Hhold2).
    split; [reflexivity |].
    rewrite bool_decide_eq_true_2 by eauto. reflexivity.
Qed.

(** The eviction walk keeps the invariant, places at most one entry, and
    on success leaves a tracked key in its slot. *)
Lemma ck_evict_ensures n :
  forall cur use_table1 m,
    Ck.wf hash m -> Ck.occupied cur = true ->
    ensures (Ck.evict hash n cur use_table1 m)
      (fun placed m' =>
         Ck.wf hash m' /\ Ck.same_frame m m' /\
         Ck.size_count m' = Ck.size_count m + Z.b2z placed /\
         forall k v, Ck.tracked hash m cur k v -> placed = true ->
                     Ck.present hash m' k /\ Ck.bound_to m' k v)
      (fun _ _ => False).
Proof.
  induction n as [| n IH]; intros cur use_table1 m Hwf Hcur;
    cbn [Ck.evict].
  { cbn [ensures Z.b2z]. split; [exact Hwf |].
    split; [apply ck_same_frame_refl |]. split; [lia |]. discriminate. }
  pose proof Hwf as (Hsh & _ & _).
  destruct use_table1.
  - rewrite (proj1 (ck_get_hash1 hash m (Ck.key cur) Hsh)).
    destruct (ck_slot1 hash m (Ck.key cur) Hsh) as (e & He & Hat).
    cbn [on outcome_bind]. rewrite Hat. cbn [on outcome_bind].
    destruct (ck_put1 hash m cur e Hwf Hcur He) as [Hfree Hbusy].
    destruct (Ck.occupied e) eqn:Hocc; cbn [negb].
    + destruct (Hbusy eq_refl) as [Hwf1 Htr1].
      eapply ensures_weaken; [apply (IH e false _ Hwf1 Hocc) | | auto].
      cbn beta. intros placed m' (Hwf' & Hfr' & Hs' & Htr').
      split; [exact Hwf' |]. split; [exact Hfr' |]. split; [exact Hs' |].
      intros k v Htr Hplaced. apply (Htr' k v); [apply Htr1; exact Htr |].
      exact Hplaced.
    + rewrite (ck_size_add hash m Hwf). cbn [ensures Z.b2z].
      destruct (Hfree eq_refl) as [Hwf1 Htr1].
      split; [exact Hwf1 |]. split; [repeat split |].
      split; [reflexivity |]. intros k v Htr _. apply Htr1. exact Htr.
  - rewrite (proj1 (ck_get_hash2 hash m (Ck.key cur) Hsh)).
    destruct (ck_slot2 hash m (Ck.key cur) Hsh) as (e & He & Hat).
    cbn [on outcome_bind]. rewrite Hat. cbn [on outcome_bind].
    destruct (ck_put2 hash m cur e Hwf Hcur He) as [Hfree Hbusy].
    destruct (Ck.occupied e) eqn:Hocc; cbn [negb].
    + destruct (Hbusy eq_refl) as [Hwf1 Htr1].
      eapply ensures_weaken; [apply (IH e true _ Hwf1 Hocc) | | auto].
      cbn beta. intros placed m' (Hwf' & Hfr' & Hs' & Htr').
      split; [exact Hwf' |]. split; [exact Hfr' |]. split; [exact Hs' |].
      intros k v Htr Hplaced. apply (Htr' k v); [apply Htr1; exact Htr |].
      exact Hplaced.
    + rewrite (ck_size_add hash m Hwf). cbn [ensures Z.b2z].
      destruct (Hfree eq_refl) as [Hwf1 Htr1].
      split; [exact Hwf1 |]. split; [repeat split |].
      split; [reflexivity |]. intros k v Htr _. apply Htr1. exact Htr.
Qed.

End CkProperties2.
Section CkProperties3.

Context {K V : Type} `{EqDecision K}.
Context {H : Type} (hash : H -> K -> Z) (default_hasher : H)
        (seeded : option (Z -> Z -> H)).
Context {Rng : Type} (rng_next : Rng -> Z * Rng).
Context (default_key : K) (default_value : V).

Local Abbreviation map := (@Ck.map K V H Rng).
Local Abbreviation Entry := (@Ck.Entry K V).
Local Abbreviation pos1 := (Ck.pos1 hash).
Local Abbreviation pos2 := (Ck.pos2 hash).

Implicit Types (m : map) (k : K) (v : V) (e : Entry) (t : list Entry).

(** Overwriting the value of a slot keeps the invariant. *)
Lemma ck_assign_wf m r v : Ck.wf hash m -> Ck.wf hash (Ck.assign m r v).
Proof.
  intros ((Hl1 & Hl2 & Hcap) & (Hp1 & Hp2) & Hsize).
  destruct r as [p | p]; unfold Ck.assign, Ck.wf, Ck.shaped, Ck.positioned.
  - cbn [Ck.table1 Ck.table2 Ck.capacity Ck.size_count Ck.set_table1].
    rewrite length_alter, ck_count_alter by reflexivity.
    repeat split; try lia; [| exact Hp2].
    intros i e Hi Ho.
    change (pos1 m (Ck.key e) = Z.of_nat i).
    destruct (decide (i = Z.to_nat p)) as [-> | Hne].
    + rewrite list_lookup_alter_eq in Hi.
      destruct (Ck.table1 m !! Z.to_nat p) as [e0 |] eqn:He0;
        [| discriminate].
      injection Hi as <-. apply (Hp1 _ e0 He0 Ho).
    + rewrite list_lookup_alter_ne in Hi by congruence.
      apply (Hp1 _ e Hi Ho).
  - cbn [Ck.table1 Ck.table2 Ck.capacity Ck.size_count Ck.set_table2].
    rewrite length_alter, ck_count_alter by reflexivity.
    repeat split; try lia; [exact Hp1 |].
    intros i e Hi Ho.
    change (pos2 m (Ck.key e) = Z.of_nat i).
    destruct (decide (i = Z.to_nat p)) as [-> | Hne].
    + rewrite list_lookup_alter_eq in Hi.
      destruct (Ck.table2 m !! Z.to_nat p) as [e0 |] eqn:He0;
        [| discriminate].
      injection Hi as <-. apply (Hp2 _ e0 He0 Ho).
    + rewrite list_lookup_alter_ne in Hi by congruence.
      apply (Hp2 _ e Hi Ho).
Qed.

(** In a map where neither slot of [k] holds it, no slot does. *)
Lemma ck_absent_bound_to m k v e1 e2 :
  Ck.wf hash m ->
  Ck.table1 m !! Z.to_nat (pos1 m k) = Some e1 -> Ck.holds e1 k = false ->
  Ck.table2 m !! Z.to_nat (pos2 m k) = Some e2 -> Ck.holds e2 k = false ->
  Ck.bound_to m k v.
Proof.
  intros (_ & (Hp1 & Hp2) & _) He1 Hh1 He2 Hh2 t i e Ht Hi Hh.
  exfalso. destruct (ck_holds_inv e k Hh) as [Ho Hk].
  destruct Ht as [-> | ->].
  - pose proof (Hp1 i e Hi Ho) as Hpos. rewrite Hk in Hpos.
    rewrite Hpos, Nat2Z.id in He1. congruence.
  - pose proof (Hp2 i e Hi Ho) as Hpos. rewrite Hk in Hpos.
    rewrite Hpos, Nat2Z.id in He2. congruence.
Qed.

Lemma ck_inner_insert_ensures m k v :
  Ck.wf hash m ->
  ensures (Ck.inner_insert hash k v m)
    (fun placed m' =>
       Ck.wf hash m' /\ Ck.same_frame m m' /\
       Ck.size_count m <= Ck.size_count m' <= Ck.size_count m + 1 /\
       (placed = true ->
        Ck.at_ hash m' k = Value v /\
        Ck.contains_key hash m' k = Value true))
    (fun _ _ => False).
Proof.
  intros Hwf. pose proof Hwf as (Hsh & _ & _).
  pose proof Hsh as (Hl1 & Hl2 & Hcap).
  destruct (ck_get_hash1 hash m k Hsh) as [Hh1 Hr1].
  destruct (ck_get_hash2 hash m k Hsh) as [Hh2 Hr2].
  destruct (ck_slot1 hash m k Hsh) as (e1 & He1 & Hat1).
  destruct (ck_slot2 hash m k Hsh) as (e2 & He2 & Hat2).
  unfold Ck.inner_insert. rewrite Hh1. cbn [on outcome_bind].
  rewrite Hh2. cbn [on outcome_bind]. rewrite Hat1. cbn [on outcome_bind].
  destruct (Ck.holds e1 k) eqn:Hhold1.
  { (* the key is in table1: its value is overwritten *)
    cbn [ensures].
    pose proof (ck_assign_wf m (Ck.In1 (pos1 m k)) v Hwf) as Hwf'.
    cbn [Ck.assign] in Hwf'.
    split; [exact Hwf' |]. split; [repeat split |].
    split; [cbn; lia |]. intros _.
    set (m' := Ck.set_table1 m _) in *.
    assert (Hat1' : vector_at (Ck.table1 m') (pos1 m k)
                    = Value (Ck.with_value v e1)).
    { apply vector_at_lookup; [lia |]. cbn [Ck.table1 m' Ck.set_table1].
      rewrite list_lookup_alter_eq, He1. reflexivity. }
    unfold Ck.at_, Ck.at_ref, Ck.contains_key, Ck.find, Ck.find_at.
    change (Ck.get_hash1 hash m' k) with (Ck.get_hash1 hash m k).
    change (Ck.get_hash2 hash m' k) with (Ck.get_hash2 hash m k).
    rewrite Hh1, Hh2. cbn [result_bind]. rewrite Hat1'.
    cbn [result_bind].
    change (Ck.holds (Ck.with_value v e1) k) with (Ck.holds e1 k).
    rewrite Hhold1. cbn [result_bind Ck.read]. rewrite Hat1'.
    cbn [result_bind Ck.with_value Ck.value]. split; [reflexivity |].
    rewrite bool_decide_eq_true_2 by eauto. reflexivity. }
  rewrite Hat2. cbn [on outcome_bind].
  destruct (Ck.holds e2 k) eqn:Hhold2.
  { (* the key is in table2: its value is overwritten *)
    cbn [ensures].
    pose proof (ck_assign_wf m (Ck.In2 (pos2 m k)) v Hwf) as Hwf'.
    cbn [Ck.assign] in Hwf'.
    split; [exact Hwf' |]. split; [repeat split |].
    split; [cbn; lia |]. intros _.
    set (m' := Ck.set_table2 m _) in *.
    assert (Hat2' : vector_at (Ck.table2 m') (pos2 m k)
                    = Value (Ck.with_value v e2)).
    { apply vector_at_lookup; [lia |]. cbn [Ck.table2 m' Ck.set_table2].
      rewrite list_lookup_alter_eq, He2. reflexivity. }
    unfold Ck.at_, Ck.at_ref, Ck.contains_key, Ck.find, Ck.find_at.
    change (Ck.get_hash1 hash m' k) with (Ck.get_hash1 hash m k).
    change (Ck.get_hash2 hash m' k) with (Ck.get_hash2 hash m k).
    change (Ck.table1 m') with (Ck.table1 m).
    rewrite Hh1, Hh2. cbn [result_bind]. rewrite Hat1.
    cbn [result_bind]. rewrite Hhold1, Hat2'. cbn [result_bind].
    change (Ck.holds (Ck.with_value v e2) k) with (Ck.holds e2 k).
    rewrite Hhold2. cbn [result_bind Ck.read]. rewrite Hat2'.
    cbn [result_bind Ck.with_value Ck.value]. split; [reflexivity |].
    rewrite bool_decide_eq_true_2 by eauto. reflexivity. }
  (* the key is new *)
  set (cur := Ck.Entry_new k v).
  assert (Htracked : Ck.tracked hash m cur k v).
  { split; [apply (ck_absent_bound_to m k v e1 e2); assumption |].
    split; [reflexivity | right; reflexivity]. }
  assert (Hfound : forall m', Ck.wf hash m' ->
            Ck.present hash m' k /\ Ck.bound_to m' k v ->
            Ck.at_ hash m' k = Value v /\
            Ck.contains_key hash m' k = Value true).
  { intros m' (Hsh' & _ & _) [Hp Hb]. apply ck_at_of_present; assumption. }
  destruct (Ck.occupied e1) eqn:Hocc1; cbn [negb].
  2:{ destruct (ck_put1 hash m cur e1 Hwf eq_refl He1) as [Hfree _].
      destruct (Hfree Hocc1) as [Hwf1 Htr1].
      rewrite (ck_size_add hash m Hwf). cbn [ensures].
      split; [exact Hwf1 |]. split; [repeat split |].
      split; [cbn; lia |]. intros _. apply (Hfound _ Hwf1).
      apply Htr1. exact Htracked. }
  destruct (Ck.occupied e2) eqn:Hocc2; cbn [negb].
  2:{ destruct (ck_put2 hash m cur e2 Hwf eq_refl He2) as [Hfree _].
      destruct (Hfree Hocc2) as [Hwf1 Htr1].
      rewrite (ck_size_add hash m Hwf). cbn [ensures].
      split; [exact Hwf1 |]. split; [repeat split |].
      split; [cbn; lia |]. intros _. apply (Hfound _ Hwf1).
      apply Htr1. exact Htracked. }
  eapply ensures_weaken;
    [apply (ck_evict_ensures hash (Z.to_nat (Ck.capacity m)) cur true m Hwf
              eq_refl) | | auto].
  cbn beta. intros placed m' (Hwf' & Hfr' & Hs' & Htr').
  split; [exact Hwf' |]. split; [exact Hfr' |].
  split; [destruct placed; cbn [Z.b2z] in Hs'; lia |].
  intros Hplaced. apply (Hfound _ Hwf'). apply (Htr' k v Htracked Hplaced).
Qed.

End CkProperties3.
Section CkProperties4.

Context {K V : Type} `{EqDecision K}.
Context {H : Type} (hash : H -> K -> Z) (default_hasher : H)
        (seeded : option (Z -> Z -> H)).
Context {Rng : Type} (rng_next : Rng -> Z * Rng).
Context (default_key : K) (default_value : V).

Local Abbreviation map := (@Ck.map K V H Rng).
Local Abbreviation Entry := (@Ck.Entry K V).
Local Abbreviation pos1 := (Ck.pos1 hash).
Local Abbreviation pos2 := (Ck.pos2 hash).
Local Abbreviation rehash :=
  (Ck.rehash hash default_hasher seeded rng_next default_key default_value).
Local Abbreviation insert :=
  (Ck.insert hash default_hasher seeded rng_next default_key default_value).
Local Abbreviation insert_loop :=
  (Ck.insert_loop hash default_hasher seeded rng_next default_key
     default_value).
Local Abbreviation index_ref :=
  (Ck.index_ref hash default_hasher seeded rng_next default_key
     default_value).
Local Abbreviation reachable :=
  (Ck.reachable hash default_hasher seeded rng_next default_key
     default_value).

Implicit Types (m : map) (k : K) (v : V) (e : Entry) (t : list Entry).

Lemma ck_reinsert_ensures old :
  forall m,
    Ck.wf hash m ->
    ensures (Ck.reinsert hash old m)
      (fun _ m' =>
         Ck.wf hash m' /\ Ck.same_frame m m' /\
         Ck.size_count m <= Ck.size_count m'
           <= Ck.size_count m + Ck.count old)
      (fun _ _ => False).
Proof.
  induction old as [| entry rest IH]; intros m Hwf;
    cbn [Ck.reinsert Ck.count].
  - cbn [ensures]. split; [exact Hwf |].
    split; [apply ck_same_frame_refl | lia].
  - pose proof (ck_count_range rest) as Hrest.
    destruct (Ck.occupied entry).
    + eapply ensures_bind;
        [apply (ck_inner_insert_ensures hash m _ _ Hwf) | auto |].
      intros placed m1 (Hwf1 & Hfr1 & Hs1 & _). cbn beta.
      eapply ensures_weaken; [apply (IH m1 Hwf1) | | auto].
      cbn beta. intros _ m2 (Hwf2 & Hfr2 & Hs2).
      split; [exact Hwf2 |].
      split; [exact (ck_same_frame_trans _ _ _ Hfr1 Hfr2) | lia].
    + eapply ensures_weaken; [apply (IH m Hwf) | | auto].
      cbn beta. intros _ m2 (Hwf2 & Hfr2 & Hs2).
      split; [exact Hwf2 |]. split; [exact Hfr2 | lia].
Qed.

Lemma ck_fresh_wf c t h1 h2 (g : Rng) :
  0 < c ->
  vector_new c (Ck.Entry_default default_key default_value) = Some t ->
  Ck.wf hash (Ck.Map t t h1 h2 0 c g).
Proof.
  intros Hc Ht. apply vector_new_inv in Ht as [Hmax ->].
  assert (Hfree : forall i e,
            replicate (Z.to_nat c)
              (Ck.Entry_default default_key default_value) !! i = Some e ->
            Ck.occupied e = true -> False).
  { intros i e Hi Ho. apply lookup_replicate in Hi as [-> _].
    discriminate. }
  unfold Ck.wf, Ck.shaped, Ck.positioned.
  cbn [Ck.table1 Ck.table2 Ck.capacity Ck.size_count].
  rewrite length_replicate, ck_count_replicate by reflexivity.
  repeat split; try lia; intros i e Hi Ho; destruct (Hfree i e Hi Ho).
Qed.

Lemma ck_rehash_ensures m :
  Ck.wf hash m ->
  ensures (rehash m)
    (fun _ m' =>
       Ck.wf hash m' /\ Ck.capacity m' = 2 * Ck.capacity m /\
       Ck.size_count m' <= Ck.size_count m)
    (fun ex _ => ex = length_error).
Proof.
  intros Hwf. pose proof Hwf as ((Hl1 & Hl2 & Hcap) & _ & Hsize).
  unfold Ck.rehash. rewrite u64_double_small by lia.
  destruct (vector_new (2 * Ck.capacity m)
              (Ck.Entry_default default_key default_value))
    as [t |] eqn:Ht; [| reflexivity].
  destruct (Ck.create_hasher default_hasher seeded rng_next (Ck.rng m))
    as [h1 g1].
  destruct (Ck.create_hasher default_hasher seeded rng_next g1) as [h2 g2].
  assert (Hfresh : Ck.wf hash (Ck.Map t t h1 h2 0 (2 * Ck.capacity m) g2))
    by (apply ck_fresh_wf; [lia | exact Ht]).
  eapply ensures_bind;
    [apply (ck_reinsert_ensures (Ck.table1 m) _ Hfresh)
    | cbn beta; contradiction |].
  intros _ m1 (Hwf1 & (Hc1 & _) & Hs1). cbn beta.
  eapply ensures_weaken;
    [apply (ck_reinsert_ensures (Ck.table2 m) _ Hwf1) |
    | cbn beta; contradiction].
  cbn beta. intros _ m2 (Hwf2 & (Hc2 & _) & Hs2).
  cbn [Ck.capacity Ck.size_count] in *.
  split; [exact Hwf2 |]. split; lia.
Qed.

Lemma ck_size_nonneg m : Ck.wf hash m -> 0 <= Ck.size_count m.
Proof.
  intros (_ & _ & Hsize).
  pose proof (ck_count_range (Ck.table1 m)).
  pose proof (ck_count_range (Ck.table2 m)). lia.
Qed.

(** The loop of [insert]: it leaves with [attempts] below the bound only
    after a call of [inner_insert] that placed the entry. *)
Lemma ck_insert_loop_ensures k v fuel :
  forall attempts m,
    Ck.wf hash m -> 2 * (Ck.size_count m + 1) <= Ck.capacity m ->
    0 <= attempts <= Ck.MAX_REHASH_ATTEMPTS ->
    ensures (insert_loop fuel k v attempts m)
      (fun a m' =>
         Ck.inv hash m' /\
         (a < Ck.MAX_REHASH_ATTEMPTS ->
          Ck.at_ hash m' k = Value v /\
          Ck.contains_key hash m' k = Value true))
      (fun ex _ => ex = length_error).
Proof.
  induction fuel as [| fuel IH]; intros attempts m Hwf Hload Hatt;
    cbn [Ck.insert_loop]; [exact I |].
  pose proof (ck_size_nonneg m Hwf) as Hnn.
  eapply ensures_bind;
    [apply (ck_inner_insert_ensures hash m k v Hwf)
    | cbn beta; contradiction |].
  intros placed m1 (Hwf1 & (Hc1 & _) & Hs1 & Hat1). cbn beta.
  destruct (negb placed && (attempts <? Ck.MAX_REHASH_ATTEMPTS)) eqn:Hgo.
  - apply andb_true_iff in Hgo as [_ Hlt]. apply Z.ltb_lt in Hlt.
    eapply ensures_bind; [apply (ck_rehash_ensures m1 Hwf1) | auto |].
    intros _ m2 (Hwf2 & Hc2 & Hs2). cbn beta.
    pose proof (ck_size_nonneg m2 Hwf2).
    unfold Ck.MAX_REHASH_ATTEMPTS in *.
    rewrite u64_add_small by (unfold U64.modulus; lia).
    apply IH; [exact Hwf2 | lia | lia].
  - cbn [ensures]. split; [split; [exact Hwf1 |] |].
    + unfold Ck.within_load. lia.
    + intros Ha. apply Hat1.
      destruct placed; [reflexivity |]. cbn [negb andb] in Hgo.
      apply Z.ltb_ge in Hgo. lia.
Qed.

Lemma ck_insert_ensures m k v :
  Ck.inv hash m ->
  ensures (insert k v m)
    (fun _ m' =>
       Ck.inv hash m' /\ Ck.at_ hash m' k = Value v /\
       Ck.contains_key hash m' k = Value true)
    (fun ex m' => ex <> length_error -> Ck.inv hash m').
Proof.
  intros [Hwf Hload]. pose proof Hwf as ((Hl1 & Hl2 & Hcap) & _ & Hsize).
  pose proof (ck_size_nonneg m Hwf) as Hnn.
  unfold Ck.within_load in Hload. unfold Ck.insert.
  eapply ensures_bind with
    (Q1 := fun _ m1 => Ck.wf hash m1 /\
             2 * (Ck.size_count m1 + 1) <= Ck.capacity m1)
    (E1 := fun ex _ => ex = length_error).
  - destruct (Ck.needs_rehash m) eqn:Hneed.
    + eapply ensures_weaken; [apply (ck_rehash_ensures m Hwf) | | auto].
      cbn beta. intros _ m1 (Hwf1 & Hc1 & Hs1).
      pose proof (ck_size_nonneg m1 Hwf1).
      split; [exact Hwf1 | lia].
    + cbn [ensures]. split; [exact Hwf |].
      unfold Ck.needs_rehash, Ck.exceeds_max_load in Hneed.
      apply Z.ltb_ge in Hneed.
      rewrite u64_add_small in Hneed
        by (unfold U64.modulus, U64.vector_max_size in *; lia).
      lia.
  - cbn beta. intros ex m' -> Hne. contradiction.
  - intros _ m1 [Hwf1 Hload1]. cbn beta.
    eapply ensures_bind;
      [apply (ck_insert_loop_ensures k v 9 0 m1 Hwf1 Hload1);
       unfold Ck.MAX_REHASH_ATTEMPTS; lia | |].
    { cbn beta. intros ex m' -> Hne. contradiction. }
    intros a m2 [Hinv2 Hat2]. cbn beta.
    destruct (Ck.MAX_REHASH_ATTEMPTS <=? a) eqn:Ha; cbn [ensures].
    + intros _. exact Hinv2.
    + apply Z.leb_gt in Ha. split; [exact Hinv2 | apply Hat2; exact Ha].
Qed.

End CkProperties4.
Section CkProperties5.

Context {K V : Type} `{EqDecision K}.
Context {H : Type} (hash : H -> K -> Z) (default_hasher : H)
        (seeded : option (Z -> Z -> H)).
Context {Rng : Type} (rng_next : Rng -> Z * Rng).
Context (default_key : K) (default_value : V).

Local Abbreviation map := (@Ck.map K V H Rng).
Local Abbreviation Entry := (@Ck.Entry K V).
Local Abbreviation pos1 := (Ck.pos1 hash).
Local Abbreviation pos2 := (Ck.pos2 hash).
Local Abbreviation insert :=
  (Ck.insert hash default_hasher seeded rng_next default_key default_value).
Local Abbreviation index_ref :=
  (Ck.index_ref hash default_hasher seeded rng_next default_key
     default_value).
Local Abbreviation reachable :=
  (Ck.reachable hash default_hasher seeded rng_next default_key
     default_value).

Implicit Types (m : map) (k : K) (v : V) (e : Entry) (t : list Entry).

(** What the lookup shared by [at], [contains_key] and [remove] finds. *)
Lemma ck_find_cases m k :
  Ck.shaped m ->
  exists e1 e2,
    Ck.table1 m !! Z.to_nat (pos1 m k) = Some e1 /\
    Ck.table2 m !! Z.to_nat (pos2 m k) = Some e2 /\
    0 <= pos1 m k /\ 0 <= pos2 m k /\
    Ck.find hash m k
    = Value (if Ck.holds e1 k then Some (Ck.In1 (pos1 m k))
             else if Ck.holds e2 k then Some (Ck.In2 (pos2 m k))
             else None).
Proof.
  intros Hsh.
  destruct (ck_get_hash1 hash m k Hsh) as [Hh1 Hr1].
  destruct (ck_get_hash2 hash m k Hsh) as [Hh2 Hr2].
  destruct (ck_slot1 hash m k Hsh) as (e1 & He1 & Hat1).
  destruct (ck_slot2 hash m k Hsh) as (e2 & He2 & Hat2).
  exists e1, e2. repeat (split; [first [assumption | lia] |]).
  unfold Ck.find, Ck.find_at. rewrite Hh1, Hh2. cbn [result_bind].
  rewrite Hat1. cbn [result_bind].
  destruct (Ck.holds e1 k); [reflexivity |].
  rewrite Hat2. cbn [result_bind].
  destruct (Ck.holds e2 k); reflexivity.
Qed.

Lemma ck_vacate_wf1 m p e :
  Ck.inv hash m ->
  Ck.table1 m !! p = Some e -> Ck.occupied e = true ->
  Ck.inv hash
    (Ck.set_size_count (Ck.set_table1 m (alter Ck.vacate p (Ck.table1 m)))
       (U64.sub (Ck.size_count m) 1)).
Proof.
  intros [Hwf Hload] He Hocc.
  pose proof Hwf as ((Hl1 & Hl2 & Hcap) & (Hp1 & Hp2) & Hsize).
  pose proof (ck_count_pos _ _ _ He Hocc) as Hpos.
  pose proof (ck_count_range (Ck.table1 m)).
  pose proof (ck_count_range (Ck.table2 m)).
  rewrite u64_sub_small
    by (unfold U64.modulus, U64.vector_max_size in *; lia).
  unfold Ck.inv, Ck.wf, Ck.shaped, Ck.positioned, Ck.within_load in *.
  cbn [Ck.table1 Ck.table2 Ck.capacity Ck.size_count Ck.set_size_count
       Ck.set_table1].
  rewrite length_alter, (list_alter_insert_at _ _ _ _ He),
    (ck_count_insert _ _ _ _ He), Hocc.
  cbn [Ck.vacate Ck.occupied Z.b2z].
  repeat split; try lia; [| exact Hp2].
  intros i e' Hi Ho. change (pos1 m (Ck.key e') = Z.of_nat i).
  destruct (decide (i = p)) as [-> | Hne].
  - rewrite list_lookup_insert_eq in Hi by (apply lookup_lt_Some in He; lia).
    injection Hi as <-. discriminate.
  - rewrite list_lookup_insert_ne in Hi by congruence.
    apply (Hp1 _ _ Hi Ho).
Qed.

Lemma ck_vacate_wf2 m p e :
  Ck.inv hash m ->
  Ck.table2 m !! p = Some e -> Ck.occupied e = true ->
  Ck.inv hash
    (Ck.set_size_count (Ck.set_table2 m (alter Ck.vacate p (Ck.table2 m)))
       (U64.sub (Ck.size_count m) 1)).
Proof.
  intros [Hwf Hload] He Hocc.
  pose proof Hwf as ((Hl1 & Hl2 & Hcap) & (Hp1 & Hp2) & Hsize).
  pose proof (ck_count_pos _ _ _ He Hocc) as Hpos.
  pose proof (ck_count_range (Ck.table1 m)).
  pose proof (ck_count_range (Ck.table2 m)).
  rewrite u64_sub_small
    by (unfold U64.modulus, U64.vector_max_size in *; lia).
  unfold Ck.inv, Ck.wf, Ck.shaped, Ck.positioned, Ck.within_load in *.
  cbn [Ck.table1 Ck.table2 Ck.capacity Ck.size_count Ck.set_size_count
       Ck.set_table2].
  rewrite length_alter, (list_alter_insert_at _ _ _ _ He),
    (ck_count_insert _ _ _ _ He), Hocc.
  cbn [Ck.vacate Ck.occupied Z.b2z].
  repeat split; try lia; [exact Hp1 |].
  intros i e' Hi Ho. change (pos2 m (Ck.key e') = Z.of_nat i).
  destruct (decide (i = p)) as [-> | Hne].
  - rewrite list_lookup_insert_eq in Hi by (apply lookup_lt_Some in He; lia).
    injection Hi as <-. discriminate.
  - rewrite list_lookup_insert_ne in Hi by congruence.
    apply (Hp2 _ _ Hi Ho).
Qed.

Lemma ck_remove_ensures m k :
  Ck.inv hash m ->
  ensures (Ck.remove hash k m)
    (fun _ m' => Ck.inv hash m') (fun _ _ => False).
Proof.
  intros Hinv. pose proof Hinv as ((Hsh & _) & _).
  destruct (ck_find_cases m k Hsh)
    as (e1 & e2 & He1 & He2 & Hr1 & Hr2 & Hfind).
  unfold Ck.remove. rewrite Hfind. cbn [on outcome_bind].
  destruct (Ck.holds e1 k) eqn:Hh1.
  - rewrite (vector_at_lookup _ _ _ Hr1 He1). cbn [on outcome_bind ensures].
    apply (ck_vacate_wf1 m _ e1 Hinv He1).
    apply (ck_holds_inv e1 k Hh1).
  - destruct (Ck.holds e2 k) eqn:Hh2; [| exact Hinv].
    rewrite (vector_at_lookup _ _ _ Hr2 He2). cbn [on outcome_bind ensures].
    apply (ck_vacate_wf2 m _ e2 Hinv He2).
    apply (ck_holds_inv e2 k Hh2).
Qed.

Lemma ck_clear_inv m : Ck.inv hash m -> Ck.inv hash (Ck.clear m).
Proof.
  intros (((Hl1 & Hl2 & Hcap) & _ & _) & _).
  assert (Hfree : forall t i e,
            List.map Ck.vacate t !! i = Some e ->
            Ck.occupied e = true -> False).
  { intros t i e Hi Ho. rewrite list_lookup_fmap in Hi.
    destruct (t !! i); [| discriminate]. injection Hi as <-. discriminate. }
  unfold Ck.inv, Ck.wf, Ck.shaped, Ck.positioned, Ck.within_load, Ck.clear.
  cbn [Ck.table1 Ck.table2 Ck.capacity Ck.size_count].
  rewrite !length_map, !ck_count_vacate.
  repeat split; try lia; intros i e Hi Ho; destruct (Hfree _ i e Hi Ho).
Qed.

Lemma ck_assign_inv m r v : Ck.inv hash m -> Ck.inv hash (Ck.assign m r v).
Proof.
  intros [Hwf Hload]. split; [apply ck_assign_wf; exact Hwf |].
  destruct r; exact Hload.
Qed.

Lemma ck_index_ref_ensures m k :
  Ck.inv hash m ->
  ensures (index_ref k m)
    (fun _ m' => Ck.inv hash m')
    (fun ex m' => ex <> length_error -> Ck.inv hash m').
Proof.
  intros Hinv. unfold Ck.index_ref.
  destruct (Ck.get_hash1 hash m k) as [p1 | ex |];
    cbn [on outcome_bind ensures]; auto.
  destruct (Ck.get_hash2 hash m k) as [p2 | ex |];
    cbn [on outcome_bind ensures]; auto.
  destruct (Ck.find_at m k p1 p2) as [[r |] | ex |];
    cbn [on outcome_bind ensures]; auto.
  eapply ensures_bind;
    [apply (ck_insert_ensures hash default_hasher seeded rng_next
              default_key default_value m k default_value Hinv) | auto |].
  intros [] m1 (Hinv1 & _). cbn beta.
  destruct (Ck.find_at m1 k p1 p2) as [[r |] | ex |];
    cbn [on outcome_bind ensures]; auto.
Qed.

(** Every map that a program reaches satisfies the invariant. *)
Lemma ck_reachable_inv catching c g m :
  0 < c -> reachable catching c g m -> Ck.inv hash m.
Proof.
  intros Hc Hreach. induction Hreach as [m Hnew | m m' _ IH Hstep].
  - unfold Ck.new in Hnew.
    destruct (vector_new c (Ck.Entry_default default_key default_value))
      as [t |] eqn:Ht; [| discriminate].
    destruct (Ck.create_hasher default_hasher seeded rng_next g)
      as [h1 g1].
    destruct (Ck.create_hasher default_hasher seeded rng_next g1)
      as [h2 g2].
    injection Hnew as <-. split.
    + apply (ck_fresh_wf hash default_key default_value); assumption.
    + unfold Ck.within_load. cbn. lia.
  - pose proof (ck_insert_ensures hash default_hasher seeded rng_next
                  default_key default_value m) as Hins_ok.
    destruct Hstep as [k v m' Hins | k v ex m' _ Hins Hne | k r m' Hrem
                      | | k r m' Hidx | k ex m' _ Hidx Hne
                      | k r v Hat | k r m' v Hidx].
    + exact (proj1 (ensures_returns _ _ _ _ _ (Hins_ok k v IH) Hins)).
    + exact (ensures_throws _ _ _ _ _ (Hins_ok k v IH) Hins Hne).
    + exact (ensures_returns _ _ _ _ _ (ck_remove_ensures m k IH) Hrem).
    + apply ck_clear_inv. exact IH.
    + exact (ensures_returns _ _ _ _ _ (ck_index_ref_ensures m k IH) Hidx).
    + exact (ensures_throws _ _ _ _ _ (ck_index_ref_ensures m k IH)
               Hidx Hne).
    + apply ck_assign_inv. exact IH.
    + apply ck_assign_inv.
      exact (ensures_returns _ _ _ _ _ (ck_index_ref_ensures m k IH) Hidx).
Qed.

End CkProperties5.

(** ** Maps built with capacity 0 *)

Section ScCapacityZero.

Context {K V : Type} `{EqDecision K}.
Context (hash : K -> Z) (default_value : V).

Lemma sc_insert_capacity_zero (m : @Sc.map K V) k v :
  Sc.capacity m = 0 -> Sc.buckets m = [] ->
  Sc.insert hash k v m = Undefined_behaviour.
Proof.
  destruct m as [bs n c]. cbn [Sc.capacity Sc.buckets]. intros -> ->.
  unfold Sc.insert. destruct (Sc.needs_resize _); reflexivity.
Qed.

Lemma sc_reachable_capacity_zero catching (m : @Sc.map K V) :
  Sc.reachable hash default_value catching 0 m ->
  Sc.capacity m = 0 /\ Sc.buckets m = [].
Proof.
  intros Hreach. induction Hreach as [m Hnew | m m' _ [Hc Hb] Hstep].
  - injection Hnew as <-. auto.
  - destruct m as [bs n c]. cbn [Sc.capacity Sc.buckets] in Hc, Hb.
    subst c bs.
    destruct Hstep as [k v m' Hins | k v ex m' _ Hins Hne | k r m' Hrem
                      | | k r m' Hidx | k ex m' _ Hidx Hne
                      | k r v Hat | k r m' v Hidx];
      try (rewrite sc_insert_capacity_zero in Hins by reflexivity);
      try discriminate; auto.
Qed.

End ScCapacityZero.

Section LpCapacityZero.

Context {K V : Type} `{EqDecision K}.
Context (hash : K -> Z) (default_key : K) (default_value : V).

Lemma lp_insert_capacity_zero (m : @Lp.map K V) k v :
  Lp.capacity m = 0 -> Lp.table m = [] ->
  Lp.insert hash default_key default_value k v m = Undefined_behaviour.
Proof.
  destruct m as [t n c d]. cbn [Lp.capacity Lp.table]. intros -> ->.
  unfold Lp.insert. destruct (Lp.needs_rehash _); reflexivity.
Qed.

Lemma lp_reachable_capacity_zero catching (m : @Lp.map K V) :
  Lp.reachable hash default_key default_value catching 0 m ->
  Lp.capacity m = 0 /\ Lp.table m = [].
Proof.
  intros Hreach. induction Hreach as [m Hnew | m m' _ [Hc Hb] Hstep].
  - injection Hnew as <-. auto.
  - destruct m as [t n c d]. cbn [Lp.capacity Lp.table] in Hc, Hb.
    subst c t.
    destruct Hstep as [k v m' Hins | k v ex m' _ Hins Hne | k r m' Hrem
                      | | k r m' Hidx | k ex m' _ Hidx Hne
                      | k r v Hat | k r m' v Hidx];
      try (rewrite lp_insert_capacity_zero in Hins by reflexivity);
      try discriminate; auto.
Qed.

End LpCapacityZero.

Section CkCapacityZero.

Context {K V : Type} `{EqDecision K}.
Context {H : Type} (hash : H -> K -> Z) (default_hasher : H)
        (seeded : option (Z -> Z -> H)).
Context {Rng : Type} (rng_next : Rng -> Z * Rng).
Context (default_key : K) (default_value : V).

Lemma ck_insert_capacity_zero (m : @Ck.map K V H Rng) k v :
  Ck.capacity m = 0 -> Ck.table1 m = [] -> Ck.table2 m = [] ->
  Ck.insert hash default_hasher seeded rng_next default_key default_value
    k v m = Undefined_behaviour.
Proof.
  destruct m as [t1 t2 h1 h2 n c g].
  cbn [Ck.capacity Ck.table1 Ck.table2]. intros -> -> ->.
  unfold Ck.insert. destruct (Ck.needs_rehash _); [| reflexivity].
  unfold Ck.rehash. cbn [Ck.capacity Ck.rng Ck.table1 Ck.table2].
  change (vector_new (U64.mul 0 2)
            (Ck.Entry_default default_key default_value)) with
    (Some ([] : list (@Ck.Entry K V))).
  cbv iota.
  destruct (Ck.create_hasher default_hasher seeded rng_next g) as [h1' g1].
  destruct (Ck.create_hasher default_hasher seeded rng_next g1)
    as [h2' g2].
  reflexivity.
Qed.

Lemma ck_reachable_capacity_zero catching g (m : @Ck.map K V H Rng) :
  Ck.reachable hash default_hasher seeded rng_next default_key
    default_value catching 0 g m ->
  Ck.capacity m = 0 /\ Ck.table1 m = [] /\ Ck.table2 m = [].
Proof.
  intros Hreach. induction Hreach as [m Hnew | m m' _ (Hc & Hb1 & Hb2) Hstep].
  - unfold Ck.new in Hnew. cbn in Hnew.
    destruct (Ck.create_hasher default_hasher seeded rng_next g)
      as [h1' g1].
    destruct (Ck.create_hasher default_hasher seeded rng_next g1)
      as [h2' g2].
    injection Hnew as <-. auto.
  - destruct m as [t1 t2 h1 h2 n c g0].
    cbn [Ck.capacity Ck.table1 Ck.table2] in Hc, Hb1, Hb2. subst c t1 t2.
    destruct Hstep as [k v m' Hins | k v ex m' _ Hins Hne | k r m' Hrem
                      | | k r m' Hidx | k ex m' _ Hidx Hne
                      | k r v Hat | k r m' v Hidx];
      try (rewrite ck_insert_capacity_zero in Hins by reflexivity);
      try discriminate; auto.
Qed.

End CkCapacityZero.

(** ** [schashmap.hpp]: what the map holds *)

Section ScBuckets.

Context {K V : Type} `{EqDecision K}.

Local Abbreviation Entry := (@Sc.Entry K V).
Local Abbreviation Bucket := (list Entry).
Local Abbreviation set_v := (fun (v : V) (e : Entry) => Sc.mkEntry (Sc.key e) v).

Implicit Types (k : K) (v : V) (e : Entry) (b : Bucket) (bs : list Bucket).

Lemma sc_bucket_value_find k b :
  Sc.bucket_value k b
  = match Sc.bucket_find k b with
    | Some j => Sc.value <$> b !! j
    | None => None
    end.
Proof.
  induction b as [| e b IH]; [reflexivity |].
  cbn [Sc.bucket_value Sc.bucket_find].
  destruct (bool_decide (Sc.key e = k)); [reflexivity |].
  rewrite IH. destruct (Sc.bucket_find k b); reflexivity.
Qed.

Lemma sc_bucket_find_none k b :
  Sc.bucket_find k b = None <-> k ∉ Sc.key <$> b.
Proof.
  induction b as [| e b IH]; cbn [Sc.bucket_find].
  - split; [intros _ | reflexivity]. rewrite fmap_nil. apply not_elem_of_nil.
  - rewrite fmap_cons, not_elem_of_cons. case_bool_decide as Hk.
    + split; [discriminate | intros [Hne _]; congruence].
    + destruct (Sc.bucket_find k b) as [j |]; cbn.
      * split; [discriminate |]. intros [_ Hn]. apply IH in Hn. discriminate.
      * split; [| reflexivity]. intros _. split; [congruence |].
        apply IH. reflexivity.
Qed.

Lemma sc_bucket_value_none k b :
  Sc.bucket_value k b = None <-> k ∉ Sc.key <$> b.
Proof.
  rewrite <- sc_bucket_find_none, sc_bucket_value_find.
  destruct (Sc.bucket_find k b) as [j |] eqn:Hf; [| tauto].
  destruct (sc_bucket_find_some k b j Hf) as (e & -> & _). cbn.
  split; discriminate.
Qed.

Lemma sc_bucket_value_some k b v :
  Sc.bucket_value k b = Some v ->
  exists e, e ∈ b /\ Sc.key e = k /\ Sc.value e = v.
Proof.
  induction b as [| e b IH]; cbn [Sc.bucket_value]; [discriminate |].
  case_bool_decide as Hk.
  - intros [= <-]. exists e. split; [apply list_elem_of_here | auto].
  - intros Hv. destruct (IH Hv) as (e' & Hin & Hk' & Hv').
    exists e'. split; [apply list_elem_of_further; exact Hin | auto].
Qed.

Lemma sc_bucket_value_elem b e :
  NoDup (Sc.key <$> b) -> e ∈ b ->
  Sc.bucket_value (Sc.key e) b = Some (Sc.value e).
Proof.
  induction b as [| e' b IH]; intros Hnd Hin.
  - apply elem_of_nil in Hin. contradiction.
  - rewrite fmap_cons in Hnd. apply NoDup_cons in Hnd as [Hfresh Hnd].
    cbn [Sc.bucket_value]. apply elem_of_cons in Hin as [-> | Hin].
    + rewrite bool_decide_eq_true_2 by reflexivity. reflexivity.
    + case_bool_decide as Hk.
      * exfalso. apply Hfresh. rewrite Hk.
        apply list_elem_of_fmap. exists e. auto.
      * apply IH; assumption.
Qed.

Lemma sc_bucket_value_app k b1 b2 :
  Sc.bucket_value k (b1 ++ b2)
  = match Sc.bucket_value k b1 with
    | Some v => Some v
    | None => Sc.bucket_value k b2
    end.
Proof.
  induction b1 as [| e b1 IH]; [reflexivity |].
  cbn [app Sc.bucket_value]. case_bool_decide; [reflexivity | exact IH].
Qed.

Lemma sc_bucket_value_set_same k v b j :
  Sc.bucket_find k b = Some j ->
  Sc.bucket_value k (alter (set_v v) j b) = Some v.
Proof.
  revert j. induction b as [| e b IH]; intros j; cbn [Sc.bucket_find];
    [discriminate |].
  case_bool_decide as Hk.
  - intros [= <-]. cbn. rewrite bool_decide_eq_true_2 by exact Hk.
    reflexivity.
  - destruct (Sc.bucket_find k b) as [j' |]; [| discriminate].
    intros [= <-]. cbn. rewrite bool_decide_eq_false_2 by exact Hk.
    apply IH. reflexivity.
Qed.

Lemma sc_bucket_value_set_other k k' v b j e :
  b !! j = Some e -> Sc.key e = k -> k' <> k ->
  Sc.bucket_value k' (alter (set_v v) j b) = Sc.bucket_value k' b.
Proof.
  revert j. induction b as [| e' b IH]; intros j He Hk Hne;
    [discriminate |].
  destruct j as [| j]; cbn in *.
  - injection He as ->. rewrite Hk.
    rewrite !bool_decide_eq_false_2 by congruence. reflexivity.
  - case_bool_decide; [reflexivity |]. exact (IH j He Hk Hne).
Qed.

Lemma sc_bucket_keys_set v b j :
  Sc.key <$> alter (set_v v) j b = Sc.key <$> b.
Proof.
  revert j. induction b as [| e b IH]; intros j; [reflexivity |].
  destruct j as [| j]; cbn; [reflexivity |]. rewrite IH. reflexivity.
Qed.

Lemma sc_bucket_value_delete_same k b j :
  NoDup (Sc.key <$> b) -> Sc.bucket_find k b = Some j ->
  Sc.bucket_value k (delete j b) = None.
Proof.
  revert j. induction b as [| e b IH]; intros j Hnd; cbn [Sc.bucket_find];
    [discriminate |].
  rewrite fmap_cons in Hnd. apply NoDup_cons in Hnd as [Hfresh Hnd].
  case_bool_decide as Hk.
  - intros [= <-]. cbn. apply sc_bucket_value_none. congruence.
  - destruct (Sc.bucket_find k b) as [j' |] eqn:Hf; [| discriminate].
    intros [= <-]. cbn. rewrite bool_decide_eq_false_2 by exact Hk.
    apply IH; [exact Hnd | reflexivity].
Qed.

Lemma sc_bucket_value_delete_other k k' b j e :
  b !! j = Some e -> Sc.key e = k -> k' <> k ->
  Sc.bucket_value k' (delete j b) = Sc.bucket_value k' b.
Proof.
  revert j. induction b as [| e' b IH]; intros j He Hk Hne;
    [discriminate |].
  destruct j as [| j]; cbn in *.
  - injection He as ->. rewrite Hk.
    rewrite bool_decide_eq_false_2 by congruence. reflexivity.
  - case_bool_decide; [reflexivity |]. exact (IH j He Hk Hne).
Qed.

Lemma sc_bucket_keys_delete b j :
  NoDup (Sc.key <$> b) -> NoDup (Sc.key <$> delete j b).
Proof.
  intros Hnd. eapply sublist_NoDup; [exact Hnd |].
  apply fmap_sublist, sublist_delete.
Qed.

End ScBuckets.

Section ScLookup.

Context {K V : Type} `{EqDecision K}.
Context (hash : K -> Z).

Local Abbreviation map := (@Sc.map K V).
Implicit Types (m : map) (k : K) (v : V).

(** [at] and [contains_key] read [lookup]. *)
Lemma sc_at_lookup m k :
  Sc.shaped m ->
  Sc.at_ hash m k
  = match Sc.lookup hash m k with
    | Some v => Value v
    | None => Raise (out_of_range "Key not found in HashMap")
    end.
Proof.
  intros Hsh. destruct (sc_bucket_exists hash m k Hsh) as (b & Hb & Hat).
  unfold Sc.at_, Sc.at_ref, Sc.lookup.
  rewrite (proj1 (sc_get_bucket_index hash m k Hsh)). cbn [result_bind].
  rewrite Hat, Hb. cbn [result_bind]. rewrite sc_bucket_value_find.
  destruct (Sc.bucket_find k b) as [j |] eqn:Hf; [| reflexivity].
  destruct (sc_bucket_find_some k b j Hf) as (e & He & _).
  cbn [result_bind]. unfold Sc.read. cbn [fst snd].
  rewrite Hat. cbn [result_bind]. rewrite He. reflexivity.
Qed.

Lemma sc_contains_lookup m k :
  Sc.shaped m ->
  Sc.contains_key hash m k
  = Value (bool_decide (is_Some (Sc.lookup hash m k))).
Proof.
  intros Hsh. destruct (sc_bucket_exists hash m k Hsh) as (b & Hb & Hat).
  unfold Sc.contains_key, Sc.lookup.
  rewrite (proj1 (sc_get_bucket_index hash m k Hsh)). cbn [result_bind].
  rewrite Hat, Hb. cbn [result_bind]. rewrite sc_bucket_value_find.
  destruct (Sc.bucket_find k b) as [j |] eqn:Hf.
  - destruct (sc_bucket_find_some k b j Hf) as (e & -> & _). reflexivity.
  - reflexivity.
Qed.

End ScLookup.
Section ScSound.

Context {K V : Type} `{EqDecision K}.
Context (hash : K -> Z) (default_value : V).

Local Abbreviation map := (@Sc.map K V).
Local Abbreviation Entry := (@Sc.Entry K V).
Local Abbreviation Bucket := (list Entry).
Local Abbreviation set_v := (fun (v : V) (e : Entry) => Sc.mkEntry (Sc.key e) v).
Local Abbreviation idx := (fun (m : map) (k : K) => hash k mod Sc.capacity m).
Local Abbreviation lookup := (Sc.lookup hash).
Local Abbreviation placed := (Sc.placed hash).

Implicit Types (m : map) (k : K) (v : V) (e : Entry) (b : Bucket)
  (bs : list Bucket).

(** [lookup] after one bucket was replaced. *)
Lemma sc_lookup_replace m i b' n k :
  (i < length (Sc.buckets m))%nat ->
  lookup (Sc.Map (<[i := b']> (Sc.buckets m)) n (Sc.capacity m)) k
  = if decide (Z.to_nat (idx m k) = i) then Sc.bucket_value k b'
    else lookup m k.
Proof.
  intros Hi. unfold Sc.lookup. cbn [Sc.buckets Sc.capacity].
  destruct (decide (Z.to_nat (idx m k) = i)) as [-> | Hne].
  - rewrite list_lookup_insert_eq by exact Hi. reflexivity.
  - rewrite list_lookup_insert_ne by congruence. reflexivity.
Qed.

Lemma sc_idx_range m k :
  Sc.shaped m ->
  0 <= idx m k < Sc.capacity m /\
  (Z.to_nat (idx m k) < length (Sc.buckets m))%nat.
Proof.
  intros [Hlen Hcap].
  assert (0 <= idx m k < Sc.capacity m) by (apply Z.mod_pos_bound; lia).
  split; [assumption | lia].
Qed.

(** What [inner_insert] leaves: the entry of [k] holds [v], every other key
    holds what it held. *)
Lemma sc_inner_insert_lookup m k v m' :
  Sc.shaped m ->
  Sc.inner_insert hash k v m = Returns tt m' ->
  forall k', lookup m' k' = if decide (k' = k) then Some v else lookup m k'.
Proof.
  intros Hsh Hins k'.
  destruct (sc_idx_range m k Hsh) as [Hr Hlt].
  destruct (sc_inner_insert_cases hash m k v Hsh)
    as (b & Hb & [(j & Hf & Heq) | (Hf & Heq)]);
    rewrite Heq in Hins; injection Hins as <-.
  - unfold Sc.set_value, Sc.set_buckets.
    rewrite (list_alter_insert_at _ _ _ _ Hb).
    rewrite sc_lookup_replace by exact Hlt.
    destruct (sc_bucket_find_some k b j Hf) as (e & He & Hk).
    destruct (decide (k' = k)) as [-> | Hne].
    + rewrite decide_True by reflexivity.
      apply sc_bucket_value_set_same. exact Hf.
    + destruct (decide (Z.to_nat (idx m k') = Z.to_nat (idx m k)))
        as [Hi | Hi]; [| reflexivity].
      rewrite (sc_bucket_value_set_other k k' v b j e He Hk Hne).
      unfold Sc.lookup. rewrite Hi, Hb. reflexivity.
  - rewrite sc_lookup_replace by exact Hlt.
    destruct (decide (k' = k)) as [-> | Hne].
    + rewrite decide_True by reflexivity.
      rewrite sc_bucket_value_app.
      rewrite (proj2 (sc_bucket_value_none k b))
        by (apply sc_bucket_find_none; exact Hf).
      cbn. rewrite bool_decide_eq_true_2 by reflexivity. reflexivity.
    + destruct (decide (Z.to_nat (idx m k') = Z.to_nat (idx m k)))
        as [Hi | Hi]; [| reflexivity].
      rewrite sc_bucket_value_app. unfold Sc.lookup. rewrite Hi, Hb.
      destruct (Sc.bucket_value k' b); [reflexivity |].
      cbn. rewrite bool_decide_eq_false_2 by congruence. reflexivity.
Qed.

(** [inner_insert] appends exactly when the key is new. *)
Lemma sc_inner_insert_size m k v m' :
  Sc.wf m -> Sc.size_count m < U64.vector_max_size ->
  Sc.inner_insert hash k v m = Returns tt m' ->
  Sc.capacity m' = Sc.capacity m /\
  Sc.size_count m'
  = Sc.size_count m + match lookup m k with Some _ => 0 | None => 1 end.
Proof.
  intros [Hsh Hsize] Hmax Hins.
  destruct (sc_inner_insert_cases hash m k v Hsh)
    as (b & Hb & [(j & Hf & Heq) | (Hf & Heq)]);
    rewrite Heq in Hins; injection Hins as <-;
    unfold Sc.lookup; rewrite Hb.
  - split; [reflexivity |].
    destruct (Sc.bucket_value k b) eqn:Hv; [cbn; lia |].
    apply sc_bucket_value_none, sc_bucket_find_none in Hv. congruence.
  - split; [reflexivity |].
    rewrite (proj2 (sc_bucket_value_none k b))
      by (apply sc_bucket_find_none; exact Hf).
    cbn [Sc.size_count]. apply u64_add_small; [lia | lia |].
    unfold U64.vector_max_size, U64.modulus in *. lia.
Qed.

Lemma sc_inner_insert_placed m k v m' :
  Sc.shaped m -> placed m -> Sc.distinct m ->
  Sc.inner_insert hash k v m = Returns tt m' ->
  placed m' /\ Sc.distinct m'.
Proof.
  intros Hsh Hpl Hdi Hins.
  destruct (sc_idx_range m k Hsh) as [Hr Hlt].
  destruct (sc_inner_insert_cases hash m k v Hsh)
    as (b & Hb & [(j & Hf & Heq) | (Hf & Heq)]);
    rewrite Heq in Hins; injection Hins as <-.
  - unfold Sc.set_value, Sc.set_buckets.
    rewrite (list_alter_insert_at _ _ _ _ Hb). split.
    + intros i b' e Hb' He. cbn [Sc.buckets Sc.capacity] in *.
      destruct (decide (i = Z.to_nat (idx m k))) as [-> | Hi].
      * rewrite list_lookup_insert_eq in Hb' by exact Hlt.
        injection Hb' as <-.
        assert (Hin : Sc.key e ∈ Sc.key <$> b).
        { rewrite <- (sc_bucket_keys_set v b j).
          apply list_elem_of_fmap. exists e. auto. }
        apply list_elem_of_fmap in Hin as (e0 & -> & Hin).
        exact (Hpl _ b e0 Hb Hin).
      * rewrite list_lookup_insert_ne in Hb' by congruence.
        exact (Hpl i b' e Hb' He).
    + intros i b' Hb'. cbn [Sc.buckets] in *.
      destruct (decide (i = Z.to_nat (idx m k))) as [-> | Hi].
      * rewrite list_lookup_insert_eq in Hb' by exact Hlt.
        injection Hb' as <-. rewrite sc_bucket_keys_set.
        exact (Hdi _ b Hb).
      * rewrite list_lookup_insert_ne in Hb' by congruence.
        exact (Hdi i b' Hb').
  - split.
    + intros i b' e Hb' He. cbn [Sc.buckets Sc.capacity] in *.
      destruct (decide (i = Z.to_nat (idx m k))) as [-> | Hi].
      * rewrite list_lookup_insert_eq in Hb' by exact Hlt.
        injection Hb' as <-.
        apply elem_of_app in He as [He | He].
        -- exact (Hpl _ b e Hb He).
        -- apply list_elem_of_singleton in He as ->. cbn. lia.
      * rewrite list_lookup_insert_ne in Hb' by congruence.
        exact (Hpl i b' e Hb' He).
    + intros i b' Hb'. cbn [Sc.buckets] in *.
      destruct (decide (i = Z.to_nat (idx m k))) as [-> | Hi].
      * rewrite list_lookup_insert_eq in Hb' by exact Hlt.
        injection Hb' as <-. rewrite fmap_app. apply NoDup_app.
        split; [exact (Hdi _ b Hb) |]. split.
        -- intros x Hx Hx'. cbn in Hx'.
           apply list_elem_of_singleton in Hx' as ->.
           apply sc_bucket_find_none in Hf. contradiction.
        -- cbn. apply NoDup_singleton.
      * rewrite list_lookup_insert_ne in Hb' by congruence.
        exact (Hdi i b' Hb').
Qed.

End ScSound.
Section ScEntries.

Context {K V : Type} `{EqDecision K}.

Local Abbreviation Entry := (@Sc.Entry K V).
Local Abbreviation Bucket := (list Entry).

Implicit Types (k : K) (v : V) (e : Entry) (b : Bucket) (bs : list Bucket).

Lemma sc_elem_of_concat e bs :
  e ∈ concat bs <-> exists i b, bs !! i = Some b /\ e ∈ b.
Proof.
  induction bs as [| b0 bs IH]; cbn [concat].
  - split; [intros Hin; apply elem_of_nil in Hin; contradiction |].
    intros (i & b & Hb & _). discriminate.
  - rewrite elem_of_app, IH. split.
    + intros [Hin | (i & b & Hb & Hin)].
      * exists 0%nat, b0. auto.
      * exists (S i), b. auto.
    + intros (i & b & Hb & Hin). destruct i as [| i].
      * injection Hb as ->. auto.
      * right. exists i, b. auto.
Qed.

(** Buckets without a repeated key whose keys do not overlap hold no key
    twice. *)
Lemma sc_concat_nodup bs :
  (forall i b, bs !! i = Some b -> NoDup (Sc.key <$> b)) ->
  (forall i j b b' e e',
     bs !! i = Some b -> bs !! j = Some b' -> e ∈ b -> e' ∈ b' ->
     Sc.key e = Sc.key e' -> i = j) ->
  NoDup (Sc.key <$> concat bs).
Proof.
  induction bs as [| b0 bs IH]; intros Hnd Hsep; cbn [concat].
  - apply NoDup_nil_2.
  - rewrite fmap_app. apply NoDup_app. split; [| split].
    + exact (Hnd 0%nat b0 eq_refl).
    + intros x Hx Hx'.
      apply list_elem_of_fmap in Hx as (e & -> & He).
      apply list_elem_of_fmap in Hx' as (e' & Hk & He').
      apply sc_elem_of_concat in He' as (j & b' & Hb' & He').
      discriminate (Hsep 0%nat (S j) b0 b' e e' eq_refl Hb' He He' Hk).
    + apply IH.
      * intros i b Hb. exact (Hnd (S i) b Hb).
      * intros i j b b' e e' Hb Hb' He He' Hk.
        assert (S i = S j) by exact (Hsep (S i) (S j) b b' e e' Hb Hb' He He' Hk).
        congruence.
Qed.

(** A key that only bucket [i] may hold is looked up there. *)
Lemma sc_bucket_value_concat bs :
  forall i k,
    (forall j b e, bs !! j = Some b -> e ∈ b -> Sc.key e = k -> j = i) ->
    Sc.bucket_value k (concat bs)
    = match bs !! i with
      | Some b => Sc.bucket_value k b
      | None => None
      end.
Proof.
  induction bs as [| b0 bs IH]; intros i k Hsep; cbn [concat].
  - reflexivity.
  - rewrite sc_bucket_value_app. destruct i as [| i]; cbn [lookup list_lookup].
    + destruct (Sc.bucket_value k b0); [reflexivity |].
      apply sc_bucket_value_none. intros Hin.
      apply list_elem_of_fmap in Hin as (e & -> & He).
      apply sc_elem_of_concat in He as (j & b & Hb & He).
      discriminate (Hsep (S j) b e Hb He eq_refl).
    + rewrite (proj2 (sc_bucket_value_none k b0)).
      * apply IH. intros j b e Hb He Hk.
        assert (S j = S i) by exact (Hsep (S j) b e Hb He Hk). congruence.
      * intros Hin. apply list_elem_of_fmap in Hin as (e & -> & He).
        discriminate (Hsep 0%nat b0 e eq_refl He eq_refl).
Qed.

End ScEntries.

Section ScResize.

Context {K V : Type} `{EqDecision K}.
Context (hash : K -> Z).

Local Abbreviation map := (@Sc.map K V).
Local Abbreviation Entry := (@Sc.Entry K V).
Local Abbreviation Bucket := (list Entry).
Local Abbreviation idx := (fun (m : map) (k : K) => hash k mod Sc.capacity m).
Local Abbreviation lookup := (Sc.lookup hash).
Local Abbreviation placed := (Sc.placed hash).

Implicit Types (m : map) (k : K) (v : V) (e : Entry) (b : Bucket)
  (bs : list Bucket).

Lemma sc_unique_keys m :
  placed m -> Sc.distinct m -> Sc.unique_keys m.
Proof.
  intros Hpl Hdi. unfold Sc.unique_keys, Sc.entries.
  apply sc_concat_nodup; [exact Hdi |].
  intros i j b b' e e' Hb Hb' He He' Hk.
  pose proof (Hpl i b e Hb He) as Hi.
  pose proof (Hpl j b' e' Hb' He') as Hj.
  rewrite Hk in Hi. lia.
Qed.

Lemma sc_lookup_entries m k :
  Sc.shaped m -> placed m ->
  lookup m k = Sc.bucket_value k (Sc.entries m).
Proof.
  intros Hsh Hpl. unfold Sc.entries, Sc.lookup.
  symmetry. apply sc_bucket_value_concat.
  intros j b e Hb He Hk. pose proof (Hpl j b e Hb He) as Hj.
  rewrite Hk in Hj. lia.
Qed.

(** A key is stored exactly when [lookup] finds it. *)
Lemma sc_lookup_is_some m k :
  Sc.shaped m -> placed m ->
  is_Some (lookup m k) <-> k ∈ Sc.key <$> Sc.entries m.
Proof.
  intros Hsh Hpl. rewrite (sc_lookup_entries m k Hsh Hpl).
  destruct (Sc.bucket_value k (Sc.entries m)) eqn:Hv.
  - split; [intros _ | eauto].
    destruct (decide (k ∈ Sc.key <$> Sc.entries m)) as [Hin | Hout];
      [exact Hin |].
    apply sc_bucket_value_none in Hout. congruence.
  - apply sc_bucket_value_none in Hv.
    split; [intros [? ?]; discriminate | contradiction].
Qed.

Lemma sc_reinsert_bucket_spec bucket :
  forall m,
    Sc.wf m -> placed m -> Sc.distinct m ->
    NoDup (Sc.key <$> bucket) ->
    (forall e, e ∈ bucket -> lookup m (Sc.key e) = None) ->
    Sc.size_count m + Z.of_nat (length bucket) <= U64.vector_max_size ->
    exists m',
      Sc.reinsert_bucket hash bucket m = Returns tt m' /\
      Sc.wf m' /\ placed m' /\ Sc.distinct m' /\
      Sc.capacity m' = Sc.capacity m /\
      Sc.size_count m' = Sc.size_count m + Z.of_nat (length bucket) /\
      forall k,
        lookup m' k = match Sc.bucket_value k bucket with
                      | Some v => Some v
                      | None => lookup m k
                      end.
Proof.
  induction bucket as [| e rest IH]; intros m Hwf Hpl Hdi Hnd Hnew Hmax.
  - exists m. cbn. repeat (split; [first [assumption | reflexivity | lia] |]).
    reflexivity.
  - rewrite fmap_cons in Hnd. apply NoDup_cons in Hnd as [Hfresh Hnd].
    cbn [length] in Hmax. pose proof Hwf as [Hsh _].
    assert (Hlt : Sc.size_count m < U64.vector_max_size) by lia.
    destruct (sc_inner_insert_cases hash m (Sc.key e) (Sc.value e) Hsh)
      as (b & _ & Hcases).
    assert (Hret : exists m1,
               Sc.inner_insert hash (Sc.key e) (Sc.value e) m
               = Returns tt m1)
      by (destruct Hcases as [(j & _ & ->) | (_ & ->)]; eauto).
    destruct Hret as [m1 Hm1].
    pose proof (ensures_returns _ _ _ _ _
                  (sc_inner_insert_ensures hash m _ _ Hwf Hlt) Hm1)
      as (Hwf1 & Hcap1 & _).
    destruct (sc_inner_insert_placed hash m _ _ m1 Hsh Hpl Hdi Hm1)
      as [Hpl1 Hdi1].
    destruct (sc_inner_insert_size hash m _ _ m1 Hwf Hlt Hm1)
      as [_ Hsize1].
    rewrite (Hnew e (list_elem_of_here e rest)) in Hsize1.
    pose proof (sc_inner_insert_lookup hash m _ _ m1 Hsh Hm1) as Hlook1.
    destruct (IH m1 Hwf1 Hpl1 Hdi1 Hnd) as (m' & Hm' & Hwf' & Hpl' & Hdi'
                                            & Hcap' & Hsize' & Hlook').
    { intros e' He'. rewrite Hlook1.
      rewrite decide_False.
      - apply Hnew. apply list_elem_of_further. exact He'.
      - intros Hk. apply Hfresh. rewrite <- Hk.
        apply list_elem_of_fmap. exists e'. auto. }
    { lia. }
    exists m'. cbn [Sc.reinsert_bucket]. rewrite Hm1. cbn [outcome_bind].
    split; [exact Hm' |]. split; [exact Hwf' |]. split; [exact Hpl' |].
    split; [exact Hdi' |]. split; [congruence |].
    split; [cbn [length]; lia |].
    intros k. rewrite Hlook', Hlook1. cbn [Sc.bucket_value].
    case_bool_decide as Hk.
    + subst k. rewrite (proj2 (sc_bucket_value_none (Sc.key e) rest) Hfresh).
      rewrite decide_True by reflexivity. reflexivity.
    + rewrite decide_False by congruence. reflexivity.
Qed.

Lemma sc_reinsert_spec old :
  forall m,
    Sc.wf m -> placed m -> Sc.distinct m ->
    NoDup (Sc.key <$> concat old) ->
    (forall e, e ∈ concat old -> lookup m (Sc.key e) = None) ->
    Sc.size_count m + Z.of_nat (length (concat old))
      <= U64.vector_max_size ->
    exists m',
      Sc.reinsert hash old m = Returns tt m' /\
      Sc.wf m' /\ placed m' /\ Sc.distinct m' /\
      Sc.capacity m' = Sc.capacity m /\
      Sc.size_count m' = Sc.size_count m + Z.of_nat (length (concat old)) /\
      forall k,
        lookup m' k = match Sc.bucket_value k (concat old) with
                      | Some v => Some v
                      | None => lookup m k
                      end.
Proof.
  induction old as [| b rest IH]; intros m Hwf Hpl Hdi Hnd Hnew Hmax.
  - exists m. cbn. repeat (split; [first [assumption | reflexivity | lia] |]).
    reflexivity.
  - cbn [concat] in *. rewrite fmap_app in Hnd.
    apply NoDup_app in Hnd as (Hnd1 & Hsep & Hnd2).
    rewrite length_app in Hmax.
    destruct (sc_reinsert_bucket_spec b m Hwf Hpl Hdi Hnd1)
      as (m1 & Hm1 & Hwf1 & Hpl1 & Hdi1 & Hcap1 & Hsize1 & Hlook1).
    { intros e He. apply Hnew. apply elem_of_app. auto. }
    { lia. }
    destruct (IH m1 Hwf1 Hpl1 Hdi1 Hnd2)
      as (m' & Hm' & Hwf' & Hpl' & Hdi' & Hcap' & Hsize' & Hlook').
    { intros e He. rewrite Hlook1.
      rewrite (proj2 (sc_bucket_value_none (Sc.key e) b)).
      - apply Hnew. apply elem_of_app. auto.
      - intros Hin. apply (Hsep (Sc.key e) Hin).
        apply list_elem_of_fmap. exists e. auto. }
    { lia. }
    exists m'. cbn [Sc.reinsert]. rewrite Hm1. cbn [outcome_bind].
    split; [exact Hm' |]. split; [exact Hwf' |]. split; [exact Hpl' |].
    split; [exact Hdi' |]. split; [congruence |].
    split; [rewrite length_app; lia |].
    intros k. rewrite Hlook', Hlook1, sc_bucket_value_app.
    destruct (Sc.bucket_value k b) as [v |] eqn:Hb.
    + rewrite (proj2 (sc_bucket_value_none k (concat rest))); [reflexivity |].
      apply Hsep. apply sc_bucket_value_some in Hb as (e & He & <- & _).
      apply list_elem_of_fmap. exists e. auto.
    + reflexivity.
Qed.

End ScResize.
Section ScInsert.

Context {K V : Type} `{EqDecision K}.
Context (hash : K -> Z).

Local Abbreviation map := (@Sc.map K V).
Local Abbreviation Entry := (@Sc.Entry K V).
Local Abbreviation Bucket := (list Entry).
Local Abbreviation lookup := (Sc.lookup hash).
Local Abbreviation placed := (Sc.placed hash).
Local Abbreviation sound := (Sc.sound hash).

Implicit Types (m : map) (k : K) (v : V) (e : Entry) (b : Bucket)
  (bs : list Bucket).

(** A map of empty buckets. *)
Lemma sc_fresh_sound n c size :
  let m := Sc.Map (replicate n ([] : Bucket)) size c in
  placed m /\ Sc.distinct m /\ forall k, lookup m k = None.
Proof.
  intros m. split; [| split].
  - intros i b e Hb He. apply lookup_replicate in Hb as [-> _].
    apply elem_of_nil in He. contradiction.
  - intros i b Hb. apply lookup_replicate in Hb as [-> _].
    apply NoDup_nil_2.
  - intros k. unfold Sc.lookup, m. cbn [Sc.buckets Sc.capacity].
    destruct (replicate n ([] : Bucket) !! Z.to_nat (hash k mod c))
      as [b |] eqn:Hb; [| reflexivity].
    apply lookup_replicate in Hb as [-> _]. reflexivity.
Qed.

(** [resize] doubles the capacity and keeps every entry. *)
Lemma sc_resize_spec m :
  sound m ->
  match vector_new (2 * Sc.capacity m) ([] : Bucket) with
  | None =>
      Sc.resize hash m
      = Throws length_error
          (Sc.Map [] (Sc.size_count m) (2 * Sc.capacity m))
  | Some _ =>
      exists m',
        Sc.resize hash m = Returns tt m' /\
        Sc.wf m' /\ placed m' /\ Sc.distinct m' /\
        Sc.capacity m' = 2 * Sc.capacity m /\
        Sc.size_count m' = Sc.size_count m /\
        forall k, lookup m' k = lookup m k
  end.
Proof.
  intros ([Hwf Hload] & Hpl & Hdi).
  pose proof Hwf as ((Hlen & Hcap) & Hsize).
  unfold Sc.within_load in Hload.
  unfold Sc.resize. rewrite u64_double_small by lia.
  destruct (vector_new (2 * Sc.capacity m) ([] : Bucket)) as [bs |] eqn:Hbs;
    [| reflexivity].
  assert (Hfresh : Sc.wf (Sc.Map bs 0 (2 * Sc.capacity m)))
    by (apply sc_fresh_wf; [lia | exact Hbs]).
  apply vector_new_inv in Hbs as [_ ->].
  destruct (sc_fresh_sound (Z.to_nat (2 * Sc.capacity m))
              (2 * Sc.capacity m) 0) as (Hpl0 & Hdi0 & Hnone).
  destruct (sc_reinsert_spec hash (Sc.buckets m) _ Hfresh Hpl0 Hdi0)
    as (m' & Hm' & Hwf' & Hpl' & Hdi' & Hcap' & Hsize' & Hlook').
  - exact (sc_unique_keys hash m Hpl Hdi).
  - intros e _. apply Hnone.
  - cbn [Sc.size_count]. unfold Sc.entries in Hsize. lia.
  - exists m'. split; [exact Hm' |]. split; [exact Hwf' |].
    split; [exact Hpl' |]. split; [exact Hdi' |].
    split; [exact Hcap' |]. split.
    + rewrite Hsize'. cbn [Sc.size_count]. unfold Sc.entries in Hsize. lia.
    + intros k. rewrite Hlook', Hnone.
      rewrite (sc_lookup_entries hash m k (conj Hlen Hcap) Hpl).
      unfold Sc.entries.
      destruct (Sc.bucket_value k (concat (Sc.buckets m))); reflexivity.
Qed.

(** [insert]: it returns unless the allocation of [resize] fails; the key
    then holds the value, every other key holds what it held, and the size
    grows by one exactly when the key is new. *)
Lemma sc_insert_spec m k v :
  sound m ->
  (exists m',
     Sc.insert hash k v m = Returns tt m' /\ sound m' /\
     Sc.capacity m'
     = (if Sc.needs_resize m then 2 * Sc.capacity m else Sc.capacity m) /\
     Sc.size_count m'
     = Sc.size_count m + match lookup m k with Some _ => 0 | None => 1 end /\
     forall k', lookup m' k' = if decide (k' = k) then Some v else lookup m k')
  \/
  (Sc.needs_resize m = true /\
   U64.vector_max_size < 2 * Sc.capacity m /\
   Sc.insert hash k v m
   = Throws length_error (Sc.Map [] (Sc.size_count m) (2 * Sc.capacity m))).
Proof.
  intros Hsound. pose proof Hsound as (Hinv & Hpl & Hdi).
  pose proof Hinv as [Hwf Hload].
  pose proof Hwf as ((Hlen & Hcap) & Hsize).
  unfold Sc.within_load in Hload.
  pose proof (sc_insert_ensures hash m k v Hinv) as Hens.
  assert (Hstep : forall m1,
            Sc.wf m1 -> placed m1 -> Sc.distinct m1 ->
            Sc.size_count m1 < U64.vector_max_size ->
            exists m',
              Sc.inner_insert hash k v m1 = Returns tt m' /\
              placed m' /\ Sc.distinct m' /\
              Sc.capacity m' = Sc.capacity m1 /\
              Sc.size_count m'
              = Sc.size_count m1
                + match lookup m1 k with Some _ => 0 | None => 1 end /\
              forall k',
                lookup m' k'
                = if decide (k' = k) then Some v else lookup m1 k').
  { intros m1 Hwf1 Hpl1 Hdi1 Hlt1. pose proof Hwf1 as [Hsh1 _].
    destruct (sc_inner_insert_cases hash m1 k v Hsh1) as (b & _ & Hcases).
    assert (Hret : exists m', Sc.inner_insert hash k v m1 = Returns tt m')
      by (destruct Hcases as [(j & _ & ->) | (_ & ->)]; eauto).
    destruct Hret as [m' Hm']. exists m'. split; [exact Hm' |].
    destruct (sc_inner_insert_placed hash m1 k v m' Hsh1 Hpl1 Hdi1 Hm')
      as [Hpl' Hdi'].
    destruct (sc_inner_insert_size hash m1 k v m' Hwf1 Hlt1 Hm')
      as [Hcap' Hsize'].
    split; [exact Hpl' |]. split; [exact Hdi' |]. split; [exact Hcap' |].
    split; [exact Hsize' |].
    exact (sc_inner_insert_lookup hash m1 k v m' Hsh1 Hm'). }
  unfold Sc.insert in *.
  destruct (Sc.needs_resize m) eqn:Hneed.
  - pose proof (sc_resize_spec m Hsound) as Hres.
    destruct (vector_new (2 * Sc.capacity m) ([] : Bucket)) as [bs |] eqn:Hbs.
    + destruct Hres as (m1 & Hm1 & Hwf1 & Hpl1 & Hdi1 & Hcap1 & Hsize1
                        & Hlook1).
      destruct (Hstep m1 Hwf1 Hpl1 Hdi1) as (m' & Hm' & Hpl' & Hdi' & Hcap'
                                             & Hsize' & Hlook'); [lia |].
      left. exists m'. rewrite Hm1 in *. cbn [outcome_bind] in *.
      rewrite Hm' in Hens. cbn [ensures] in Hens.
      split; [exact Hm' |]. split; [exact (conj Hens (conj Hpl' Hdi')) |].
      split; [congruence |]. split; [rewrite Hsize', Hlook1; lia |].
      intros k'. rewrite Hlook', Hlook1. reflexivity.
    + right. split; [reflexivity |]. split.
      * unfold vector_new in Hbs.
        destruct (2 * Sc.capacity m <=? U64.vector_max_size) eqn:Hle;
          [discriminate |].
        apply Z.leb_gt in Hle. exact Hle.
      * rewrite Hres. reflexivity.
  - cbn [outcome_bind] in *.
    destruct (Hstep m Hwf Hpl Hdi) as (m' & Hm' & Hpl' & Hdi' & Hcap'
                                       & Hsize' & Hlook'); [lia |].
    left. exists m'. rewrite Hm' in Hens. cbn [ensures] in Hens.
    split; [exact Hm' |]. split; [exact (conj Hens (conj Hpl' Hdi')) |].
    auto.
Qed.

End ScInsert.
Section ScRemove.

Context {K V : Type} `{EqDecision K}.
Context (hash : K -> Z) (default_value : V).

Local Abbreviation map := (@Sc.map K V).
Local Abbreviation Entry := (@Sc.Entry K V).
Local Abbreviation Bucket := (list Entry).
Local Abbreviation idx := (fun (m : map) (k : K) => hash k mod Sc.capacity m).
Local Abbreviation lookup := (Sc.lookup hash).
Local Abbreviation placed := (Sc.placed hash).
Local Abbreviation sound := (Sc.sound hash).

Implicit Types (m : map) (k : K) (v : V) (e : Entry) (b : Bucket)
  (bs : list Bucket).

(** [remove] returns what the key held and erases its entry; every other
    key holds what it held. *)
Lemma sc_remove_spec m k :
  sound m ->
  exists m',
    Sc.remove hash k m = Returns (lookup m k) m' /\ sound m' /\
    Sc.capacity m' = Sc.capacity m /\
    Sc.size_count m'
    = Sc.size_count m - match lookup m k with Some _ => 1 | None => 0 end /\
    (lookup m k = None -> m' = m) /\
    forall k', lookup m' k' = if decide (k' = k) then None else lookup m k'.
Proof.
  intros Hsound. pose proof Hsound as (Hinv & Hpl & Hdi).
  pose proof Hinv as (((Hlen & Hcap) & Hsize) & Hload).
  pose proof (conj Hlen Hcap : Sc.shaped m) as Hsh.
  pose proof (sc_remove_ensures hash m k Hinv) as Hens.
  destruct (sc_idx_range hash m k Hsh) as [Hr Hlt].
  destruct (sc_remove_cases hash m k Hsh)
    as (b & Hb & [(Hf & Heq) | (j & e & Hf & He & Hk & Heq)]).
  - assert (Hnone : lookup m k = None).
    { unfold Sc.lookup. rewrite Hb.
      apply sc_bucket_value_none, sc_bucket_find_none. exact Hf. }
    exists m. rewrite Hnone. split; [exact Heq |]. split; [exact Hsound |].
    split; [reflexivity |]. split; [lia |]. split; [reflexivity |].
    intros k'. destruct (decide (k' = k)) as [-> | _]; [exact Hnone |].
    reflexivity.
  - assert (Hsome : lookup m k = Some (Sc.value e)).
    { unfold Sc.lookup. rewrite Hb, sc_bucket_value_find, Hf, He.
      reflexivity. }
    rewrite Heq in Hens. cbn [ensures] in Hens.
    eexists. rewrite Hsome. split; [exact Heq |].
    assert (Hin : forall e', e' ∈ delete j b -> e' ∈ b).
    { intros e'. apply list_elem_of_delete_inv. }
    split; [split; [exact Hens | split] |].
    + intros i b' e' Hb' He'. cbn [Sc.buckets Sc.capacity] in *.
      destruct (decide (i = Z.to_nat (idx m k))) as [-> | Hi].
      * rewrite list_lookup_insert_eq in Hb' by exact Hlt.
        injection Hb' as <-. exact (Hpl _ b e' Hb (Hin e' He')).
      * rewrite list_lookup_insert_ne in Hb' by congruence.
        exact (Hpl i b' e' Hb' He').
    + intros i b' Hb'. cbn [Sc.buckets] in *.
      destruct (decide (i = Z.to_nat (idx m k))) as [-> | Hi].
      * rewrite list_lookup_insert_eq in Hb' by exact Hlt.
        injection Hb' as <-. apply sc_bucket_keys_delete.
        exact (Hdi _ b Hb).
      * rewrite list_lookup_insert_ne in Hb' by congruence.
        exact (Hdi i b' Hb').
    + split; [reflexivity |]. split.
      * cbn [Sc.size_count].
        pose proof (sc_total_bucket _ _ _ Hb) as Htot.
        assert (Hpos : (1 <= length b)%nat)
          by (apply lookup_lt_Some in He; lia).
        unfold Sc.entries in Hsize.
        unfold U64.vector_max_size in Hcap. unfold Sc.within_load in Hload.
        apply u64_sub_small; unfold U64.modulus; lia.
      * split; [discriminate |]. intros k'.
        rewrite sc_lookup_replace by exact Hlt.
        destruct (decide (k' = k)) as [-> | Hne].
        -- rewrite decide_True by reflexivity.
           apply sc_bucket_value_delete_same; [exact (Hdi _ b Hb) | exact Hf].
        -- destruct (decide (Z.to_nat (idx m k') = Z.to_nat (idx m k)))
             as [Hi | Hi]; [| reflexivity].
           rewrite (sc_bucket_value_delete_other k k' b j e He Hk Hne).
           unfold Sc.lookup. rewrite Hi, Hb. reflexivity.
Qed.

Lemma sc_clear_bucket bs i b :
  List.map (fun _ : Bucket => ([] : Bucket)) bs !! i = Some b -> b = [].
Proof.
  revert i. induction bs as [| a bs IH]; intros i Hi; [discriminate |].
  destruct i as [| i]; cbn in Hi; [congruence | exact (IH i Hi)].
Qed.

(** [clear] empties every bucket. *)
Lemma sc_clear_spec m :
  sound m ->
  sound (Sc.clear m) /\ Sc.size_count (Sc.clear m) = 0 /\
  Sc.capacity (Sc.clear m) = Sc.capacity m /\
  forall k, lookup (Sc.clear m) k = None.
Proof.
  intros (Hinv & _ & _). split; [split; [| split] |].
  - apply sc_clear_inv. exact Hinv.
  - intros i b e Hb He. apply sc_clear_bucket in Hb as ->.
    apply elem_of_nil in He. contradiction.
  - intros i b Hb. apply sc_clear_bucket in Hb as ->. apply NoDup_nil_2.
  - split; [reflexivity |]. split; [reflexivity |].
    intros k. unfold Sc.lookup, Sc.clear. cbn [Sc.buckets Sc.capacity].
    destruct (List.map (fun _ : Bucket => ([] : Bucket)) (Sc.buckets m)
                !! Z.to_nat (hash k mod Sc.capacity m)) as [b |] eqn:Hb;
      [| reflexivity].
    apply sc_clear_bucket in Hb as ->. reflexivity.
Qed.

(** The reference that [at] returns denotes the value of the key. *)
Lemma sc_at_ref_cases m k :
  Sc.shaped m ->
  match lookup m k with
  | Some v =>
      exists r, Sc.at_ref hash m k = Value r /\ Sc.read m r = Value v /\
                forall v', Sc.inner_insert hash k v' m
                           = Returns tt (Sc.assign m r v')
  | None =>
      Sc.at_ref hash m k = Raise (out_of_range "Key not found in HashMap")
  end.
Proof.
  intros Hsh. destruct (sc_bucket_exists hash m k Hsh) as (b & Hb & Hat).
  unfold Sc.at_ref, Sc.lookup, Sc.inner_insert.
  rewrite (proj1 (sc_get_bucket_index hash m k Hsh)).
  cbn [result_bind on outcome_bind].
  rewrite Hat, Hb. cbn [result_bind on outcome_bind].
  rewrite sc_bucket_value_find.
  destruct (Sc.bucket_find k b) as [j |] eqn:Hf.
  - destruct (sc_bucket_find_some k b j Hf) as (e & He & _).
    rewrite He. cbn [fmap option_fmap option_map].
    eexists. split; [reflexivity |]. split; [| reflexivity].
    unfold Sc.read. cbn [fst snd]. rewrite Hat. cbn [result_bind].
    rewrite He. reflexivity.
  - reflexivity.
Qed.

(** Assigning through the reference of [at(k)] is [inner_insert] of a
    present key. *)
Lemma sc_assign_spec m k r v :
  sound m -> Sc.at_ref hash m k = Value r ->
  sound (Sc.assign m r v) /\
  Sc.size_count (Sc.assign m r v) = Sc.size_count m /\
  Sc.capacity (Sc.assign m r v) = Sc.capacity m /\
  forall k',
    lookup (Sc.assign m r v) k'
    = if decide (k' = k) then Some v else lookup m k'.
Proof.
  intros (Hinv & Hpl & Hdi) Hat. pose proof Hinv as ((Hsh & _) & _).
  pose proof (sc_at_ref_cases m k Hsh) as Hcases.
  destruct (lookup m k) as [v0 |] eqn:Hl; [| congruence].
  destruct Hcases as (r' & Hr' & _ & Hins). rewrite Hat in Hr'.
  injection Hr' as <-. specialize (Hins v).
  destruct (sc_inner_insert_placed hash m k v _ Hsh Hpl Hdi Hins)
    as [Hpl' Hdi'].
  split; [split; [apply sc_set_value_inv; exact Hinv | auto] |].
  split; [reflexivity |]. split; [reflexivity |].
  exact (sc_inner_insert_lookup hash m k v _ Hsh Hins).
Qed.

(** [operator[]]: the reference of the entry of the key, which
    [insert(key, V{})] makes when the key is new. *)
Lemma sc_index_ref_spec m k :
  sound m ->
  match lookup m k with
  | Some v =>
      exists r, Sc.index_ref hash default_value k m = Returns r m /\
                Sc.at_ref hash m k = Value r /\ Sc.read m r = Value v
  | None =>
      (exists r m',
         Sc.insert hash k default_value m = Returns tt m' /\
         Sc.index_ref hash default_value k m = Returns r m' /\
         Sc.at_ref hash m' k = Value r /\
         Sc.read m' r = Value default_value)
      \/
      (exists m',
         Sc.insert hash k default_value m = Throws length_error m' /\
         Sc.index_ref hash default_value k m = Throws length_error m')
  end.
Proof.
  intros Hsound. pose proof Hsound as (((Hsh & _) & _) & _ & _).
  destruct (sc_bucket_exists hash m k Hsh) as (b & Hb & Hat).
  pose proof (sc_at_ref_cases m k Hsh) as Hcases.
  unfold Sc.index_ref.
  rewrite (proj1 (sc_get_bucket_index hash m k Hsh)).
  cbn [on outcome_bind]. rewrite Hat. cbn [on outcome_bind].
  unfold Sc.lookup in *. rewrite Hb in *.
  rewrite sc_bucket_value_find in *.
  destruct (Sc.bucket_find k b) as [j |] eqn:Hf.
  - destruct (sc_bucket_find_some k b j Hf) as (e & He & _).
    rewrite He in *. cbn [fmap option_fmap option_map] in *.
    destruct Hcases as (r & Hr & Hread & _).
    exists r. split; [| auto].
    unfold Sc.at_ref in Hr.
    rewrite (proj1 (sc_get_bucket_index hash m k Hsh)) in Hr.
    cbn [result_bind] in Hr. rewrite Hat in Hr. cbn [result_bind] in Hr.
    rewrite Hf in Hr. injection Hr as <-. reflexivity.
  - destruct (sc_insert_spec hash m k default_value Hsound)
      as [(m' & Hm' & Hsound' & _ & _ & Hlook') | (_ & _ & Hthrow)].
    + left. rewrite Hm'. cbn [outcome_bind].
      pose proof Hsound' as (((Hsh' & _) & _) & _ & _).
      pose proof (sc_at_ref_cases m' k Hsh') as Hcases'.
      rewrite Hlook', decide_True in Hcases' by reflexivity.
      destruct Hcases' as (r & Hr & Hread & _).
      exists r, m'. split; [reflexivity |]. split; [| auto].
      destruct (sc_bucket_exists hash m' k Hsh') as (b' & Hb' & Hat').
      unfold Sc.at_ref in Hr.
      rewrite (proj1 (sc_get_bucket_index hash m' k Hsh')) in Hr |- *.
      cbn [result_bind on outcome_bind] in Hr |- *.
      rewrite Hat' in Hr |- *. cbn [result_bind on outcome_bind] in Hr |- *.
      destruct (Sc.bucket_find k b') as [j' |]; [| discriminate].
      injection Hr as <-. reflexivity.
    + right. eexists. rewrite Hthrow. cbn [outcome_bind]. auto.
Qed.

(** Every map that a program reaches is sound. *)
Lemma sc_reachable_sound catching c m :
  0 < c -> Sc.reachable hash default_value catching c m -> sound m.
Proof.
  intros Hc Hreach. induction Hreach as [m Hnew | m m' _ IH Hstep].
  - pose proof (sc_reachable_inv hash default_value catching c m Hc
                  (Sc.reachable_new _ _ _ _ m Hnew)) as Hinv.
    unfold Sc.new in Hnew.
    destruct (vector_new c ([] : Bucket)) as [bs |] eqn:Hbs;
      [| discriminate].
    injection Hnew as <-. apply vector_new_inv in Hbs as [_ ->].
    destruct (sc_fresh_sound (V := V) hash (Z.to_nat c) c 0)
      as (Hpl & Hdi & _).
    exact (conj Hinv (conj Hpl Hdi)).
  - destruct Hstep as [k v m' Hins | k v ex m' _ Hins Hne | k r m' Hrem
                      | | k r m' Hidx | k ex m' _ Hidx Hne
                      | k r v Hat | k r m' v Hidx].
    + destruct (sc_insert_spec hash m k v IH)
        as [(m1 & Hm1 & Hs1 & _) | (_ & _ & Hthrow)]; congruence.
    + destruct (sc_insert_spec hash m k v IH)
        as [(m1 & Hm1 & Hs1 & _) | (_ & _ & Hthrow)]; congruence.
    + destruct (sc_remove_spec m k IH) as (m1 & Hm1 & Hs1 & _). congruence.
    + exact (proj1 (sc_clear_spec m IH)).
    + pose proof (sc_index_ref_spec m k IH) as Hspec.
      destruct (lookup m k).
      * destruct Hspec as (r' & Hr' & _). congruence.
      * destruct Hspec as [(r' & m1 & Hins & Hr' & _) | (m1 & _ & Hr')];
          [| congruence].
        destruct (sc_insert_spec hash m k default_value IH)
          as [(m2 & Hm2 & Hs2 & _) | (_ & _ & Hthrow)]; congruence.
    + pose proof (sc_index_ref_spec m k IH) as Hspec.
      destruct (lookup m k).
      * destruct Hspec as (r' & Hr' & _). congruence.
      * destruct Hspec as [(r' & m1 & Hins & Hr' & _) | (m1 & _ & Hr')];
          congruence.
    + exact (proj1 (sc_assign_spec m k r v IH Hat)).
    + pose proof (sc_index_ref_spec m k IH) as Hspec.
      destruct (lookup m k).
      * destruct Hspec as (r' & Hr' & Hat & _).
        assert (r' = r /\ m = m') as [-> <-] by (split; congruence).
        exact (proj1 (sc_assign_spec m k r v IH Hat)).
      * destruct Hspec as [(r' & m1 & Hins & Hr' & Hat & _)
                          | (m1 & _ & Hr')]; [| congruence].
        assert (r' = r /\ m1 = m') as [-> ->] by (split; congruence).
        destruct (sc_insert_spec hash m k default_value IH)
          as [(m2 & Hm2 & Hs2 & _) | (_ & _ & Hthrow)]; [| congruence].
        assert (m2 = m') as -> by congruence.
        exact (proj1 (sc_assign_spec m' k r v Hs2 Hat)).
Qed.

End ScRemove.

Section ScGrowth.

Context {K V : Type} `{EqDecision K}.
Context (hash : K -> Z) (default_value : V).

Local Abbreviation map := (@Sc.map K V).

Implicit Types (m : map) (k : K) (v : V).

(** No member function changes the capacity but by doubling it. *)
Lemma sc_step_capacity catching m m' :
  Sc.sound hash m -> Sc.step hash default_value catching m m' ->
  Sc.capacity m' = Sc.capacity m \/ Sc.capacity m' = 2 * Sc.capacity m.
Proof.
  intros Hsound Hstep.
  assert (Hins_cap : forall k v m1,
            Sc.insert hash k v m = Returns tt m1 ->
            Sc.capacity m1 = Sc.capacity m \/
            Sc.capacity m1 = 2 * Sc.capacity m).
  { intros k v m1 Hins.
    destruct (sc_insert_spec hash m k v Hsound)
      as [(m2 & Hm2 & _ & Hcap & _) | (_ & _ & Hthrow)];
      [| congruence].
    rewrite Hm2 in Hins. injection Hins as <-. rewrite Hcap.
    destruct (Sc.needs_resize m); auto. }
  assert (Hins_throw : forall k v ex m1,
            Sc.insert hash k v m = Throws ex m1 -> ex = length_error).
  { intros k v ex m1 Hins.
    destruct (sc_insert_spec hash m k v Hsound)
      as [(m2 & Hm2 & _) | (_ & _ & Hthrow)]; congruence. }
  assert (Hidx : forall k,
            (exists r, Sc.index_ref hash default_value k m = Returns r m) \/
            (exists r m1,
               Sc.insert hash k default_value m = Returns tt m1 /\
               Sc.index_ref hash default_value k m = Returns r m1) \/
            (exists m1,
               Sc.index_ref hash default_value k m
               = Throws length_error m1)).
  { intros k. pose proof (sc_index_ref_spec hash default_value m k Hsound)
      as Hspec.
    destruct (Sc.lookup hash m k).
    - destruct Hspec as (r & Hr & _). left. eauto.
    - destruct Hspec as [(r & m1 & Hins & Hr & _) | (m1 & _ & Hr)];
        right; [left | right]; eauto. }
  destruct Hstep as [k v m' Hins | k v ex m' _ Hins Hne | k r m' Hrem
                    | | k r m' Hr | k ex m' _ Hr Hne
                    | k r v Hat | k r m' v Hr].
  - exact (Hins_cap k v m' Hins).
  - destruct (Hne (Hins_throw k v ex m' Hins)).
  - destruct (sc_remove_spec hash m k Hsound) as (m1 & Hm1 & _ & Hcap & _).
    rewrite Hm1 in Hrem. injection Hrem as _ <-. auto.
  - left. reflexivity.
  - destruct (Hidx k) as [(r1 & Hr1) | [(r1 & m1 & Hins & Hr1) | (m1 & Hr1)]];
      rewrite Hr1 in Hr; [| | discriminate].
    + injection Hr as _ <-. auto.
    + injection Hr as _ <-. exact (Hins_cap k default_value m1 Hins).
  - destruct (Hidx k) as [(r1 & Hr1) | [(r1 & m1 & Hins & Hr1) | (m1 & Hr1)]];
      rewrite Hr1 in Hr; [discriminate | discriminate |].
    injection Hr as <- _. destruct (Hne eq_refl).
  - left. reflexivity.
  - change (Sc.capacity (Sc.assign m' r v)) with (Sc.capacity m').
    destruct (Hidx k) as [(r1 & Hr1) | [(r1 & m1 & Hins & Hr1) | (m1 & Hr1)]];
      rewrite Hr1 in Hr; [| | discriminate].
    + injection Hr as _ <-. auto.
    + injection Hr as _ <-. exact (Hins_cap k default_value m1 Hins).
Qed.

End ScGrowth.
(** ** [lphashmap.hpp]: the table is never full *)

Section LpTotal.

Context {K V : Type} `{EqDecision K}.
Context (hash : K -> Z) (default_key : K) (default_value : V).

Local Abbreviation map := (@Lp.map K V).
Local Abbreviation Entry := (@Lp.Entry K V).
Local Abbreviation probe := (Lp.probe hash).

Implicit Types (m : map) (k : K) (v : V) (e : Entry) (t : list Entry).

Lemma lp_count_all f t :
  (forall i e, t !! i = Some e -> f e = true) ->
  Lp.count f t = Z.of_nat (length t).
Proof.
  induction t as [| e t IH]; intros Hall; [reflexivity |].
  cbn [Lp.count length]. rewrite (Hall 0%nat e eq_refl).
  rewrite IH; [lia |]. intros i e' He'. exact (Hall (S i) e' He').
Qed.

(** A probe visits every slot. *)
Lemma lp_probe_onto m k i :
  0 < Lp.capacity m -> 0 <= i < Lp.capacity m ->
  exists j, 0 <= j < Lp.capacity m /\ probe m k j = i.
Proof.
  intros Hc Hi. exists ((i - hash k) mod Lp.capacity m).
  split; [apply Z.mod_pos_bound; lia |].
  unfold Lp.probe. rewrite Zplus_mod_idemp_r.
  replace (hash k + (i - hash k)) with i by lia.
  apply Z.mod_small. lia.
Qed.

(** A probe that meets occupied slots only runs over a full table. *)
Lemma lp_full_count m k :
  Lp.wf m ->
  (forall j, 0 <= j < Lp.capacity m ->
     exists e, Lp.table m !! Z.to_nat (probe m k j) = Some e /\
               Lp.is_occupied e = true /\ Lp.key e <> k) ->
  Lp.size_count m = Lp.capacity m.
Proof.
  intros ((Hlen & Hcap) & Hsize & _) Hall. rewrite Hsize, <- Hlen.
  apply lp_count_all. intros i e He.
  assert (Hi : 0 <= Z.of_nat i < Lp.capacity m)
    by (apply lookup_lt_Some in He; lia).
  destruct (lp_probe_onto m k (Z.of_nat i) ltac:(lia) Hi) as (j & Hj & Hp).
  destruct (Hall j Hj) as (e' & He' & Hocc & _).
  rewrite Hp, Nat2Z.id in He'. congruence.
Qed.

Lemma lp_inner_insert_total m k v :
  Lp.wf m -> Lp.size_count m < Lp.capacity m ->
  exists m', Lp.inner_insert hash k v m = Returns tt m'.
Proof.
  intros Hwf Hlt. pose proof Hwf as [Hsh _].
  destruct (lp_inner_insert_cases hash m k v Hsh)
    as [(j & e & m' & _ & _ & _ & Hins & _) | (Hall & _)]; [eauto |].
  pose proof (lp_full_count m k Hwf Hall). lia.
Qed.

Lemma lp_reinsert_total old :
  forall m,
    Lp.wf m ->
    Lp.size_count m + Lp.count Lp.is_occupied old < Lp.capacity m ->
    exists m',
      Lp.reinsert hash old m = Returns tt m' /\
      Lp.wf m' /\ Lp.capacity m' = Lp.capacity m /\
      Lp.size_count m <= Lp.size_count m'
        <= Lp.size_count m + Lp.count Lp.is_occupied old /\
      Lp.deleted_count m' <= Lp.deleted_count m.
Proof.
  induction old as [| e rest IH]; intros m Hwf Hlt; cbn [Lp.reinsert].
  - exists m. cbn [Lp.count]. split; [reflexivity |]. split; [exact Hwf |].
    repeat split; lia.
  - cbn [Lp.count] in Hlt |- *.
    pose proof (lp_count_range Lp.is_occupied rest) as Hr.
    destruct (Lp.is_occupied e).
    + destruct (lp_inner_insert_total m (Lp.key e) (Lp.value e) Hwf)
        as [m1 Hm1]; [lia |].
      pose proof (ensures_returns _ _ _ _ _
                    (lp_inner_insert_ensures hash m _ _ Hwf) Hm1)
        as (Hwf1 & Hcap1 & Hsize1 & Hdel1).
      destruct (IH m1 Hwf1) as (m' & Hm' & Hwf' & Hcap' & Hsize' & Hdel');
        [lia |].
      exists m'. rewrite Hm1. cbn [outcome_bind].
      split; [exact Hm' |]. split; [exact Hwf' |].
      repeat split; lia.
    + destruct (IH m Hwf) as (m' & Hm' & Hwf' & Hcap' & Hsize' & Hdel');
        [lia |].
      exists m'. split; [exact Hm' |]. split; [exact Hwf' |].
      repeat split; lia.
Qed.

(** [rehash] returns unless the allocation fails. *)
Lemma lp_rehash_total m :
  Lp.inv m ->
  match vector_new (2 * Lp.capacity m)
          (Lp.Entry_default default_key default_value) with
  | None =>
      Lp.rehash hash default_key default_value m
      = Throws length_error
          (Lp.Map [] (Lp.size_count m) (2 * Lp.capacity m)
                  (Lp.deleted_count m))
  | Some _ =>
      exists m',
        Lp.rehash hash default_key default_value m = Returns tt m' /\
        Lp.wf m' /\ Lp.capacity m' = 2 * Lp.capacity m /\
        Lp.size_count m' <= Lp.size_count m /\ Lp.deleted_count m' = 0
  end.
Proof.
  intros [Hwf Hload]. pose proof Hwf as ((Hlen & Hcap) & Hsize & Hdel).
  unfold Lp.within_load in Hload.
  unfold Lp.rehash. rewrite u64_double_small by lia.
  destruct (vector_new (2 * Lp.capacity m)
              (Lp.Entry_default default_key default_value))
    as [t |] eqn:Ht; [| reflexivity].
  assert (Hfresh : Lp.wf (Lp.Map t 0 (2 * Lp.capacity m) 0))
    by (apply (lp_fresh_wf default_key default_value); [lia | exact Ht]).
  destruct (lp_reinsert_total (Lp.table m) _ Hfresh)
    as (m' & Hm' & Hwf' & Hcap' & Hsize' & Hdel').
  { cbn [Lp.size_count Lp.capacity]. lia. }
  cbn [Lp.size_count Lp.capacity Lp.deleted_count] in *.
  exists m'. split; [exact Hm' |]. split; [exact Hwf' |].
  split; [exact Hcap' |]. split; [lia |].
  destruct Hwf' as (_ & _ & Hd).
  pose proof (lp_count_range Lp.is_deleted (Lp.table m')). lia.
Qed.

(** [insert] returns unless the allocation of [rehash] fails: no reachable
    table is full. *)
Lemma lp_insert_total m k v :
  Lp.inv m ->
  (exists m',
     Lp.insert hash default_key default_value k v m = Returns tt m' /\
     Lp.inv m' /\
     Lp.capacity m'
     = (if Lp.needs_rehash m then 2 * Lp.capacity m else Lp.capacity m) /\
     Lp.at_ hash m' k = Value v /\ Lp.contains_key hash m' k = Value true)
  \/
  (Lp.needs_rehash m = true /\
   U64.vector_max_size < 2 * Lp.capacity m /\
   Lp.insert hash default_key default_value k v m
   = Throws length_error
       (Lp.Map [] (Lp.size_count m) (2 * Lp.capacity m)
               (Lp.deleted_count m))).
Proof.
  intros Hinv. pose proof Hinv as [Hwf Hload].
  pose proof Hwf as ((Hlen & Hcap) & Hsize & Hdel).
  unfold Lp.within_load in Hload.
  pose proof (lp_count_range Lp.is_occupied (Lp.table m)) as Ho.
  pose proof (lp_count_range Lp.is_deleted (Lp.table m)) as Hd.
  pose proof (lp_insert_ensures hash default_key default_value m k v Hinv)
    as Hens.
  assert (Hfin : forall m1,
            Lp.insert hash default_key default_value k v m
            = Lp.inner_insert hash k v m1 ->
            Lp.wf m1 -> Lp.size_count m1 < Lp.capacity m1 ->
            exists m',
              Lp.insert hash default_key default_value k v m
              = Returns tt m' /\ Lp.inv m' /\
              Lp.capacity m' = Lp.capacity m1 /\
              Lp.at_ hash m' k = Value v /\
              Lp.contains_key hash m' k = Value true).
  { intros m1 Heq Hwf1 Hlt1.
    destruct (lp_inner_insert_total m1 k v Hwf1 Hlt1) as [m' Hm'].
    exists m'. rewrite Heq in Hens |- *. rewrite Hm' in Hens |- *.
    split; [reflexivity |]. split; [exact Hens |].
    pose proof (ensures_returns _ _ _ _ _
                  (lp_inner_insert_ensures hash m1 k v Hwf1) Hm')
      as (_ & Hcap' & _).
    split; [exact Hcap' |].
    exact (lp_inner_insert_at hash m1 k v m' (proj1 Hwf1) Hm'). }
  unfold Lp.insert in *.
  destruct (Lp.needs_rehash m) eqn:Hneed.
  - pose proof (lp_rehash_total m Hinv) as Hre.
    destruct (vector_new (2 * Lp.capacity m)
                (Lp.Entry_default default_key default_value))
      as [t |] eqn:Ht.
    + destruct Hre as (m1 & Hm1 & Hwf1 & Hcap1 & Hsize1 & _).
      rewrite Hm1 in *. cbn [outcome_bind] in *.
      destruct (Hfin m1 eq_refl Hwf1) as (m' & Hm' & Hinv' & Hcap' & Hat);
        [lia |].
      left. exists m'. split; [exact Hm' |]. split; [exact Hinv' |].
      split; [lia | exact Hat].
    + right. split; [reflexivity |]. split.
      * unfold vector_new in Ht.
        destruct (2 * Lp.capacity m <=? U64.vector_max_size) eqn:Hle;
          [discriminate |].
        apply Z.leb_gt in Hle. exact Hle.
      * rewrite Hre. reflexivity.
  - cbn [outcome_bind] in *.
    destruct (Hfin m eq_refl Hwf) as (m' & Hm' & Hinv' & Hcap' & Hat);
      [lia |].
    left. eauto 10.
Qed.

End LpTotal.
(** ** [lphashmap.hpp]: lookups, [remove], [clear], [operator[]] *)

Section LpLookup.

Context {K V : Type} `{EqDecision K}.
Context (hash : K -> Z) (default_key : K) (default_value : V).

Local Abbreviation map := (@Lp.map K V).
Local Abbreviation Entry := (@Lp.Entry K V).
Local Abbreviation probe := (Lp.probe hash).
Local Abbreviation not_found :=
  (out_of_range "Key not found in LpHashMap").

Implicit Types (m : map) (k : K) (v : V) (e : Entry) (t : list Entry).

(** The lookup finds an [Occupied] slot of the key, or none. *)
Lemma lp_lookup_cases m k :
  Lp.shaped m ->
  (exists i e,
     0 <= i < Lp.capacity m /\
     Lp.find_slot_for_lookup hash m k = Value i /\
     Lp.table m !! Z.to_nat i = Some e /\
     Lp.is_occupied e = true /\ Lp.key e = k /\
     Lp.at_ref hash m k = Value i /\ Lp.read m i = Value (Lp.value e) /\
     Lp.at_ hash m k = Value (Lp.value e) /\
     Lp.contains_key hash m k = Value true)
  \/
  (Lp.find_slot_for_lookup hash m k = Value (Lp.capacity m) /\
   Lp.at_ref hash m k = Raise not_found /\
   Lp.at_ hash m k = Raise not_found /\
   Lp.contains_key hash m k = Value false).
Proof.
  intros Hsh. pose proof Hsh as [Hlen Hcap].
  assert (Hmiss : Lp.find_slot_for_lookup hash m k = Value (Lp.capacity m) ->
                  Lp.at_ref hash m k = Raise not_found /\
                  Lp.at_ hash m k = Raise not_found /\
                  Lp.contains_key hash m k = Value false).
  { intros Hf. unfold Lp.at_, Lp.at_ref, Lp.contains_key. rewrite Hf.
    cbn [result_bind]. rewrite Z.ltb_irrefl. auto. }
  destruct (lp_find_slot_for_lookup_spec hash m k Hsh)
    as (j & Hj & _ & [(_ & _ & Hf) | [(Hlt & (e & He & Ho & Hk) & Hf)
                                      | (_ & Hf)]]).
  - right. split; [exact Hf | exact (Hmiss Hf)].
  - left. exists (probe m k j), e.
    pose proof (lp_probe_range hash m k j ltac:(lia)) as Hr.
    assert (Hlt' : (probe m k j <? Lp.capacity m) = true)
      by (apply Z.ltb_lt; lia).
    assert (Hread : Lp.read m (probe m k j) = Value (Lp.value e)).
    { unfold Lp.read.
      rewrite (vector_at_lookup (Lp.table m) (probe m k j) e);
        [reflexivity | lia | exact He]. }
    split; [exact Hr |]. split; [exact Hf |]. split; [exact He |].
    split; [exact Ho |]. split; [exact Hk |].
    unfold Lp.at_, Lp.at_ref, Lp.contains_key. rewrite Hf.
    cbn [result_bind]. rewrite Hlt'. cbn [result_bind]. auto.
  - right. split; [exact Hf | exact (Hmiss Hf)].
Qed.

(** [remove] on a map that satisfies the invariant. *)
Lemma lp_remove_spec m k :
  Lp.inv m ->
  exists r m',
    Lp.remove hash k m = Returns r m' /\ Lp.inv m' /\
    Lp.at_ hash m k
    = match r with Some v => Value v | None => Raise not_found end /\
    (r = None -> m' = m) /\
    Lp.capacity m' = Lp.capacity m /\
    Lp.size_count m'
    = Lp.size_count m - match r with Some _ => 1 | None => 0 end /\
    Lp.deleted_count m'
    = Lp.deleted_count m + match r with Some _ => 1 | None => 0 end.
Proof.
  intros Hinv. pose proof Hinv as (((Hlen & Hcap) & Hsize & Hdel) & Hload).
  pose proof (conj Hlen Hcap : Lp.shaped m) as Hsh.
  pose proof (lp_remove_ensures hash m k Hinv) as Hens.
  pose proof (lp_count_range Lp.is_occupied (Lp.table m)) as Ho.
  pose proof (lp_count_range Lp.is_deleted (Lp.table m)) as Hd.
  destruct (lp_remove_cases hash m k Hsh)
    as [(Hf & Hr) | (j & e & Hj & Hf & He & Hocc & Hkey & Hr)];
    rewrite Hr in Hens; cbn [ensures] in Hens.
  - exists None, m. split; [exact Hr |]. split; [exact Hinv |].
    destruct (lp_lookup_cases m k Hsh)
      as [(i & e & Hi & Hf' & _) | (_ & _ & Hat & _)].
    + rewrite Hf in Hf'. injection Hf' as <-. lia.
    + split; [exact Hat |]. repeat split; lia.
  - eexists (Some (Lp.value e)), _. split; [exact Hr |].
    split; [exact Hens |].
    destruct (lp_lookup_cases m k Hsh)
      as [(i & e' & Hi & Hf' & He' & _ & _ & _ & _ & Hat & _)
         | (Hf' & _)].
    + rewrite Hf in Hf'. injection Hf' as <-.
      rewrite He in He'. injection He' as <-.
      split; [exact Hat |]. split; [discriminate |].
      cbn [Lp.capacity Lp.size_count Lp.deleted_count].
      pose proof (lp_count_pos Lp.is_occupied _ _ e He Hocc) as Hpos.
      unfold U64.vector_max_size in Hcap.
      split; [reflexivity |]. split.
      * apply u64_sub_small; unfold U64.modulus; lia.
      * apply u64_add_small; unfold U64.modulus; lia.
    + rewrite Hf in Hf'. injection Hf' as Hf'.
      pose proof (lp_probe_range hash m k j ltac:(lia)). lia.
Qed.

Lemma lp_clear_slot t i e :
  List.map (fun e => Lp.mkEntry (Lp.key e) (Lp.value e) Lp.Empty) t !! i
  = Some e ->
  Lp.is_empty e = true.
Proof.
  revert i. induction t as [| a t IH]; intros i Hi; [discriminate |].
  destruct i as [| i]; cbn in Hi; [| exact (IH i Hi)].
  injection Hi as <-. reflexivity.
Qed.

(** After [clear] every lookup ends at once, at an [Empty] slot. *)
Lemma lp_clear_spec m k :
  Lp.inv m ->
  Lp.inv (Lp.clear m) /\
  Lp.at_ hash (Lp.clear m) k = Raise not_found /\
  Lp.contains_key hash (Lp.clear m) k = Value false.
Proof.
  intros Hinv. pose proof (lp_clear_inv m Hinv) as Hinv'.
  split; [exact Hinv' |]. destruct Hinv' as [[Hsh' _] _].
  destruct (lp_lookup_cases (Lp.clear m) k Hsh')
    as [(i & e & _ & _ & He & Hocc & _) | (_ & _ & Hat & Hc)];
    [| auto].
  apply lp_clear_slot in He.
  unfold Lp.is_empty, Lp.is_occupied in *.
  destruct (Lp.state e); discriminate.
Qed.

(** [operator[]]: it never throws its [std::runtime_error]. *)
Lemma lp_index_ref_spec m k :
  Lp.inv m ->
  (exists v i,
     Lp.at_ hash m k = Value v /\
     Lp.index_ref hash default_key default_value k m = Returns i m /\
     Lp.at_ref hash m k = Value i /\ Lp.read m i = Value v)
  \/
  (Lp.contains_key hash m k = Value false /\
   ((exists i m',
       Lp.insert hash default_key default_value k default_value m
       = Returns tt m' /\
       Lp.index_ref hash default_key default_value k m = Returns i m' /\
       Lp.at_ref hash m' k = Value i /\
       Lp.read m' i = Value default_value /\
       Lp.at_ hash m' k = Value default_value)
    \/
    (exists m',
       Lp.insert hash default_key default_value k default_value m
       = Throws length_error m' /\
       Lp.index_ref hash default_key default_value k m
       = Throws length_error m'))).
Proof.
  intros Hinv. pose proof Hinv as [[Hsh _] _].
  unfold Lp.index_ref.
  destruct (lp_lookup_cases m k Hsh)
    as [(i & e & Hi & Hf & He & _ & _ & Href & Hread & Hat & _)
       | (Hf & _ & _ & Hc)].
  - left. exists (Lp.value e), i. rewrite Hf. cbn [on outcome_bind].
    replace (i <? Lp.capacity m) with true by (symmetry; apply Z.ltb_lt; lia).
    auto.
  - right. split; [exact Hc |]. rewrite Hf. cbn [on outcome_bind].
    rewrite Z.ltb_irrefl.
    destruct (lp_insert_total hash default_key default_value m k
                default_value Hinv)
      as [(m' & Hm' & Hinv' & _ & Hat' & _) | (_ & _ & Hthrow)].
    + left. rewrite Hm'. cbn [outcome_bind].
      pose proof Hinv' as [[Hsh' _] _].
      destruct (lp_lookup_cases m' k Hsh')
        as [(i & e & Hi & Hf' & _ & _ & _ & Href & Hread & Hat & _)
           | (_ & _ & Hat & _)]; [| congruence].
      exists i, m'. rewrite Hf'. cbn [on outcome_bind].
      replace (i <? Lp.capacity m') with true
        by (symmetry; apply Z.ltb_lt; lia).
      split; [reflexivity |]. split; [reflexivity |].
      split; [exact Href |]. split; [congruence | exact Hat'].
    + right. eexists. rewrite Hthrow. cbn [outcome_bind]. auto.
Qed.

(** Assigning through the reference of [at(k)]. *)
Lemma lp_assign_spec m k i v :
  Lp.inv m -> Lp.at_ref hash m k = Value i ->
  Lp.inv (Lp.assign m i v) /\
  Lp.at_ hash (Lp.assign m i v) k = Value v /\
  (forall k', k' <> k ->
     Lp.at_ hash (Lp.assign m i v) k' = Lp.at_ hash m k' /\
     Lp.contains_key hash (Lp.assign m i v) k'
     = Lp.contains_key hash m k').
Proof.
  intros Hinv Href. pose proof Hinv as [[Hsh _] _].
  pose proof Hsh as [Hlen Hcap].
  split; [apply lp_set_value_inv; exact Hinv |].
  destruct (lp_lookup_cases m k Hsh)
    as [(i' & e & Hi & Hf & He & Hocc & Hkey & Href' & _)
       | (_ & Href' & _)]; [| congruence].
  assert (i' = i) as -> by congruence.
  set (g := fun e : Entry => Lp.mkEntry (Lp.key e) v (Lp.state e)).
  assert (Hfind : forall k',
            Lp.find_slot_for_lookup hash (Lp.assign m i v) k'
            = Lp.find_slot_for_lookup hash m k').
  { intros k'. apply lp_lookup_ext; [reflexivity |]. intros n.
    unfold Lp.assign, Lp.set_value, Lp.set_table. cbn [Lp.table].
    destruct (decide (n = Z.to_nat i)) as [-> | Hn].
    - rewrite list_lookup_alter_eq, He. cbn. auto.
    - rewrite list_lookup_alter_ne by congruence.
      destruct (Lp.table m !! n); auto. }
  assert (Hread : forall n,
            0 <= n ->
            Lp.read (Lp.assign m i v) n
            = if decide (n = i) then Value v else Lp.read m n).
  { intros n Hn. unfold Lp.read, vector_at, Lp.assign, Lp.set_value,
      Lp.set_table. cbn [Lp.table].
    destruct (n <? 0) eqn:Hneg; [apply Z.ltb_lt in Hneg; lia |].
    destruct (decide (n = i)) as [-> | Hne].
    - rewrite list_lookup_alter_eq, He. reflexivity.
    - rewrite list_lookup_alter_ne by lia. reflexivity. }
  split.
  - unfold Lp.at_, Lp.at_ref. rewrite Hfind, Hf. cbn [result_bind].
    change (Lp.capacity (Lp.assign m i v)) with (Lp.capacity m).
    replace (i <? Lp.capacity m) with true
      by (symmetry; apply Z.ltb_lt; lia).
    cbn [result_bind]. rewrite Hread by lia.
    rewrite decide_True by reflexivity. reflexivity.
  - intros k' Hne. unfold Lp.at_, Lp.at_ref, Lp.contains_key.
    rewrite Hfind.
    change (Lp.capacity (Lp.assign m i v)) with (Lp.capacity m).
    split; [| reflexivity].
    destruct (lp_lookup_cases m k' Hsh)
      as [(i' & e' & Hi' & Hf' & He' & _ & Hkey' & _) | (Hf' & _)];
      rewrite Hf'; cbn [result_bind].
    + replace (i' <? Lp.capacity m) with true
        by (symmetry; apply Z.ltb_lt; lia).
      cbn [result_bind]. rewrite Hread by lia.
      rewrite decide_False; [reflexivity |].
      intros ->. congruence.
    + rewrite Z.ltb_irrefl. reflexivity.
Qed.

End LpLookup.
(** ** [lphashmap.hpp]: probe paths without gaps *)

Section LpChained.

Context {K V : Type} `{EqDecision K}.
Context (hash : K -> Z) (default_key : K) (default_value : V).

Local Abbreviation map := (@Lp.map K V).
Local Abbreviation Entry := (@Lp.Entry K V).
Local Abbreviation probe := (Lp.probe hash).
Local Abbreviation chained := (Lp.chained hash).

Implicit Types (m : map) (k : K) (v : V) (e : Entry) (t : list Entry).

Lemma lp_probe_same m k i j :
  0 < Lp.capacity m -> 0 <= i < Lp.capacity m -> 0 <= j < Lp.capacity m ->
  Z.to_nat (probe m k i) = Z.to_nat (probe m k j) -> i = j.
Proof.
  intros Hc Hi Hj Heq.
  pose proof (lp_probe_range hash m k i Hc).
  pose proof (lp_probe_range hash m k j Hc).
  apply (probe_inj (hash k) i j (Lp.capacity m)); try assumption.
  unfold Lp.probe in *. lia.
Qed.

(** Writing a slot that is not [Empty] afterwards keeps the paths whole,
    when the path to a written [Occupied] entry has no gap. *)
Lemma lp_chained_replace m s e_new n d :
  Lp.shaped m -> chained m -> Lp.is_empty e_new = false ->
  (Lp.is_occupied e_new = true ->
   exists j0,
     0 <= j0 < Lp.capacity m /\
     Z.to_nat (probe m (Lp.key e_new) j0) = s /\
     forall j', 0 <= j' < j0 ->
       exists e', Lp.table m !! Z.to_nat (probe m (Lp.key e_new) j')
                  = Some e' /\ Lp.is_empty e' = false) ->
  chained (Lp.Map (<[s := e_new]> (Lp.table m)) n (Lp.capacity m) d).
Proof.
  intros [Hlen Hcap] Hch Hne Hnew k j e Hj He Hocc Hkey j' Hj'.
  cbn [Lp.capacity Lp.table] in *.
  change (Lp.probe hash
            (Lp.Map (<[s := e_new]> (Lp.table m)) n (Lp.capacity m) d))
    with (probe m) in *.
  assert (Hstep : forall e0,
            Lp.table m !! Z.to_nat (probe m k j') = Some e0 ->
            Lp.is_empty e0 = false ->
            exists e',
              <[s := e_new]> (Lp.table m) !! Z.to_nat (probe m k j')
              = Some e' /\ Lp.is_empty e' = false).
  { intros e0 He0 Hne0.
    destruct (decide (Z.to_nat (probe m k j') = s)) as [Heq | Hdiff].
    - exists e_new. split; [| exact Hne].
      rewrite Heq. apply list_lookup_insert_eq.
      rewrite <- Heq. apply lookup_lt_Some in He0. exact He0.
    - exists e0. rewrite list_lookup_insert_ne by congruence. auto. }
  destruct (decide (Z.to_nat (probe m k j) = s)) as [Hs | Hs].
  - rewrite Hs in He.
    assert (e = e_new) as ->.
    { destruct (decide (s < length (Lp.table m))%nat) as [Hlt | Hge].
      - rewrite list_lookup_insert_eq in He by exact Hlt. congruence.
      - apply lookup_lt_Some in He. rewrite length_insert in He. lia. }
    destruct (Hnew Hocc) as (j0 & Hj0 & Hp0 & Hpath). subst k.
    assert (j = j0) as ->
      by (apply (lp_probe_same m (Lp.key e_new)); [lia | lia | lia | lia]).
    destruct (Hpath j' Hj') as (e0 & He0 & Hne0). exact (Hstep e0 He0 Hne0).
  - rewrite list_lookup_insert_ne in He by congruence.
    destruct (Hch k j e Hj He Hocc Hkey j' Hj') as (e0 & He0 & Hne0).
    exact (Hstep e0 He0 Hne0).
Qed.

Lemma lp_occupied_path m k j :
  (forall i, 0 <= i < j ->
     exists e, Lp.table m !! Z.to_nat (probe m k i) = Some e /\
               Lp.is_occupied e = true /\ Lp.key e <> k) ->
  forall j', 0 <= j' < j ->
    exists e', Lp.table m !! Z.to_nat (probe m k j') = Some e' /\
               Lp.is_empty e' = false.
Proof.
  intros Hpre j' Hj'. destruct (Hpre j' Hj') as (e & He & Hocc & _).
  exists e. split; [exact He | apply lp_occupied_not_empty; exact Hocc].
Qed.

Lemma lp_inner_insert_chained m k v m' :
  Lp.shaped m -> chained m ->
  Lp.inner_insert hash k v m = Returns tt m' -> chained m'.
Proof.
  intros Hsh Hch Hins.
  destruct (lp_inner_insert_cases hash m k v Hsh)
    as [(j & e & m1 & Hj & Hpre & He & Hr & Hm1) | (_ & Hr)];
    rewrite Hr in Hins; [injection Hins as <- | discriminate].
  pose proof (lp_occupied_path m k j Hpre) as Hpath.
  destruct Hm1 as [(Hocc & Hkey & ->) | (Hocc & ->)].
  - unfold Lp.set_value, Lp.set_table.
    rewrite (list_alter_insert_at _ _ _ _ He).
    apply lp_chained_replace; [exact Hsh | exact Hch | |].
    + unfold Lp.is_empty, Lp.is_occupied in *. cbn.
      destruct (Lp.state e); congruence.
    + intros _. cbn [Lp.key]. rewrite Hkey. exists j. auto.
  - apply lp_chained_replace; [exact Hsh | exact Hch | reflexivity |].
    intros _. cbn [Lp.key Lp.Entry_new]. exists j. auto.
Qed.

Lemma lp_reinsert_chained old :
  forall m m',
    Lp.wf m -> chained m ->
    Lp.reinsert hash old m = Returns tt m' -> chained m'.
Proof.
  induction old as [| e rest IH]; intros m m' Hwf Hch Hre;
    cbn [Lp.reinsert] in Hre.
  - injection Hre as <-. exact Hch.
  - destruct (Lp.is_occupied e); [| exact (IH m m' Hwf Hch Hre)].
    apply outcome_bind_returns in Hre as ([] & m1 & Hm1 & Hre).
    pose proof (ensures_returns _ _ _ _ _
                  (lp_inner_insert_ensures hash m _ _ Hwf) Hm1)
      as (Hwf1 & _).
    apply (IH m1 m' Hwf1); [| exact Hre].
    exact (lp_inner_insert_chained m _ _ m1 (proj1 Hwf) Hch Hm1).
Qed.

Lemma lp_fresh_chained n c size d :
  chained (Lp.Map (replicate n (Lp.Entry_default default_key default_value))
             size c d).
Proof.
  intros k j e _ He Hocc. cbn [Lp.table] in He.
  apply lookup_replicate in He as [-> _]. discriminate.
Qed.

Lemma lp_insert_chained m k v m' :
  Lp.inv m -> chained m ->
  Lp.insert hash default_key default_value k v m = Returns tt m' ->
  chained m'.
Proof.
  intros [Hwf Hload] Hch Hins. unfold Lp.insert in Hins.
  apply outcome_bind_returns in Hins as ([] & m1 & Hpre & Hins).
  assert (Hm1 : Lp.wf m1 /\ chained m1).
  { destruct (Lp.needs_rehash m); [| injection Hpre as <-; auto].
    pose proof (ensures_returns _ _ _ _ _
                  (lp_rehash_ensures hash default_key default_value
                     m Hwf) Hpre) as (Hwf1 & _).
    split; [exact Hwf1 |]. unfold Lp.rehash in Hpre.
    destruct (vector_new (U64.mul (Lp.capacity m) 2)
                (Lp.Entry_default default_key default_value))
      as [t |] eqn:Ht; [| discriminate].
    pose proof Hwf as ((Hlen & Hcap) & _).
    rewrite u64_double_small in Ht, Hpre by lia.
    pose proof (lp_fresh_wf default_key default_value
                  (2 * Lp.capacity m) t ltac:(lia) Ht) as Hfresh.
    apply vector_new_inv in Ht as [_ ->].
    exact (lp_reinsert_chained _ _ m1 Hfresh
             (lp_fresh_chained _ _ _ _) Hpre). }
  destruct Hm1 as [Hwf1 Hch1].
  exact (lp_inner_insert_chained m1 k v m' (proj1 Hwf1) Hch1 Hins).
Qed.

Lemma lp_remove_chained m k r m' :
  Lp.shaped m -> chained m ->
  Lp.remove hash k m = Returns r m' -> chained m'.
Proof.
  intros Hsh Hch Hrem.
  destruct (lp_remove_cases hash m k Hsh)
    as [(_ & Hr) | (j & e & Hj & _ & He & _ & _ & Hr)];
    rewrite Hr in Hrem; injection Hrem as <- <-; [exact Hch |].
  rewrite (list_alter_insert_at _ _ _ _ He).
  apply lp_chained_replace; [exact Hsh | exact Hch | reflexivity |].
  discriminate.
Qed.

Lemma lp_clear_chained m : chained (Lp.clear m).
Proof.
  intros k j e _ He Hocc. unfold Lp.clear in He. cbn [Lp.table] in He.
  apply lp_clear_slot in He.
  unfold Lp.is_empty, Lp.is_occupied in *. destruct (Lp.state e); discriminate.
Qed.

Lemma lp_assign_chained m k i v :
  Lp.shaped m -> chained m -> Lp.at_ref hash m k = Value i ->
  chained (Lp.assign m i v).
Proof.
  intros Hsh Hch Href.
  destruct (lp_lookup_cases hash m k Hsh)
    as [(i' & e & Hi & Hf & He & Hocc & Hkey & Href' & _)
       | (_ & Href' & _)]; [| congruence].
  assert (i' = i) as -> by congruence.
  unfold Lp.assign, Lp.set_value, Lp.set_table.
  rewrite (list_alter_insert_at _ _ _ _ He).
  apply lp_chained_replace; [exact Hsh | exact Hch | |].
  - unfold Lp.is_empty, Lp.is_occupied in *. cbn.
    destruct (Lp.state e); congruence.
  - intros _. cbn [Lp.key]. pose proof Hsh as [_ Hcap].
    destruct (lp_probe_onto hash m k i ltac:(lia) Hi) as (j & Hj & Hp).
    exists j. rewrite Hkey, Hp. split; [exact Hj |]. split; [reflexivity |].
    apply (Hch k j e Hj); [rewrite Hp; exact He | exact Hocc | exact Hkey].
Qed.

(** Every map that a program reaches has whole probe paths. *)
Lemma lp_reachable_chained catching c m :
  0 < c ->
  Lp.reachable hash default_key default_value catching c m -> chained m.
Proof.
  intros Hc Hreach.
  assert (Hboth : Lp.inv m /\ chained m); [| exact (proj2 Hboth)].
  induction Hreach as [m Hnew | m m' Hreach [Hinv IH] Hstep].
  - split.
    + exact (lp_reachable_inv hash default_key default_value catching c m Hc
               (Lp.reachable_new _ _ _ _ _ m Hnew)).
    + unfold Lp.new in Hnew.
      destruct (vector_new c (Lp.Entry_default default_key default_value))
        as [t |] eqn:Ht; [| discriminate].
      injection Hnew as <-. apply vector_new_inv in Ht as [_ ->].
      apply lp_fresh_chained.
  - split.
    { exact (lp_reachable_inv hash default_key default_value catching c m' Hc
               (Lp.reachable_step _ _ _ _ _ m m' Hreach Hstep)). }
    pose proof Hinv as [[Hsh _] _].
    assert (Hins : forall k v ex m1,
              Lp.insert hash default_key default_value k v m = Throws ex m1 ->
              ex = length_error).
    { intros k v ex m1 Hthrow.
      destruct (lp_insert_total hash default_key default_value m k v Hinv)
        as [(m2 & Hm2 & _) | (_ & _ & Hm2)]; congruence. }
    assert (Hidx : forall k i m1,
              Lp.index_ref hash default_key default_value k m = Returns i m1 ->
              chained m1 /\ Lp.inv m1 /\ Lp.at_ref hash m1 k = Value i).
    { intros k i m1 Hret.
      destruct (lp_index_ref_spec hash default_key default_value m k Hinv)
        as [(v & i' & _ & Hr & Href & _)
           | (_ & [(i' & m2 & Hm2 & Hr & Href & _) | (m2 & _ & Hr)])];
        [| | congruence].
      - assert (i' = i /\ m = m1) as [-> <-] by (split; congruence). auto.
      - assert (i' = i /\ m2 = m1) as [-> ->] by (split; congruence).
        split; [exact (lp_insert_chained m k _ m1 Hinv IH Hm2) |].
        split; [| exact Href].
        exact (ensures_returns _ _ _ _ _
                 (lp_insert_ensures hash default_key default_value m k _
                    Hinv) Hm2). }
    destruct Hstep as [k v m' Hst | k v ex m' _ Hst Hne | k r m' Hst
                      | | k r m' Hst | k ex m' _ Hst Hne
                      | k r v Hst | k r m' v Hst].
    + exact (lp_insert_chained m k v m' Hinv IH Hst).
    + exfalso. exact (Hne (Hins k v ex m' Hst)).
    + exact (lp_remove_chained m k r m' Hsh IH Hst).
    + apply lp_clear_chained.
    + exact (proj1 (Hidx k r m' Hst)).
    + exfalso. apply Hne.
      destruct (lp_index_ref_spec hash default_key default_value m k Hinv)
        as [(v & i' & _ & Hr & _)
           | (_ & [(i' & m2 & _ & Hr & _) | (m2 & _ & Hr)])]; congruence.
    + exact (lp_assign_chained m k r v Hsh IH Hst).
    + destruct (Hidx k r m' Hst) as (Hch' & [[Hsh' _] _] & Href).
      exact (lp_assign_chained m' k r v Hsh' Hch' Href).
Qed.

End LpChained.
Section LpFrame.

Context {K V : Type} `{EqDecision K}.
Context (hash : K -> Z) (default_key : K) (default_value : V).

Local Abbreviation map := (@Lp.map K V).
Local Abbreviation Entry := (@Lp.Entry K V).
Local Abbreviation probe := (Lp.probe hash).
Local Abbreviation chained := (Lp.chained hash).

Implicit Types (m : map) (k : K) (v : V) (e : Entry) (t : list Entry).

Lemma lp_passed_intro k e :
  Lp.is_empty e = false ->
  (Lp.is_occupied e = true -> Lp.key e <> k) ->
  Lp.passed k e = true.
Proof.
  intros Hne Hk. unfold Lp.passed. rewrite Hne. cbn.
  destruct (Lp.is_occupied e); [| reflexivity].
  rewrite bool_decide_eq_false_2 by auto. reflexivity.
Qed.

(** Writing a slot that the lookup of [k'] steps over, before and after,
    changes nothing for [k']. *)
Lemma lp_replace_other m s e_old e_new n d k' :
  Lp.shaped m -> chained m ->
  Lp.table m !! s = Some e_old ->
  (Lp.is_occupied e_old = true -> Lp.key e_old <> k') ->
  Lp.passed k' e_new = true ->
  let m' := Lp.Map (<[s := e_new]> (Lp.table m)) n (Lp.capacity m) d in
  Lp.at_ hash m' k' = Lp.at_ hash m k' /\
  Lp.contains_key hash m' k' = Lp.contains_key hash m k'.
Proof.
  intros Hsh Hch Hs Hold Hnew m'. pose proof Hsh as [Hlen Hcap].
  assert (Hslt : (s < length (Lp.table m))%nat)
    by (apply lookup_lt_Some in Hs; exact Hs).
  assert (Hsh' : Lp.shaped m').
  { split; [| exact Hcap]. cbn [Lp.table Lp.capacity m'].
    rewrite length_insert. exact Hlen. }
  assert (Hsame : forall i, i <> s -> Lp.table m' !! i = Lp.table m !! i).
  { intros i Hi. cbn [Lp.table m']. apply list_lookup_insert_ne. congruence. }
  assert (Hats : Lp.table m' !! s = Some e_new).
  { cbn [Lp.table m']. apply list_lookup_insert_eq. exact Hslt. }
  change (Lp.probe hash m') with (probe m) in *.
  assert (Hfind : Lp.find_slot_for_lookup hash m' k'
                  = Lp.find_slot_for_lookup hash m k').
  { destruct (lp_lookup_cases hash m k' Hsh)
      as [(i & e & Hi & Hf & He & Hocc & Hkey & _) | (Hf & _)].
    - rewrite Hf.
      destruct (lp_find_slot_for_lookup_spec hash m k' Hsh)
        as (j & Hj & Hpre & Hend).
      destruct Hend as [(_ & _ & Hf') | [(Hlt & (e2 & He2 & _) & Hf')
                                        | (_ & Hf')]];
        try (rewrite Hf in Hf'; injection Hf' as ->; lia).
      rewrite Hf in Hf'. injection Hf' as ->.
      assert (e2 = e) as -> by congruence.
      change (Lp.find_slot_for_lookup hash m' k'
              = Value (Lp.probe hash m' k' j)).
      apply (lp_lookup_found hash m' k' j e Hsh'); try assumption.
      + cbn [Lp.capacity m']. lia.
      + intros i Hi'. change (Lp.probe hash m') with (probe m).
        destruct (Hpre i Hi') as (e1 & He1 & Hp1).
        destruct (decide (Z.to_nat (probe m k' i) = s)) as [-> | Hne].
        * exists e_new. auto.
        * exists e1. rewrite Hsame by exact Hne. auto.
      + change (Lp.probe hash m') with (probe m).
        rewrite Hsame; [exact He2 |]. intros Heq. rewrite Heq in He2.
        assert (e_old = e) by congruence. subst e_old.
        exact (Hold Hocc Hkey).
    - rewrite Hf.
      destruct (lp_find_slot_for_lookup_spec hash m' k' Hsh')
        as (j & Hj & Hpre & [(_ & _ & Hf') | [(Hlt & (e2 & He2 & Ho2 & Hk2)
                                                & Hf') | (_ & Hf')]]);
        try exact Hf'.
      exfalso. cbn [Lp.capacity m'] in *.
      change (Lp.probe hash m') with (probe m) in *.
      assert (Hne2 : Z.to_nat (probe m k' j) <> s).
      { intros Heq. rewrite Heq, Hats in He2. injection He2 as <-.
        apply lp_passed_not_hit in Hnew as [_ Hnh]. exact (Hnh Ho2 Hk2). }
      rewrite Hsame in He2 by exact Hne2.
      assert (Hf2 : Lp.find_slot_for_lookup hash m k'
                    = Value (probe m k' j)).
      { apply (lp_lookup_found hash m k' j e2 Hsh); try assumption; [lia |].
        intros i Hi. destruct (Hpre i Hi) as (e1 & He1 & Hp1).
        destruct (decide (Z.to_nat (probe m k' i) = s)) as [Heq | Hne].
        - exists e_old. rewrite Heq. split; [exact Hs |].
          apply lp_passed_intro; [| exact Hold].
          destruct (Hch k' j e2 ltac:(lia) He2 Ho2 Hk2 i Hi)
            as (e0 & He0 & Hne0).
          rewrite Heq in He0. congruence.
        - exists e1. rewrite Hsame in He1 by exact Hne. auto. }
      rewrite Hf in Hf2. injection Hf2 as Hf2.
      pose proof (lp_probe_range hash m k' j ltac:(lia)). lia. }
  unfold Lp.at_, Lp.at_ref, Lp.contains_key. rewrite Hfind.
  cbn [Lp.capacity m']. split; [| reflexivity].
  destruct (lp_lookup_cases hash m k' Hsh)
    as [(i & e & Hi & Hf & He & Hocc & Hkey & _) | (Hf & _)];
    rewrite Hf; cbn [result_bind].
  - replace (i <? Lp.capacity m) with true
      by (symmetry; apply Z.ltb_lt; lia).
    cbn [result_bind]. unfold Lp.read, vector_at.
    destruct (i <? 0); [reflexivity |].
    rewrite Hsame; [reflexivity |].
    intros Heq. rewrite Heq in He. assert (e_old = e) by congruence.
    subst e_old. exact (Hold Hocc Hkey).
  - rewrite Z.ltb_irrefl. reflexivity.
Qed.

(** [inner_insert] of [k] changes nothing for another key. *)
Lemma lp_inner_insert_other m k v m' k' :
  Lp.shaped m -> chained m ->
  Lp.inner_insert hash k v m = Returns tt m' -> k' <> k ->
  Lp.at_ hash m' k' = Lp.at_ hash m k' /\
  Lp.contains_key hash m' k' = Lp.contains_key hash m k'.
Proof.
  intros Hsh Hch Hins Hne.
  destruct (lp_inner_insert_cases hash m k v Hsh)
    as [(j & e & m1 & Hj & Hpre & He & Hr & Hm1) | (_ & Hr)];
    rewrite Hr in Hins; [injection Hins as <- | discriminate].
  destruct Hm1 as [(Hocc & Hkey & ->) | (Hocc & ->)].
  - unfold Lp.set_value, Lp.set_table.
    rewrite (list_alter_insert_at _ _ _ _ He).
    apply (lp_replace_other m _ e); try assumption.
    + intros _. congruence.
    + apply lp_passed_intro; cbn.
      * unfold Lp.is_empty, Lp.is_occupied in *. cbn.
        destruct (Lp.state e); congruence.
      * intros _. congruence.
  - apply (lp_replace_other m _ e); try assumption.
    + intros Hocc'. congruence.
    + apply lp_passed_intro; [reflexivity |]. cbn. intros _. congruence.
Qed.

(** [inner_insert] of a key that the lookup does not find stores a new
    entry. *)
Lemma lp_inner_insert_new m k v m' :
  Lp.wf m -> Lp.size_count m < Lp.capacity m ->
  Lp.inner_insert hash k v m = Returns tt m' ->
  Lp.contains_key hash m k = Value false ->
  Lp.size_count m' = Lp.size_count m + 1.
Proof.
  intros Hwf Hlt Hins Hc. pose proof Hwf as (Hsh & Hsize & _).
  pose proof Hsh as [Hlen Hcap].
  destruct (lp_inner_insert_cases hash m k v Hsh)
    as [(j & e & m1 & Hj & Hpre & He & Hr & Hm1) | (_ & Hr)];
    rewrite Hr in Hins; [injection Hins as <- | discriminate].
  destruct Hm1 as [(Hocc & Hkey & ->) | (Hocc & ->)].
  - exfalso.
    assert (Hf : Lp.find_slot_for_lookup hash m k = Value (probe m k j)).
    { apply (lp_lookup_found hash m k j e Hsh Hj); try assumption.
      intros i Hi. destruct (Hpre i Hi) as (e1 & He1 & Ho1 & Hk1).
      exists e1. split; [exact He1 |].
      apply lp_passed_intro; [apply lp_occupied_not_empty; exact Ho1 | auto]. }
    unfold Lp.contains_key in Hc. rewrite Hf in Hc. cbn in Hc.
    pose proof (lp_probe_range hash m k j ltac:(lia)) as Hrange.
    injection Hc as Hc. apply Z.ltb_ge in Hc. lia.
  - cbn [Lp.size_count].
    pose proof (lp_count_range Lp.is_occupied (Lp.table m)).
    apply u64_add_small; unfold U64.modulus, U64.vector_max_size in *; lia.
Qed.

End LpFrame.

Section LpGrowth.

Context {K V : Type} `{EqDecision K}.
Context (hash : K -> Z) (default_key : K) (default_value : V).

Local Abbreviation map := (@Lp.map K V).
Local Abbreviation insert := (Lp.insert hash default_key default_value).
Local Abbreviation index_ref :=
  (Lp.index_ref hash default_key default_value).

Implicit Types (m : map) (k : K) (v : V).

(** No member function changes the capacity but by doubling it. *)
Lemma lp_step_capacity catching m m' :
  Lp.inv m -> Lp.step hash default_key default_value catching m m' ->
  Lp.capacity m' = Lp.capacity m \/ Lp.capacity m' = 2 * Lp.capacity m.
Proof.
  intros Hinv Hstep.
  assert (Hins_cap : forall k v m1,
            insert k v m = Returns tt m1 ->
            Lp.capacity m1 = Lp.capacity m \/
            Lp.capacity m1 = 2 * Lp.capacity m).
  { intros k v m1 Hins.
    destruct (lp_insert_total hash default_key default_value m k v Hinv)
      as [(m2 & Hm2 & _ & Hcap & _) | (_ & _ & Hthrow)];
      [| congruence].
    rewrite Hm2 in Hins. injection Hins as <-. rewrite Hcap.
    destruct (Lp.needs_rehash m); auto. }
  assert (Hins_throw : forall k v ex m1,
            insert k v m = Throws ex m1 -> ex = length_error).
  { intros k v ex m1 Hins.
    destruct (lp_insert_total hash default_key default_value m k v Hinv)
      as [(m2 & Hm2 & _) | (_ & _ & Hthrow)]; congruence. }
  assert (Hidx : forall k,
            (exists r, index_ref k m = Returns r m) \/
            (exists r m1,
               insert k default_value m = Returns tt m1 /\
               index_ref k m = Returns r m1) \/
            (exists m1, index_ref k m = Throws length_error m1)).
  { intros k.
    destruct (lp_index_ref_spec hash default_key default_value m k Hinv)
      as [(v & i & _ & Hr & _)
         | (_ & [(i & m1 & Hins & Hr & _) | (m1 & _ & Hr)])];
      [left | right; left | right; right]; eauto. }
  destruct Hstep as [k v m' Hins | k v ex m' _ Hins Hne | k r m' Hrem
                    | | k r m' Hr | k ex m' _ Hr Hne
                    | k r v Hat | k r m' v Hr].
  - exact (Hins_cap k v m' Hins).
  - destruct (Hne (Hins_throw k v ex m' Hins)).
  - destruct (lp_remove_spec hash m k Hinv)
      as (r1 & m1 & Hm1 & _ & _ & _ & Hcap & _).
    rewrite Hm1 in Hrem. injection Hrem as _ <-. auto.
  - left. reflexivity.
  - destruct (Hidx k) as [(r1 & Hr1) | [(r1 & m1 & Hins & Hr1) | (m1 & Hr1)]];
      rewrite Hr1 in Hr; [| | discriminate].
    + injection Hr as _ <-. auto.
    + injection Hr as _ <-. exact (Hins_cap k default_value m1 Hins).
  - destruct (Hidx k) as [(r1 & Hr1) | [(r1 & m1 & Hins & Hr1) | (m1 & Hr1)]];
      rewrite Hr1 in Hr; [discriminate | discriminate |].
    injection Hr as <- _. destruct (Hne eq_refl).
  - left. reflexivity.
  - change (Lp.capacity (Lp.assign m' r v)) with (Lp.capacity m').
    destruct (Hidx k) as [(r1 & Hr1) | [(r1 & m1 & Hins & Hr1) | (m1 & Hr1)]];
      rewrite Hr1 in Hr; [| | discriminate].
    + injection Hr as _ <-. auto.
    + injection Hr as _ <-. exact (Hins_cap k default_value m1 Hins).
Qed.

End LpGrowth.

Section LpLoad.

Context {K V : Type} `{EqDecision K}.
Context (hash : K -> Z) (default_key : K) (default_value : V).

Local Abbreviation map := (@Lp.map K V).
Local Abbreviation Entry := (@Lp.Entry K V).
Local Abbreviation probe := (Lp.probe hash).
Local Abbreviation insert := (Lp.insert hash default_key default_value).
Local Abbreviation index_ref :=
  (Lp.index_ref hash default_key default_value).
Local Abbreviation used m := (Lp.size_count m + Lp.deleted_count m).

Implicit Types (m : map) (k : K) (v : V) (e : Entry) (t : list Entry).

(** The [Occupied] and the [Deleted] slots are the slots that are not
    [Empty]. *)
Lemma lp_count_not_empty t :
  Lp.count Lp.is_occupied t + Lp.count Lp.is_deleted t
  = Lp.count (fun e => negb (Lp.is_empty e)) t.
Proof.
  induction t as [| e t IH]; [reflexivity |]. cbn [Lp.count].
  rewrite <- IH. unfold Lp.is_occupied, Lp.is_deleted, Lp.is_empty.
  destruct (Lp.state e); cbn [negb]; lia.
Qed.

(** A lookup that meets no [Empty] slot in [capacity] probes runs over a
    table without one. *)
Lemma lp_no_empty_count m k :
  Lp.wf m ->
  (forall j, 0 <= j < Lp.capacity m ->
     exists e, Lp.table m !! Z.to_nat (probe m k j) = Some e /\
               Lp.is_empty e = false) ->
  used m = Lp.capacity m.
Proof.
  intros ((Hlen & Hcap) & Hsize & Hdel) Hall.
  rewrite Hsize, Hdel, lp_count_not_empty, <- Hlen.
  apply lp_count_all. intros i e He.
  assert (Hi : 0 <= Z.of_nat i < Lp.capacity m)
    by (apply lookup_lt_Some in He; lia).
  destruct (lp_probe_onto hash m k (Z.of_nat i) ltac:(lia) Hi)
    as (j & Hj & Hp).
  destruct (Hall j Hj) as (e' & He' & Hne).
  rewrite Hp, Nat2Z.id in He'. assert (e' = e) as -> by congruence.
  rewrite Hne. reflexivity.
Qed.

(** [insert] leaves at most one slot more than seven tenths of the table
    [Occupied] or [Deleted]. *)
Lemma lp_insert_effective_load m k v m' :
  Lp.inv m -> insert k v m = Returns tt m' ->
  10 * used m' <= 7 * Lp.capacity m' + 10.
Proof.
  intros Hinv Hins. pose proof Hinv as [Hwf Hload].
  pose proof Hwf as ((Hlen & Hcap) & Hsize & Hdel).
  pose proof (lp_count_range Lp.is_occupied (Lp.table m)) as Ho.
  pose proof (lp_count_range Lp.is_deleted (Lp.table m)) as Hd.
  pose proof (lp_count_not_empty (Lp.table m)) as Hsum.
  pose proof (lp_count_range (fun e => negb (Lp.is_empty e)) (Lp.table m))
    as Hn.
  unfold Lp.within_load in Hload. unfold U64.vector_max_size in Hcap.
  unfold Lp.insert in Hins.
  destruct (Lp.needs_rehash m) eqn:Hneed.
  - pose proof (lp_rehash_total hash default_key default_value m Hinv)
      as Hre.
    destruct (vector_new (2 * Lp.capacity m)
                (Lp.Entry_default default_key default_value)).
    + destruct Hre as (m1 & Hm1 & Hwf1 & Hc1 & Hs1 & Hd1).
      rewrite Hm1 in Hins. cbn [outcome_bind] in Hins.
      destruct (ensures_returns _ _ _ _ _
                  (lp_inner_insert_ensures hash m1 k v Hwf1) Hins)
        as (_ & Hc' & Hs' & Hd').
      lia.
    + rewrite Hre in Hins. discriminate.
  - cbn [outcome_bind] in Hins.
    unfold Lp.needs_rehash in Hneed.
    apply orb_false_iff in Hneed as [_ Hneed].
    unfold Lp.exceeds_max_load in Hneed. apply Z.ltb_ge in Hneed.
    rewrite u64_add_small in Hneed by (unfold U64.modulus; lia).
    destruct (ensures_returns _ _ _ _ _
                (lp_inner_insert_ensures hash m k v Hwf) Hins)
      as (_ & Hc' & Hs' & Hd').
    lia.
Qed.

(** No member function leaves more than that. *)
Lemma lp_step_effective_load catching m m' :
  Lp.inv m -> 10 * used m <= 7 * Lp.capacity m + 10 ->
  Lp.step hash default_key default_value catching m m' ->
  10 * used m' <= 7 * Lp.capacity m' + 10.
Proof.
  intros Hinv Hused Hstep.
  assert (Hins_throw : forall k v ex m1,
            insert k v m = Throws ex m1 -> ex = length_error).
  { intros k v ex m1 Hins.
    destruct (lp_insert_total hash default_key default_value m k v Hinv)
      as [(m2 & Hm2 & _) | (_ & _ & Hthrow)]; congruence. }
  assert (Hidx : forall k,
            (exists r, index_ref k m = Returns r m) \/
            (exists r m1,
               insert k default_value m = Returns tt m1 /\
               index_ref k m = Returns r m1) \/
            (exists m1, index_ref k m = Throws length_error m1)).
  { intros k.
    destruct (lp_index_ref_spec hash default_key default_value m k Hinv)
      as [(v & i & _ & Hr & _)
         | (_ & [(i & m1 & Hins & Hr & _) | (m1 & _ & Hr)])];
      [left | right; left | right; right]; eauto. }
  destruct Hstep as [k v m' Hins | k v ex m' _ Hins Hne | k r m' Hrem
                    | | k r m' Hr | k ex m' _ Hr Hne
                    | k r v Hat | k r m' v Hr].
  - exact (lp_insert_effective_load m k v m' Hinv Hins).
  - destruct (Hne (Hins_throw k v ex m' Hins)).
  - destruct (lp_remove_spec hash m k Hinv)
      as (r1 & m1 & Hm1 & _ & _ & _ & Hcap & Hs & Hd).
    rewrite Hm1 in Hrem. injection Hrem as _ <-.
    rewrite Hcap, Hs, Hd. destruct r1; lia.
  - destruct Hinv as (((_ & Hcap) & _) & _).
    cbn [Lp.clear Lp.size_count Lp.deleted_count Lp.capacity]. lia.
  - destruct (Hidx k) as [(r1 & Hr1) | [(r1 & m1 & Hins & Hr1) | (m1 & Hr1)]];
      rewrite Hr1 in Hr; [| | discriminate].
    + injection Hr as _ <-. exact Hused.
    + injection Hr as _ <-.
      exact (lp_insert_effective_load m k default_value m1 Hinv Hins).
  - destruct (Hidx k) as [(r1 & Hr1) | [(r1 & m1 & Hins & Hr1) | (m1 & Hr1)]];
      rewrite Hr1 in Hr; [discriminate | discriminate |].
    injection Hr as <- _. destruct (Hne eq_refl).
  - exact Hused.
  - change (10 * used m' <= 7 * Lp.capacity m' + 10).
    destruct (Hidx k) as [(r1 & Hr1) | [(r1 & m1 & Hins & Hr1) | (m1 & Hr1)]];
      rewrite Hr1 in Hr; [| | discriminate].
    + injection Hr as _ <-. exact Hused.
    + injection Hr as _ <-.
      exact (lp_insert_effective_load m k default_value m1 Hinv Hins).
Qed.

(** The [Occupied] and the [Deleted] slots of a reachable map are at most
    one more than seven tenths of its slots: the load test that opens
    [insert] counts both. *)
Lemma lp_reachable_effective_load catching c m :
  0 < c -> Lp.reachable hash default_key default_value catching c m ->
  10 * used m <= 7 * Lp.capacity m + 10.
Proof.
  intros Hc Hreach. induction Hreach as [m Hnew | m m' Hreach IH Hstep].
  - unfold Lp.new in Hnew.
    destruct (vector_new c (Lp.Entry_default default_key default_value));
      [| discriminate].
    injection Hnew as <-. cbn [Lp.size_count Lp.deleted_count Lp.capacity].
    lia.
  - pose proof (lp_reachable_inv hash default_key default_value catching c m
                  Hc Hreach) as Hinv.
    exact (lp_step_effective_load catching m m' Hinv IH Hstep).
Qed.

(** From capacity 4 on, every lookup in a reachable map ends before it has
    probed all slots: an [Empty] slot is left. *)
Lemma lp_reachable_not_full catching c m k :
  0 < c -> Lp.reachable hash default_key default_value catching c m ->
  (forall j, 0 <= j < Lp.capacity m ->
     exists e, Lp.table m !! Z.to_nat (probe m k j) = Some e /\
               Lp.is_empty e = false) ->
  Lp.capacity m < 4.
Proof.
  intros Hc Hreach Hall.
  destruct (lp_reachable_inv hash default_key default_value catching c m
              Hc Hreach) as [Hwf _].
  pose proof (lp_reachable_effective_load catching c m Hc Hreach) as Hused.
  pose proof (lp_no_empty_count m k Hwf Hall). lia.
Qed.

End LpLoad.
(** ** [ckhashmap.hpp]: what the map holds *)

Section CkLookup.

Context {K V : Type} `{EqDecision K}.
Context {H : Type} (hash : H -> K -> Z).
Context {Rng : Type}.

Local Abbreviation map := (@Ck.map K V H Rng).
Local Abbreviation Entry := (@Ck.Entry K V).
Local Abbreviation pos1 := (Ck.pos1 hash).
Local Abbreviation pos2 := (Ck.pos2 hash).
Local Abbreviation lookup := (Ck.lookup hash).
Local Abbreviation single := (Ck.single hash).
Local Abbreviation carried := (Ck.carried hash).
Local Abbreviation two_slots :=
  (fun (e1 e2 : Entry) (k : K) =>
     if Ck.holds e1 k then Some (Ck.value e1)
     else if Ck.holds e2 k then Some (Ck.value e2) else None).

Implicit Types (m : map) (k : K) (v : V) (e : Entry) (t : list Entry).

Lemma ck_lookup_slots m k :
  Ck.shaped m ->
  exists e1 e2,
    Ck.table1 m !! Z.to_nat (pos1 m k) = Some e1 /\
    Ck.table2 m !! Z.to_nat (pos2 m k) = Some e2 /\
    lookup m k = two_slots e1 e2 k.
Proof.
  intros Hsh.
  destruct (ck_slot1 hash m k Hsh) as (e1 & He1 & _).
  destruct (ck_slot2 hash m k Hsh) as (e2 & He2 & _).
  exists e1, e2. unfold Ck.lookup. rewrite He1, He2. auto.
Qed.

Lemma ck_holds_own e : Ck.occupied e = true -> Ck.holds e (Ck.key e) = true.
Proof. intros Ho. apply ck_holds_intro; [exact Ho | reflexivity]. Qed.

Lemma ck_holds_other e k : k <> Ck.key e -> Ck.holds e k = false.
Proof.
  intros Hne. unfold Ck.holds.
  rewrite bool_decide_eq_false_2 by congruence. apply andb_false_r.
Qed.

Lemma ck_holds_free e k : Ck.occupied e = false -> Ck.holds e k = false.
Proof. intros Ho. unfold Ck.holds. rewrite Ho. reflexivity. Qed.

(** [lookup] looks at the tables, the hashers and the capacity only. *)
Lemma ck_lookup_ext m m' k :
  Ck.capacity m' = Ck.capacity m -> Ck.hasher1 m' = Ck.hasher1 m ->
  Ck.hasher2 m' = Ck.hasher2 m ->
  Ck.table1 m' = Ck.table1 m -> Ck.table2 m' = Ck.table2 m ->
  lookup m' k = lookup m k.
Proof.
  intros Hc Hh1 Hh2 Ht1 Ht2. unfold Ck.lookup, Ck.pos1, Ck.pos2.
  rewrite Hc, Hh1, Hh2, Ht1, Ht2. reflexivity.
Qed.

(** [at] and [contains_key] read [lookup]. *)
Lemma ck_find_lookup m k :
  Ck.shaped m ->
  exists r,
    Ck.find hash m k = Value r /\
    match r with
    | Some r => exists v, lookup m k = Some v /\ Ck.read m r = Value v
    | None => lookup m k = None
    end.
Proof.
  intros Hsh.
  destruct (ck_find_cases hash m k Hsh)
    as (e1 & e2 & He1 & He2 & Hp1 & Hp2 & Hfind).
  eexists. split; [exact Hfind |].
  unfold Ck.lookup. rewrite He1, He2.
  destruct (Ck.holds e1 k).
  - exists (Ck.value e1). split; [reflexivity |]. cbn [Ck.read].
    rewrite (vector_at_lookup (Ck.table1 m) (pos1 m k) e1);
      [reflexivity | exact Hp1 | exact He1].
  - destruct (Ck.holds e2 k); [| reflexivity].
    exists (Ck.value e2). split; [reflexivity |]. cbn [Ck.read].
    rewrite (vector_at_lookup (Ck.table2 m) (pos2 m k) e2);
      [reflexivity | exact Hp2 | exact He2].
Qed.

Lemma ck_at_lookup m k :
  Ck.shaped m ->
  Ck.at_ hash m k
  = match lookup m k with
    | Some v => Value v
    | None => Raise (out_of_range "Key not found in CkHashMap")
    end.
Proof.
  intros Hsh. destruct (ck_find_lookup m k Hsh) as (r & Hfind & Hr).
  unfold Ck.at_, Ck.at_ref. rewrite Hfind. cbn [result_bind].
  destruct r as [r |].
  - destruct Hr as (v & -> & Hread). cbn [result_bind]. exact Hread.
  - rewrite Hr. reflexivity.
Qed.

Lemma ck_contains_lookup m k :
  Ck.shaped m ->
  Ck.contains_key hash m k = Value (bool_decide (is_Some (lookup m k))).
Proof.
  intros Hsh. destruct (ck_find_lookup m k Hsh) as (r & Hfind & Hr).
  unfold Ck.contains_key. rewrite Hfind. cbn [result_bind].
  destruct r as [r |].
  - destruct Hr as (v & -> & _). reflexivity.
  - rewrite Hr. reflexivity.
Qed.

End CkLookup.
Section CkWrite.

Context {K V : Type} `{EqDecision K}.
Context {H : Type} (hash : H -> K -> Z).
Context {Rng : Type}.

Local Abbreviation map := (@Ck.map K V H Rng).
Local Abbreviation Entry := (@Ck.Entry K V).
Local Abbreviation pos1 := (Ck.pos1 hash).
Local Abbreviation pos2 := (Ck.pos2 hash).
Local Abbreviation lookup := (Ck.lookup hash).
Local Abbreviation single := (Ck.single hash).
Local Abbreviation carried := (Ck.carried hash).
Local Abbreviation two_slots :=
  (fun (e1 e2 : Entry) (k : K) =>
     if Ck.holds e1 k then Some (Ck.value e1)
     else if Ck.holds e2 k then Some (Ck.value e2) else None).
Local Abbreviation write1 m p x n :=
  (Ck.set_size_count (Ck.set_table1 m (<[p := x]> (Ck.table1 m))) n).
Local Abbreviation write2 m p x n :=
  (Ck.set_size_count (Ck.set_table2 m (<[p := x]> (Ck.table2 m))) n).

Implicit Types (m : map) (k : K) (v : V) (e x : Entry) (t : list Entry).

Lemma ck_write1_slots m p x n k e1 e2 :
  (p < length (Ck.table1 m))%nat ->
  Ck.table1 m !! Z.to_nat (pos1 m k) = Some e1 ->
  Ck.table2 m !! Z.to_nat (pos2 m k) = Some e2 ->
  lookup (write1 m p x n) k
  = two_slots (if decide (Z.to_nat (pos1 m k) = p) then x else e1) e2 k.
Proof.
  intros Hp He1 He2. unfold Ck.lookup.
  change (pos1 (write1 m p x n)) with (pos1 m).
  change (pos2 (write1 m p x n)) with (pos2 m).
  cbn [Ck.table1 Ck.table2 Ck.set_size_count Ck.set_table1].
  rewrite He2. destruct (decide (Z.to_nat (pos1 m k) = p)) as [-> | Hne].
  - rewrite list_lookup_insert_eq by exact Hp. reflexivity.
  - rewrite list_lookup_insert_ne by congruence. rewrite He1. reflexivity.
Qed.

Lemma ck_write2_slots m p x n k e1 e2 :
  (p < length (Ck.table2 m))%nat ->
  Ck.table1 m !! Z.to_nat (pos1 m k) = Some e1 ->
  Ck.table2 m !! Z.to_nat (pos2 m k) = Some e2 ->
  lookup (write2 m p x n) k
  = two_slots e1 (if decide (Z.to_nat (pos2 m k) = p) then x else e2) k.
Proof.
  intros Hp He1 He2. unfold Ck.lookup.
  change (pos1 (write2 m p x n)) with (pos1 m).
  change (pos2 (write2 m p x n)) with (pos2 m).
  cbn [Ck.table1 Ck.table2 Ck.set_size_count Ck.set_table2].
  rewrite He1. destruct (decide (Z.to_nat (pos2 m k) = p)) as [-> | Hne].
  - rewrite list_lookup_insert_eq by exact Hp. reflexivity.
  - rewrite list_lookup_insert_ne by congruence. rewrite He2. reflexivity.
Qed.

Lemma ck_write1_single m p x n :
  Ck.shaped m -> (p < length (Ck.table1 m))%nat ->
  (forall k e1 e2,
     Ck.table1 m !! Z.to_nat (pos1 m k) = Some e1 ->
     Ck.table2 m !! Z.to_nat (pos2 m k) = Some e2 ->
     Ck.holds (if decide (Z.to_nat (pos1 m k) = p) then x else e1) k = true ->
     Ck.holds e2 k = false) ->
  single (write1 m p x n).
Proof.
  intros Hsh Hp Hall k e1' e2 He1' He2.
  change (pos1 (write1 m p x n)) with (pos1 m) in He1'.
  change (pos2 (write1 m p x n)) with (pos2 m) in He2.
  cbn [Ck.table1 Ck.table2 Ck.set_size_count Ck.set_table1] in He1', He2.
  destruct (ck_slot1 hash m k Hsh) as (e1 & He1 & _).
  specialize (Hall k e1 e2 He1 He2).
  destruct (decide (Z.to_nat (pos1 m k) = p)) as [Heq | Hne].
  - rewrite Heq, list_lookup_insert_eq in He1' by exact Hp.
    injection He1' as <-. exact Hall.
  - rewrite list_lookup_insert_ne in He1' by congruence.
    assert (e1' = e1) as -> by congruence. exact Hall.
Qed.

Lemma ck_write2_single m p x n :
  Ck.shaped m -> (p < length (Ck.table2 m))%nat ->
  (forall k e1 e2,
     Ck.table1 m !! Z.to_nat (pos1 m k) = Some e1 ->
     Ck.table2 m !! Z.to_nat (pos2 m k) = Some e2 ->
     Ck.holds e1 k = true ->
     Ck.holds (if decide (Z.to_nat (pos2 m k) = p) then x else e2) k
     = false) ->
  single (write2 m p x n).
Proof.
  intros Hsh Hp Hall k e1 e2' He1 He2'.
  change (pos1 (write2 m p x n)) with (pos1 m) in He1.
  change (pos2 (write2 m p x n)) with (pos2 m) in He2'.
  cbn [Ck.table1 Ck.table2 Ck.set_size_count Ck.set_table2] in He1, He2'.
  destruct (ck_slot2 hash m k Hsh) as (e2 & He2 & _).
  specialize (Hall k e1 e2 He1 He2).
  destruct (decide (Z.to_nat (pos2 m k) = p)) as [Heq | Hne].
  - rewrite Heq, list_lookup_insert_eq in He2' by exact Hp.
    injection He2' as <-. exact Hall.
  - rewrite list_lookup_insert_ne in He2' by congruence.
    assert (e2' = e2) as -> by congruence. exact Hall.
Qed.

(** A key that [lookup] does not find is in neither of its slots. *)
Lemma ck_lookup_none m k e1 e2 :
  Ck.table1 m !! Z.to_nat (pos1 m k) = Some e1 ->
  Ck.table2 m !! Z.to_nat (pos2 m k) = Some e2 ->
  lookup m k = None -> Ck.holds e1 k = false /\ Ck.holds e2 k = false.
Proof.
  intros He1 He2. unfold Ck.lookup. rewrite He1, He2.
  destruct (Ck.holds e1 k); [discriminate |].
  destruct (Ck.holds e2 k); [discriminate | auto].
Qed.

End CkWrite.
Section CkPut.

Context {K V : Type} `{EqDecision K}.
Context {H : Type} (hash : H -> K -> Z).
Context {Rng : Type}.

Local Abbreviation map := (@Ck.map K V H Rng).
Local Abbreviation Entry := (@Ck.Entry K V).
Local Abbreviation pos1 := (Ck.pos1 hash).
Local Abbreviation pos2 := (Ck.pos2 hash).
Local Abbreviation lookup := (Ck.lookup hash).
Local Abbreviation single := (Ck.single hash).
Local Abbreviation carried := (Ck.carried hash).
Local Abbreviation write1 m p x n :=
  (Ck.set_size_count (Ck.set_table1 m (<[p := x]> (Ck.table1 m))) n).
Local Abbreviation write2 m p x n :=
  (Ck.set_size_count (Ck.set_table2 m (<[p := x]> (Ck.table2 m))) n).

Implicit Types (m : map) (k : K) (v : V) (e x cur : Entry).

Lemma ck_pos_nonneg m k :
  Ck.shaped m -> 0 <= pos1 m k /\ 0 <= pos2 m k.
Proof.
  intros (_ & _ & Hcap). unfold Ck.pos1, Ck.pos2.
  split; apply Z.mod_pos_bound; lia.
Qed.

(** The entry in hand goes into its slot of [table1]. *)
Lemma ck_put1_spec m cur e n :
  Ck.wf hash m -> single m -> Ck.occupied cur = true ->
  lookup m (Ck.key cur) = None ->
  Ck.table1 m !! Z.to_nat (pos1 m (Ck.key cur)) = Some e ->
  let m1 := write1 m (Z.to_nat (pos1 m (Ck.key cur))) cur n in
  single m1 /\
  (Ck.occupied e = false -> forall k, lookup m1 k = carried m cur k) /\
  (Ck.occupied e = true ->
   lookup m1 (Ck.key e) = None /\
   forall k, carried m1 e k = carried m cur k).
Proof.
  intros (Hsh & (Hp1 & Hp2) & _) Hsingle Hcur Habsent He m1.
  set (p := Z.to_nat (pos1 m (Ck.key cur))) in *.
  assert (Hlt : (p < length (Ck.table1 m))%nat)
    by (apply lookup_lt_Some in He; exact He).
  destruct (ck_slot2 hash m (Ck.key cur) Hsh) as (ec & Hec & _).
  destruct (ck_lookup_none hash m (Ck.key cur) e ec He Hec Habsent)
    as [Hne1 Hne2].
  assert (Hlook : forall k,
            lookup m1 k
            = if bool_decide (k = Ck.key cur) then Some (Ck.value cur)
              else if Ck.holds e k then None else lookup m k).
  { intros k. destruct (ck_lookup_slots hash m k Hsh)
      as (e1 & e2 & He1 & He2 & Hl).
    unfold m1. rewrite (ck_write1_slots hash m p cur n k e1 e2 Hlt He1 He2).
    rewrite Hl. case_bool_decide as Hk.
    - subst k. fold p. rewrite decide_True by reflexivity.
      rewrite ck_holds_own by exact Hcur. reflexivity.
    - destruct (decide (Z.to_nat (pos1 m k) = p)) as [Heq | Hneq].
      + rewrite Heq in He1. assert (e1 = e) as -> by congruence.
        rewrite (ck_holds_other cur k Hk).
        destruct (Ck.holds e k) eqn:Hh; [| reflexivity].
        rewrite (Hsingle k e e2); [reflexivity | | exact He2 | exact Hh].
        rewrite Heq. exact He.
      + destruct (Ck.holds e k) eqn:Hh; [| reflexivity].
        exfalso. apply ck_holds_inv in Hh as [Ho Hkey].
        pose proof (Hp1 p e He Ho) as Hpos. rewrite Hkey in Hpos.
        apply Hneq. lia. }
  split; [| split].
  - apply ck_write1_single; [exact Hsh | exact Hlt |].
    intros k e1 e2 He1 He2 Hh.
    destruct (decide (Z.to_nat (pos1 m k) = p)) as [Heq | Hneq].
    + apply ck_holds_inv in Hh as [_ <-].
      assert (e2 = ec) as -> by congruence. exact Hne2.
    + exact (Hsingle k e1 e2 He1 He2 Hh).
  - intros Hfree k. rewrite Hlook. unfold Ck.carried.
    rewrite (ck_holds_free e k Hfree). reflexivity.
  - intros Hbusy. split.
    + rewrite Hlook. rewrite (ck_holds_own e Hbusy).
      rewrite bool_decide_eq_false_2; [reflexivity |].
      intros Hk. rewrite <- Hk in Hne1.
      rewrite (ck_holds_own e Hbusy) in Hne1. discriminate.
    + intros k. unfold Ck.carried. rewrite Hlook.
      case_bool_decide as Hke.
      * subst k. rewrite bool_decide_eq_false_2.
        -- destruct (ck_lookup_slots hash m (Ck.key e) Hsh)
             as (e1 & e2 & He1 & He2 & ->).
           pose proof (Hp1 p e He Hbusy) as Hpos.
           replace (Z.to_nat (pos1 m (Ck.key e))) with p in He1 by lia.
           assert (e1 = e) as -> by congruence.
           rewrite (ck_holds_own e Hbusy). reflexivity.
        -- intros Hk. rewrite <- Hk in Hne1.
           rewrite (ck_holds_own e Hbusy) in Hne1. discriminate.
      * rewrite (ck_holds_other e k Hke). reflexivity.
Qed.

(** The entry in hand goes into its slot of [table2]. *)
Lemma ck_put2_spec m cur e n :
  Ck.wf hash m -> single m -> Ck.occupied cur = true ->
  lookup m (Ck.key cur) = None ->
  Ck.table2 m !! Z.to_nat (pos2 m (Ck.key cur)) = Some e ->
  let m1 := write2 m (Z.to_nat (pos2 m (Ck.key cur))) cur n in
  single m1 /\
  (Ck.occupied e = false -> forall k, lookup m1 k = carried m cur k) /\
  (Ck.occupied e = true ->
   lookup m1 (Ck.key e) = None /\
   forall k, carried m1 e k = carried m cur k).
Proof.
  intros (Hsh & (Hp1 & Hp2) & _) Hsingle Hcur Habsent He m1.
  set (p := Z.to_nat (pos2 m (Ck.key cur))) in *.
  assert (Hlt : (p < length (Ck.table2 m))%nat)
    by (apply lookup_lt_Some in He; exact He).
  destruct (ck_slot1 hash m (Ck.key cur) Hsh) as (ec & Hec & _).
  destruct (ck_lookup_none hash m (Ck.key cur) ec e Hec He Habsent)
    as [Hne1 Hne2].
  assert (Hlook : forall k,
            lookup m1 k
            = if bool_decide (k = Ck.key cur) then Some (Ck.value cur)
              else if Ck.holds e k then None else lookup m k).
  { intros k. destruct (ck_lookup_slots hash m k Hsh)
      as (e1 & e2 & He1 & He2 & Hl).
    unfold m1. rewrite (ck_write2_slots hash m p cur n k e1 e2 Hlt He1 He2).
    rewrite Hl. case_bool_decide as Hk.
    - subst k. fold p. rewrite decide_True by reflexivity.
      assert (e1 = ec) as -> by congruence. rewrite Hne1.
      rewrite ck_holds_own by exact Hcur. reflexivity.
    - destruct (decide (Z.to_nat (pos2 m k) = p)) as [Heq | Hneq].
      + rewrite Heq in He2. assert (e2 = e) as -> by congruence.
        rewrite (ck_holds_other cur k Hk).
        destruct (Ck.holds e k) eqn:Hh.
        * destruct (Ck.holds e1 k) eqn:Hh1; [| reflexivity].
          rewrite (Hsingle k e1 e He1) in Hh; [discriminate | | exact Hh1].
          rewrite Heq. exact He.
        * reflexivity.
      + destruct (Ck.holds e k) eqn:Hh; [| reflexivity].
        exfalso. apply ck_holds_inv in Hh as [Ho Hkey].
        pose proof (Hp2 p e He Ho) as Hpos. rewrite Hkey in Hpos.
        apply Hneq. lia. }
  split; [| split].
  - apply ck_write2_single; [exact Hsh | exact Hlt |].
    intros k e1 e2 He1 He2 Hh.
    destruct (decide (Z.to_nat (pos2 m k) = p)) as [Heq | Hneq].
    + apply ck_holds_other. intros ->.
      assert (e1 = ec) as -> by congruence. congruence.
    + exact (Hsingle k e1 e2 He1 He2 Hh).
  - intros Hfree k. rewrite Hlook. unfold Ck.carried.
    rewrite (ck_holds_free e k Hfree). reflexivity.
  - intros Hbusy. split.
    + rewrite Hlook. rewrite (ck_holds_own e Hbusy).
      rewrite bool_decide_eq_false_2; [reflexivity |].
      intros Hk. rewrite <- Hk in Hne2.
      rewrite (ck_holds_own e Hbusy) in Hne2. discriminate.
    + intros k. unfold Ck.carried. rewrite Hlook.
      case_bool_decide as Hke.
      * subst k. rewrite bool_decide_eq_false_2.
        -- destruct (ck_lookup_slots hash m (Ck.key e) Hsh)
             as (e1 & e2 & He1 & He2 & ->).
           pose proof (Hp2 p e He Hbusy) as Hpos.
           pose proof He2 as He2'.
           replace (Z.to_nat (pos2 m (Ck.key e))) with p in He2 by lia.
           assert (e2 = e) as -> by congruence.
           rewrite (ck_holds_own e Hbusy).
           destruct (Ck.holds e1 (Ck.key e)) eqn:Hh1; [| reflexivity].
           pose proof (Hsingle (Ck.key e) e1 e He1 He2' Hh1) as Hc.
           rewrite (ck_holds_own e Hbusy) in Hc. discriminate.
        -- intros Hk. rewrite <- Hk in Hne2.
           rewrite (ck_holds_own e Hbusy) in Hne2. discriminate.
      * rewrite (ck_holds_other e k Hke). reflexivity.
Qed.

End CkPut.
Section CkEvict.

Context {K V : Type} `{EqDecision K}.
Context {H : Type} (hash : H -> K -> Z).
Context {Rng : Type}.

Local Abbreviation map := (@Ck.map K V H Rng).
Local Abbreviation Entry := (@Ck.Entry K V).
Local Abbreviation pos1 := (Ck.pos1 hash).
Local Abbreviation pos2 := (Ck.pos2 hash).
Local Abbreviation lookup := (Ck.lookup hash).
Local Abbreviation single := (Ck.single hash).
Local Abbreviation carried := (Ck.carried hash).
Local Abbreviation write1 m p x n :=
  (Ck.set_size_count (Ck.set_table1 m (<[p := x]> (Ck.table1 m))) n).
Local Abbreviation write2 m p x n :=
  (Ck.set_size_count (Ck.set_table2 m (<[p := x]> (Ck.table2 m))) n).

Implicit Types (m : map) (k : K) (v : V) (e x cur : Entry).

(** The eviction walk always ends.  It keeps the entries of the tables and
    the entry in hand: when it places the entry in hand, the map holds them
    all; when it gives up, the map holds them all but the entry then in
    hand. *)
Lemma ck_evict_spec n :
  forall cur use_table1 m,
    Ck.wf hash m -> single m -> Ck.occupied cur = true ->
    lookup m (Ck.key cur) = None ->
    exists placed m',
      Ck.evict hash n cur use_table1 m = Returns placed m' /\
      Ck.wf hash m' /\ single m' /\ Ck.same_frame m m' /\
      Ck.size_count m' = Ck.size_count m + Z.b2z placed /\
      (placed = true -> forall k, lookup m' k = carried m cur k) /\
      (placed = false ->
       exists last,
         Ck.occupied last = true /\ lookup m' (Ck.key last) = None /\
         forall k, carried m' last k = carried m cur k).
Proof.
  induction n as [| n IH]; intros cur use_table1 m Hwf Hsingle Hcur Habsent;
    cbn [Ck.evict].
  { exists false, m. split; [reflexivity |]. split; [exact Hwf |].
    split; [exact Hsingle |]. split; [apply ck_same_frame_refl |].
    split; [cbn; lia |]. split; [discriminate |].
    intros _. exists cur. auto. }
  pose proof Hwf as (Hsh & _ & _).
  destruct use_table1.
  - rewrite (proj1 (ck_get_hash1 hash m (Ck.key cur) Hsh)).
    destruct (ck_slot1 hash m (Ck.key cur) Hsh) as (e & He & Hat).
    cbn [on outcome_bind]. rewrite Hat. cbn [on outcome_bind].
    destruct (ck_put1 hash m cur e Hwf Hcur He) as [Hfree Hbusy].
    destruct (Ck.occupied e) eqn:Hocc; cbn [negb].
    + destruct (Hbusy eq_refl) as [Hwf1 _].
      destruct (ck_put1_spec hash m cur e (Ck.size_count m) Hwf Hsingle
                  Hcur Habsent He) as (Hs1 & _ & Hb1).
      destruct (Hb1 Hocc) as [Habs1 Hcar1].
      destruct (IH e false _ Hwf1 Hs1 Hocc Habs1)
        as (placed & m' & Hev & Hwf' & Hs' & Hfr' & Hsize' & Hyes & Hno).
      exists placed, m'. split; [exact Hev |]. split; [exact Hwf' |].
      split; [exact Hs' |]. split; [exact Hfr' |]. split; [exact Hsize' |].
      split.
      * intros Hp k. rewrite (Hyes Hp k). apply Hcar1.
      * intros Hp. destruct (Hno Hp) as (last & Hl1 & Hl2 & Hl3).
        exists last. split; [exact Hl1 |]. split; [exact Hl2 |].
        intros k. rewrite (Hl3 k). apply Hcar1.
    + rewrite (ck_size_add hash m Hwf).
      destruct (Hfree eq_refl) as [Hwf1 _].
      destruct (ck_put1_spec hash m cur e (Ck.size_count m + 1) Hwf Hsingle
                  Hcur Habsent He) as (Hs1 & Hf1 & _).
      eexists true, _. split; [reflexivity |]. split; [exact Hwf1 |].
      split; [exact Hs1 |]. split; [repeat split |].
      split; [reflexivity |]. split; [intros _; exact (Hf1 Hocc) |].
      discriminate.
  - rewrite (proj1 (ck_get_hash2 hash m (Ck.key cur) Hsh)).
    destruct (ck_slot2 hash m (Ck.key cur) Hsh) as (e & He & Hat).
    cbn [on outcome_bind]. rewrite Hat. cbn [on outcome_bind].
    destruct (ck_put2 hash m cur e Hwf Hcur He) as [Hfree Hbusy].
    destruct (Ck.occupied e) eqn:Hocc; cbn [negb].
    + destruct (Hbusy eq_refl) as [Hwf1 _].
      destruct (ck_put2_spec hash m cur e (Ck.size_count m) Hwf Hsingle
                  Hcur Habsent He) as (Hs1 & _ & Hb1).
      destruct (Hb1 Hocc) as [Habs1 Hcar1].
      destruct (IH e true _ Hwf1 Hs1 Hocc Habs1)
        as (placed & m' & Hev & Hwf' & Hs' & Hfr' & Hsize' & Hyes & Hno).
      exists placed, m'. split; [exact Hev |]. split; [exact Hwf' |].
      split; [exact Hs' |]. split; [exact Hfr' |]. split; [exact Hsize' |].
      split.
      * intros Hp k. rewrite (Hyes Hp k). apply Hcar1.
      * intros Hp. destruct (Hno Hp) as (last & Hl1 & Hl2 & Hl3).
        exists last. split; [exact Hl1 |]. split; [exact Hl2 |].
        intros k. rewrite (Hl3 k). apply Hcar1.
    + rewrite (ck_size_add hash m Hwf).
      destruct (Hfree eq_refl) as [Hwf1 _].
      destruct (ck_put2_spec hash m cur e (Ck.size_count m + 1) Hwf Hsingle
                  Hcur Habsent He) as (Hs1 & Hf1 & _).
      eexists true, _. split; [reflexivity |]. split; [exact Hwf1 |].
      split; [exact Hs1 |]. split; [repeat split |].
      split; [reflexivity |]. split; [intros _; exact (Hf1 Hocc) |].
      discriminate.
Qed.

End CkEvict.
Section CkInnerInsert.

Context {K V : Type} `{EqDecision K}.
Context {H : Type} (hash : H -> K -> Z).
Context {Rng : Type}.

Local Abbreviation map := (@Ck.map K V H Rng).
Local Abbreviation Entry := (@Ck.Entry K V).
Local Abbreviation pos1 := (Ck.pos1 hash).
Local Abbreviation pos2 := (Ck.pos2 hash).
Local Abbreviation lookup := (Ck.lookup hash).
Local Abbreviation single := (Ck.single hash).
Local Abbreviation carried := (Ck.carried hash).
Local Abbreviation write1 m p x n :=
  (Ck.set_size_count (Ck.set_table1 m (<[p := x]> (Ck.table1 m))) n).
Local Abbreviation write2 m p x n :=
  (Ck.set_size_count (Ck.set_table2 m (<[p := x]> (Ck.table2 m))) n).
Local Abbreviation updated k v m :=
  (fun k' : K => if bool_decide (k' = k) then Some v else lookup m k').

Implicit Types (m : map) (k : K) (v : V) (e x cur : Entry).

Lemma ck_holds_with_value v e k :
  Ck.holds (Ck.with_value v e) k = Ck.holds e k.
Proof. reflexivity. Qed.

(** Overwriting the value of the key in its slot of [table1]. *)
Lemma ck_update1_spec m k v e1 :
  Ck.shaped m -> single m ->
  Ck.table1 m !! Z.to_nat (pos1 m k) = Some e1 -> Ck.holds e1 k = true ->
  let m1 := Ck.set_table1 m
              (alter (Ck.with_value v) (Z.to_nat (pos1 m k)) (Ck.table1 m)) in
  single m1 /\ forall k', lookup m1 k' = updated k v m k'.
Proof.
  intros Hsh Hsingle He1 Hh m1. subst m1.
  rewrite (list_alter_insert_at _ _ _ _ He1).
  set (p := Z.to_nat (pos1 m k)) in *.
  change (Ck.set_table1 m (<[p := Ck.with_value v e1]> (Ck.table1 m)))
    with (write1 m p (Ck.with_value v e1) (Ck.size_count m)).
  assert (Hlt : (p < length (Ck.table1 m))%nat)
    by (apply lookup_lt_Some in He1; exact He1).
  destruct (ck_holds_inv e1 k Hh) as [Ho Hkey].
  split.
  - apply ck_write1_single; [exact Hsh | exact Hlt |].
    intros k' e1' e2 He1' He2 Hh'. apply (Hsingle k' e1' e2 He1' He2).
    destruct (decide (Z.to_nat (pos1 m k') = p)) as [Heq | Hne];
      [| exact Hh'].
    rewrite Heq in He1'. assert (e1' = e1) as -> by congruence. exact Hh'.
  - intros k'. destruct (ck_lookup_slots hash m k' Hsh)
      as (e1' & e2 & He1' & He2 & Hl).
    rewrite (ck_write1_slots hash m p _ _ k' e1' e2 Hlt He1' He2), Hl.
    case_bool_decide as Hk.
    + subst k'. fold p. rewrite decide_True by reflexivity.
      rewrite ck_holds_with_value, Hh. reflexivity.
    + destruct (decide (Z.to_nat (pos1 m k') = p)) as [Heq | Hne];
        [| reflexivity].
      rewrite Heq in He1'. assert (e1' = e1) as -> by congruence.
      rewrite ck_holds_with_value. rewrite (ck_holds_other e1 k');
        [reflexivity | congruence].
Qed.

(** Overwriting the value of the key in its slot of [table2]. *)
Lemma ck_update2_spec m k v e1 e2 :
  Ck.shaped m -> single m ->
  Ck.table1 m !! Z.to_nat (pos1 m k) = Some e1 -> Ck.holds e1 k = false ->
  Ck.table2 m !! Z.to_nat (pos2 m k) = Some e2 -> Ck.holds e2 k = true ->
  let m1 := Ck.set_table2 m
              (alter (Ck.with_value v) (Z.to_nat (pos2 m k)) (Ck.table2 m)) in
  single m1 /\ forall k', lookup m1 k' = updated k v m k'.
Proof.
  intros Hsh Hsingle He1 Hh1 He2 Hh m1. subst m1.
  rewrite (list_alter_insert_at _ _ _ _ He2).
  set (p := Z.to_nat (pos2 m k)) in *.
  change (Ck.set_table2 m (<[p := Ck.with_value v e2]> (Ck.table2 m)))
    with (write2 m p (Ck.with_value v e2) (Ck.size_count m)).
  assert (Hlt : (p < length (Ck.table2 m))%nat)
    by (apply lookup_lt_Some in He2; exact He2).
  destruct (ck_holds_inv e2 k Hh) as [Ho Hkey].
  split.
  - apply ck_write2_single; [exact Hsh | exact Hlt |].
    intros k' e1' e2' He1' He2' Hh'.
    pose proof (Hsingle k' e1' e2' He1' He2' Hh') as Hs.
    destruct (decide (Z.to_nat (pos2 m k') = p)) as [Heq | Hne];
      [| exact Hs].
    rewrite Heq in He2'. assert (e2' = e2) as -> by congruence. exact Hs.
  - intros k'. destruct (ck_lookup_slots hash m k' Hsh)
      as (e1' & e2' & He1' & He2' & Hl).
    rewrite (ck_write2_slots hash m p _ _ k' e1' e2' Hlt He1' He2'), Hl.
    case_bool_decide as Hk.
    + subst k'. fold p. rewrite decide_True by reflexivity.
      assert (e1' = e1) as -> by congruence.
      rewrite Hh1, ck_holds_with_value, Hh. reflexivity.
    + destruct (decide (Z.to_nat (pos2 m k') = p)) as [Heq | Hne];
        [| reflexivity].
      rewrite Heq in He2'. assert (e2' = e2) as -> by congruence.
      rewrite ck_holds_with_value. rewrite (ck_holds_other e2 k');
        [reflexivity | congruence].
Qed.

(** [inner_insert] always returns.  When it returns [true] the key holds
    the value and every other key holds what it held; when it returns
    [false] the map holds all that but the entry that the walk had in hand
    when it gave up. *)
Lemma ck_inner_insert_spec m k v :
  Ck.wf hash m -> single m ->
  exists placed m',
    Ck.inner_insert hash k v m = Returns placed m' /\
    Ck.wf hash m' /\ single m' /\ Ck.same_frame m m' /\
    (placed = true ->
     Ck.size_count m'
     = Ck.size_count m + match lookup m k with Some _ => 0 | None => 1 end /\
     forall k', lookup m' k' = updated k v m k') /\
    (placed = false ->
     lookup m k = None /\ Ck.size_count m' = Ck.size_count m /\
     exists last,
       Ck.occupied last = true /\ lookup m' (Ck.key last) = None /\
       forall k', carried m' last k' = updated k v m k').
Proof.
  intros Hwf Hsingle. pose proof Hwf as (Hsh & _ & _).
  destruct (ck_pos_nonneg hash m k Hsh) as [Hn1 Hn2].
  destruct (ck_get_hash1 hash m k Hsh) as [Hg1 _].
  destruct (ck_get_hash2 hash m k Hsh) as [Hg2 _].
  destruct (ck_slot1 hash m k Hsh) as (e1 & He1 & Hat1).
  destruct (ck_slot2 hash m k Hsh) as (e2 & He2 & Hat2).
  unfold Ck.inner_insert. rewrite Hg1. cbn [on outcome_bind].
  rewrite Hg2. cbn [on outcome_bind]. rewrite Hat1. cbn [on outcome_bind].
  assert (Hl : lookup m k
               = if Ck.holds e1 k then Some (Ck.value e1)
                 else if Ck.holds e2 k then Some (Ck.value e2) else None)
    by (unfold Ck.lookup; rewrite He1, He2; reflexivity).
  destruct (Ck.holds e1 k) eqn:Hh1.
  { destruct (ck_update1_spec m k v e1 Hsh Hsingle He1 Hh1) as [Hs' Hl'].
    eexists true, _. split; [reflexivity |].
    split; [exact (ck_assign_wf hash m (Ck.In1 (pos1 m k)) v Hwf) |].
    split; [exact Hs' |]. split; [repeat split |].
    split; [| discriminate]. intros _. rewrite Hl.
    split; [cbn; lia | exact Hl']. }
  rewrite Hat2. cbn [on outcome_bind].
  destruct (Ck.holds e2 k) eqn:Hh2.
  { destruct (ck_update2_spec m k v e1 e2 Hsh Hsingle He1 Hh1 He2 Hh2)
      as [Hs' Hl'].
    eexists true, _. split; [reflexivity |].
    split; [exact (ck_assign_wf hash m (Ck.In2 (pos2 m k)) v Hwf) |].
    split; [exact Hs' |]. split; [repeat split |].
    split; [| discriminate]. intros _. rewrite Hl.
    split; [cbn; lia | exact Hl']. }
  set (cur := Ck.Entry_new k v).
  assert (Hcur : Ck.occupied cur = true) by reflexivity.
  assert (Hcar : forall m0 k', carried m0 cur k'
                 = if bool_decide (k' = k) then Some v else lookup m0 k')
    by reflexivity.
  destruct (Ck.occupied e1) eqn:Ho1; cbn [negb].
  2:{ rewrite (ck_size_add hash m Hwf).
      destruct (ck_put1 hash m cur e1 Hwf Hcur He1) as [Hfree _].
      destruct (Hfree Ho1) as [Hwf1 _].
      destruct (ck_put1_spec hash m cur e1 (Ck.size_count m + 1) Hwf Hsingle
                  Hcur Hl He1) as (Hs1 & Hf1 & _).
      eexists true, _. split; [reflexivity |]. split; [exact Hwf1 |].
      split; [exact Hs1 |]. split; [repeat split |].
      split; [| discriminate]. intros _. rewrite Hl.
      split; [reflexivity |]. intros k'. rewrite <- Hcar.
      exact (Hf1 Ho1 k'). }
  destruct (Ck.occupied e2) eqn:Ho2; cbn [negb].
  2:{ rewrite (ck_size_add hash m Hwf).
      destruct (ck_put2 hash m cur e2 Hwf Hcur He2) as [Hfree _].
      destruct (Hfree Ho2) as [Hwf1 _].
      destruct (ck_put2_spec hash m cur e2 (Ck.size_count m + 1) Hwf Hsingle
                  Hcur Hl He2) as (Hs1 & Hf1 & _).
      eexists true, _. split; [reflexivity |]. split; [exact Hwf1 |].
      split; [exact Hs1 |]. split; [repeat split |].
      split; [| discriminate]. intros _. rewrite Hl.
      split; [reflexivity |]. intros k'. rewrite <- Hcar.
      exact (Hf1 Ho2 k'). }
  destruct (ck_evict_spec hash (Z.to_nat (Ck.capacity m)) cur true m Hwf
              Hsingle Hcur Hl)
    as (placed & m' & Hev & Hwf' & Hs' & Hfr' & Hsize' & Hyes & Hno).
  exists placed, m'. split; [exact Hev |]. split; [exact Hwf' |].
  split; [exact Hs' |]. split; [exact Hfr' |]. rewrite Hl. split.
  - intros ->. split; [exact Hsize' |]. intros k'. rewrite <- Hcar.
    exact (Hyes eq_refl k').
  - intros ->. split; [reflexivity |]. split; [cbn in Hsize'; lia |].
    destruct (Hno eq_refl) as (last & Hl1 & Hl2 & Hl3).
    exists last. split; [exact Hl1 |]. split; [exact Hl2 |].
    intros k'. rewrite <- Hcar. exact (Hl3 k').
Qed.

End CkInnerInsert.

Section CkRemove.

Context {K V : Type} `{EqDecision K}.
Context {H : Type} (hash : H -> K -> Z).
Context {Rng : Type}.

Local Abbreviation map := (@Ck.map K V H Rng).
Local Abbreviation Entry := (@Ck.Entry K V).
Local Abbreviation pos1 := (Ck.pos1 hash).
Local Abbreviation pos2 := (Ck.pos2 hash).
Local Abbreviation lookup := (Ck.lookup hash).
Local Abbreviation single := (Ck.single hash).
Local Abbreviation write1 m p x n :=
  (Ck.set_size_count (Ck.set_table1 m (<[p := x]> (Ck.table1 m))) n).
Local Abbreviation write2 m p x n :=
  (Ck.set_size_count (Ck.set_table2 m (<[p := x]> (Ck.table2 m))) n).
Local Abbreviation without k m :=
  (fun k' : K => if bool_decide (k' = k) then None else lookup m k').
Local Abbreviation updated k v m :=
  (fun k' : K => if bool_decide (k' = k) then Some v else lookup m k').

Implicit Types (m : map) (k : K) (v : V) (e x : Entry).

Lemma ck_holds_vacate e k : Ck.holds (Ck.vacate e) k = false.
Proof. reflexivity. Qed.

(** Emptying the slot of the key in [table1]. *)
Lemma ck_vacate1_spec m k e1 n :
  Ck.shaped m -> single m ->
  Ck.table1 m !! Z.to_nat (pos1 m k) = Some e1 -> Ck.holds e1 k = true ->
  let m1 := Ck.set_size_count
              (Ck.set_table1 m
                 (alter Ck.vacate (Z.to_nat (pos1 m k)) (Ck.table1 m))) n in
  single m1 /\ forall k', lookup m1 k' = without k m k'.
Proof.
  intros Hsh Hsingle He1 Hh m1. subst m1.
  rewrite (list_alter_insert_at _ _ _ _ He1).
  set (p := Z.to_nat (pos1 m k)) in *.
  assert (Hlt : (p < length (Ck.table1 m))%nat)
    by (apply lookup_lt_Some in He1; exact He1).
  destruct (ck_holds_inv e1 k Hh) as [Ho Hkey].
  split.
  - apply ck_write1_single; [exact Hsh | exact Hlt |].
    intros k' e1' e2 He1' He2 Hh'.
    destruct (decide (Z.to_nat (pos1 m k') = p)) as [Heq | Hne];
      [discriminate | exact (Hsingle k' e1' e2 He1' He2 Hh')].
  - intros k'. destruct (ck_lookup_slots hash m k' Hsh)
      as (e1' & e2 & He1' & He2 & Hl).
    rewrite (ck_write1_slots hash m p _ _ k' e1' e2 Hlt He1' He2), Hl.
    case_bool_decide as Hk.
    + subst k'. fold p. rewrite decide_True by reflexivity.
      fold p in He1'. assert (e1' = e1) as -> by congruence.
      rewrite ck_holds_vacate.
      rewrite (Hsingle k e1 e2 He1 He2 Hh). reflexivity.
    + destruct (decide (Z.to_nat (pos1 m k') = p)) as [Heq | Hne];
        [| reflexivity].
      rewrite Heq in He1'. assert (e1' = e1) as -> by congruence.
      rewrite ck_holds_vacate. rewrite (ck_holds_other e1 k');
        [reflexivity | congruence].
Qed.

(** Emptying the slot of the key in [table2]. *)
Lemma ck_vacate2_spec m k e1 e2 n :
  Ck.shaped m -> single m ->
  Ck.table1 m !! Z.to_nat (pos1 m k) = Some e1 -> Ck.holds e1 k = false ->
  Ck.table2 m !! Z.to_nat (pos2 m k) = Some e2 -> Ck.holds e2 k = true ->
  let m1 := Ck.set_size_count
              (Ck.set_table2 m
                 (alter Ck.vacate (Z.to_nat (pos2 m k)) (Ck.table2 m))) n in
  single m1 /\ forall k', lookup m1 k' = without k m k'.
Proof.
  intros Hsh Hsingle He1 Hh1 He2 Hh m1. subst m1.
  rewrite (list_alter_insert_at _ _ _ _ He2).
  set (p := Z.to_nat (pos2 m k)) in *.
  assert (Hlt : (p < length (Ck.table2 m))%nat)
    by (apply lookup_lt_Some in He2; exact He2).
  destruct (ck_holds_inv e2 k Hh) as [Ho Hkey].
  split.
  - apply ck_write2_single; [exact Hsh | exact Hlt |].
    intros k' e1' e2' He1' He2' Hh'.
    destruct (decide (Z.to_nat (pos2 m k') = p)) as [Heq | Hne];
      [reflexivity | exact (Hsingle k' e1' e2' He1' He2' Hh')].
  - intros k'. destruct (ck_lookup_slots hash m k' Hsh)
      as (e1' & e2' & He1' & He2' & Hl).
    rewrite (ck_write2_slots hash m p _ _ k' e1' e2' Hlt He1' He2'), Hl.
    case_bool_decide as Hk.
    + subst k'. fold p. rewrite decide_True by reflexivity.
      assert (e1' = e1) as -> by congruence.
      rewrite Hh1, ck_holds_vacate. reflexivity.
    + destruct (decide (Z.to_nat (pos2 m k') = p)) as [Heq | Hne];
        [| reflexivity].
      rewrite Heq in He2'. assert (e2' = e2) as -> by congruence.
      rewrite ck_holds_vacate. rewrite (ck_holds_other e2 k');
        [reflexivity | congruence].
Qed.

(** [remove] always returns, with what the map held for the key, and the
    key is in neither table afterwards. *)
Lemma ck_remove_spec m k :
  Ck.inv hash m -> single m ->
  exists r m',
    Ck.remove hash k m = Returns r m' /\ r = lookup m k /\
    Ck.inv hash m' /\ single m' /\ Ck.same_frame m m' /\
    (forall k', lookup m' k' = without k m k') /\
    Ck.size_count m'
    = Ck.size_count m - match r with Some _ => 1 | None => 0 end /\
    (r = None -> m' = m).
Proof.
  intros Hinv Hsingle. pose proof Hinv as [Hwf Hload].
  pose proof Hwf as (Hsh & _ & Hsize).
  pose proof Hsh as (Hl1 & Hl2 & Hcap).
  destruct (ck_find_cases hash m k Hsh)
    as (e1 & e2 & He1 & He2 & Hr1 & Hr2 & Hfind).
  assert (Hl : lookup m k
               = if Ck.holds e1 k then Some (Ck.value e1)
                 else if Ck.holds e2 k then Some (Ck.value e2) else None)
    by (unfold Ck.lookup; rewrite He1, He2; reflexivity).
  pose proof (ck_count_range (Ck.table1 m)) as Hc1.
  pose proof (ck_count_range (Ck.table2 m)) as Hc2.
  unfold Ck.remove. rewrite Hfind. cbn [on outcome_bind].
  destruct (Ck.holds e1 k) eqn:Hh1; [| destruct (Ck.holds e2 k) eqn:Hh2].
  - rewrite (vector_at_lookup _ _ _ Hr1 He1). cbn [on outcome_bind].
    destruct (ck_holds_inv e1 k Hh1) as [Ho1 _].
    pose proof (ck_count_pos _ _ _ He1 Ho1) as Hpos.
    destruct (ck_vacate1_spec m k e1 (U64.sub (Ck.size_count m) 1) Hsh
                Hsingle He1 Hh1) as [Hs' Hl'].
    eexists _, _. split; [reflexivity |]. split; [symmetry; exact Hl |].
    split; [exact (ck_vacate_wf1 hash m _ e1 Hinv He1 Ho1) |].
    split; [exact Hs' |]. split; [repeat split |].
    split; [exact Hl' |]. split; [| discriminate].
    cbn [Ck.size_count Ck.set_size_count]. apply u64_sub_small.
    + lia.
    + unfold U64.modulus, U64.vector_max_size in *. lia.
  - rewrite (vector_at_lookup _ _ _ Hr2 He2). cbn [on outcome_bind].
    destruct (ck_holds_inv e2 k Hh2) as [Ho2 _].
    pose proof (ck_count_pos _ _ _ He2 Ho2) as Hpos.
    destruct (ck_vacate2_spec m k e1 e2 (U64.sub (Ck.size_count m) 1) Hsh
                Hsingle He1 Hh1 He2 Hh2) as [Hs' Hl'].
    eexists _, _. split; [reflexivity |]. split; [symmetry; exact Hl |].
    split; [exact (ck_vacate_wf2 hash m _ e2 Hinv He2 Ho2) |].
    split; [exact Hs' |]. split; [repeat split |].
    split; [exact Hl' |]. split; [| discriminate].
    cbn [Ck.size_count Ck.set_size_count]. apply u64_sub_small.
    + lia.
    + unfold U64.modulus, U64.vector_max_size in *. lia.
  - exists None, m. split; [reflexivity |]. split; [symmetry; exact Hl |].
    split; [exact Hinv |]. split; [exact Hsingle |].
    split; [repeat split |]. split; [| split; [lia | reflexivity]].
    intros k'. case_bool_decide as Hk; [subst k'; exact Hl | reflexivity].
Qed.

(** [clear] leaves no key in either table. *)
Lemma ck_clear_spec m k :
  Ck.shaped m ->
  single (Ck.clear m) /\ lookup (Ck.clear m) k = None /\
  Ck.same_frame m (Ck.clear m) /\ Ck.size_count (Ck.clear m) = 0.
Proof.
  intros Hsh.
  assert (Hfree : forall i e,
            List.map Ck.vacate (Ck.table1 m) !! i = Some e ->
            forall k', Ck.holds e k' = false).
  { intros i e He k'. change (List.map Ck.vacate (Ck.table1 m))
      with (Ck.vacate <$> Ck.table1 m) in He.
    rewrite list_lookup_fmap in He.
    destruct (Ck.table1 m !! i); [| discriminate].
    injection He as <-. reflexivity. }
  assert (Hfree2 : forall i e,
            List.map Ck.vacate (Ck.table2 m) !! i = Some e ->
            forall k', Ck.holds e k' = false).
  { intros i e He k'. change (List.map Ck.vacate (Ck.table2 m))
      with (Ck.vacate <$> Ck.table2 m) in He.
    rewrite list_lookup_fmap in He.
    destruct (Ck.table2 m !! i); [| discriminate].
    injection He as <-. reflexivity. }
  split; [| split; [| split; [repeat split | reflexivity]]].
  - intros k' e1 e2 He1 _ Hh. cbn [Ck.clear Ck.table1] in He1.
    rewrite (Hfree _ _ He1 k') in Hh. discriminate.
  - unfold Ck.lookup. cbn [Ck.clear Ck.table1 Ck.table2].
    destruct (List.map Ck.vacate (Ck.table1 m) !! _) as [e1 |] eqn:He1;
      [| reflexivity].
    rewrite (Hfree _ _ He1 k).
    destruct (List.map Ck.vacate (Ck.table2 m) !! _) as [e2 |] eqn:He2;
      [| reflexivity].
    rewrite (Hfree2 _ _ He2 k). reflexivity.
Qed.

(** The reference that [at] returns points at the slot that holds the
    key. *)
Lemma ck_at_ref_cases m k r :
  Ck.shaped m -> Ck.at_ref hash m k = Value r ->
  exists e1 e2,
    Ck.table1 m !! Z.to_nat (pos1 m k) = Some e1 /\
    Ck.table2 m !! Z.to_nat (pos2 m k) = Some e2 /\
    ((r = Ck.In1 (pos1 m k) /\ Ck.holds e1 k = true) \/
     (r = Ck.In2 (pos2 m k) /\ Ck.holds e1 k = false /\
      Ck.holds e2 k = true)).
Proof.
  intros Hsh Href.
  destruct (ck_find_cases hash m k Hsh)
    as (e1 & e2 & He1 & He2 & _ & _ & Hfind).
  exists e1, e2. split; [exact He1 |]. split; [exact He2 |].
  unfold Ck.at_ref in Href. rewrite Hfind in Href. cbn [result_bind] in Href.
  destruct (Ck.holds e1 k); [left | destruct (Ck.holds e2 k); [right |]].
  - injection Href as <-. auto.
  - injection Href as <-. auto.
  - discriminate.
Qed.

(** Assigning through the reference that [at] returned. *)
Lemma ck_assign_spec m k r v :
  Ck.shaped m -> single m -> Ck.at_ref hash m k = Value r ->
  single (Ck.assign m r v) /\
  (forall k', lookup (Ck.assign m r v) k' = updated k v m k') /\
  Ck.same_frame m (Ck.assign m r v) /\
  Ck.size_count (Ck.assign m r v) = Ck.size_count m.
Proof.
  intros Hsh Hsingle Href.
  destruct (ck_at_ref_cases m k r Hsh Href)
    as (e1 & e2 & He1 & He2 & [[-> Hh1] | (-> & Hh1 & Hh2)]).
  - destruct (ck_update1_spec hash m k v e1 Hsh Hsingle He1 Hh1)
      as [Hs' Hl'].
    split; [exact Hs' |]. split; [exact Hl' |].
    split; [repeat split | reflexivity].
  - destruct (ck_update2_spec hash m k v e1 e2 Hsh Hsingle He1 Hh1 He2 Hh2)
      as [Hs' Hl'].
    split; [exact Hs' |]. split; [exact Hl' |].
    split; [repeat split | reflexivity].
Qed.

End CkRemove.

Section CkInsert.

Context {K V : Type} `{EqDecision K}.
Context {H : Type} (hash : H -> K -> Z) (default_hasher : H)
        (seeded : option (Z -> Z -> H)).
Context {Rng : Type} (rng_next : Rng -> Z * Rng).
Context (default_key : K) (default_value : V).

Local Abbreviation map := (@Ck.map K V H Rng).
Local Abbreviation Entry := (@Ck.Entry K V).
Local Abbreviation lookup := (Ck.lookup hash).
Local Abbreviation single := (Ck.single hash).
Local Abbreviation rehash :=
  (Ck.rehash hash default_hasher seeded rng_next default_key default_value).
Local Abbreviation insert :=
  (Ck.insert hash default_hasher seeded rng_next default_key default_value).
Local Abbreviation insert_loop :=
  (Ck.insert_loop hash default_hasher seeded rng_next default_key
     default_value).
Local Abbreviation updated k v m :=
  (fun k' : K => if bool_decide (k' = k) then Some v else lookup m k').
Local Abbreviation grown k m :=
  (match lookup m k with Some _ => 0 | None => 1 end).
Local Abbreviation exhausted :=
  (runtime_error "Failed to insert after maximum rehash attempts").

Implicit Types (m : map) (k : K) (v : V) (e : Entry) (t : list Entry).

Lemma ck_fresh_single c t h1 h2 (g : Rng) :
  vector_new c (Ck.Entry_default default_key default_value) = Some t ->
  single (Ck.Map t t h1 h2 0 c g).
Proof.
  intros Ht. apply vector_new_inv in Ht as [_ ->].
  intros k e1 e2 He1 _ Hh. cbn [Ck.table1] in He1.
  apply lookup_replicate in He1 as [-> _]. discriminate.
Qed.

(** The loops of [rehash] always return. *)
Lemma ck_reinsert_spec old :
  forall m,
    Ck.wf hash m -> single m ->
    exists m',
      Ck.reinsert hash old m = Returns tt m' /\
      Ck.wf hash m' /\ single m' /\ Ck.same_frame m m'.
Proof.
  induction old as [| entry rest IH]; intros m Hwf Hsingle;
    cbn [Ck.reinsert].
  - exists m. split; [reflexivity |]. split; [exact Hwf |].
    split; [exact Hsingle | apply ck_same_frame_refl].
  - destruct (Ck.occupied entry).
    + destruct (ck_inner_insert_spec hash m (Ck.key entry) (Ck.value entry)
                  Hwf Hsingle)
        as (placed & m1 & Hm1 & Hwf1 & Hs1 & Hfr1 & _).
      rewrite Hm1. cbn [outcome_bind].
      destruct (IH m1 Hwf1 Hs1) as (m' & Hm' & Hwf' & Hs' & Hfr').
      exists m'. split; [exact Hm' |]. split; [exact Hwf' |].
      split; [exact Hs' | exact (ck_same_frame_trans _ _ _ Hfr1 Hfr')].
    + exact (IH m Hwf Hsingle).
Qed.

(** [rehash] returns a map of twice the capacity, or its allocation
    throws. *)
Lemma ck_rehash_spec m :
  Ck.wf hash m ->
  (exists m',
     rehash m = Returns tt m' /\ Ck.wf hash m' /\ single m' /\
     Ck.capacity m' = 2 * Ck.capacity m)
  \/
  (U64.vector_max_size < 2 * Ck.capacity m /\
   exists m', rehash m = Throws length_error m').
Proof.
  intros Hwf. pose proof Hwf as ((Hl1 & Hl2 & Hcap) & _ & Hsize).
  unfold Ck.rehash. rewrite u64_double_small by lia.
  destruct (vector_new (2 * Ck.capacity m)
              (Ck.Entry_default default_key default_value))
    as [t |] eqn:Ht.
  2:{ right. unfold vector_new in Ht.
      destruct (2 * Ck.capacity m <=? U64.vector_max_size) eqn:Hle;
        [discriminate |].
      apply Z.leb_gt in Hle. split; [exact Hle | eauto]. }
  left.
  destruct (Ck.create_hasher default_hasher seeded rng_next (Ck.rng m))
    as [h1 g1].
  destruct (Ck.create_hasher default_hasher seeded rng_next g1) as [h2 g2].
  assert (Hfresh : Ck.wf hash (Ck.Map t t h1 h2 0 (2 * Ck.capacity m) g2))
    by (apply (ck_fresh_wf hash default_key default_value);
        [lia | exact Ht]).
  pose proof (ck_fresh_single (2 * Ck.capacity m) t h1 h2 g2 Ht) as Hfs.
  destruct (ck_reinsert_spec (Ck.table1 m) _ Hfresh Hfs)
    as (m1 & Hm1 & Hwf1 & Hs1 & (Hc1 & _)).
  rewrite Hm1. cbn [outcome_bind].
  destruct (ck_reinsert_spec (Ck.table2 m) m1 Hwf1 Hs1)
    as (m2 & Hm2 & Hwf2 & Hs2 & (Hc2 & _)).
  exists m2. split; [exact Hm2 |]. split; [exact Hwf2 |].
  split; [exact Hs2 |]. cbn [Ck.capacity] in Hc1. lia.
Qed.

(** The loop of [insert] ends within nine calls of [inner_insert]: it
    returns the number [a] of calls of [rehash] it made, each of which
    doubled the capacity, and if [a] is below the bound the last
    [inner_insert] placed the entry. *)
Lemma ck_insert_loop_fuel k v fuel :
  forall attempts m,
    Ck.wf hash m -> single m ->
    0 <= attempts <= Ck.MAX_REHASH_ATTEMPTS ->
    Ck.MAX_REHASH_ATTEMPTS - attempts < Z.of_nat fuel ->
    (exists a m',
       insert_loop fuel k v attempts m = Returns a m' /\
       Ck.wf hash m' /\ single m' /\
       attempts <= a <= Ck.MAX_REHASH_ATTEMPTS /\
       Ck.capacity m' = 2 ^ (a - attempts) * Ck.capacity m /\
       (a < Ck.MAX_REHASH_ATTEMPTS -> lookup m' k = Some v) /\
       (a = attempts -> a < Ck.MAX_REHASH_ATTEMPTS ->
        Ck.same_frame m m' /\
        Ck.size_count m' = Ck.size_count m + grown k m /\
        forall k', lookup m' k' = updated k v m k'))
    \/
    (exists m', insert_loop fuel k v attempts m = Throws length_error m').
Proof.
  unfold Ck.MAX_REHASH_ATTEMPTS.
  induction fuel as [| fuel IH]; intros attempts m Hwf Hsingle Hatt Hfuel;
    [lia |].
  cbn [Ck.insert_loop].
  destruct (ck_inner_insert_spec hash m k v Hwf Hsingle)
    as (placed & m1 & Hm1 & Hwf1 & Hs1 & Hfr1 & Hyes & Hno).
  pose proof Hfr1 as (Hc1 & _).
  rewrite Hm1. cbn [outcome_bind]. unfold Ck.MAX_REHASH_ATTEMPTS.
  destruct placed; cbn [negb andb].
  { left. exists attempts, m1. destruct (Hyes eq_refl) as [Hsz Hl].
    split; [reflexivity |]. split; [exact Hwf1 |]. split; [exact Hs1 |].
    split; [lia |]. rewrite Z.sub_diag, Z.pow_0_r.
    split; [lia |]. split; [| auto].
    intros _. rewrite Hl. rewrite bool_decide_eq_true_2 by reflexivity.
    reflexivity. }
  destruct (attempts <? 8) eqn:Hlt.
  2:{ apply Z.ltb_ge in Hlt. left. exists attempts, m1.
      split; [reflexivity |]. split; [exact Hwf1 |]. split; [exact Hs1 |].
      split; [lia |]. rewrite Z.sub_diag, Z.pow_0_r.
      split; [lia |]. split; intros; lia. }
  apply Z.ltb_lt in Hlt.
  destruct (ck_rehash_spec m1 Hwf1)
    as [(m2 & Hm2 & Hwf2 & Hs2 & Hc2) | (_ & m2 & Hm2)];
    rewrite Hm2; cbn [outcome_bind]; [| right; eauto].
  rewrite u64_add_small by (unfold U64.modulus; lia).
  destruct (IH (attempts + 1) m2 Hwf2 Hs2 ltac:(lia) ltac:(lia))
    as [(a & m' & Hm' & Hwf' & Hs' & Ha & Hc' & Hl' & _) | Hthrow];
    [left | right; exact Hthrow].
  exists a, m'. split; [exact Hm' |]. split; [exact Hwf' |].
  split; [exact Hs' |]. split; [lia |]. split; [| split; [exact Hl' | lia]].
  rewrite Hc', Hc2, Hc1.
  replace (a - attempts) with (Z.succ (a - (attempts + 1))) by lia.
  rewrite Z.pow_succ_r by lia. lia.
Qed.

(** [insert] returns, or throws the [std::runtime_error] of eight failed
    attempts, or the [std::length_error] of an allocation.  Each call of
    [rehash] doubles the capacity; when [insert] made none, the map
    differs from the one before at the key only. *)
Lemma ck_insert_spec m k v :
  Ck.inv hash m -> single m ->
  let c := if Ck.needs_rehash m then 2 * Ck.capacity m else Ck.capacity m in
  (exists a m',
     insert k v m = Returns tt m' /\ Ck.inv hash m' /\ single m' /\
     lookup m' k = Some v /\
     0 <= a < Ck.MAX_REHASH_ATTEMPTS /\ Ck.capacity m' = 2 ^ a * c /\
     (Ck.capacity m' = Ck.capacity m ->
      Ck.same_frame m m' /\
      Ck.size_count m' = Ck.size_count m + grown k m /\
      forall k', lookup m' k' = updated k v m k'))
  \/
  (exists m',
     insert k v m = Throws exhausted m' /\ Ck.inv hash m' /\ single m' /\
     Ck.capacity m' = 2 ^ Ck.MAX_REHASH_ATTEMPTS * c)
  \/
  (exists m', insert k v m = Throws length_error m').
Proof.
  intros Hinv Hsingle c. pose proof Hinv as [Hwf Hload].
  pose proof Hwf as ((_ & _ & Hcap) & _).
  pose proof (ck_insert_ensures hash default_hasher seeded rng_next
                default_key default_value m k v Hinv) as Hens.
  assert (Hpre : (exists m1,
                    (if Ck.needs_rehash m then rehash m else Returns tt m)
                    = Returns tt m1 /\ Ck.wf hash m1 /\ single m1 /\
                    Ck.capacity m1 = c /\
                    (Ck.needs_rehash m = false -> m1 = m))
                 \/
                 (exists m', insert k v m = Throws length_error m')).
  { subst c. unfold Ck.insert. destruct (Ck.needs_rehash m).
    - destruct (ck_rehash_spec m Hwf)
        as [(m1 & Hm1 & Hwf1 & Hs1 & Hc1) | (_ & m1 & Hm1)].
      + left. exists m1. repeat (split; [assumption |]). discriminate.
      + right. rewrite Hm1. cbn [outcome_bind]. eauto.
    - left. exists m. repeat (split; [auto; fail |]). reflexivity. }
  destruct Hpre as [(m1 & Hm1 & Hwf1 & Hs1 & Hc1 & Hsame) | Hthrow];
    [| right; right; exact Hthrow].
  unfold Ck.insert in Hens |- *. rewrite Hm1 in Hens |- *.
  cbn [outcome_bind] in Hens |- *.
  destruct (ck_insert_loop_fuel k v 9 0 m1 Hwf1 Hs1)
    as [(a & m' & Hm' & Hwf' & Hs' & Ha & Hc' & Hl' & Hfr') | (m' & Hm')];
    [unfold Ck.MAX_REHASH_ATTEMPTS; lia
    | unfold Ck.MAX_REHASH_ATTEMPTS; lia | |].
  2:{ right; right. rewrite Hm'. cbn [outcome_bind]. eauto. }
  rewrite Hm' in Hens |- *. cbn [outcome_bind] in Hens |- *.
  rewrite Z.sub_0_r in Hc'. rewrite Hc1 in Hc'.
  unfold Ck.MAX_REHASH_ATTEMPTS in *.
  destruct (8 <=? a) eqn:Hle.
  - apply Z.leb_le in Hle. right; left. exists m'.
    split; [reflexivity |]. cbn [ensures] in Hens.
    split; [apply Hens; discriminate |]. split; [exact Hs' |].
    replace 8 with a by lia. exact Hc'.
  - apply Z.leb_gt in Hle. left. exists a, m'. cbn [ensures] in Hens.
    split; [reflexivity |]. split; [apply Hens |]. split; [exact Hs' |].
    split; [apply Hl'; exact Hle |]. split; [lia |]. split; [exact Hc' |].
    intros Hceq.
    assert (Hpow : 0 < 2 ^ a) by (apply Z.pow_pos_nonneg; lia).
    assert (Ha0 : a = 0).
    { destruct (Z.eq_dec a 0) as [Hz | Hnz]; [exact Hz |].
      assert (Hgt : 1 < 2 ^ a) by (apply Z.pow_gt_1; lia).
      subst c. destruct (Ck.needs_rehash m); nia. }
    subst a. rewrite Z.pow_0_r in Hc'.
    assert (Hneed : Ck.needs_rehash m = false).
    { subst c. destruct (Ck.needs_rehash m); [lia | reflexivity]. }
    rewrite (Hsame Hneed) in Hfr'. apply Hfr'; [reflexivity | lia].
Qed.

End CkInsert.

Section CkIndex.

Context {K V : Type} `{EqDecision K}.
Context {H : Type} (hash : H -> K -> Z) (default_hasher : H)
        (seeded : option (Z -> Z -> H)).
Context {Rng : Type} (rng_next : Rng -> Z * Rng).
Context (default_key : K) (default_value : V).

Local Abbreviation map := (@Ck.map K V H Rng).
Local Abbreviation Entry := (@Ck.Entry K V).
Local Abbreviation pos1 := (Ck.pos1 hash).
Local Abbreviation pos2 := (Ck.pos2 hash).
Local Abbreviation lookup := (Ck.lookup hash).
Local Abbreviation single := (Ck.single hash).
Local Abbreviation insert :=
  (Ck.insert hash default_hasher seeded rng_next default_key default_value).
Local Abbreviation index_ref :=
  (Ck.index_ref hash default_hasher seeded rng_next default_key
     default_value).
Local Abbreviation reachable :=
  (Ck.reachable hash default_hasher seeded rng_next default_key
     default_value).
Local Abbreviation exhausted :=
  (runtime_error "Failed to insert after maximum rehash attempts").
Local Abbreviation internal :=
  (runtime_error "Internal error: failed to insert in operator[]").

Implicit Types (m : map) (k : K) (v : V) (e : Entry) (r : Ck.ref).

(** What [find] yields when the key is there. *)
Lemma ck_find_some m k v :
  Ck.shaped m -> lookup m k = Some v ->
  exists r,
    Ck.find_at m k (pos1 m k) (pos2 m k) = Value (Some r) /\
    Ck.at_ref hash m k = Value r /\ Ck.read m r = Value v.
Proof.
  intros Hsh Hl.
  destruct (ck_get_hash1 hash m k Hsh) as [Hg1 _].
  destruct (ck_get_hash2 hash m k Hsh) as [Hg2 _].
  destruct (ck_find_lookup hash m k Hsh) as (r & Hfind & Hr).
  destruct r as [r |]; [| congruence].
  destruct Hr as (v' & Hl' & Hread). exists r.
  assert (v' = v) as -> by congruence.
  unfold Ck.at_ref. rewrite Hfind. cbn [result_bind].
  unfold Ck.find in Hfind. rewrite Hg1, Hg2 in Hfind.
  cbn [result_bind] in Hfind. auto.
Qed.

(** The second search of [operator[]], at the slots computed before
    [insert]: if it finds the key there, that is the slot [at] finds. *)
Lemma ck_find_at_stale m k v p1 p2 :
  Ck.wf hash m -> single m ->
  0 <= p1 < Ck.capacity m -> 0 <= p2 < Ck.capacity m ->
  lookup m k = Some v ->
  (exists r,
     Ck.find_at m k p1 p2 = Value (Some r) /\
     Ck.at_ref hash m k = Value r /\ Ck.read m r = Value v)
  \/
  Ck.find_at m k p1 p2 = Value None.
Proof.
  intros Hwf Hsingle Hp1 Hp2 Hl.
  pose proof Hwf as (Hsh & (Hpos1 & Hpos2) & _).
  pose proof Hsh as (Hl1 & Hl2 & _).
  destruct (vector_at_in_range (Ck.table1 m) p1 ltac:(lia))
    as (e1 & He1 & Hat1).
  destruct (vector_at_in_range (Ck.table2 m) p2 ltac:(lia))
    as (e2 & He2 & Hat2).
  destruct (ck_find_some m k v Hsh Hl) as (r & Hfind & Href & Hread).
  unfold Ck.find_at. rewrite Hat1. cbn [result_bind].
  destruct (Ck.holds e1 k) eqn:Hh1.
  { destruct (ck_holds_inv e1 k Hh1) as [Ho1 Hk1].
    pose proof (Hpos1 _ _ He1 Ho1) as Hp. rewrite Hk1 in Hp.
    assert (p1 = pos1 m k) as -> by lia.
    unfold Ck.find_at in Hfind. rewrite Hat1 in Hfind.
    cbn [result_bind] in Hfind. rewrite Hh1 in Hfind.
    left. exists r. auto. }
  rewrite Hat2. cbn [result_bind].
  destruct (Ck.holds e2 k) eqn:Hh2; [| right; reflexivity].
  destruct (ck_holds_inv e2 k Hh2) as [Ho2 Hk2].
  pose proof (Hpos2 _ _ He2 Ho2) as Hp. rewrite Hk2 in Hp.
  assert (p2 = pos2 m k) as -> by lia.
  destruct (ck_slot1 hash m k Hsh) as (e1' & He1' & Hat1').
  assert (Hh1' : Ck.holds e1' k = false).
  { destruct (Ck.holds e1' k) eqn:Hh; [| reflexivity].
    rewrite (Hsingle k e1' e2 He1' He2 Hh) in Hh2. discriminate. }
  unfold Ck.find_at in Hfind. rewrite Hat1' in Hfind.
  cbn [result_bind] in Hfind. rewrite Hh1', Hat2 in Hfind.
  cbn [result_bind] in Hfind. rewrite Hh2 in Hfind.
  left. exists r. auto.
Qed.

(** [operator[]]: for a key that is there it returns the reference that
    [at] returns; for one that is not it runs [insert(key, V{})] and,
    unless that throws, either returns the reference to the new entry or
    throws because the capacity has changed. *)
Lemma ck_index_ref_spec m k :
  Ck.inv hash m -> single m ->
  (exists v r,
     lookup m k = Some v /\ index_ref k m = Returns r m /\
     Ck.at_ref hash m k = Value r /\ Ck.read m r = Value v)
  \/
  (lookup m k = None /\
   ((exists r m',
       insert k default_value m = Returns tt m' /\
       index_ref k m = Returns r m' /\
       Ck.inv hash m' /\ single m' /\
       Ck.at_ref hash m' k = Value r /\
       Ck.read m' r = Value default_value)
    \/
    (exists m',
       insert k default_value m = Returns tt m' /\
       index_ref k m = Throws internal m' /\
       Ck.inv hash m' /\ single m' /\ Ck.capacity m < Ck.capacity m')
    \/
    (exists m',
       insert k default_value m = Throws exhausted m' /\
       index_ref k m = Throws exhausted m' /\
       Ck.inv hash m' /\ single m')
    \/
    (exists m',
       insert k default_value m = Throws length_error m' /\
       index_ref k m = Throws length_error m'))).
Proof.
  intros Hinv Hsingle. pose proof Hinv as [Hwf _].
  pose proof Hwf as (Hsh & _). pose proof Hsh as (_ & _ & Hcap).
  destruct (ck_get_hash1 hash m k Hsh) as [Hg1 Hr1].
  destruct (ck_get_hash2 hash m k Hsh) as [Hg2 Hr2].
  unfold Ck.index_ref. rewrite Hg1. cbn [on outcome_bind].
  rewrite Hg2. cbn [on outcome_bind].
  destruct (lookup m k) as [v |] eqn:Hl.
  { left. destruct (ck_find_some m k v Hsh Hl) as (r & Hfind & Href & Hread).
    rewrite Hfind. cbn [on outcome_bind]. exists v, r. auto. }
  right. split; [reflexivity |].
  assert (Hnone : Ck.find_at m k (pos1 m k) (pos2 m k) = Value None).
  { destruct (ck_find_lookup hash m k Hsh) as (r & Hfind & Hr).
    unfold Ck.find in Hfind. rewrite Hg1, Hg2 in Hfind.
    cbn [result_bind] in Hfind. destruct r as [r |]; [| exact Hfind].
    destruct Hr as (v & Hv & _). congruence. }
  rewrite Hnone. cbn [on outcome_bind].
  destruct (ck_insert_spec hash default_hasher seeded rng_next default_key
              default_value m k default_value Hinv Hsingle)
    as [(a & m' & Hins & Hinv' & Hs' & Hl' & Ha & Hc' & Hsame)
       | [(m' & Hins & Hinv' & Hs' & _) | (m' & Hins)]];
    rewrite Hins; cbn [outcome_bind].
  2:{ right; right; left. exists m'. auto. }
  2:{ right; right; right. exists m'. auto. }
  pose proof Hinv' as [Hwf' _].
  assert (Hpow : 0 < 2 ^ a) by (apply Z.pow_pos_nonneg; lia).
  assert (Hle : Ck.capacity m <= Ck.capacity m')
    by (destruct (Ck.needs_rehash m); nia).
  destruct (ck_find_at_stale m' k default_value (pos1 m k) (pos2 m k)
              Hwf' Hs' ltac:(lia) ltac:(lia) Hl')
    as [(r & Hfind & Href & Hread) | Hfind];
    rewrite Hfind; cbn [on outcome_bind].
  - left. exists r, m'. auto 10.
  - right; left. exists m'. split; [reflexivity |]. split; [reflexivity |].
    split; [exact Hinv' |]. split; [exact Hs' |].
    destruct (Z.eq_dec (Ck.capacity m') (Ck.capacity m)) as [Heq | Hne];
      [| lia].
    destruct (Hsame Heq) as ((_ & Hh1 & Hh2 & _) & _).
    destruct (ck_find_some m' k default_value (proj1 Hwf') Hl')
      as (r & Hfind' & _).
    unfold Ck.pos1, Ck.pos2 in Hfind'. rewrite Heq, Hh1, Hh2 in Hfind'.
    unfold Ck.pos1, Ck.pos2 in Hfind. congruence.
Qed.

(** No key of a reachable map sits in both tables. *)
Lemma ck_reachable_single catching c g m :
  0 < c -> reachable catching c g m -> single m.
Proof.
  intros Hc Hreach. induction Hreach as [m Hnew | m m' Hreach IH Hstep].
  - unfold Ck.new in Hnew.
    destruct (vector_new c (Ck.Entry_default default_key default_value))
      as [t |] eqn:Ht; [| discriminate].
    destruct (Ck.create_hasher default_hasher seeded rng_next g)
      as [h1 g1].
    destruct (Ck.create_hasher default_hasher seeded rng_next g1)
      as [h2 g2].
    injection Hnew as <-.
    exact (ck_fresh_single hash default_key default_value c t h1 h2 g2 Ht).
  - pose proof (ck_reachable_inv hash default_hasher seeded rng_next
                  default_key default_value catching c g m Hc Hreach)
      as Hinv.
    pose proof Hinv as [(Hsh & _) _].
    pose proof (ck_insert_spec hash default_hasher seeded rng_next
                  default_key default_value m) as Hins_spec.
    pose proof (ck_index_ref_spec m) as Hidx_spec.
    destruct Hstep as [k v m' Hins | k v ex m' _ Hins Hne | k r m' Hrem
                      | | k r m' Hidx | k ex m' _ Hidx Hne
                      | k r v Hat | k r m' v Hidx].
    + destruct (Hins_spec k v Hinv IH)
        as [(a & m1 & Hm1 & _ & Hs1 & _) | [(m1 & Hm1 & _) | (m1 & Hm1)]];
        rewrite Hm1 in Hins; [| discriminate | discriminate].
      injection Hins as <-. exact Hs1.
    + destruct (Hins_spec k v Hinv IH)
        as [(a & m1 & Hm1 & _) | [(m1 & Hm1 & _ & Hs1 & _) | (m1 & Hm1)]];
        rewrite Hm1 in Hins; [discriminate | | congruence].
      injection Hins as _ <-. exact Hs1.
    + destruct (ck_remove_spec hash m k Hinv IH)
        as (r1 & m1 & Hm1 & _ & _ & Hs1 & _).
      rewrite Hm1 in Hrem. injection Hrem as _ <-. exact Hs1.
    + exact (proj1 (ck_clear_spec hash m default_key Hsh)).
    + destruct (Hidx_spec k Hinv IH)
        as [(v & r1 & _ & Hm1 & _)
           | (_ & [(r1 & m1 & _ & Hm1 & _ & Hs1 & _)
                  | [(m1 & _ & Hm1 & _) | [(m1 & _ & Hm1 & _)
                                          | (m1 & _ & Hm1)]]])];
        rewrite Hm1 in Hidx; try discriminate.
      * injection Hidx as _ <-. exact IH.
      * injection Hidx as _ <-. exact Hs1.
    + destruct (Hidx_spec k Hinv IH)
        as [(v & r1 & _ & Hm1 & _)
           | (_ & [(r1 & m1 & _ & Hm1 & _)
                  | [(m1 & _ & Hm1 & _ & Hs1 & _)
                    | [(m1 & _ & Hm1 & _ & Hs1) | (m1 & _ & Hm1)]]])];
        rewrite Hm1 in Hidx; try discriminate.
      * injection Hidx as _ <-. exact Hs1.
      * injection Hidx as _ <-. exact Hs1.
      * congruence.
    + exact (proj1 (ck_assign_spec hash m k r v Hsh IH Hat)).
    + destruct (Hidx_spec k Hinv IH)
        as [(v1 & r1 & _ & Hm1 & Href & _)
           | (_ & [(r1 & m1 & _ & Hm1 & Hinv1 & Hs1 & Href & _)
                  | [(m1 & _ & Hm1 & _) | [(m1 & _ & Hm1 & _)
                                          | (m1 & _ & Hm1)]]])];
        rewrite Hm1 in Hidx; try discriminate.
      * injection Hidx as <- <-.
        exact (proj1 (ck_assign_spec hash m k r1 v Hsh IH Href)).
      * injection Hidx as <- <-.
        exact (proj1 (ck_assign_spec hash m1 k r1 v (proj1 (proj1 Hinv1))
                        Hs1 Href)).
Qed.

End CkIndex.

Section CkGrowth.

Context {K V : Type} `{EqDecision K}.
Context {H : Type} (hash : H -> K -> Z) (default_hasher : H)
        (seeded : option (Z -> Z -> H)).
Context {Rng : Type} (rng_next : Rng -> Z * Rng).
Context (default_key : K) (default_value : V).

Local Abbreviation map := (@Ck.map K V H Rng).
Local Abbreviation insert :=
  (Ck.insert hash default_hasher seeded rng_next default_key default_value).
Local Abbreviation index_ref :=
  (Ck.index_ref hash default_hasher seeded rng_next default_key
     default_value).

Implicit Types (m : map) (k : K) (v : V).

(** No member function changes the capacity but by doubling it, at most
    nine times in one call. *)
Lemma ck_step_capacity catching m m' :
  Ck.inv hash m -> Ck.single hash m ->
  Ck.step hash default_hasher seeded rng_next default_key default_value
    catching m m' ->
  exists n, 0 <= n <= Ck.MAX_REHASH_ATTEMPTS + 1 /\
            Ck.capacity m' = 2 ^ n * Ck.capacity m.
Proof.
  unfold Ck.MAX_REHASH_ATTEMPTS. intros Hinv Hsingle Hstep.
  assert (Hsame : forall m1 : map,
            Ck.capacity m1 = Ck.capacity m ->
            exists n, 0 <= n <= 8 + 1 /\
                      Ck.capacity m1 = 2 ^ n * Ck.capacity m).
  { intros m1 Hc. exists 0. split; [lia |]. rewrite Z.pow_0_r. lia. }
  assert (Hins : forall k v,
            (exists n m1,
               insert k v m = Returns tt m1 /\
               0 <= n <= 8 + 1 /\ Ck.capacity m1 = 2 ^ n * Ck.capacity m)
            \/
            (exists n m1,
               insert k v m
               = Throws (runtime_error
                   "Failed to insert after maximum rehash attempts") m1 /\
               0 <= n <= 8 + 1 /\ Ck.capacity m1 = 2 ^ n * Ck.capacity m)
            \/
            (exists m1, insert k v m = Throws length_error m1)).
  { intros k v.
    destruct (ck_insert_spec hash default_hasher seeded rng_next
                default_key default_value m k v Hinv Hsingle)
      as [(a & m1 & Hm1 & _ & _ & _ & Ha & Hc & _)
         | [(m1 & Hm1 & _ & _ & Hc) | Hthrow]];
      unfold Ck.MAX_REHASH_ATTEMPTS in *.
    - left. destruct (Ck.needs_rehash m).
      + exists (Z.succ a), m1. split; [exact Hm1 |]. split; [lia |].
        rewrite Z.pow_succ_r by lia. lia.
      + exists a, m1. split; [exact Hm1 |]. split; [lia | exact Hc].
    - right; left. destruct (Ck.needs_rehash m).
      + exists (Z.succ 8), m1. split; [exact Hm1 |]. split; [lia |].
        rewrite Z.pow_succ_r by lia. lia.
      + exists 8, m1. split; [exact Hm1 |]. split; [lia | exact Hc].
    - right; right. exact Hthrow. }
  assert (Hcap : forall k v m1,
            insert k v m = Returns tt m1 \/
            insert k v m
            = Throws (runtime_error
                "Failed to insert after maximum rehash attempts") m1 ->
            exists n, 0 <= n <= 8 + 1 /\
                      Ck.capacity m1 = 2 ^ n * Ck.capacity m).
  { intros k v m1 Hi.
    destruct (Hins k v)
      as [(n & m2 & Hm2 & Hn & Hc) | [(n & m2 & Hm2 & Hn & Hc)
                                     | (m2 & Hm2)]];
      rewrite Hm2 in Hi; destruct Hi as [Hi | Hi]; try discriminate.
    - injection Hi as <-. exists n. auto.
    - injection Hi as <-. exists n. auto. }
  assert (Hidx : forall k ex r m1,
            index_ref k m = Returns r m1 \/
            (index_ref k m = Throws ex m1 /\ ex <> length_error) ->
            exists n, 0 <= n <= 8 + 1 /\
                      Ck.capacity m1 = 2 ^ n * Ck.capacity m).
  { intros k ex r m1 Hr.
    destruct (ck_index_ref_spec hash default_hasher seeded rng_next
                default_key default_value m k Hinv Hsingle)
      as [(v & r1 & _ & Hr1 & _)
         | (_ & [(r1 & m2 & Hi & Hr1 & _)
                | [(m2 & Hi & Hr1 & _)
                  | [(m2 & Hi & Hr1 & _) | (m2 & Hi & Hr1)]]])];
      rewrite Hr1 in Hr; destruct Hr as [Hr | [Hr Hne]];
      try discriminate.
    - injection Hr as _ <-. apply Hsame. reflexivity.
    - injection Hr as _ <-.
      exact (Hcap k default_value m2 (or_introl Hi)).
    - injection Hr as _ <-.
      exact (Hcap k default_value m2 (or_introl Hi)).
    - injection Hr as _ <-.
      exact (Hcap k default_value m2 (or_intror Hi)).
    - injection Hr as <- _. destruct (Hne eq_refl). }
  destruct Hstep as [k v m' Hi | k v ex m' _ Hi Hne | k r m' Hrem
                    | | k r m' Hr | k ex m' _ Hr Hne
                    | k r v Hat | k r m' v Hr].
  - destruct (Hins k v)
      as [(n & m1 & Hm1 & Hn & Hc) | [(n & m1 & Hm1 & _) | (m1 & Hm1)]];
      rewrite Hm1 in Hi; [| discriminate | discriminate].
    injection Hi as <-. exists n. auto.
  - destruct (Hins k v)
      as [(n & m1 & Hm1 & _) | [(n & m1 & Hm1 & Hn & Hc) | (m1 & Hm1)]];
      rewrite Hm1 in Hi; [discriminate | | congruence].
    injection Hi as _ <-. exists n. auto.
  - destruct (ck_remove_spec hash m k Hinv Hsingle)
      as (r1 & m1 & Hm1 & _ & _ & _ & (Hc & _) & _).
    rewrite Hm1 in Hrem. injection Hrem as _ <-. exact (Hsame m1 Hc).
  - apply Hsame. reflexivity.
  - exact (Hidx k length_error r m' (or_introl Hr)).
  - exact (Hidx k ex (Ck.In1 0) m' (or_intror (conj Hr Hne))).
  - apply Hsame. destruct r; reflexivity.
  - replace (Ck.capacity (Ck.assign m' r v)) with (Ck.capacity m')
      by (destruct r; reflexivity).
    exact (Hidx k length_error r m' (or_introl Hr)).
Qed.

End CkGrowth.
(** * The specification, claim by claim *)

(** [run_as m c] evaluates the call [c] and names the map it leaves [m]. *)
Ltac run_as m c :=
  let r := eval vm_compute in c in
  lazymatch r with
  | Returns _ ?x => pose (m := x)
  | Throws _ ?x => pose (m := x)
  | Some ?x => pose (m := x)
  end.

Ltac by_evaluation := vm_compute; reflexivity.

(** ** Runs at [int] keys *)

(** C1. Keys are not unique among the live entries of the probing map.  In
    [LpHashMap<int, int> m] the keys 0 and 1 start their probes at slot 14;
    after [m.insert(0, 10); m.insert(1, 20); m.remove(0)] key 1 sits in slot
    15 behind the tombstone of slot 14, and [m.insert(1, 30)] stops at the
    tombstone and puts a second entry of key 1 there. *)
Theorem lp_insert_at_tombstone_duplicates_key :
  exists m0 m1 m2 m3 m4,
    IntKeys.lp_new 16 = Some m0 /\
    IntKeys.lp_insert 0 10 m0 = Returns tt m1 /\
    IntKeys.lp_insert 1 20 m1 = Returns tt m2 /\
    IntKeys.lp_remove 0 m2 = Returns (Some 10) m3 /\
    IntKeys.lp_insert 1 30 m3 = Returns tt m4 /\
    Lp.table m3 !! 14%nat = Some (Lp.mkEntry 0 10 Lp.Deleted) /\
    Lp.table m4 !! 14%nat = Some (Lp.mkEntry 1 30 Lp.Occupied) /\
    Lp.table m4 !! 15%nat = Some (Lp.mkEntry 1 20 Lp.Occupied) /\
    IntKeys.lp_reachable 16 m4 /\
    ~ Lp.unique_keys m4.
Proof.
  run_as m0 (IntKeys.lp_new 16).
  run_as m1 (IntKeys.lp_insert 0 10 m0).
  run_as m2 (IntKeys.lp_insert 1 20 m1).
  run_as m3 (IntKeys.lp_remove 0 m2).
  run_as m4 (IntKeys.lp_insert 1 30 m3).
  assert (H0 : IntKeys.lp_new 16 = Some m0) by by_evaluation.
  assert (H1 : IntKeys.lp_insert 0 10 m0 = Returns tt m1) by by_evaluation.
  assert (H2 : IntKeys.lp_insert 1 20 m1 = Returns tt m2) by by_evaluation.
  assert (H3 : IntKeys.lp_remove 0 m2 = Returns (Some 10) m3)
    by by_evaluation.
  assert (H4 : IntKeys.lp_insert 1 30 m3 = Returns tt m4) by by_evaluation.
  exists m0, m1, m2, m3, m4.
  split; [exact H0 |]. split; [exact H1 |]. split; [exact H2 |].
  split; [exact H3 |]. split; [exact H4 |].
  split; [reflexivity |]. split; [reflexivity |]. split; [reflexivity |].
  split.
  - apply (Lp.reachable_step _ _ _ _ _ m3 m4);
      [| exact (Lp.step_insert _ _ _ _ _ _ _ _ H4)].
    apply (Lp.reachable_step _ _ _ _ _ m2 m3);
      [| exact (Lp.step_remove _ _ _ _ _ _ _ _ H3)].
    apply (Lp.reachable_step _ _ _ _ _ m1 m2);
      [| exact (Lp.step_insert _ _ _ _ _ _ _ _ H2)].
    apply (Lp.reachable_step _ _ _ _ _ m0 m1);
      [| exact (Lp.step_insert _ _ _ _ _ _ _ _ H1)].
    apply Lp.reachable_new. exact H0.
  - intros Huniq.
    specialize (Huniq 14%nat 15%nat (Lp.mkEntry 1 30 Lp.Occupied)
                  (Lp.mkEntry 1 20 Lp.Occupied) eq_refl eq_refl eq_refl
                  eq_refl eq_refl).
    discriminate.
Qed.

(** C2. An insert of the cuckoo map that returns normally can drop an entry
    stored before.  In [CkHashMap<int, int, IdentityHasher> m] the keys 0, 16
    and 32 share slot 0 of both tables.  [m.insert(32, 132)] walks 16 steps
    round the three entries and gives up while it carries the entry of key
    0; [rehash] reinserts the two entries left in the tables, the retry
    finds key 32 there, and [insert] returns with key 0 gone. *)
Theorem ck_insert_drops_carried_entry :
  exists m0 m1 m2 m3,
    IntKeys.ck_new 16 tt = Some m0 /\
    IntKeys.ck_insert 0 100 m0 = Returns tt m1 /\
    IntKeys.ck_insert 16 116 m1 = Returns tt m2 /\
    IntKeys.ck_at m2 0 = Value 100 /\
    IntKeys.ck_contains_key m2 0 = Value true /\
    IntKeys.ck_insert 32 132 m2 = Returns tt m3 /\
    Ck.contains_key IntKeys.identity_hash m3 0 = Value false /\
    Ck.at_ IntKeys.identity_hash m3 0
    = Raise (out_of_range "Key not found in CkHashMap") /\
    Ck.size_count m2 = 2 /\ Ck.size_count m3 = 2 /\
    IntKeys.ck_reachable 16 tt m2.
Proof.
  run_as m0 (IntKeys.ck_new 16 tt).
  run_as m1 (IntKeys.ck_insert 0 100 m0).
  run_as m2 (IntKeys.ck_insert 16 116 m1).
  run_as m3 (IntKeys.ck_insert 32 132 m2).
  assert (H0 : IntKeys.ck_new 16 tt = Some m0) by by_evaluation.
  assert (H1 : IntKeys.ck_insert 0 100 m0 = Returns tt m1) by by_evaluation.
  assert (H2 : IntKeys.ck_insert 16 116 m1 = Returns tt m2) by by_evaluation.
  assert (H3 : IntKeys.ck_insert 32 132 m2 = Returns tt m3) by by_evaluation.
  exists m0, m1, m2, m3.
  split; [exact H0 |]. split; [exact H1 |]. split; [exact H2 |].
  split; [by_evaluation |]. split; [by_evaluation |]. split; [exact H3 |].
  split; [by_evaluation |]. split; [by_evaluation |].
  split; [reflexivity |]. split; [reflexivity |].
  apply (Ck.reachable_step _ _ _ _ _ _ _ _ _ m1 m2);
    [| exact (Ck.step_insert _ _ _ _ _ _ _ _ _ _ _ H2)].
  apply (Ck.reachable_step _ _ _ _ _ _ _ _ _ m0 m1);
    [| exact (Ck.step_insert _ _ _ _ _ _ _ _ _ _ _ H1)].
  apply Ck.reachable_new. exact H0.
Qed.

(** C3. [insert] of the cuckoo map throws although the entry was placed.
    In [CkHashMap<int, int, IdentityHasher> m(6)] the keys 0, 768 and 1536
    share slot 0 of both tables at the capacities 6, 12, ..., 768, where
    every walk ends carrying the new entry.  The eighth [rehash] brings the
    capacity to 1536 and key 768 to slot 768; the ninth call of
    [inner_insert] then places key 1536, the loop leaves with
    [attempts = 8], and [insert] throws. *)
Theorem ck_insert_throws_after_placing :
  exists m0 m1 m2 m3,
    IntKeys.ck_new 6 tt = Some m0 /\
    IntKeys.ck_insert 0 100 m0 = Returns tt m1 /\
    IntKeys.ck_insert 768 1 m1 = Returns tt m2 /\
    IntKeys.ck_contains_key m2 1536 = Value false /\
    IntKeys.ck_insert 1536 2 m2
    = Throws (runtime_error "Failed to insert after maximum rehash attempts")
        m3 /\
    Ck.capacity m3 = 1536 /\
    Ck.contains_key IntKeys.identity_hash m3 1536 = Value true /\
    Ck.at_ IntKeys.identity_hash m3 1536 = Value 2 /\
    IntKeys.ck_at m3 0 = Value 100 /\
    IntKeys.ck_at m3 768 = Value 1 /\
    Ck.size_count m3 = 3.
Proof.
  run_as m0 (IntKeys.ck_new 6 tt).
  run_as m1 (IntKeys.ck_insert 0 100 m0).
  run_as m2 (IntKeys.ck_insert 768 1 m1).
  run_as m3 (IntKeys.ck_insert 1536 2 m2).
  exists m0, m1, m2, m3.
  split; [by_evaluation |]. split; [by_evaluation |].
  split; [by_evaluation |]. split; [by_evaluation |].
  split; [by_evaluation |]. split; [reflexivity |].
  split; [by_evaluation |]. split; [by_evaluation |].
  split; [by_evaluation |]. split; [by_evaluation | reflexivity].
Qed.

(** C8. The resize of the probing map changes the stored entries when a key
    is stored twice (C1).  [LpHashMap<int, int> m(4)] after
    [m.insert(0, 10); m.insert(1, 20); m.remove(0); m.insert(1, 30)] holds
    key 1 in slot 2 with value 30 and in slot 3 with value 20, and
    [m.at(1)] is 30.  The next [insert] meets [(2 + 1) / 4 > 0.7] and calls
    [rehash], which reinserts slot 2 and then slot 3 over it: one entry of
    key 1 is left, with the value 20. *)
Theorem lp_rehash_merges_duplicate_keys :
  exists m0 m1 m2 m3 m4 m5,
    IntKeys.lp_new 4 = Some m0 /\
    IntKeys.lp_insert 0 10 m0 = Returns tt m1 /\
    IntKeys.lp_insert 1 20 m1 = Returns tt m2 /\
    IntKeys.lp_remove 0 m2 = Returns (Some 10) m3 /\
    IntKeys.lp_insert 1 30 m3 = Returns tt m4 /\
    Lp.needs_rehash m4 = true /\
    Lp.rehash IntKeys.default_hash 0 0 m4 = Returns tt m5 /\
    Lp.occupied_entries m4 = [(1, 30); (1, 20)] /\
    Lp.occupied_entries m5 = [(1, 20)] /\
    IntKeys.lp_at m4 1 = Value 30 /\
    IntKeys.lp_at m5 1 = Value 20 /\
    Lp.size_count m4 = 2 /\ Lp.size_count m5 = 1.
Proof.
  run_as m0 (IntKeys.lp_new 4).
  run_as m1 (IntKeys.lp_insert 0 10 m0).
  run_as m2 (IntKeys.lp_insert 1 20 m1).
  run_as m3 (IntKeys.lp_remove 0 m2).
  run_as m4 (IntKeys.lp_insert 1 30 m3).
  run_as m5 (Lp.rehash IntKeys.default_hash 0 0 m4).
  exists m0, m1, m2, m3, m4, m5.
  split; [by_evaluation |]. split; [by_evaluation |].
  split; [by_evaluation |]. split; [by_evaluation |].
  split; [by_evaluation |]. split; [by_evaluation |].
  split; [by_evaluation |]. split; [by_evaluation |].
  split; [by_evaluation |]. split; [by_evaluation |].
  split; [by_evaluation |]. split; reflexivity.
Qed.

(** C9. [operator[]] of the cuckoo map throws when its insert rehashes.  In
    [CkHashMap<int, int, IdentityHasher> m], after [m[0]], ..., [m[7]] the
    map holds eight entries; [m[24]] computes the slot 8 of key 24 at
    capacity 16, finds the key absent and inserts it, which rehashes to
    capacity 32 and puts the key into slot 24; the slots 8 looked at again
    are free, and the operator throws. *)
Theorem ck_index_throws_after_rehash :
  exists m0 m8 m9,
    IntKeys.ck_new 16 tt = Some m0 /\
    IntKeys.ck_index_all [0; 1; 2; 3; 4; 5; 6; 7] m0 = Returns tt m8 /\
    Ck.size_count m8 = 8 /\ Ck.capacity m8 = 16 /\
    IntKeys.ck_contains_key m8 24 = Value false /\
    IntKeys.ck_index_ref 24 m8
    = Throws (runtime_error "Internal error: failed to insert in operator[]")
        m9 /\
    Ck.capacity m9 = 32 /\ Ck.size_count m9 = 9 /\
    IntKeys.ck_at m9 24 = Value 0.
Proof.
  run_as m0 (IntKeys.ck_new 16 tt).
  run_as m8 (IntKeys.ck_index_all [0; 1; 2; 3; 4; 5; 6; 7] m0).
  run_as m9 (IntKeys.ck_index_ref 24 m8).
  exists m0, m8, m9.
  split; [by_evaluation |]. split; [by_evaluation |].
  split; [reflexivity |]. split; [reflexivity |].
  split; [by_evaluation |]. split; [by_evaluation |].
  split; [reflexivity |]. split; [reflexivity |]. by_evaluation.
Qed.

(** The same in the smallest map: [CkHashMap<int, int, IdentityHasher> m(1)]
    and [m[1]]. *)
Example ck_index_throws_capacity_1 :
  exists m0 m1,
    IntKeys.ck_new 1 tt = Some m0 /\
    IntKeys.ck_index_ref 1 m0
    = Throws (runtime_error "Internal error: failed to insert in operator[]")
        m1 /\
    IntKeys.ck_at m1 1 = Value 0.
Proof.
  run_as m0 (IntKeys.ck_new 1 tt).
  run_as m1 (IntKeys.ck_index_ref 1 m0).
  exists m0, m1. split; [by_evaluation |]. split; by_evaluation.
Qed.

(** ** Properties of every instantiation *)

Section Claims.

Context {K V : Type} `{EqDecision K}.
Context (hash : K -> Z) (default_key : K) (default_value : V).
Context {H : Type} (hasher_hash : H -> K -> Z) (default_hasher : H)
        (seeded : option (Z -> Z -> H)).
Context {Rng : Type} (rng_next : Rng -> Z * Rng).

Local Abbreviation sc_reachable := (Sc.reachable hash default_value).
Local Abbreviation lp_reachable :=
  (Lp.reachable hash default_key default_value).
Local Abbreviation ck_reachable :=
  (Ck.reachable hasher_hash default_hasher seeded rng_next
     default_key default_value).
Local Abbreviation ck_insert :=
  (Ck.insert hasher_hash default_hasher seeded rng_next
     default_key default_value).

(** C5, as amended.  In a map of the probing variant built with a
    capacity above 0, the lookup of [k] (in [at], [contains_key] and
    [remove]) probes the slots [(hash k + i) mod capacity] for
    [i = 0, 1, ...]; it steps over every [Deleted] slot and every
    [Occupied] slot of another key, and it ends at the first [Empty] slot
    (not found) or at the first [Occupied] slot of [k] (found).  Only in a
    map of capacity 1, 2 or 3 can it meet neither, and then it ends back at
    its first slot after [capacity] probes (not found): from capacity 4
    on, an [Empty] slot is the only end of a lookup without success.
    Removing a key changes the result of no lookup of another key: what
    [at] and [contains_key] found before, they find after. *)
Theorem lp_lookup_steps_over_tombstones catching c (m : @Lp.map K V) k :
  0 < c -> lp_reachable catching c m ->
  (exists j,
     0 <= j <= Lp.capacity m /\
     (forall i, 0 <= i < j ->
        exists e, Lp.table m !! Z.to_nat (Lp.probe hash m k i) = Some e /\
                  Lp.is_empty e = false /\
                  (Lp.is_occupied e = true -> Lp.key e <> k)) /\
     ((j < Lp.capacity m /\
       (exists e, Lp.table m !! Z.to_nat (Lp.probe hash m k j) = Some e /\
                  Lp.is_empty e = true) /\
       Lp.contains_key hash m k = Value false /\
       Lp.at_ hash m k = Raise (out_of_range "Key not found in LpHashMap") /\
       Lp.remove hash k m = Returns None m)
      \/
      (j < Lp.capacity m /\
       exists e, Lp.table m !! Z.to_nat (Lp.probe hash m k j) = Some e /\
                 Lp.is_occupied e = true /\ Lp.key e = k /\
                 Lp.contains_key hash m k = Value true /\
                 Lp.at_ hash m k = Value (Lp.value e) /\
                 exists m', Lp.remove hash k m
                            = Returns (Some (Lp.value e)) m')
      \/
      (j = Lp.capacity m /\ Lp.capacity m < 4 /\
       Lp.contains_key hash m k = Value false /\
       Lp.at_ hash m k = Raise (out_of_range "Key not found in LpHashMap") /\
       Lp.remove hash k m = Returns None m))) /\
  (forall e : @Lp.Entry K V,
     Lp.is_deleted e = true -> Lp.passed k e = true) /\
  (forall k' r m',
     k' <> k -> Lp.remove hash k' m = Returns r m' ->
     Lp.at_ hash m' k = Lp.at_ hash m k /\
     Lp.contains_key hash m' k = Lp.contains_key hash m k).
Proof.
  intros Hc Hreach.
  pose proof (lp_reachable_inv _ _ _ _ _ _ Hc Hreach) as [[Hsh _] _].
  split; [| split].
  - destruct (lp_find_slot_for_lookup_spec hash m k Hsh)
      as (j & Hj & Hpre & Hend).
    exists j. split; [exact Hj |]. split.
    + intros i Hi. destruct (Hpre i Hi) as (e & He & Hp).
      exists e. split; [exact He |].
      destruct (lp_passed_not_hit k e Hp) as [Hne Hnh].
      split; [exact Hne |]. intros Hocc Hkey. exact (Hnh Hocc Hkey).
    + unfold Lp.contains_key, Lp.at_, Lp.at_ref, Lp.remove.
      destruct Hend as [(Hlt & He & ->) | [(Hlt & (e & He & Ho & Hk) & ->)
                                          | (Heq & ->)]];
        cbn [result_bind on outcome_bind].
      * left. split; [exact Hlt |]. split; [exact He |].
        rewrite Z.ltb_irrefl. repeat split.
      * right. left. split; [exact Hlt |].
        assert (Hr : 0 <= Lp.probe hash m k j < Lp.capacity m)
          by (apply lp_probe_range; destruct Hsh; lia).
        assert (Hlt' : (Lp.probe hash m k j <? Lp.capacity m) = true)
          by (apply Z.ltb_lt; lia).
        rewrite Hlt'. cbn [result_bind]. unfold Lp.read.
        rewrite (vector_at_lookup (Lp.table m) (Lp.probe hash m k j) e);
          [| lia | exact He].
        cbn [result_bind on outcome_bind].
        exists e. repeat (split; [first [assumption | reflexivity] |]).
        eexists. reflexivity.
      * right. right. split; [exact Heq |]. split.
        { apply (lp_reachable_not_full hash default_key default_value
                   catching c m k Hc Hreach).
          intros i Hi. destruct (Hpre i ltac:(lia)) as (e & He & Hp).
          exists e. split; [exact He |].
          exact (proj1 (lp_passed_not_hit k e Hp)). }
        rewrite Z.ltb_irrefl. repeat split.
  - intros e Hdel. unfold Lp.passed, Lp.is_empty, Lp.is_occupied.
    unfold Lp.is_deleted in Hdel.
    destruct (Lp.state e); try discriminate. reflexivity.
  - intros k' r m' Hne Hrem.
    exact (proj2 (lp_remove_other hash m k' k r m' Hsh Hne Hrem)).
Qed.

(** C6.  Round trip.  In each of the three variants, whatever capacity the
    map was built with and whatever calls came before (those that threw
    and were caught included), when [insert(k, v)] returns, the [at(k)]
    that follows returns [v] and [contains_key(k)] returns [true]. *)
Theorem insert_then_at_round_trip catching c k v :
  0 <= c ->
  (forall m m' : @Sc.map K V,
     sc_reachable catching c m -> Sc.insert hash k v m = Returns tt m' ->
     Sc.at_ hash m' k = Value v /\ Sc.contains_key hash m' k = Value true)
  /\
  (forall m m' : @Lp.map K V,
     lp_reachable catching c m ->
     Lp.insert hash default_key default_value k v m = Returns tt m' ->
     Lp.at_ hash m' k = Value v /\ Lp.contains_key hash m' k = Value true)
  /\
  (forall g (m m' : @Ck.map K V H Rng),
     ck_reachable catching c g m -> ck_insert k v m = Returns tt m' ->
     Ck.at_ hasher_hash m' k = Value v /\
     Ck.contains_key hasher_hash m' k = Value true).
Proof.
  intros Hc.
  assert (Hcases : c = 0 \/ 0 < c) by lia.
  split; [| split].
  - intros m m' Hreach Hins. destruct Hcases as [-> | Hpos].
    + destruct (sc_reachable_capacity_zero hash default_value catching m
                  Hreach) as [H0 Hb].
      rewrite (sc_insert_capacity_zero hash m k v H0 Hb) in Hins.
      discriminate.
    + exact (sc_insert_at hash m k v m'
               (sc_reachable_inv _ _ _ _ _ Hpos Hreach) Hins).
  - intros m m' Hreach Hins. destruct Hcases as [-> | Hpos].
    + destruct (lp_reachable_capacity_zero hash default_key default_value
                  catching m Hreach) as [H0 Hb].
      rewrite (lp_insert_capacity_zero hash default_key default_value
                 m k v H0 Hb) in Hins.
      discriminate.
    + exact (lp_insert_at hash default_key default_value m k v m'
               (lp_reachable_inv _ _ _ _ _ _ Hpos Hreach) Hins).
  - intros g m m' Hreach Hins. destruct Hcases as [-> | Hpos].
    + destruct (ck_reachable_capacity_zero hasher_hash default_hasher
                  seeded rng_next default_key default_value catching g m
                  Hreach) as (H0 & Hb1 & Hb2).
      rewrite (ck_insert_capacity_zero hasher_hash default_hasher seeded
                 rng_next default_key default_value m k v H0 Hb1 Hb2)
        in Hins.
      discriminate.
    + pose proof (ck_reachable_inv _ _ _ _ _ _ _ _ _ _ Hpos Hreach)
        as Hinv.
      exact (proj2 (ensures_returns _ _ _ _ _
                      (ck_insert_ensures hasher_hash default_hasher seeded
                         rng_next default_key default_value m k v Hinv)
                      Hins)).
Qed.

(** C7.  Load factor bound.  From a map built with the default capacity,
    after every sequence of calls that all return, [size() / capacity] is
    at most 3/4 in the chaining map, at most 7/10 in the probing map and
    at most 1/2 in the cuckoo map ([capacity] is the member, the length
    of each table). *)
Theorem load_factor_bound :
  (forall m : @Sc.map K V,
     sc_reachable false Sc.INITIAL_CAPACITY m ->
     0 < Sc.capacity m /\ 4 * Sc.size m <= 3 * Sc.capacity m) /\
  (forall m : @Lp.map K V,
     lp_reachable false Lp.INITIAL_CAPACITY m ->
     0 < Lp.capacity m /\ 10 * Lp.size m <= 7 * Lp.capacity m) /\
  (forall g (m : @Ck.map K V H Rng),
     ck_reachable false Ck.INITIAL_CAPACITY g m ->
     0 < Ck.capacity m /\ 2 * Ck.size m <= Ck.capacity m).
Proof.
  split; [| split].
  - intros m Hreach.
    destruct (sc_reachable_inv hash default_value false
                Sc.INITIAL_CAPACITY m eq_refl Hreach)
      as [[[_ Hcap] _] Hload].
    unfold Sc.within_load in Hload. unfold Sc.size.
    split; [lia | exact Hload].
  - intros m Hreach.
    destruct (lp_reachable_inv hash default_key default_value false
                Lp.INITIAL_CAPACITY m eq_refl Hreach)
      as [[[_ Hcap] _] Hload].
    unfold Lp.within_load in Hload. unfold Lp.size.
    split; [lia | exact Hload].
  - intros g m Hreach.
    destruct (ck_reachable_inv hasher_hash default_hasher seeded rng_next
                default_key default_value false Ck.INITIAL_CAPACITY g m
                eq_refl Hreach)
      as [[(_ & _ & Hcap) _] Hload].
    unfold Ck.within_load in Hload. unfold Ck.size.
    split; [lia | exact Hload].
Qed.

(** C10, as amended.  In each of the three variants, a map built with a
    capacity above 0 keeps a capacity above 0 through every sequence of
    calls, those included that threw another exception than
    [std::length_error] and were caught; the remainders
    [hash(key) % capacity] of its operations are defined and below the
    capacity. *)
Theorem capacity_stays_positive catching c :
  0 < c ->
  (forall (m : @Sc.map K V) k,
     sc_reachable catching c m ->
     0 < Sc.capacity m /\
     Sc.get_bucket_index hash m k = Value (hash k mod Sc.capacity m)) /\
  (forall (m : @Lp.map K V) k,
     lp_reachable catching c m ->
     0 < Lp.capacity m /\
     Lp.get_hash hash m k = Value (hash k mod Lp.capacity m)) /\
  (forall g (m : @Ck.map K V H Rng) k,
     ck_reachable catching c g m ->
     0 < Ck.capacity m /\
     Ck.get_hash1 hasher_hash m k
     = Value (hasher_hash (Ck.hasher1 m) k mod Ck.capacity m) /\
     Ck.get_hash2 hasher_hash m k
     = Value (hasher_hash (Ck.hasher2 m) k mod Ck.capacity m)).
Proof.
  intros Hc. split; [| split].
  - intros m k Hreach.
    destruct (sc_reachable_inv hash default_value catching c m Hc Hreach)
      as [[Hsh _] _].
    split; [destruct Hsh; lia |].
    exact (proj1 (sc_get_bucket_index hash m k Hsh)).
  - intros m k Hreach.
    destruct (lp_reachable_inv hash default_key default_value catching c m
                Hc Hreach) as [[Hsh _] _].
    split; [destruct Hsh; lia |].
    rewrite (lp_get_hash hash m k Hsh). unfold Lp.probe.
    rewrite Z.add_0_r. reflexivity.
  - intros g m k Hreach.
    destruct (ck_reachable_inv hasher_hash default_hasher seeded rng_next
                default_key default_value catching c g m Hc Hreach)
      as [[Hsh _] _].
    split; [destruct Hsh as (_ & _ & Hcap); lia |].
    split.
    + exact (proj1 (ck_get_hash1 hasher_hash m k Hsh)).
    + exact (proj1 (ck_get_hash2 hasher_hash m k Hsh)).
Qed.

End Claims.

(** ** The properties at [int] keys *)

(** C5 fails as it is written: a lookup ends without success at no [Empty]
    slot.  [LpHashMap<int, int> m(2)] after
    [m.insert(0, 10); m.remove(0); m.insert(3, 30)] holds a tombstone in
    slot 0 and key 3 in slot 1; [m.contains_key(5)] starts at slot 0, steps
    over both and stops when it is back at slot 0. *)
Lemma lp_lookup_ends_without_empty_slot :
  exists m0 m1 m2 m3,
    IntKeys.lp_new 2 = Some m0 /\
    IntKeys.lp_insert 0 10 m0 = Returns tt m1 /\
    IntKeys.lp_remove 0 m1 = Returns (Some 10) m2 /\
    IntKeys.lp_insert 3 30 m2 = Returns tt m3 /\
    IntKeys.lp_reachable 2 m3 /\
    Lp.table m3 = [Lp.mkEntry 0 10 Lp.Deleted; Lp.mkEntry 3 30 Lp.Occupied] /\
    Lp.get_hash IntKeys.default_hash m3 5 = Value 0 /\
    IntKeys.lp_contains_key m3 5 = Value false /\
    IntKeys.lp_at m3 5 = Raise (out_of_range "Key not found in LpHashMap") /\
    ~ Lp.meets_empty_slot IntKeys.default_hash m3 5.
Proof.
  run_as m0 (IntKeys.lp_new 2).
  run_as m1 (IntKeys.lp_insert 0 10 m0).
  run_as m2 (IntKeys.lp_remove 0 m1).
  run_as m3 (IntKeys.lp_insert 3 30 m2).
  assert (H0 : IntKeys.lp_new 2 = Some m0) by by_evaluation.
  assert (H1 : IntKeys.lp_insert 0 10 m0 = Returns tt m1) by by_evaluation.
  assert (H2 : IntKeys.lp_remove 0 m1 = Returns (Some 10) m2)
    by by_evaluation.
  assert (H3 : IntKeys.lp_insert 3 30 m2 = Returns tt m3) by by_evaluation.
  exists m0, m1, m2, m3.
  split; [exact H0 |]. split; [exact H1 |]. split; [exact H2 |].
  split; [exact H3 |]. split.
  { apply (Lp.reachable_step _ _ _ _ _ m2 m3);
      [| exact (Lp.step_insert _ _ _ _ _ _ _ _ H3)].
    apply (Lp.reachable_step _ _ _ _ _ m1 m2);
      [| exact (Lp.step_remove _ _ _ _ _ _ _ _ H2)].
    apply (Lp.reachable_step _ _ _ _ _ m0 m1);
      [| exact (Lp.step_insert _ _ _ _ _ _ _ _ H1)].
    apply Lp.reachable_new. exact H0. }
  split; [reflexivity |]. split; [by_evaluation |].
  split; [by_evaluation |]. split; [by_evaluation |].
  intros (j & e & Hj & He & Hempty).
  change (Lp.capacity m3) with 2 in Hj.
  assert (Hjs : j = 0 \/ j = 1) by lia.
  destruct Hjs as [-> | ->]; vm_compute in He; injection He as <-;
    discriminate.
Qed.

(** Tombstone transparency in the run of C1: keys 0 and 1 both start at slot
    14 of [LpHashMap<int, int>], key 1 is stored one slot further, and it is
    found with its value after [remove(0)]. *)
Lemma lp_lookup_steps_over_tombstones_witness :
  exists m0 m1 m2 m3,
    IntKeys.lp_new 16 = Some m0 /\
    IntKeys.lp_insert 0 10 m0 = Returns tt m1 /\
    IntKeys.lp_insert 1 20 m1 = Returns tt m2 /\
    IntKeys.lp_remove 0 m2 = Returns (Some 10) m3 /\
    IntKeys.lp_at m2 1 = Value 20 /\
    IntKeys.lp_at m3 1 = IntKeys.lp_at m2 1 /\
    IntKeys.lp_contains_key m3 1 = IntKeys.lp_contains_key m2 1.
Proof.
  run_as m0 (IntKeys.lp_new 16).
  run_as m1 (IntKeys.lp_insert 0 10 m0).
  run_as m2 (IntKeys.lp_insert 1 20 m1).
  run_as m3 (IntKeys.lp_remove 0 m2).
  assert (H0 : IntKeys.lp_new 16 = Some m0) by by_evaluation.
  assert (H1 : IntKeys.lp_insert 0 10 m0 = Returns tt m1) by by_evaluation.
  assert (H2 : IntKeys.lp_insert 1 20 m1 = Returns tt m2) by by_evaluation.
  assert (H3 : IntKeys.lp_remove 0 m2 = Returns (Some 10) m3)
    by by_evaluation.
  assert (Hreach : IntKeys.lp_reachable 16 m2).
  { apply (Lp.reachable_step _ _ _ _ _ m1 m2);
      [| exact (Lp.step_insert _ _ _ _ _ _ _ _ H2)].
    apply (Lp.reachable_step _ _ _ _ _ m0 m1);
      [| exact (Lp.step_insert _ _ _ _ _ _ _ _ H1)].
    apply Lp.reachable_new. exact H0. }
  assert (Hpos : 0 < 16) by lia.
  assert (Hne : 0 <> 1) by lia.
  exists m0, m1, m2, m3.
  split; [exact H0 |]. split; [exact H1 |]. split; [exact H2 |].
  split; [exact H3 |]. split; [by_evaluation |].
  exact (proj2 (proj2 (lp_lookup_steps_over_tombstones IntKeys.default_hash
                         0 0 true 16 m2 1 Hpos Hreach))
           0 (Some 10) m3 Hne H3).
Defined.

(** The round trip of [insert(7, 70)] in the three maps at [int] keys,
    each built with the default capacity. *)
Lemma insert_then_at_round_trip_witness :
  exists (m1 m1' : IntKeys.sc_map) (m2 m2' : IntKeys.lp_map)
         (m3 m3' : IntKeys.ck_map),
    (IntKeys.sc_new 16 = Some m1 /\
     IntKeys.sc_insert 7 70 m1 = Returns tt m1' /\
     IntKeys.sc_at m1' 7 = Value 70 /\
     Sc.contains_key IntKeys.default_hash m1' 7 = Value true) /\
    (IntKeys.lp_new 16 = Some m2 /\
     IntKeys.lp_insert 7 70 m2 = Returns tt m2' /\
     IntKeys.lp_at m2' 7 = Value 70 /\
     IntKeys.lp_contains_key m2' 7 = Value true) /\
    (IntKeys.ck_new 16 tt = Some m3 /\
     IntKeys.ck_insert 7 70 m3 = Returns tt m3' /\
     IntKeys.ck_at m3' 7 = Value 70 /\
     IntKeys.ck_contains_key m3' 7 = Value true).
Proof.
  run_as m1 (IntKeys.sc_new 16).
  run_as m1' (IntKeys.sc_insert 7 70 m1).
  run_as m2 (IntKeys.lp_new 16).
  run_as m2' (IntKeys.lp_insert 7 70 m2).
  run_as m3 (IntKeys.ck_new 16 tt).
  run_as m3' (IntKeys.ck_insert 7 70 m3).
  assert (Hn1 : IntKeys.sc_new 16 = Some m1) by by_evaluation.
  assert (Hi1 : IntKeys.sc_insert 7 70 m1 = Returns tt m1') by by_evaluation.
  assert (Hn2 : IntKeys.lp_new 16 = Some m2) by by_evaluation.
  assert (Hi2 : IntKeys.lp_insert 7 70 m2 = Returns tt m2') by by_evaluation.
  assert (Hn3 : IntKeys.ck_new 16 tt = Some m3) by by_evaluation.
  assert (Hi3 : IntKeys.ck_insert 7 70 m3 = Returns tt m3') by by_evaluation.
  assert (Hc : 0 <= 16) by lia.
  destruct (insert_then_at_round_trip IntKeys.default_hash 0 0
              IntKeys.identity_hash tt None (fun g : unit => (0, g))
              true 16 7 70 Hc) as (Hsc & Hlp & Hck).
  exists m1, m1', m2, m2', m3, m3'.
  split; [| split].
  - split; [exact Hn1 |]. split; [exact Hi1 |].
    exact (Hsc m1 m1' (Sc.reachable_new _ _ _ _ m1 Hn1) Hi1).
  - split; [exact Hn2 |]. split; [exact Hi2 |].
    exact (Hlp m2 m2' (Lp.reachable_new _ _ _ _ _ m2 Hn2) Hi2).
  - split; [exact Hn3 |]. split; [exact Hi3 |].
    exact (Hck tt m3 m3' (Ck.reachable_new _ _ _ _ _ _ _ _ _ m3 Hn3) Hi3).
Defined.

(** The bound after one [insert] in each map at [int] keys. *)
Lemma load_factor_bound_witness :
  exists (m1 : IntKeys.sc_map) (m2 : IntKeys.lp_map) (m3 : IntKeys.ck_map),
    (Sc.size m1 = 1 /\ Sc.capacity m1 = 16 /\
     4 * Sc.size m1 <= 3 * Sc.capacity m1) /\
    (Lp.size m2 = 1 /\ Lp.capacity m2 = 16 /\
     10 * Lp.size m2 <= 7 * Lp.capacity m2) /\
    (Ck.size m3 = 1 /\ Ck.capacity m3 = 16 /\
     2 * Ck.size m3 <= Ck.capacity m3).
Proof.
  run_as m1 (IntKeys.sc_new 16).
  run_as m1' (IntKeys.sc_insert 7 70 m1).
  run_as m2 (IntKeys.lp_new 16).
  run_as m2' (IntKeys.lp_insert 7 70 m2).
  run_as m3 (IntKeys.ck_new 16 tt).
  run_as m3' (IntKeys.ck_insert 7 70 m3).
  assert (Hn1 : IntKeys.sc_new 16 = Some m1) by by_evaluation.
  assert (Hi1 : IntKeys.sc_insert 7 70 m1 = Returns tt m1') by by_evaluation.
  assert (Hn2 : IntKeys.lp_new 16 = Some m2) by by_evaluation.
  assert (Hi2 : IntKeys.lp_insert 7 70 m2 = Returns tt m2') by by_evaluation.
  assert (Hn3 : IntKeys.ck_new 16 tt = Some m3) by by_evaluation.
  assert (Hi3 : IntKeys.ck_insert 7 70 m3 = Returns tt m3') by by_evaluation.
  destruct (load_factor_bound IntKeys.default_hash 0 0
              IntKeys.identity_hash tt None (fun g : unit => (0, g)))
    as (Hsc & Hlp & Hck).
  exists m1', m2', m3'.
  split; [| split]; (split; [reflexivity |]); (split; [reflexivity |]).
  - apply Hsc.
    apply (Sc.reachable_step _ _ _ _ m1 m1');
      [| exact (Sc.step_insert _ _ _ _ _ _ _ Hi1)].
    apply Sc.reachable_new. exact Hn1.
  - apply Hlp.
    apply (Lp.reachable_step _ _ _ _ _ m2 m2');
      [| exact (Lp.step_insert _ _ _ _ _ _ _ _ Hi2)].
    apply Lp.reachable_new. exact Hn2.
  - apply (Hck tt).
    apply (Ck.reachable_step _ _ _ _ _ _ _ _ _ m3 m3');
      [| exact (Ck.step_insert _ _ _ _ _ _ _ _ _ _ _ Hi3)].
    apply Ck.reachable_new. exact Hn3.
Defined.

(** C10 fails as it is written.  [ScHashMap<int, int> m(0)],
    [LpHashMap<int, int> m(0)] and
    [CkHashMap<int, int, IdentityHasher> m(0)] are built with capacity 0
    and no slot; [hash(key) % capacity] then divides by zero, in [insert]
    as in the lookups. *)
Lemma capacity_zero_after_construction :
  exists (m1 : IntKeys.sc_map) (m2 : IntKeys.lp_map) (m3 : IntKeys.ck_map),
    (IntKeys.sc_new 0 = Some m1 /\ Sc.capacity m1 = 0 /\
     IntKeys.sc_reachable 0 m1 /\
     Sc.get_bucket_index IntKeys.default_hash m1 1 = Undefined /\
     IntKeys.sc_insert 1 10 m1 = Undefined_behaviour) /\
    (IntKeys.lp_new 0 = Some m2 /\ Lp.capacity m2 = 0 /\
     IntKeys.lp_reachable 0 m2 /\
     Lp.get_hash IntKeys.default_hash m2 1 = Undefined /\
     IntKeys.lp_insert 1 10 m2 = Undefined_behaviour) /\
    (IntKeys.ck_new 0 tt = Some m3 /\ Ck.capacity m3 = 0 /\
     IntKeys.ck_reachable 0 tt m3 /\
     Ck.get_hash1 IntKeys.identity_hash m3 1 = Undefined /\
     IntKeys.ck_insert 1 10 m3 = Undefined_behaviour).
Proof.
  run_as m1 (IntKeys.sc_new 0).
  run_as m2 (IntKeys.lp_new 0).
  run_as m3 (IntKeys.ck_new 0 tt).
  exists m1, m2, m3.
  split; [| split]; (split; [reflexivity |]); (split; [reflexivity |]);
    (split; [| split; by_evaluation]).
  - apply Sc.reachable_new. reflexivity.
  - apply Lp.reachable_new. reflexivity.
  - apply Ck.reachable_new. reflexivity.
Qed.

(** The maps at [int] keys built with the default capacity, after one
    [insert]. *)
Lemma capacity_stays_positive_witness :
  exists (m1 : IntKeys.sc_map) (m2 : IntKeys.lp_map) (m3 : IntKeys.ck_map),
    (IntKeys.sc_reachable 16 m1 /\ 0 < Sc.capacity m1 /\
     Sc.get_bucket_index IntKeys.default_hash m1 5
     = Value (IntKeys.default_hash 5 mod Sc.capacity m1)) /\
    (IntKeys.lp_reachable 16 m2 /\ 0 < Lp.capacity m2 /\
     Lp.get_hash IntKeys.default_hash m2 5
     = Value (IntKeys.default_hash 5 mod Lp.capacity m2)) /\
    (IntKeys.ck_reachable 16 tt m3 /\ 0 < Ck.capacity m3 /\
     Ck.get_hash1 IntKeys.identity_hash m3 5
     = Value (IntKeys.identity_hash (Ck.hasher1 m3) 5 mod Ck.capacity m3) /\
     Ck.get_hash2 IntKeys.identity_hash m3 5
     = Value (IntKeys.identity_hash (Ck.hasher2 m3) 5 mod Ck.capacity m3)).
Proof.
  run_as m1 (IntKeys.sc_new 16).
  run_as m1' (IntKeys.sc_insert 7 70 m1).
  run_as m2 (IntKeys.lp_new 16).
  run_as m2' (IntKeys.lp_insert 7 70 m2).
  run_as m3 (IntKeys.ck_new 16 tt).
  run_as m3' (IntKeys.ck_insert 7 70 m3).
  assert (Hn1 : IntKeys.sc_new 16 = Some m1) by by_evaluation.
  assert (Hi1 : IntKeys.sc_insert 7 70 m1 = Returns tt m1') by by_evaluation.
  assert (Hn2 : IntKeys.lp_new 16 = Some m2) by by_evaluation.
  assert (Hi2 : IntKeys.lp_insert 7 70 m2 = Returns tt m2') by by_evaluation.
  assert (Hn3 : IntKeys.ck_new 16 tt = Some m3) by by_evaluation.
  assert (Hi3 : IntKeys.ck_insert 7 70 m3 = Returns tt m3') by by_evaluation.
  assert (Hr1 : IntKeys.sc_reachable 16 m1').
  { apply (Sc.reachable_step _ _ _ _ m1 m1');
      [| exact (Sc.step_insert _ _ _ _ _ _ _ Hi1)].
    apply Sc.reachable_new. exact Hn1. }
  assert (Hr2 : IntKeys.lp_reachable 16 m2').
  { apply (Lp.reachable_step _ _ _ _ _ m2 m2');
      [| exact (Lp.step_insert _ _ _ _ _ _ _ _ Hi2)].
    apply Lp.reachable_new. exact Hn2. }
  assert (Hr3 : IntKeys.ck_reachable 16 tt m3').
  { apply (Ck.reachable_step _ _ _ _ _ _ _ _ _ m3 m3');
      [| exact (Ck.step_insert _ _ _ _ _ _ _ _ _ _ _ Hi3)].
    apply Ck.reachable_new. exact Hn3. }
  assert (Hc : 0 < 16) by lia.
  destruct (capacity_stays_positive IntKeys.default_hash 0 0
              IntKeys.identity_hash tt None (fun g : unit => (0, g))
              true 16 Hc) as (Hsc & Hlp & Hck).
  exists m1', m2', m3'.
  split; [| split].
  - split; [exact Hr1 |]. exact (Hsc m1' 5 Hr1).
  - split; [exact Hr2 |]. exact (Hlp m2' 5 Hr2).
  - split; [exact Hr3 |]. exact (Hck tt m3' 5 Hr3).
Defined.

(** * Further properties of the maps *)

(** ** [ScHashMap] *)

Section ScTheorems.

Context {K V : Type} `{EqDecision K}.
Context (hash : K -> Z) (default_value : V).

Local Abbreviation map := (@Sc.map K V).
Local Abbreviation reachable := (Sc.reachable hash default_value).
Local Abbreviation at_ := (Sc.at_ hash).
Local Abbreviation contains_key := (Sc.contains_key hash).
Local Abbreviation not_found :=
  (Raise (out_of_range "Key not found in HashMap") : result V).

Implicit Types (m : map) (k : K) (v : V).

(** X1.  The representation of a chaining map that a program reaches from a
    constructor call with a capacity above 0: there are [capacity] buckets,
    [size()] is the number of stored entries, every entry lies in the bucket
    [hash(key) % capacity] of its key, and no two entries have the same key.
    *)
Theorem sc_representation catching c m :
  0 < c -> reachable catching c m ->
  Z.of_nat (length (Sc.buckets m)) = Sc.bucket_count m /\
  Sc.size m = Z.of_nat (length (Sc.entries m)) /\
  (forall i bucket e,
     Sc.buckets m !! i = Some bucket -> e ∈ bucket ->
     hash (Sc.key e) mod Sc.bucket_count m = Z.of_nat i) /\
  Sc.unique_keys m.
Proof.
  intros Hc Hreach.
  destruct (sc_reachable_sound hash default_value catching c m Hc Hreach)
    as ((((Hlen & _) & Hsize) & _) & Hpl & Hdi).
  split; [exact Hlen |]. split; [exact Hsize |]. split; [exact Hpl |].
  exact (sc_unique_keys hash m Hpl Hdi).
Qed.

(** X2.  [at] and [contains_key] of a reachable chaining map agree, and
    neither reads outside a vector: either [contains_key(k)] is [true] and
    [at(k)] returns a value, or [contains_key(k)] is [false] and [at(k)]
    throws [std::out_of_range]. A map just built holds no key. *)
Theorem sc_at_contains_agree catching c m k :
  0 < c -> reachable catching c m ->
  ((exists v, at_ m k = Value v /\ contains_key m k = Value true) \/
   (at_ m k = not_found /\ contains_key m k = Value false)) /\
  (Sc.new c = Some m ->
   contains_key m k = Value false /\ Sc.size m = 0 /\ Sc.empty m = true).
Proof.
  intros Hc Hreach.
  destruct (sc_reachable_sound hash default_value catching c m Hc Hreach)
    as (((Hsh & _) & _) & _ & _).
  rewrite (sc_at_lookup hash m k Hsh), (sc_contains_lookup hash m k Hsh).
  split.
  - destruct (Sc.lookup hash m k) as [v |]; [left; eauto | right; auto].
  - intros Hnew. unfold Sc.new in Hnew.
    destruct (vector_new c ([] : list (@Sc.Entry K V))) as [bs |] eqn:Hbs;
      [| discriminate].
    injection Hnew as <-. apply vector_new_inv in Hbs as [_ ->].
    destruct (sc_fresh_sound (V := V) hash (Z.to_nat c) c 0)
      as (_ & _ & Hnone).
    rewrite Hnone. auto.
Qed.

(** X3.  [insert(k, v)] on a reachable chaining map never indexes outside a
    vector: it returns or it throws. When it returns, [at(k)] is [v], every
    other key is found or missing as before and with the value it had,
    [size()] has grown by one if the key was new and is unchanged if it was
    present, and [bucket_count()] has doubled exactly when [(size + 1) /
    capacity > 0.75] held. *)
Theorem sc_insert_effect catching c m k v :
  0 < c -> reachable catching c m ->
  (exists m',
     Sc.insert hash k v m = Returns tt m' /\
     at_ m' k = Value v /\
     (forall k', k' <> k ->
        at_ m' k' = at_ m k' /\ contains_key m' k' = contains_key m k') /\
     (contains_key m k = Value true -> Sc.size m' = Sc.size m) /\
     (contains_key m k = Value false -> Sc.size m' = Sc.size m + 1) /\
     Sc.bucket_count m'
     = (if Sc.needs_resize m then 2 * Sc.bucket_count m
        else Sc.bucket_count m))
  \/
  (exists ex m', Sc.insert hash k v m = Throws ex m').
Proof.
  intros Hc Hreach.
  pose proof (sc_reachable_sound hash default_value catching c m Hc Hreach)
    as Hsound.
  pose proof Hsound as (((Hsh & _) & _) & _ & _).
  destruct (sc_insert_spec hash m k v Hsound)
    as [(m' & Hm' & Hsound' & Hcap' & Hsize' & Hlook')
       | (Hneed & Hmax & Hthrow)].
  - left. exists m'. pose proof Hsound' as (((Hsh' & _) & _) & _ & _).
    split; [exact Hm' |]. split.
    { rewrite (sc_at_lookup hash m' k Hsh'), Hlook'.
      rewrite decide_True by reflexivity. reflexivity. }
    split.
    { intros k' Hne.
      rewrite (sc_at_lookup hash m' k' Hsh'), (sc_at_lookup hash m k' Hsh).
      rewrite (sc_contains_lookup hash m' k' Hsh').
      rewrite (sc_contains_lookup hash m k' Hsh).
      rewrite Hlook', decide_False by exact Hne. auto. }
    rewrite (sc_contains_lookup hash m k Hsh). unfold Sc.size.
    split; [| split; [| exact Hcap']].
    + intros Hc'. destruct (Sc.lookup hash m k); [lia | discriminate].
    + intros Hc'. destruct (Sc.lookup hash m k); [discriminate | lia].
  - right. eauto.
Qed.

(** X4.  [remove(k)] on a reachable chaining map always returns. It returns
    the value that [at(k)] had, or [nullopt] when the key was missing, in
    which case the map is unchanged. Afterwards the key is missing, every
    other key is found or missing as before and with the value it had,
    [size()] is one less if the key was present, and [bucket_count()] is
    unchanged. *)
Theorem sc_remove_effect catching c m k :
  0 < c -> reachable catching c m ->
  exists r m',
    Sc.remove hash k m = Returns r m' /\
    at_ m k = match r with Some v => Value v | None => not_found end /\
    (r = None -> m' = m) /\
    contains_key m' k = Value false /\ at_ m' k = not_found /\
    (forall k', k' <> k ->
       at_ m' k' = at_ m k' /\ contains_key m' k' = contains_key m k') /\
    Sc.size m' = Sc.size m - match r with Some _ => 1 | None => 0 end /\
    Sc.bucket_count m' = Sc.bucket_count m.
Proof.
  intros Hc Hreach.
  pose proof (sc_reachable_sound hash default_value catching c m Hc Hreach)
    as Hsound.
  pose proof Hsound as (((Hsh & _) & _) & _ & _).
  destruct (sc_remove_spec hash m k Hsound)
    as (m' & Hm' & Hsound' & Hcap' & Hsize' & Hsame & Hlook').
  pose proof Hsound' as (((Hsh' & _) & _) & _ & _).
  exists (Sc.lookup hash m k), m'. split; [exact Hm' |].
  split; [exact (sc_at_lookup hash m k Hsh) |]. split; [exact Hsame |].
  rewrite (sc_contains_lookup hash m' k Hsh'), (sc_at_lookup hash m' k Hsh').
  rewrite Hlook', decide_True by reflexivity.
  split; [reflexivity |]. split; [reflexivity |]. split.
  { intros k' Hne.
    rewrite (sc_at_lookup hash m' k' Hsh'), (sc_at_lookup hash m k' Hsh).
    rewrite (sc_contains_lookup hash m' k' Hsh').
    rewrite (sc_contains_lookup hash m k' Hsh).
    rewrite Hlook', decide_False by exact Hne. auto. }
  split; [| exact Hcap']. unfold Sc.size. rewrite Hsize'.
  destruct (Sc.lookup hash m k); reflexivity.
Qed.

(** X5.  [clear()] on a reachable chaining map leaves a map of the same
    [bucket_count()] with [size() == 0] in which every key is missing. *)
Theorem sc_clear_effect catching c m k :
  0 < c -> reachable catching c m ->
  Sc.size (Sc.clear m) = 0 /\ Sc.empty (Sc.clear m) = true /\
  Sc.bucket_count (Sc.clear m) = Sc.bucket_count m /\
  contains_key (Sc.clear m) k = Value false /\
  at_ (Sc.clear m) k = not_found.
Proof.
  intros Hc Hreach.
  pose proof (sc_reachable_sound hash default_value catching c m Hc Hreach)
    as Hsound.
  destruct (sc_clear_spec hash m Hsound) as (Hsound' & _ & _ & Hnone).
  pose proof Hsound' as (((Hsh' & _) & _) & _ & _).
  rewrite (sc_contains_lookup hash _ k Hsh'), (sc_at_lookup hash _ k Hsh').
  rewrite Hnone. repeat split.
Qed.


(** X7.  Assigning through the reference that the non-const [at(k)] of a
    reachable chaining map returns: afterwards [at(k)] is the assigned value,
    every other key is found or missing as before and with the value it had,
    and [size()] and [bucket_count()] are unchanged. *)
Theorem sc_assign_effect catching c m k r v :
  0 < c -> reachable catching c m -> Sc.at_ref hash m k = Value r ->
  at_ (Sc.assign m r v) k = Value v /\
  (forall k', k' <> k ->
     at_ (Sc.assign m r v) k' = at_ m k' /\
     contains_key (Sc.assign m r v) k' = contains_key m k') /\
  Sc.size (Sc.assign m r v) = Sc.size m /\
  Sc.bucket_count (Sc.assign m r v) = Sc.bucket_count m.
Proof.
  intros Hc Hreach Hat.
  pose proof (sc_reachable_sound hash default_value catching c m Hc Hreach)
    as Hsound.
  pose proof Hsound as (((Hsh & _) & _) & _ & _).
  destruct (sc_assign_spec hash m k r v Hsound Hat)
    as (Hsound' & Hsize' & Hcap' & Hlook').
  pose proof Hsound' as (((Hsh' & _) & _) & _ & _).
  split.
  { rewrite (sc_at_lookup hash _ k Hsh'), Hlook'.
    rewrite decide_True by reflexivity. reflexivity. }
  split; [| split; [exact Hsize' | exact Hcap']].
  intros k' Hne.
  rewrite (sc_at_lookup hash _ k' Hsh'), (sc_at_lookup hash m k' Hsh).
  rewrite (sc_contains_lookup hash _ k' Hsh').
  rewrite (sc_contains_lookup hash m k' Hsh).
  rewrite Hlook', decide_False by exact Hne. auto.
Qed.

(** X8.  [bucket_count()] of a chaining map that a program reaches from a
    constructor call with the capacity [c > 0] is [c] times a power of two:
    [resize] is the only function that changes it, by doubling, and nothing
    shrinks the table. *)
Theorem sc_bucket_count_growth catching c m :
  0 < c -> Sc.reachable hash default_value catching c m ->
  exists n, 0 <= n /\ Sc.bucket_count m = 2 ^ n * c.
Proof.
  intros Hc Hreach. unfold Sc.bucket_count.
  induction Hreach as [m Hnew | m m' Hreach IH Hstep].
  - exists 0. split; [lia |]. unfold Sc.new in Hnew.
    destruct (vector_new c ([] : list (@Sc.Entry K V))); [| discriminate].
    injection Hnew as <-. cbn [Sc.capacity]. lia.
  - destruct IH as (n & Hn & Hcap).
    pose proof (sc_reachable_sound hash default_value catching c m Hc Hreach)
      as Hsound.
    destruct (sc_step_capacity hash default_value catching m m' Hsound Hstep)
      as [-> | ->].
    + exists n. auto.
    + exists (Z.succ n). split; [lia |]. rewrite Z.pow_succ_r by lia. lia.
Qed.

End ScTheorems.

(** *** Runs of [ScHashMap<int, int>] *)

(** [reference_as r c] evaluates the call [c] of [at] and names the
    reference it returns [r]. *)
Ltac reference_as r c :=
  let x := eval vm_compute in c in
  lazymatch x with
  | Value ?y => pose (r := y)
  end.

(** The map after [ScHashMap<int, int> m(16); m.insert(7, 70)]. *)
Ltac sc_sample m Hr :=
  let m0 := fresh "m0" in
  let Hn := fresh "Hn" in
  let Hi := fresh "Hi" in
  run_as m0 (IntKeys.sc_new 16);
  run_as m (IntKeys.sc_insert 7 70 m0);
  assert (Hn : IntKeys.sc_new 16 = Some m0) by by_evaluation;
  assert (Hi : IntKeys.sc_insert 7 70 m0 = Returns tt m) by by_evaluation;
  assert (Hr : IntKeys.sc_reachable 16 m)
    by (apply (Sc.reachable_step _ _ _ _ m0 m);
        [apply Sc.reachable_new; exact Hn
        | exact (Sc.step_insert _ _ _ _ _ _ _ Hi)]).

Section ScRuns.

Local Abbreviation hash := IntKeys.default_hash.
Local Abbreviation at_ := (Sc.at_ hash).
Local Abbreviation contains_key := (Sc.contains_key hash).
Local Abbreviation not_found :=
  (Raise (out_of_range "Key not found in HashMap") : result Z).

Lemma sc_representation_witness :
  exists m : IntKeys.sc_map,
    0 < 16 /\ IntKeys.sc_reachable 16 m /\
    Z.of_nat (length (Sc.buckets m)) = Sc.bucket_count m /\
    Sc.size m = Z.of_nat (length (Sc.entries m)) /\
    (forall i bucket e,
       Sc.buckets m !! i = Some bucket -> e ∈ bucket ->
       hash (Sc.key e) mod Sc.bucket_count m = Z.of_nat i) /\
    Sc.unique_keys m.
Proof.
  sc_sample m Hr. assert (Hc : 0 < 16) by lia.
  exists m. split; [exact Hc |]. split; [exact Hr |].
  exact (sc_representation hash 0 true 16 m Hc Hr).
Defined.

Lemma sc_at_contains_agree_witness :
  exists m : IntKeys.sc_map,
    0 < 16 /\ IntKeys.sc_reachable 16 m /\
    ((exists v, at_ m 7 = Value v /\ contains_key m 7 = Value true) \/
     (at_ m 7 = not_found /\ contains_key m 7 = Value false)) /\
    (Sc.new 16 = Some m ->
     contains_key m 7 = Value false /\ Sc.size m = 0 /\ Sc.empty m = true).
Proof.
  sc_sample m Hr. assert (Hc : 0 < 16) by lia.
  exists m. split; [exact Hc |]. split; [exact Hr |].
  exact (sc_at_contains_agree hash 0 true 16 m 7 Hc Hr).
Defined.

Lemma sc_insert_effect_witness :
  exists m : IntKeys.sc_map,
    0 < 16 /\ IntKeys.sc_reachable 16 m /\
    ((exists m',
        Sc.insert hash 8 80 m = Returns tt m' /\
        at_ m' 8 = Value 80 /\
        (forall k', k' <> 8 ->
           at_ m' k' = at_ m k' /\ contains_key m' k' = contains_key m k') /\
        (contains_key m 8 = Value true -> Sc.size m' = Sc.size m) /\
        (contains_key m 8 = Value false -> Sc.size m' = Sc.size m + 1) /\
        Sc.bucket_count m'
        = (if Sc.needs_resize m then 2 * Sc.bucket_count m
           else Sc.bucket_count m))
     \/
     (exists ex m', Sc.insert hash 8 80 m = Throws ex m')).
Proof.
  sc_sample m Hr. assert (Hc : 0 < 16) by lia.
  exists m. split; [exact Hc |]. split; [exact Hr |].
  exact (sc_insert_effect hash 0 true 16 m 8 80 Hc Hr).
Defined.

Lemma sc_remove_effect_witness :
  exists m : IntKeys.sc_map,
    0 < 16 /\ IntKeys.sc_reachable 16 m /\
    exists r m',
      Sc.remove hash 7 m = Returns r m' /\
      at_ m 7 = match r with Some v => Value v | None => not_found end /\
      (r = None -> m' = m) /\
      contains_key m' 7 = Value false /\ at_ m' 7 = not_found /\
      (forall k', k' <> 7 ->
         at_ m' k' = at_ m k' /\ contains_key m' k' = contains_key m k') /\
      Sc.size m' = Sc.size m - match r with Some _ => 1 | None => 0 end /\
      Sc.bucket_count m' = Sc.bucket_count m.
Proof.
  sc_sample m Hr. assert (Hc : 0 < 16) by lia.
  exists m. split; [exact Hc |]. split; [exact Hr |].
  exact (sc_remove_effect hash 0 true 16 m 7 Hc Hr).
Defined.

Lemma sc_clear_effect_witness :
  exists m : IntKeys.sc_map,
    0 < 16 /\ IntKeys.sc_reachable 16 m /\
    Sc.size (Sc.clear m) = 0 /\ Sc.empty (Sc.clear m) = true /\
    Sc.bucket_count (Sc.clear m) = Sc.bucket_count m /\
    contains_key (Sc.clear m) 7 = Value false /\
    at_ (Sc.clear m) 7 = not_found.
Proof.
  sc_sample m Hr. assert (Hc : 0 < 16) by lia.
  exists m. split; [exact Hc |]. split; [exact Hr |].
  exact (sc_clear_effect hash 0 true 16 m 7 Hc Hr).
Defined.


Lemma sc_assign_effect_witness :
  exists (m : IntKeys.sc_map) r,
    0 < 16 /\ IntKeys.sc_reachable 16 m /\ Sc.at_ref hash m 7 = Value r /\
    at_ (Sc.assign m r 71) 7 = Value 71 /\
    (forall k', k' <> 7 ->
       at_ (Sc.assign m r 71) k' = at_ m k' /\
       contains_key (Sc.assign m r 71) k' = contains_key m k') /\
    Sc.size (Sc.assign m r 71) = Sc.size m /\
    Sc.bucket_count (Sc.assign m r 71) = Sc.bucket_count m.
Proof.
  sc_sample m Hr. assert (Hc : 0 < 16) by lia.
  reference_as r (Sc.at_ref hash m 7).
  assert (Href : Sc.at_ref hash m 7 = Value r) by by_evaluation.
  exists m, r. split; [exact Hc |]. split; [exact Hr |].
  split; [exact Href |].
  exact (sc_assign_effect hash 0 true 16 m 7 r 71 Hc Hr Href).
Defined.

Lemma sc_bucket_count_growth_witness :
  exists m : IntKeys.sc_map,
    0 < 16 /\ IntKeys.sc_reachable 16 m /\
    exists n, 0 <= n /\ Sc.bucket_count m = 2 ^ n * 16.
Proof.
  sc_sample m Hr. assert (Hc : 0 < 16) by lia.
  exists m. split; [exact Hc |]. split; [exact Hr |].
  exact (sc_bucket_count_growth hash 0 true 16 m Hc Hr).
Defined.

End ScRuns.

(** ** [LpHashMap] *)

Section LpTheorems.

Context {K V : Type} `{EqDecision K}.
Context (hash : K -> Z) (default_key : K) (default_value : V).

Local Abbreviation map := (@Lp.map K V).
Local Abbreviation reachable :=
  (Lp.reachable hash default_key default_value).
Local Abbreviation insert := (Lp.insert hash default_key default_value).
Local Abbreviation index_ref :=
  (Lp.index_ref hash default_key default_value).
Local Abbreviation at_ := (Lp.at_ hash).
Local Abbreviation contains_key := (Lp.contains_key hash).
Local Abbreviation not_found :=
  (Raise (out_of_range "Key not found in LpHashMap") : result V).

Implicit Types (m : map) (k : K) (v : V).

(** X9.  The representation of a probing map that a program reaches from a
    constructor call with a capacity above 0: the table has [capacity] slots,
    [size()] is the number of [Occupied] slots and [deleted_count] the number
    of tombstones, at least one slot is not [Occupied], and no [Empty] slot
    lies on the probe path from [hash(key) % capacity] to an [Occupied] slot
    of the key. *)
Theorem lp_representation catching c m :
  0 < c -> reachable catching c m ->
  Z.of_nat (length (Lp.table m)) = Lp.bucket_count m /\
  Lp.size m = Lp.count Lp.is_occupied (Lp.table m) /\
  Lp.deleted_count m = Lp.count Lp.is_deleted (Lp.table m) /\
  Lp.size m < Lp.bucket_count m /\
  Lp.chained hash m.
Proof.
  intros Hc Hreach.
  destruct (lp_reachable_inv hash default_key default_value catching c m
              Hc Hreach) as (((Hlen & Hcap) & Hsize & Hdel) & Hload).
  unfold Lp.within_load in Hload. unfold Lp.size, Lp.bucket_count.
  split; [exact Hlen |]. split; [exact Hsize |]. split; [exact Hdel |].
  split; [lia |].
  exact (lp_reachable_chained hash default_key default_value catching c m
           Hc Hreach).
Qed.

(** X10.  [at] and [contains_key] of a reachable probing map agree, and
    neither reads outside the table: either [contains_key(k)] is [true] and
    [at(k)] returns a value, or [contains_key(k)] is [false] and [at(k)]
    throws [std::out_of_range]. A map just built holds no key. *)
Theorem lp_at_contains_agree catching c m k :
  0 < c -> reachable catching c m ->
  ((exists v, at_ m k = Value v /\ contains_key m k = Value true) \/
   (at_ m k = not_found /\ contains_key m k = Value false)) /\
  (Lp.new default_key default_value c = Some m ->
   contains_key m k = Value false /\ Lp.size m = 0 /\ Lp.empty m = true).
Proof.
  intros Hc Hreach.
  destruct (lp_reachable_inv hash default_key default_value catching c m
              Hc Hreach) as ((Hsh & _) & _).
  split.
  - destruct (lp_lookup_cases hash m k Hsh)
      as [(i & e & _ & _ & _ & _ & _ & _ & _ & Hat & Hck)
         | (_ & _ & Hat & Hck)]; [left; eauto | right; auto].
  - intros Hnew. unfold Lp.new in Hnew.
    destruct (vector_new c (Lp.Entry_default default_key default_value))
      as [t |] eqn:Ht; [| discriminate].
    injection Hnew as <-. apply vector_new_inv in Ht as [_ ->].
    split; [| auto].
    destruct (lp_lookup_cases hash _ k Hsh)
      as [(i & e & _ & _ & He & Hocc & _) | (_ & _ & _ & Hck)];
      [| exact Hck].
    cbn [Lp.table] in He. apply lookup_replicate in He as [-> _].
    discriminate.
Qed.

(** X11.  [insert(k, v)] on a reachable probing map never finds the table full
    and never indexes outside the table: it returns, or it throws in a call
    that had to [rehash], and not the [std::runtime_error] of
    [find_slot_for_insert]. When it returns, [at(k)] is [v] and
    [bucket_count()] has doubled exactly when the test that opens [insert]
    held. When that test did not hold, every other key is found or missing as
    before and with the value it had, and [size()] has grown by one if
    [contains_key(k)] was [false]. *)
Theorem lp_insert_effect catching c m k v :
  0 < c -> reachable catching c m ->
  (exists m',
     insert k v m = Returns tt m' /\
     at_ m' k = Value v /\
     Lp.bucket_count m'
     = (if Lp.needs_rehash m then 2 * Lp.bucket_count m
        else Lp.bucket_count m) /\
     (Lp.needs_rehash m = false ->
      (forall k', k' <> k ->
         at_ m' k' = at_ m k' /\ contains_key m' k' = contains_key m k') /\
      (contains_key m k = Value false -> Lp.size m' = Lp.size m + 1)))
  \/
  (exists ex m',
     insert k v m = Throws ex m' /\ Lp.needs_rehash m = true /\
     ex <> runtime_error "Hash table is full").
Proof.
  intros Hc Hreach.
  pose proof (lp_reachable_inv hash default_key default_value catching c m
                Hc Hreach) as Hinv.
  pose proof (lp_reachable_chained hash default_key default_value catching
                c m Hc Hreach) as Hch.
  pose proof Hinv as [Hwf Hload]. pose proof Hwf as [Hsh _].
  pose proof Hsh as [_ Hcap]. unfold Lp.within_load in Hload.
  destruct (lp_insert_total hash default_key default_value m k v Hinv)
    as [(m' & Hm' & Hinv' & Hcap' & Hat' & _) | (Hneed & Hmax & Hthrow)].
  - left. exists m'. split; [exact Hm' |]. split; [exact Hat' |].
    split; [exact Hcap' |]. intros Hneed.
    unfold Lp.insert in Hm'. rewrite Hneed in Hm'. cbn [outcome_bind] in Hm'.
    split.
    + intros k' Hne.
      exact (lp_inner_insert_other hash m k v m' k' Hsh Hch Hm' Hne).
    + intros Hck. apply (lp_inner_insert_new hash m k v m' Hwf); auto. lia.
  - right. eexists length_error, _. split; [exact Hthrow |].
    split; [exact Hneed | discriminate].
Qed.

(** X12.  [remove(k)] on a reachable probing map always returns. It returns
    the value that [at(k)] had and turns the slot into a tombstone, or it
    returns [nullopt] when the key was missing and leaves the map as it is.
    Every other key is found or missing as before and with the value it had;
    [size()] is one less and [deleted_count] one more if the key was found,
    and [bucket_count()] is unchanged. *)
Theorem lp_remove_effect catching c m k :
  0 < c -> reachable catching c m ->
  exists r m',
    Lp.remove hash k m = Returns r m' /\
    at_ m k = match r with Some v => Value v | None => not_found end /\
    (r = None -> m' = m) /\
    (forall k', k' <> k ->
       at_ m' k' = at_ m k' /\ contains_key m' k' = contains_key m k') /\
    Lp.size m' = Lp.size m - match r with Some _ => 1 | None => 0 end /\
    Lp.deleted_count m'
    = Lp.deleted_count m + match r with Some _ => 1 | None => 0 end /\
    Lp.bucket_count m' = Lp.bucket_count m.
Proof.
  intros Hc Hreach.
  pose proof (lp_reachable_inv hash default_key default_value catching c m
                Hc Hreach) as Hinv.
  pose proof Hinv as [[Hsh _] _].
  destruct (lp_remove_spec hash m k Hinv)
    as (r & m' & Hm' & _ & Hat & Hsame & Hcap' & Hsize' & Hdel').
  exists r, m'. split; [exact Hm' |]. split; [exact Hat |].
  split; [exact Hsame |]. split; [| auto].
  intros k' Hne.
  exact (proj2 (lp_remove_other hash m k k' r m' Hsh
                  (not_eq_sym Hne) Hm')).
Qed.

(** X13.  [clear()] on a reachable probing map leaves a map of the same
    [bucket_count()] with [size() == 0] and no tombstone, in which every key
    is missing. *)
Theorem lp_clear_effect catching c m k :
  0 < c -> reachable catching c m ->
  Lp.size (Lp.clear m) = 0 /\ Lp.empty (Lp.clear m) = true /\
  Lp.deleted_count (Lp.clear m) = 0 /\
  Lp.bucket_count (Lp.clear m) = Lp.bucket_count m /\
  contains_key (Lp.clear m) k = Value false /\
  at_ (Lp.clear m) k = not_found.
Proof.
  intros Hc Hreach.
  pose proof (lp_reachable_inv hash default_key default_value catching c m
                Hc Hreach) as Hinv.
  destruct (lp_clear_spec hash m k Hinv) as (_ & Hat & Hck).
  repeat split; assumption.
Qed.


(** X15.  Assigning through the reference that the non-const [at(k)] of a
    reachable probing map returns: afterwards [at(k)] is the assigned value,
    every other key is found or missing as before and with the value it had,
    and [size()] and [bucket_count()] are unchanged. *)
Theorem lp_assign_effect catching c m k i v :
  0 < c -> reachable catching c m -> Lp.at_ref hash m k = Value i ->
  at_ (Lp.assign m i v) k = Value v /\
  (forall k', k' <> k ->
     at_ (Lp.assign m i v) k' = at_ m k' /\
     contains_key (Lp.assign m i v) k' = contains_key m k') /\
  Lp.size (Lp.assign m i v) = Lp.size m /\
  Lp.bucket_count (Lp.assign m i v) = Lp.bucket_count m.
Proof.
  intros Hc Hreach Href.
  pose proof (lp_reachable_inv hash default_key default_value catching c m
                Hc Hreach) as Hinv.
  destruct (lp_assign_spec hash m k i v Hinv Href) as (_ & Hat & Hother).
  auto.
Qed.

(** X16.  [bucket_count()] of a probing map that a program reaches from a
    constructor call with the capacity [c > 0] is [c] times a power of two:
    [rehash] is the only function that changes it, by doubling, and nothing
    shrinks the table. *)
Theorem lp_bucket_count_growth catching c m :
  0 < c -> Lp.reachable hash default_key default_value catching c m ->
  exists n, 0 <= n /\ Lp.bucket_count m = 2 ^ n * c.
Proof.
  intros Hc Hreach. unfold Lp.bucket_count.
  induction Hreach as [m Hnew | m m' Hreach IH Hstep].
  - exists 0. split; [lia |]. unfold Lp.new in Hnew.
    destruct (vector_new c (Lp.Entry_default default_key default_value));
      [| discriminate].
    injection Hnew as <-. cbn [Lp.capacity]. lia.
  - destruct IH as (n & Hn & Hcap).
    pose proof (lp_reachable_inv hash default_key default_value catching c m
                  Hc Hreach) as Hinv.
    destruct (lp_step_capacity hash default_key default_value catching m m'
                Hinv Hstep) as [-> | ->].
    + exists n. auto.
    + exists (Z.succ n). split; [lia |]. rewrite Z.pow_succ_r by lia. lia.
Qed.

End LpTheorems.

(** *** Runs of [LpHashMap<int, int>] *)

(** The map after [LpHashMap<int, int> m(16); m.insert(7, 70)]. *)
Ltac lp_sample m Hr :=
  let m0 := fresh "m0" in
  let Hn := fresh "Hn" in
  let Hi := fresh "Hi" in
  run_as m0 (IntKeys.lp_new 16);
  run_as m (IntKeys.lp_insert 7 70 m0);
  assert (Hn : IntKeys.lp_new 16 = Some m0) by by_evaluation;
  assert (Hi : IntKeys.lp_insert 7 70 m0 = Returns tt m) by by_evaluation;
  assert (Hr : IntKeys.lp_reachable 16 m)
    by (apply (Lp.reachable_step _ _ _ _ _ m0 m);
        [apply Lp.reachable_new; exact Hn
        | exact (Lp.step_insert _ _ _ _ _ _ _ _ Hi)]).

Section LpRuns.

Local Abbreviation hash := IntKeys.default_hash.
Local Abbreviation insert := (Lp.insert hash 0 0).
Local Abbreviation index_ref := (Lp.index_ref hash 0 0).
Local Abbreviation at_ := (Lp.at_ hash).
Local Abbreviation contains_key := (Lp.contains_key hash).
Local Abbreviation not_found :=
  (Raise (out_of_range "Key not found in LpHashMap") : result Z).

Lemma lp_representation_witness :
  exists m : IntKeys.lp_map,
    0 < 16 /\ IntKeys.lp_reachable 16 m /\
    Z.of_nat (length (Lp.table m)) = Lp.bucket_count m /\
    Lp.size m = Lp.count Lp.is_occupied (Lp.table m) /\
    Lp.deleted_count m = Lp.count Lp.is_deleted (Lp.table m) /\
    Lp.size m < Lp.bucket_count m /\
    Lp.chained hash m.
Proof.
  lp_sample m Hr. assert (Hc : 0 < 16) by lia.
  exists m. split; [exact Hc |]. split; [exact Hr |].
  exact (lp_representation hash 0 0 true 16 m Hc Hr).
Defined.

Lemma lp_at_contains_agree_witness :
  exists m : IntKeys.lp_map,
    0 < 16 /\ IntKeys.lp_reachable 16 m /\
    ((exists v, at_ m 7 = Value v /\ contains_key m 7 = Value true) \/
     (at_ m 7 = not_found /\ contains_key m 7 = Value false)) /\
    (Lp.new 0 0 16 = Some m ->
     contains_key m 7 = Value false /\ Lp.size m = 0 /\ Lp.empty m = true).
Proof.
  lp_sample m Hr. assert (Hc : 0 < 16) by lia.
  exists m. split; [exact Hc |]. split; [exact Hr |].
  exact (lp_at_contains_agree hash 0 0 true 16 m 7 Hc Hr).
Defined.

Lemma lp_insert_effect_witness :
  exists m : IntKeys.lp_map,
    0 < 16 /\ IntKeys.lp_reachable 16 m /\
    ((exists m',
        insert 8 80 m = Returns tt m' /\
        at_ m' 8 = Value 80 /\
        Lp.bucket_count m'
        = (if Lp.needs_rehash m then 2 * Lp.bucket_count m
           else Lp.bucket_count m) /\
        (Lp.needs_rehash m = false ->
         (forall k', k' <> 8 ->
            at_ m' k' = at_ m k' /\
            contains_key m' k' = contains_key m k') /\
         (contains_key m 8 = Value false -> Lp.size m' = Lp.size m + 1)))
     \/
     (exists ex m',
        insert 8 80 m = Throws ex m' /\ Lp.needs_rehash m = true /\
        ex <> runtime_error "Hash table is full")).
Proof.
  lp_sample m Hr. assert (Hc : 0 < 16) by lia.
  exists m. split; [exact Hc |]. split; [exact Hr |].
  exact (lp_insert_effect hash 0 0 true 16 m 8 80 Hc Hr).
Defined.

Lemma lp_remove_effect_witness :
  exists m : IntKeys.lp_map,
    0 < 16 /\ IntKeys.lp_reachable 16 m /\
    exists r m',
      Lp.remove hash 7 m = Returns r m' /\
      at_ m 7 = match r with Some v => Value v | None => not_found end /\
      (r = None -> m' = m) /\
      (forall k', k' <> 7 ->
         at_ m' k' = at_ m k' /\ contains_key m' k' = contains_key m k') /\
      Lp.size m' = Lp.size m - match r with Some _ => 1 | None => 0 end /\
      Lp.deleted_count m'
      = Lp.deleted_count m + match r with Some _ => 1 | None => 0 end /\
      Lp.bucket_count m' = Lp.bucket_count m.
Proof.
  lp_sample m Hr. assert (Hc : 0 < 16) by lia.
  exists m. split; [exact Hc |]. split; [exact Hr |].
  exact (lp_remove_effect hash 0 0 true 16 m 7 Hc Hr).
Defined.

Lemma lp_clear_effect_witness :
  exists m : IntKeys.lp_map,
    0 < 16 /\ IntKeys.lp_reachable 16 m /\
    Lp.size (Lp.clear m) = 0 /\ Lp.empty (Lp.clear m) = true /\
    Lp.deleted_count (Lp.clear m) = 0 /\
    Lp.bucket_count (Lp.clear m) = Lp.bucket_count m /\
    contains_key (Lp.clear m) 7 = Value false /\
    at_ (Lp.clear m) 7 = not_found.
Proof.
  lp_sample m Hr. assert (Hc : 0 < 16) by lia.
  exists m. split; [exact Hc |]. split; [exact Hr |].
  exact (lp_clear_effect hash 0 0 true 16 m 7 Hc Hr).
Defined.


Lemma lp_assign_effect_witness :
  exists (m : IntKeys.lp_map) i,
    0 < 16 /\ IntKeys.lp_reachable 16 m /\ Lp.at_ref hash m 7 = Value i /\
    at_ (Lp.assign m i 71) 7 = Value 71 /\
    (forall k', k' <> 7 ->
       at_ (Lp.assign m i 71) k' = at_ m k' /\
       contains_key (Lp.assign m i 71) k' = contains_key m k') /\
    Lp.size (Lp.assign m i 71) = Lp.size m /\
    Lp.bucket_count (Lp.assign m i 71) = Lp.bucket_count m.
Proof.
  lp_sample m Hr. assert (Hc : 0 < 16) by lia.
  reference_as i (Lp.at_ref hash m 7).
  assert (Href : Lp.at_ref hash m 7 = Value i) by by_evaluation.
  exists m, i. split; [exact Hc |]. split; [exact Hr |].
  split; [exact Href |].
  exact (lp_assign_effect hash 0 0 true 16 m 7 i 71 Hc Hr Href).
Defined.

Lemma lp_bucket_count_growth_witness :
  exists m : IntKeys.lp_map,
    0 < 16 /\ IntKeys.lp_reachable 16 m /\
    exists n, 0 <= n /\ Lp.bucket_count m = 2 ^ n * 16.
Proof.
  lp_sample m Hr. assert (Hc : 0 < 16) by lia.
  exists m. split; [exact Hc |]. split; [exact Hr |].
  exact (lp_bucket_count_growth hash 0 0 true 16 m Hc Hr).
Defined.

End LpRuns.

(** ** [CkHashMap] *)

Section CkTheorems.

Context {K V : Type} `{EqDecision K}.
Context {H : Type} (hash : H -> K -> Z) (default_hasher : H)
        (seeded : option (Z -> Z -> H)).
Context {Rng : Type} (rng_next : Rng -> Z * Rng).
Context (default_key : K) (default_value : V).

Local Abbreviation map := (@Ck.map K V H Rng).
Local Abbreviation insert :=
  (Ck.insert hash default_hasher seeded rng_next default_key default_value).
Local Abbreviation index_ref :=
  (Ck.index_ref hash default_hasher seeded rng_next default_key
     default_value).
Local Abbreviation reachable :=
  (Ck.reachable hash default_hasher seeded rng_next default_key
     default_value).
Local Abbreviation new :=
  (Ck.new default_hasher seeded rng_next default_key default_value).
Local Abbreviation at_ := (Ck.at_ hash).
Local Abbreviation contains_key := (Ck.contains_key hash).
Local Abbreviation not_found :=
  (Raise (out_of_range "Key not found in CkHashMap") : result V).
Local Abbreviation exhausted :=
  (runtime_error "Failed to insert after maximum rehash attempts").
Local Abbreviation internal :=
  (runtime_error "Internal error: failed to insert in operator[]").
Local Abbreviation reachable_inv :=
  (ck_reachable_inv hash default_hasher seeded rng_next default_key
     default_value).
Local Abbreviation reachable_single :=
  (ck_reachable_single hash default_hasher seeded rng_next default_key
     default_value).

Implicit Types (m : map) (k : K) (v : V).

(** X17.  The representation of a cuckoo map that a program reaches from a
    constructor call with a capacity above 0: both tables have [capacity]
    slots and [bucket_count()] is twice that, [size()] is the number of
    occupied slots, every occupied slot of a table is the slot that the hasher
    of that table gives its key, and no key sits in both tables. *)
Theorem ck_representation catching c g m :
  0 < c -> reachable catching c g m ->
  Z.of_nat (length (Ck.table1 m)) = Ck.capacity m /\
  Z.of_nat (length (Ck.table2 m)) = Ck.capacity m /\
  Ck.bucket_count m = 2 * Ck.capacity m /\
  Ck.size m = Ck.count (Ck.table1 m) + Ck.count (Ck.table2 m) /\
  Ck.positioned hash m /\ Ck.single hash m.
Proof.
  intros Hc Hreach.
  destruct (reachable_inv catching c g m Hc Hreach)
    as (((Hl1 & Hl2 & Hcap) & Hpos & Hsize) & _).
  split; [exact Hl1 |]. split; [exact Hl2 |].
  split; [unfold Ck.bucket_count; apply u64_double_small; lia |].
  split; [exact Hsize |]. split; [exact Hpos |].
  exact (reachable_single catching c g m Hc Hreach).
Qed.

(** X18.  [at] and [contains_key] of a reachable cuckoo map agree, and neither
    reads outside a table: either [contains_key(k)] is [true] and [at(k)]
    returns a value, or [contains_key(k)] is [false] and [at(k)] throws
    [std::out_of_range]. A map just built holds no key. *)
Theorem ck_at_contains_agree catching c g m k :
  0 < c -> reachable catching c g m ->
  ((exists v, at_ m k = Value v /\ contains_key m k = Value true) \/
   (at_ m k = not_found /\ contains_key m k = Value false)) /\
  (new c g = Some m ->
   contains_key m k = Value false /\ Ck.size m = 0 /\ Ck.empty m = true).
Proof.
  intros Hc Hreach.
  destruct (reachable_inv catching c g m Hc Hreach) as ((Hsh & _) & _).
  rewrite (ck_at_lookup hash m k Hsh), (ck_contains_lookup hash m k Hsh).
  split.
  - destruct (Ck.lookup hash m k) as [v |]; [left; eauto | right; auto].
  - intros Hnew. unfold Ck.new in Hnew.
    destruct (vector_new c (Ck.Entry_default default_key default_value))
      as [t |] eqn:Ht; [| discriminate].
    destruct (Ck.create_hasher default_hasher seeded rng_next g)
      as [h1 g1].
    destruct (Ck.create_hasher default_hasher seeded rng_next g1)
      as [h2 g2].
    injection Hnew as <-. apply vector_new_inv in Ht as [_ ->].
    split; [| auto]. unfold Ck.lookup. cbn [Ck.table1 Ck.table2].
    destruct (replicate (Z.to_nat c) _ !! _) as [e1 |] eqn:He1;
      [| reflexivity].
    apply lookup_replicate in He1 as [-> _]. cbn [Ck.holds Ck.occupied andb
      Ck.Entry_default].
    destruct (replicate (Z.to_nat c) _ !! _) as [e2 |] eqn:He2;
      [| reflexivity].
    apply lookup_replicate in He2 as [-> _]. reflexivity.
Qed.

(** X19.  [insert(k, v)] on a reachable cuckoo map never reads outside a
    table: it returns or it throws. When it returns, [at(k)] is [v], and
    [bucket_count()] has doubled once if the load test that opens [insert]
    held and once more for each of the fewer than eight failed attempts; if
    [bucket_count()] is what it was, every other key is found or missing as
    before and with the value it had, and [size()] has grown by one if the key
    was new and is unchanged if it was present. When it throws the
    [std::runtime_error] of [MAX_REHASH_ATTEMPTS] failed attempts, it has
    doubled [bucket_count()] eight times after the load test. *)
Theorem ck_insert_effect catching c g m k v :
  0 < c -> reachable catching c g m ->
  let b := if Ck.needs_rehash m then 2 * Ck.bucket_count m
           else Ck.bucket_count m in
  (exists a m',
     insert k v m = Returns tt m' /\ at_ m' k = Value v /\
     0 <= a < Ck.MAX_REHASH_ATTEMPTS /\ Ck.bucket_count m' = 2 ^ a * b /\
     (Ck.bucket_count m' = Ck.bucket_count m ->
      (forall k', k' <> k ->
         at_ m' k' = at_ m k' /\ contains_key m' k' = contains_key m k') /\
      (contains_key m k = Value true -> Ck.size m' = Ck.size m) /\
      (contains_key m k = Value false -> Ck.size m' = Ck.size m + 1)))
  \/
  (exists ex m',
     insert k v m = Throws ex m' /\
     (ex = exhausted ->
      Ck.bucket_count m' = 2 ^ Ck.MAX_REHASH_ATTEMPTS * b)).
Proof.
  intros Hc Hreach b.
  pose proof (reachable_inv catching c g m Hc Hreach) as Hinv.
  pose proof (reachable_single catching c g m Hc Hreach) as Hsingle.
  pose proof Hinv as ((Hsh & _) & _). pose proof Hsh as (_ & _ & Hcap).
  assert (Hbc : forall m1 : map,
            Ck.shaped m1 -> Ck.bucket_count m1 = 2 * Ck.capacity m1).
  { intros m1 (_ & _ & Hcap1). unfold Ck.bucket_count.
    apply u64_double_small. lia. }
  subst b. rewrite (Hbc m Hsh).
  destruct (ck_insert_spec hash default_hasher seeded rng_next default_key
              default_value m k v Hinv Hsingle)
    as [(a & m' & Hins & Hinv' & _ & Hl' & Ha & Hc' & Hsame)
       | [(m' & Hins & Hinv' & _ & Hc') | (m' & Hins)]].
  - left. exists a, m'. pose proof Hinv' as ((Hsh' & _) & _).
    split; [exact Hins |].
    split; [rewrite (ck_at_lookup hash m' k Hsh'), Hl'; reflexivity |].
    split; [exact Ha |]. rewrite (Hbc m' Hsh').
    split; [rewrite Hc'; destruct (Ck.needs_rehash m); lia |].
    intros Heq. destruct (Hsame ltac:(lia)) as (_ & Hsz & Hother).
    rewrite (ck_contains_lookup hash m k Hsh). unfold Ck.size.
    split; [| split].
    + intros k' Hne.
      rewrite (ck_at_lookup hash m' k' Hsh'), (ck_at_lookup hash m k' Hsh).
      rewrite (ck_contains_lookup hash m' k' Hsh').
      rewrite (ck_contains_lookup hash m k' Hsh).
      rewrite Hother, (bool_decide_eq_false_2 (k' = k) Hne). auto.
    + intros Hck. destruct (Ck.lookup hash m k); [lia | discriminate].
    + intros Hck. destruct (Ck.lookup hash m k); [discriminate | lia].
  - right. exists exhausted, m'. pose proof Hinv' as ((Hsh' & _) & _).
    split; [exact Hins |]. intros _. rewrite (Hbc m' Hsh'), Hc'.
    destruct (Ck.needs_rehash m); lia.
  - right. exists length_error, m'. split; [exact Hins | discriminate].
Qed.

(** X20.  [remove(k)] on a reachable cuckoo map always returns. It returns the
    value that [at(k)] had, or [nullopt] when the key was missing, in which
    case the map is unchanged. Afterwards the key is missing, every other key
    is found or missing as before and with the value it had, [size()] is one
    less if the key was present, and [bucket_count()] is unchanged. *)
Theorem ck_remove_effect catching c g m k :
  0 < c -> reachable catching c g m ->
  exists r m',
    Ck.remove hash k m = Returns r m' /\
    at_ m k = match r with Some v => Value v | None => not_found end /\
    (r = None -> m' = m) /\
    contains_key m' k = Value false /\ at_ m' k = not_found /\
    (forall k', k' <> k ->
       at_ m' k' = at_ m k' /\ contains_key m' k' = contains_key m k') /\
    Ck.size m' = Ck.size m - match r with Some _ => 1 | None => 0 end /\
    Ck.bucket_count m' = Ck.bucket_count m.
Proof.
  intros Hc Hreach.
  pose proof (reachable_inv catching c g m Hc Hreach) as Hinv.
  pose proof (reachable_single catching c g m Hc Hreach) as Hsingle.
  pose proof Hinv as ((Hsh & _) & _).
  destruct (ck_remove_spec hash m k Hinv Hsingle)
    as (r & m' & Hm' & Hr & Hinv' & _ & (Hc' & _) & Hl' & Hsz & Hsame).
  pose proof Hinv' as ((Hsh' & _) & _).
  exists r, m'. split; [exact Hm' |].
  split; [rewrite (ck_at_lookup hash m k Hsh), Hr; reflexivity |].
  split; [exact Hsame |].
  rewrite (ck_contains_lookup hash m' k Hsh'), (ck_at_lookup hash m' k Hsh').
  rewrite Hl', (bool_decide_eq_true_2 (k = k) eq_refl).
  split; [reflexivity |]. split; [reflexivity |]. split.
  { intros k' Hne.
    rewrite (ck_at_lookup hash m' k' Hsh'), (ck_at_lookup hash m k' Hsh).
    rewrite (ck_contains_lookup hash m' k' Hsh').
    rewrite (ck_contains_lookup hash m k' Hsh).
    rewrite Hl', (bool_decide_eq_false_2 (k' = k) Hne). auto. }
  split; [exact Hsz |]. unfold Ck.bucket_count. rewrite Hc'. reflexivity.
Qed.

(** X21.  [clear()] on a reachable cuckoo map leaves a map of the same
    [bucket_count()] with [size() == 0], in which every key is missing. *)
Theorem ck_clear_effect catching c g m k :
  0 < c -> reachable catching c g m ->
  Ck.size (Ck.clear m) = 0 /\ Ck.empty (Ck.clear m) = true /\
  Ck.bucket_count (Ck.clear m) = Ck.bucket_count m /\
  contains_key (Ck.clear m) k = Value false /\
  at_ (Ck.clear m) k = not_found.
Proof.
  intros Hc Hreach.
  pose proof (reachable_inv catching c g m Hc Hreach) as Hinv.
  pose proof Hinv as ((Hsh & _) & _).
  destruct (ck_clear_inv hash m Hinv) as ((Hsh' & _) & _).
  destruct (ck_clear_spec hash m k Hsh) as (_ & Hl & _ & _).
  rewrite (ck_contains_lookup hash _ k Hsh'), (ck_at_lookup hash _ k Hsh').
  rewrite Hl. repeat split; reflexivity.
Qed.


(** X23.  Assigning through the reference that the non-const [at(k)] of a
    reachable cuckoo map returns: afterwards [at(k)] is the assigned value,
    every other key is found or missing as before and with the value it had,
    and [size()] and [bucket_count()] are unchanged. *)
Theorem ck_assign_effect catching c g m k r v :
  0 < c -> reachable catching c g m -> Ck.at_ref hash m k = Value r ->
  at_ (Ck.assign m r v) k = Value v /\
  (forall k', k' <> k ->
     at_ (Ck.assign m r v) k' = at_ m k' /\
     contains_key (Ck.assign m r v) k' = contains_key m k') /\
  Ck.size (Ck.assign m r v) = Ck.size m /\
  Ck.bucket_count (Ck.assign m r v) = Ck.bucket_count m.
Proof.
  intros Hc Hreach Href.
  pose proof (reachable_inv catching c g m Hc Hreach) as Hinv.
  pose proof (reachable_single catching c g m Hc Hreach) as Hsingle.
  pose proof Hinv as ((Hsh & _) & _).
  destruct (ck_assign_inv hash m r v Hinv) as ((Hsh' & _) & _).
  destruct (ck_assign_spec hash m k r v Hsh Hsingle Href)
    as (_ & Hl & (Hc' & _) & Hsz).
  split.
  { rewrite (ck_at_lookup hash _ k Hsh'), Hl.
    rewrite (bool_decide_eq_true_2 (k = k) eq_refl). reflexivity. }
  split.
  { intros k' Hne.
    rewrite (ck_at_lookup hash _ k' Hsh'), (ck_at_lookup hash m k' Hsh).
    rewrite (ck_contains_lookup hash _ k' Hsh').
    rewrite (ck_contains_lookup hash m k' Hsh).
    rewrite Hl, (bool_decide_eq_false_2 (k' = k) Hne). auto. }
  split; [exact Hsz |]. unfold Ck.bucket_count. rewrite Hc'. reflexivity.
Qed.

(** X24.  [bucket_count()] of a cuckoo map that a program reaches from a
    constructor call with the capacity [c > 0] is [2 * c] times a power of
    two: [rehash] is the only function that changes the capacity, by doubling,
    and nothing shrinks the tables, not even an [insert] that gives up. *)
Theorem ck_bucket_count_growth catching c g m :
  0 < c ->
  Ck.reachable hash default_hasher seeded rng_next default_key
    default_value catching c g m ->
  exists n, 0 <= n /\ Ck.bucket_count m = 2 ^ n * (2 * c).
Proof.
  intros Hc Hreach.
  assert (Hcap : exists n, 0 <= n /\ Ck.capacity m = 2 ^ n * c).
  { induction Hreach as [m Hnew | m m' Hreach IH Hstep].
    - exists 0. split; [lia |]. unfold Ck.new in Hnew.
      destruct (vector_new c (Ck.Entry_default default_key default_value));
        [| discriminate].
      destruct (Ck.create_hasher default_hasher seeded rng_next g)
        as [h1 g1].
      destruct (Ck.create_hasher default_hasher seeded rng_next g1)
        as [h2 g2].
      injection Hnew as <-. cbn [Ck.capacity]. lia.
    - destruct IH as (n & Hn & Hcap).
      pose proof (ck_reachable_inv hash default_hasher seeded rng_next
                    default_key default_value catching c g m Hc Hreach)
        as Hinv.
      pose proof (ck_reachable_single hash default_hasher seeded rng_next
                    default_key default_value catching c g m Hc Hreach)
        as Hsingle.
      destruct (ck_step_capacity hash default_hasher seeded rng_next
                  default_key default_value catching m m' Hinv Hsingle Hstep)
        as (n' & Hn' & ->).
      exists (n' + n). split; [lia |].
      rewrite Z.pow_add_r by lia. lia. }
  destruct Hcap as (n & Hn & Hcap). exists n. split; [exact Hn |].
  destruct (ck_reachable_inv hash default_hasher seeded rng_next
              default_key default_value catching c g m Hc Hreach)
    as (((_ & _ & Hmax) & _) & _).
  unfold Ck.bucket_count. rewrite u64_double_small by lia. lia.
Qed.

End CkTheorems.

(** *** Runs of [CkHashMap<int, int, IdentityHasher>] *)

(** The map after [CkHashMap<int, int, IdentityHasher> m(16);
    m.insert(7, 70)]. *)
Ltac ck_sample m Hr :=
  let m0 := fresh "m0" in
  let Hn := fresh "Hn" in
  let Hi := fresh "Hi" in
  run_as m0 (IntKeys.ck_new 16 tt);
  run_as m (IntKeys.ck_insert 7 70 m0);
  assert (Hn : IntKeys.ck_new 16 tt = Some m0) by by_evaluation;
  assert (Hi : IntKeys.ck_insert 7 70 m0 = Returns tt m) by by_evaluation;
  assert (Hr : IntKeys.ck_reachable 16 tt m)
    by (apply (Ck.reachable_step _ _ _ _ _ _ _ _ _ m0 m);
        [apply Ck.reachable_new; exact Hn
        | exact (Ck.step_insert _ _ _ _ _ _ _ _ _ _ _ Hi)]).

Section CkRuns.

Local Abbreviation hash := IntKeys.identity_hash.
Local Abbreviation rng_next := (fun g : unit => (0, g)).
Local Abbreviation insert := IntKeys.ck_insert.
Local Abbreviation index_ref := IntKeys.ck_index_ref.
Local Abbreviation at_ := (Ck.at_ hash).
Local Abbreviation contains_key := (Ck.contains_key hash).
Local Abbreviation not_found :=
  (Raise (out_of_range "Key not found in CkHashMap") : result Z).
Local Abbreviation exhausted :=
  (runtime_error "Failed to insert after maximum rehash attempts").
Local Abbreviation internal :=
  (runtime_error "Internal error: failed to insert in operator[]").

Lemma ck_representation_witness :
  exists m : IntKeys.ck_map,
    0 < 16 /\ IntKeys.ck_reachable 16 tt m /\
    Z.of_nat (length (Ck.table1 m)) = Ck.capacity m /\
    Z.of_nat (length (Ck.table2 m)) = Ck.capacity m /\
    Ck.bucket_count m = 2 * Ck.capacity m /\
    Ck.size m = Ck.count (Ck.table1 m) + Ck.count (Ck.table2 m) /\
    Ck.positioned hash m /\ Ck.single hash m.
Proof.
  ck_sample m Hr. assert (Hc : 0 < 16) by lia.
  exists m. split; [exact Hc |]. split; [exact Hr |].
  exact (ck_representation hash tt None rng_next 0 0 true 16 tt m Hc Hr).
Defined.

Lemma ck_at_contains_agree_witness :
  exists m : IntKeys.ck_map,
    0 < 16 /\ IntKeys.ck_reachable 16 tt m /\
    ((exists v, at_ m 7 = Value v /\ contains_key m 7 = Value true) \/
     (at_ m 7 = not_found /\ contains_key m 7 = Value false)) /\
    (IntKeys.ck_new 16 tt = Some m ->
     contains_key m 7 = Value false /\ Ck.size m = 0 /\ Ck.empty m = true).
Proof.
  ck_sample m Hr. assert (Hc : 0 < 16) by lia.
  exists m. split; [exact Hc |]. split; [exact Hr |].
  exact (ck_at_contains_agree hash tt None rng_next 0 0 true 16 tt m 7
           Hc Hr).
Defined.

Lemma ck_insert_effect_witness :
  exists m : IntKeys.ck_map,
    0 < 16 /\ IntKeys.ck_reachable 16 tt m /\
    let b := if Ck.needs_rehash m then 2 * Ck.bucket_count m
             else Ck.bucket_count m in
    (exists a m',
       insert 8 80 m = Returns tt m' /\ at_ m' 8 = Value 80 /\
       0 <= a < Ck.MAX_REHASH_ATTEMPTS /\ Ck.bucket_count m' = 2 ^ a * b /\
       (Ck.bucket_count m' = Ck.bucket_count m ->
        (forall k', k' <> 8 ->
           at_ m' k' = at_ m k' /\
           contains_key m' k' = contains_key m k') /\
        (contains_key m 8 = Value true -> Ck.size m' = Ck.size m) /\
        (contains_key m 8 = Value false -> Ck.size m' = Ck.size m + 1)))
    \/
    (exists ex m',
       insert 8 80 m = Throws ex m' /\
       (ex = exhausted ->
        Ck.bucket_count m' = 2 ^ Ck.MAX_REHASH_ATTEMPTS * b)).
Proof.
  ck_sample m Hr. assert (Hc : 0 < 16) by lia.
  exists m. split; [exact Hc |]. split; [exact Hr |].
  exact (ck_insert_effect hash tt None rng_next 0 0 true 16 tt m 8 80
           Hc Hr).
Defined.

Lemma ck_remove_effect_witness :
  exists m : IntKeys.ck_map,
    0 < 16 /\ IntKeys.ck_reachable 16 tt m /\
    exists r m',
      Ck.remove hash 7 m = Returns r m' /\
      at_ m 7 = match r with Some v => Value v | None => not_found end /\
      (r = None -> m' = m) /\
      contains_key m' 7 = Value false /\ at_ m' 7 = not_found /\
      (forall k', k' <> 7 ->
         at_ m' k' = at_ m k' /\ contains_key m' k' = contains_key m k') /\
      Ck.size m' = Ck.size m - match r with Some _ => 1 | None => 0 end /\
      Ck.bucket_count m' = Ck.bucket_count m.
Proof.
  ck_sample m Hr. assert (Hc : 0 < 16) by lia.
  exists m. split; [exact Hc |]. split; [exact Hr |].
  exact (ck_remove_effect hash tt None rng_next 0 0 true 16 tt m 7 Hc Hr).
Defined.

Lemma ck_clear_effect_witness :
  exists m : IntKeys.ck_map,
    0 < 16 /\ IntKeys.ck_reachable 16 tt m /\
    Ck.size (Ck.clear m) = 0 /\ Ck.empty (Ck.clear m) = true /\
    Ck.bucket_count (Ck.clear m) = Ck.bucket_count m /\
    contains_key (Ck.clear m) 7 = Value false /\
    at_ (Ck.clear m) 7 = not_found.
Proof.
  ck_sample m Hr. assert (Hc : 0 < 16) by lia.
  exists m. split; [exact Hc |]. split; [exact Hr |].
  exact (ck_clear_effect hash tt None rng_next 0 0 true 16 tt m 7 Hc Hr).
Defined.


Lemma ck_assign_effect_witness :
  exists (m : IntKeys.ck_map) r,
    0 < 16 /\ IntKeys.ck_reachable 16 tt m /\
    Ck.at_ref hash m 7 = Value r /\
    at_ (Ck.assign m r 71) 7 = Value 71 /\
    (forall k', k' <> 7 ->
       at_ (Ck.assign m r 71) k' = at_ m k' /\
       contains_key (Ck.assign m r 71) k' = contains_key m k') /\
    Ck.size (Ck.assign m r 71) = Ck.size m /\
    Ck.bucket_count (Ck.assign m r 71) = Ck.bucket_count m.
Proof.
  ck_sample m Hr. assert (Hc : 0 < 16) by lia.
  reference_as r (Ck.at_ref hash m 7).
  assert (Href : Ck.at_ref hash m 7 = Value r) by by_evaluation.
  exists m, r. split; [exact Hc |]. split; [exact Hr |].
  split; [exact Href |].
  exact (ck_assign_effect hash tt None rng_next 0 0 true 16 tt m 7 r 71
           Hc Hr Href).
Defined.

Lemma ck_bucket_count_growth_witness :
  exists m : IntKeys.ck_map,
    0 < 16 /\ IntKeys.ck_reachable 16 tt m /\
    exists n, 0 <= n /\ Ck.bucket_count m = 2 ^ n * (2 * 16).
Proof.
  ck_sample m Hr. assert (Hc : 0 < 16) by lia.
  exists m. split; [exact Hc |]. split; [exact Hr |].
  exact (ck_bucket_count_growth hash tt None rng_next 0 0 true 16 tt m
           Hc Hr).
Defined.

End CkRuns.
